(** * CTextLogn: an O(log n + c) text CRDT, and its split/append list manager

    A shallow embedding of [src/crdt/text_logn.ts] (class [CTextLogn], the
    full version with the balanced index) and of the AVL based
    [SplitAppendListManager], followed by the properties of the design
    document that are stated about them.

    Modelling conventions.
    - JavaScript objects live in a store.  A character [Node] is keyed by its
      [id] (the runtime hands out each id once, so the id identifies the
      object); a list-manager node is keyed by an allocation address, because
      the manager rebinds a value to a fresh node while the old object is
      still linked from other objects.
    - A field read is [store !!! key]; a field write replaces the record at
      that key.  A reference is [option key], [None] being [null].
    - Every [while]/[for(;;)] loop and every recursion over the pointer
      structure takes a fuel argument.  A computation yields [Ok v], [Throw e]
      (a JavaScript exception) or [OutOfFuel] (the loop was cut off). *)

From Stdlib Require Import ZArith Lia.
From stdpp Require Import gmap strings list sorting.

Local Open Scope Z_scope.
#[local] Set Warnings "-clear-no-such-hyp".

(** ** Results of computations *)

Inductive error :=
| IndexOutOfBounds   (* "index out of bounds: ..." *)
| InternalError      (* "Internal error: failed to find valid index" *)
| WrongLength        (* "Internal error: toString() has wrong length" *)
| NodeIsLast         (* "node is last" *)
| UnknownValue       (* "Unknown value: ..." *)
| BadPath            (* "Bad path: nextNode is not L or R" *)
| TypeError          (* property access on null / undefined *)
| RangeError.        (* new Array(n) with a negative n *)

Inductive result (A : Type) : Type :=
| Ok (a : A)
| Throw (e : error)
| OutOfFuel.
Arguments Ok {A} a.
Arguments Throw {A} e.
Arguments OutOfFuel {A}.

Definition bind {A B} (m : result A) (k : A → result B) : result B :=
  match m with
  | Ok a => k a
  | Throw e => Throw e
  | OutOfFuel => OutOfFuel
  end.

Notation "'let*' x ':=' m 'in' k" := (bind m (λ x, k))
  (at level 10, x pattern, m at level 200, k at level 200).

(** ** SplitAppendListManager (the AVL version) *)

Module SNode.
Record t := mk {
  value : string;
  bParent : option nat;
  bLeftChild : option nat;
  bRightChild : option nat;
  bHeight : Z;
}.
Definition set_bParent (v : option nat) (n : t) : t :=
  mk (value n) v (bLeftChild n) (bRightChild n) (bHeight n).
Definition set_bLeftChild (v : option nat) (n : t) : t :=
  mk (value n) (bParent n) v (bRightChild n) (bHeight n).
Definition set_bRightChild (v : option nat) (n : t) : t :=
  mk (value n) (bParent n) (bLeftChild n) v (bHeight n).
Definition set_bHeight (v : Z) (n : t) : t :=
  mk (value n) (bParent n) (bLeftChild n) (bRightChild n) v.
(** [new Node(value)] *)
Definition new (v : string) : t := mk v None None None 0.
Global Instance inhabited : Inhabited t := populate (new "").
End SNode.

Module SALM.
(** The store of list-manager nodes, the private map [_nodeByValue], and the
    next free address. *)
Record t := mk {
  heap : gmap nat SNode.t;
  _nodeByValue : gmap string nat;
  next : nat;
}.

(** [new SplitAppendListManager()] *)
Definition empty : t := mk ∅ ∅ 0%nat.

Definition with_heap (s : t) (h : gmap nat SNode.t) : t :=
  mk h (_nodeByValue s) (next s).

Definition wr (f : SNode.t → SNode.t) (a : nat) (h : gmap nat SNode.t)
  : gmap nat SNode.t := <[a := f (h !!! a)]> h.

(** [if (child !== null) child.bParent = p] *)
Definition reparent (child : option nat) (p : nat) (h : gmap nat SNode.t)
  : gmap nat SNode.t :=
  match child with
  | Some c => wr (SNode.set_bParent (Some p)) c h
  | None => h
  end.

Definition height (h : gmap nat SNode.t) (node : option nat) : Z :=
  match node with
  | None => -1
  | Some a => SNode.bHeight (h !!! a)
  end.

Definition bF (h : gmap nat SNode.t) (a : nat) : Z :=
  height h (SNode.bRightChild (h !!! a)) - height h (SNode.bLeftChild (h !!! a)).

Definition bIsLeftChild (h : gmap nat SNode.t) (a : nat) : bool :=
  match SNode.bParent (h !!! a) with
  | None => false
  | Some p => bool_decide (SNode.bLeftChild (h !!! p) = Some a)
  end.

Definition nodeByValue (s : t) (value : string) : result nat :=
  match _nodeByValue s !! value with
  | Some a => Ok a
  | None => Throw UnknownValue
  end.

Definition createInternal (s : t) (value : string) : t * nat :=
  let a := next s in
  (mk (<[a := SNode.new value]> (heap s)) (<[value := a]> (_nodeByValue s)) (S a), a).

Definition create (s : t) (value : string) : t := fst (createInternal s value).

(** [while (current.bParent !== null) current = current.bParent] *)
Fixpoint goUp (fuel : nat) (h : gmap nat SNode.t) (current : nat) : result nat :=
  match fuel with
  | O => OutOfFuel
  | S f =>
      match SNode.bParent (h !!! current) with
      | None => Ok current
      | Some p => goUp f h p
      end
  end.

(** [while (current.bRightChild !== null) current = current.bRightChild] *)
Fixpoint goRight (fuel : nat) (h : gmap nat SNode.t) (current : nat) : result nat :=
  match fuel with
  | O => OutOfFuel
  | S f =>
      match SNode.bRightChild (h !!! current) with
      | None => Ok current
      | Some c => goRight f h c
      end
  end.

Definition getEndNode (fuel : nat) (s : t) (value : string) : result nat :=
  let* current := nodeByValue s value in
  let* root := goUp fuel (heap s) current in
  goRight fuel (heap s) root.

Definition getEnd (fuel : nat) (s : t) (value : string) : result string :=
  let* e := getEndNode fuel s value in
  Ok (SNode.value (heap s !!! e)).

(** [getTreeID(value)]: "For debugging. Returns the tree's root value's
    toString()." *)
Definition getTreeID (fuel : nat) (s : t) (value : string) : result string :=
  let* current := nodeByValue s value in
  let* root := goUp fuel (heap s) current in
  Ok (SNode.value (heap s !!! root)).

Definition updateBHeight (h : gmap nat SNode.t) (node : nat) : gmap nat SNode.t :=
  let n := h !!! node in
  match SNode.bLeftChild n, SNode.bRightChild n with
  | None, None => wr (SNode.set_bHeight 0) node h
  | l, r =>
      let hl := match l with Some a => SNode.bHeight (h !!! a) | None => 0 end in
      let hr := match r with Some a => SNode.bHeight (h !!! a) | None => 0 end in
      wr (SNode.set_bHeight (1 + Z.max hl hr)) node h
  end.

Definition rotate_Left (h : gmap nat SNode.t) (X : nat)
  : result (gmap nat SNode.t * nat) :=
  match SNode.bRightChild (h !!! X) with
  | None => Throw TypeError
  | Some Zn =>
      let t23 := SNode.bLeftChild (h !!! Zn) in
      let h := wr (SNode.set_bRightChild t23) X h in
      let h := reparent t23 X h in
      let h := wr (SNode.set_bLeftChild (Some X)) Zn h in
      let h := wr (SNode.set_bParent (Some Zn)) X h in
      let h := updateBHeight h X in
      let h := updateBHeight h Zn in
      Ok (h, Zn)
  end.

Definition rotate_Right (h : gmap nat SNode.t) (X : nat)
  : result (gmap nat SNode.t * nat) :=
  match SNode.bLeftChild (h !!! X) with
  | None => Throw TypeError
  | Some Zn =>
      let t23 := SNode.bRightChild (h !!! Zn) in
      let h := wr (SNode.set_bLeftChild t23) X h in
      let h := reparent t23 X h in
      let h := wr (SNode.set_bRightChild (Some X)) Zn h in
      let h := wr (SNode.set_bParent (Some Zn)) X h in
      let h := updateBHeight h X in
      let h := updateBHeight h Zn in
      Ok (h, Zn)
  end.

Definition rotate_RightLeft (h : gmap nat SNode.t) (X Zn : nat)
  : result (gmap nat SNode.t * nat) :=
  match SNode.bLeftChild (h !!! Zn) with
  | None => Throw TypeError
  | Some Y =>
      let t3 := SNode.bRightChild (h !!! Y) in
      let h := wr (SNode.set_bLeftChild t3) Zn h in
      let h := reparent t3 Zn h in
      let h := wr (SNode.set_bRightChild (Some Zn)) Y h in
      let h := wr (SNode.set_bParent (Some Y)) Zn h in
      let t2 := SNode.bLeftChild (h !!! Y) in
      let h := wr (SNode.set_bRightChild t2) X h in
      let h := reparent t2 X h in
      let h := wr (SNode.set_bLeftChild (Some X)) Y h in
      let h := wr (SNode.set_bParent (Some Y)) X h in
      let h := updateBHeight h X in
      let h := updateBHeight h Zn in
      let h := updateBHeight h Y in
      Ok (h, Y)
  end.

Definition rotate_LeftRight (h : gmap nat SNode.t) (X Zn : nat)
  : result (gmap nat SNode.t * nat) :=
  match SNode.bRightChild (h !!! Zn) with
  | None => Throw TypeError
  | Some Y =>
      let t3 := SNode.bLeftChild (h !!! Y) in
      let h := wr (SNode.set_bRightChild t3) Zn h in
      let h := reparent t3 Zn h in
      let h := wr (SNode.set_bLeftChild (Some Zn)) Y h in
      let h := wr (SNode.set_bParent (Some Y)) Zn h in
      let t2 := SNode.bRightChild (h !!! Y) in
      let h := wr (SNode.set_bLeftChild t2) X h in
      let h := reparent t2 X h in
      let h := wr (SNode.set_bRightChild (Some X)) Y h in
      let h := wr (SNode.set_bParent (Some Y)) X h in
      let h := updateBHeight h X in
      let h := updateBHeight h Zn in
      let h := updateBHeight h Y in
      Ok (h, Y)
  end.

(** The tail of [rebalance]: [N.bParent = G] and the re-linking under [G]
    (the manager does not track a root). *)
Definition relink (h : gmap nat SNode.t) (G : option nat) (X N : nat)
  : gmap nat SNode.t :=
  let h := wr (SNode.set_bParent G) N h in
  match G with
  | Some g =>
      if bool_decide (SNode.bLeftChild (h !!! g) = Some X)
      then wr (SNode.set_bLeftChild (Some N)) g h
      else wr (SNode.set_bRightChild (Some N)) g h
  | None => h
  end.

(** [rebalance(node)]: one round of the [for] loop per unit of fuel; [Zn] is
    the loop variable [Z], and [X = Z.bParent]. *)
Fixpoint rebalance (fuel : nat) (h : gmap nat SNode.t) (Zn : nat)
  : result (gmap nat SNode.t) :=
  match fuel with
  | O => OutOfFuel
  | S f =>
      match SNode.bParent (h !!! Zn) with
      | None => Ok h
      | Some X =>
          if bool_decide (SNode.bRightChild (h !!! X) = Some Zn) then
            if 0 <? bF h X then
              let G := SNode.bParent (h !!! X) in
              let* (h, N) := (if bF h Zn <? 0 then rotate_RightLeft h X Zn
                               else rotate_Left h X) in
              Ok (relink h G X N)
            else if bF h X <? 0 then Ok h
            else rebalance f h X
          else
            if bF h X <? 0 then
              let G := SNode.bParent (h !!! X) in
              let* (h, N) := (if 0 <? bF h Zn then rotate_LeftRight h X Zn
                               else rotate_Right h X) in
              Ok (relink h G X N)
            else if 0 <? bF h X then Ok h
            else rebalance f h X
      end
  end.

(** The height walk of [append]. *)
Fixpoint updateHeights (fuel : nat) (h : gmap nat SNode.t)
    (heightFromNode : Z) (current : option nat) : result (gmap nat SNode.t) :=
  match fuel with
  | O => OutOfFuel
  | S f =>
      match current with
      | None => Ok h
      | Some c =>
          let h' := wr (SNode.set_bHeight
                          (Z.max (SNode.bHeight (h !!! c)) heightFromNode)) c h in
          updateHeights f h' (heightFromNode + 1) (SNode.bParent (h' !!! c))
      end
  end.

Definition append (fuel : nat) (s : t) (listEntry value : string) : result t :=
  let '(s, node) := createInternal s value in
  let* parent := getEndNode fuel s listEntry in
  let h := wr (SNode.set_bRightChild (Some node)) parent (heap s) in
  let h := wr (SNode.set_bParent (Some parent)) node h in
  let* h := updateHeights fuel h 1 (Some parent) in
  let* h := rebalance fuel h node in
  Ok (with_heap s h).

Definition expose (h : gmap nat SNode.t) (node : nat)
  : option nat * string * option nat :=
  (SNode.bLeftChild (h !!! node), SNode.value (h !!! node),
   SNode.bRightChild (h !!! node)).

Definition nodeWithChildren (s : t) (l : option nat) (k : string) (r : option nat)
  : t * nat :=
  let '(s, node) := createInternal s k in
  let h := wr (SNode.set_bLeftChild l) node (heap s) in
  let h := reparent l node h in
  let h := wr (SNode.set_bRightChild r) node h in
  let h := reparent r node h in
  (with_heap s (updateBHeight h node), node).

(** A rotation inside [join]: the store changes, the map does not. *)
Definition rot (f : gmap nat SNode.t → nat → result (gmap nat SNode.t * nat))
    (sx : t * nat) : result (t * nat) :=
  let* (h, z) := f (heap sx.1) sx.2 in
  Ok (with_heap sx.1 h, z).

Fixpoint joinRightAVL (fuel : nat) (s : t) (TL : nat) (k : string) (TR : option nat)
  : result (t * nat) :=
  match fuel with
  | O => OutOfFuel
  | S f =>
      let '(l, kprime, c) := expose (heap s) TL in
      if height (heap s) c <=? height (heap s) TR + 1 then
        let '(s, Tprime) := nodeWithChildren s c k TR in
        if height (heap s) (Some Tprime) <=? height (heap s) l + 1 then
          Ok (nodeWithChildren s l kprime (Some Tprime))
        else
          let* (s, r) := rot rotate_Right (s, Tprime) in
          rot rotate_Left (nodeWithChildren s l kprime (Some r))
      else
        match c with
        | None => Throw TypeError
        | Some c' =>
            let* (s, Tprime) := joinRightAVL f s c' k TR in
            let '(s, Tprimeprime) := nodeWithChildren s l kprime (Some Tprime) in
            if height (heap s) (Some Tprime) <=? height (heap s) l + 1
            then Ok (s, Tprimeprime)
            else rot rotate_Left (s, Tprimeprime)
        end
  end.

Fixpoint joinLeftAVL (fuel : nat) (s : t) (TL : option nat) (k : string) (TR : nat)
  : result (t * nat) :=
  match fuel with
  | O => OutOfFuel
  | S f =>
      let '(c, kprime, r) := expose (heap s) TR in
      if height (heap s) c <=? height (heap s) TL + 1 then
        let '(s, Tprime) := nodeWithChildren s TL k c in
        if height (heap s) (Some Tprime) <=? height (heap s) r + 1 then
          Ok (nodeWithChildren s (Some Tprime) kprime r)
        else
          let* (s, l) := rot rotate_Left (s, Tprime) in
          rot rotate_Right (nodeWithChildren s (Some l) kprime r)
      else
        match c with
        | None => Throw TypeError
        | Some c' =>
            let* (s, Tprime) := joinLeftAVL f s TL k c' in
            let '(s, Tprimeprime) := nodeWithChildren s (Some Tprime) kprime r in
            if height (heap s) (Some Tprime) <=? height (heap s) r + 1
            then Ok (s, Tprimeprime)
            else rot rotate_Right (s, Tprimeprime)
        end
  end.

Definition join (fuel : nat) (s : t) (TL : option nat) (k : string) (TR : option nat)
  : result (t * nat) :=
  if height (heap s) TR + 1 <? height (heap s) TL then
    match TL with
    | Some tl => joinRightAVL fuel s tl k TR
    | None => Throw TypeError
    end
  else if height (heap s) TL + 1 <? height (heap s) TR then
    match TR with
    | Some tr => joinLeftAVL fuel s TL k tr
    | None => Throw TypeError
    end
  else Ok (nodeWithChildren s TL k TR).

(** "Erase the old parents" in the base case of [splitInternal]. *)
Definition eraseParent (h : gmap nat SNode.t) (c : option nat) : gmap nat SNode.t :=
  match c with
  | None => h
  | Some a =>
      match SNode.bParent (h !!! a) with
      | None => h
      | Some p =>
          let h := if bIsLeftChild h a
                   then wr (SNode.set_bLeftChild None) p h else h in
          wr (SNode.set_bParent None) a h
      end
  end.

(** [splitInternal(T, path)].  The array [path] is used as a stack
    ([push] in [split], [pop] here): the list holds it top first. *)
Fixpoint splitInternal (fuel : nat) (s : t) (T : nat) (path : list nat)
  : result (t * option nat * option nat) :=
  let '(L, m, R) := expose (heap s) T in
  match path with
  | [] =>
      let h := eraseParent (heap s) L in
      let h := eraseParent h R in
      Ok (with_heap s h, L, R)
  | nextNode :: path =>
      if bool_decide (L = Some nextNode) then
        let* (s, Lprime, Rprime) := splitInternal fuel s nextNode path in
        let* (s, j) := join fuel s Rprime m R in
        Ok (s, Lprime, Some j)
      else if bool_decide (R = Some nextNode) then
        let* (s, Lprime, Rprime) := splitInternal fuel s nextNode path in
        let* (s, j) := join fuel s L m Lprime in
        Ok (s, Some j, Rprime)
      else Throw BadPath
  end.

(** The path loop of [split]: returns the root and the path, top first. *)
Fixpoint pathToRoot (fuel : nat) (h : gmap nat SNode.t) (current : nat)
    (path : list nat) : result (nat * list nat) :=
  match fuel with
  | O => OutOfFuel
  | S f =>
      match SNode.bParent (h !!! current) with
      | None => Ok (current, path)
      | Some p => pathToRoot f h p (current :: path)
      end
  end.

Definition split (fuel : nat) (s : t) (value : string) : result t :=
  let* node := nodeByValue s value in
  let* (root, path) := pathToRoot fuel (heap s) node [] in
  let* (s, lft, rgt) := splitInternal fuel s root path in
  match lft with
  | Some l => append fuel s (SNode.value (heap s !!! l)) value
  | None => Ok (create s value)
  end.
End SALM.

(** ** Character nodes and messages *)

Module Node.
Record t := mk {
  id : string;
  parent : option string;
  isLeftChild : bool;
  value : string;        (* a single char, except for the root *)
  isPresent : bool;
  leftChildren : list string;
  rightChildren : list string;
  (* the balanced AVL tree *)
  bParent : option string;
  bLeftChild : option string;
  bRightChild : option string;
  bF : Z;
  bCount : Z;
}.
(** [new Node(id, parent, isLeftChild, value, isPresent)] *)
Definition new (id : string) (parent : option string) (isLeftChild : bool)
    (value : string) (isPresent : bool) : t :=
  mk id parent isLeftChild value isPresent [] [] None None None 0 0.
Definition children (left : bool) (n : t) : list string :=
  if left then leftChildren n else rightChildren n.
Definition set_isPresent (v : bool) (n : t) : t :=
  mk (id n) (parent n) (isLeftChild n) (value n) v (leftChildren n)
     (rightChildren n) (bParent n) (bLeftChild n) (bRightChild n) (bF n) (bCount n).
Definition set_children (left : bool) (v : list string) (n : t) : t :=
  mk (id n) (parent n) (isLeftChild n) (value n) (isPresent n)
     (if left then v else leftChildren n) (if left then rightChildren n else v)
     (bParent n) (bLeftChild n) (bRightChild n) (bF n) (bCount n).
Definition set_bParent (v : option string) (n : t) : t :=
  mk (id n) (parent n) (isLeftChild n) (value n) (isPresent n) (leftChildren n)
     (rightChildren n) v (bLeftChild n) (bRightChild n) (bF n) (bCount n).
Definition set_bLeftChild (v : option string) (n : t) : t :=
  mk (id n) (parent n) (isLeftChild n) (value n) (isPresent n) (leftChildren n)
     (rightChildren n) (bParent n) v (bRightChild n) (bF n) (bCount n).
Definition set_bRightChild (v : option string) (n : t) : t :=
  mk (id n) (parent n) (isLeftChild n) (value n) (isPresent n) (leftChildren n)
     (rightChildren n) (bParent n) (bLeftChild n) v (bF n) (bCount n).
Definition set_bF (v : Z) (n : t) : t :=
  mk (id n) (parent n) (isLeftChild n) (value n) (isPresent n) (leftChildren n)
     (rightChildren n) (bParent n) (bLeftChild n) (bRightChild n) v (bCount n).
Definition set_bCount (v : Z) (n : t) : t :=
  mk (id n) (parent n) (isLeftChild n) (value n) (isPresent n) (leftChildren n)
     (rightChildren n) (bParent n) (bLeftChild n) (bRightChild n) (bF n) v.
Global Instance inhabited : Inhabited t := populate (new "" None false "" false).
End Node.

Inductive NetworkMessage :=
| DeleteMessage (id : string)
| InsertMessage (id parentID : string) (isLeftChild : bool) (value : string).

Inductive LastWalked := PARENT | LEFT_CHILD | RIGHT_CHILD.

(** The events handed to [emit]. *)
Inductive Event :=
| Insert (startIndex : Z)
| Delete (startIndex : Z) (deletedValues : string).

(** ** CTextLogn *)

Module CTextLogn.
Record t := mk {
  nodesByID : gmap string Node.t;
  bRootNode : string;
  leftSALM : SALM.t;   (* each node to its leftmost descendant *)
  rightSALM : SALM.t;  (* each node to its rightmost descendant *)
}.

Definition rootNode : string := "".

(** The constructor. *)
Definition new : t :=
  mk {[ rootNode := Node.new "" None false "" false ]} rootNode
     (SALM.create SALM.empty rootNode) (SALM.create SALM.empty rootNode).

Definition with_nodes (s : t) (h : gmap string Node.t) : t :=
  mk h (bRootNode s) (leftSALM s) (rightSALM s).

Definition wr (f : Node.t → Node.t) (x : string) (h : gmap string Node.t)
  : gmap string Node.t := <[x := f (h !!! x)]> h.

(** [if (child !== null) child.bParent = p] *)
Definition reparent (child : option string) (p : string)
    (h : gmap string Node.t) : gmap string Node.t :=
  match child with
  | Some c => wr (Node.set_bParent (Some p)) c h
  | None => h
  end.

Definition bIsLeftChild (h : gmap string Node.t) (x : string) : bool :=
  match Node.bParent (h !!! x) with
  | None => false
  | Some p => bool_decide (Node.bLeftChild (h !!! p) = Some x)
  end.

(** [node?.bCount ?? 0] *)
Definition countOf (h : gmap string Node.t) (o : option string) : Z :=
  match o with
  | Some c => Node.bCount (h !!! c)
  | None => 0
  end.

Definition updateBCount (h : gmap string Node.t) (node : string)
  : gmap string Node.t :=
  let n := h !!! node in
  wr (Node.set_bCount (countOf h (Node.bLeftChild n)
                       + (if Node.isPresent n then 1 else 0)
                       + countOf h (Node.bRightChild n))) node h.

Definition length (s : t) : Z := Node.bCount (nodesByID s !!! bRootNode s).

(** *** Rotations of the balanced tree *)

(** The balance factors written by both single rotations. *)
Definition singleRotationFactors (h : gmap string Node.t) (X Zn : string)
  : gmap string Node.t :=
  if Node.bF (h !!! Zn) =? 0
  then wr (Node.set_bF (-1)) Zn (wr (Node.set_bF 1) X h)
  else wr (Node.set_bF 0) Zn (wr (Node.set_bF 0) X h).

Definition rotate_Left (h : gmap string Node.t) (X Zn : string)
  : gmap string Node.t :=
  let t23 := Node.bLeftChild (h !!! Zn) in
  let h := wr (Node.set_bRightChild t23) X h in
  let h := reparent t23 X h in
  let h := wr (Node.set_bLeftChild (Some X)) Zn h in
  let h := wr (Node.set_bParent (Some Zn)) X h in
  let h := singleRotationFactors h X Zn in
  let h := updateBCount h X in
  updateBCount h Zn.

Definition rotate_Right (h : gmap string Node.t) (X Zn : string)
  : gmap string Node.t :=
  let t23 := Node.bRightChild (h !!! Zn) in
  let h := wr (Node.set_bLeftChild t23) X h in
  let h := reparent t23 X h in
  let h := wr (Node.set_bRightChild (Some X)) Zn h in
  let h := wr (Node.set_bParent (Some Zn)) X h in
  let h := singleRotationFactors h X Zn in
  let h := updateBCount h X in
  updateBCount h Zn.

(** The balance factors written by both double rotations. *)
Definition doubleRotationFactors (h : gmap string Node.t) (X Zn Y : string)
  : gmap string Node.t :=
  let h := if Node.bF (h !!! Y) =? 0
           then wr (Node.set_bF 0) Zn (wr (Node.set_bF 0) X h)
           else if 0 <? Node.bF (h !!! Y)
                then wr (Node.set_bF 0) Zn (wr (Node.set_bF (-1)) X h)
                else wr (Node.set_bF 1) Zn (wr (Node.set_bF 0) X h) in
  wr (Node.set_bF 0) Y h.

Definition rotate_RightLeft (h : gmap string Node.t) (X Zn : string)
  : result (gmap string Node.t * string) :=
  match Node.bLeftChild (h !!! Zn) with
  | None => Throw TypeError
  | Some Y =>
      let t3 := Node.bRightChild (h !!! Y) in
      let h := wr (Node.set_bLeftChild t3) Zn h in
      let h := reparent t3 Zn h in
      let h := wr (Node.set_bRightChild (Some Zn)) Y h in
      let h := wr (Node.set_bParent (Some Y)) Zn h in
      let t2 := Node.bLeftChild (h !!! Y) in
      let h := wr (Node.set_bRightChild t2) X h in
      let h := reparent t2 X h in
      let h := wr (Node.set_bLeftChild (Some X)) Y h in
      let h := wr (Node.set_bParent (Some Y)) X h in
      let h := doubleRotationFactors h X Zn Y in
      let h := updateBCount h X in
      let h := updateBCount h Zn in
      let h := updateBCount h Y in
      Ok (h, Y)
  end.

Definition rotate_LeftRight (h : gmap string Node.t) (X Zn : string)
  : result (gmap string Node.t * string) :=
  match Node.bRightChild (h !!! Zn) with
  | None => Throw TypeError
  | Some Y =>
      let t3 := Node.bLeftChild (h !!! Y) in
      let h := wr (Node.set_bRightChild t3) Zn h in
      let h := reparent t3 Zn h in
      let h := wr (Node.set_bLeftChild (Some Zn)) Y h in
      let h := wr (Node.set_bParent (Some Y)) Zn h in
      let t2 := Node.bRightChild (h !!! Y) in
      let h := wr (Node.set_bLeftChild t2) X h in
      let h := reparent t2 X h in
      let h := wr (Node.set_bRightChild (Some X)) Y h in
      let h := wr (Node.set_bParent (Some Y)) X h in
      let h := doubleRotationFactors h X Zn Y in
      let h := updateBCount h X in
      let h := updateBCount h Zn in
      let h := updateBCount h Y in
      Ok (h, Y)
  end.

(** The tail of [rebalance]: link the rotated subtree [N] under [G], or make
    it the root. *)
Definition relink (h : gmap string Node.t) (root : string) (G : option string)
    (X N : string) : gmap string Node.t * string :=
  let h := wr (Node.set_bParent G) N h in
  match G with
  | Some g =>
      if bool_decide (Node.bLeftChild (h !!! g) = Some X)
      then (wr (Node.set_bLeftChild (Some N)) g h, root)
      else (wr (Node.set_bRightChild (Some N)) g h, root)
  | None => (h, N)
  end.

(** [rebalance(node)]: [Zn] is the loop variable [Z], [X = Z.bParent]; the
    result is the store and [bRootNode]. *)
Fixpoint rebalance (fuel : nat) (h : gmap string Node.t) (root : string)
    (Zn : string) : result (gmap string Node.t * string) :=
  match fuel with
  | O => OutOfFuel
  | S f =>
      match Node.bParent (h !!! Zn) with
      | None => Ok (h, root)
      | Some X =>
          if bool_decide (Node.bRightChild (h !!! X) = Some Zn) then
            if 0 <? Node.bF (h !!! X) then
              let G := Node.bParent (h !!! X) in
              let* (h, N) := (if Node.bF (h !!! Zn) <? 0
                              then rotate_RightLeft h X Zn
                              else Ok (rotate_Left h X Zn, Zn)) in
              Ok (relink h root G X N)
            else if Node.bF (h !!! X) <? 0 then
              Ok (wr (Node.set_bF 0) X h, root)
            else rebalance f (wr (Node.set_bF 1) X h) root X
          else
            if Node.bF (h !!! X) <? 0 then
              let G := Node.bParent (h !!! X) in
              let* (h, N) := (if 0 <? Node.bF (h !!! Zn)
                              then rotate_LeftRight h X Zn
                              else Ok (rotate_Right h X Zn, Zn)) in
              Ok (relink h root G X N)
            else if 0 <? Node.bF (h !!! X) then
              Ok (wr (Node.set_bF 0) X h, root)
            else rebalance f (wr (Node.set_bF (-1)) X h) root X
      end
  end.

(** *** Index and node *)

(** The [for(;;)] loop of [indexToNode]. *)
Fixpoint indexToNode_loop (fuel : nat) (h : gmap string Node.t)
    (remaining : Z) (current : string) : result string :=
  match fuel with
  | O => OutOfFuel
  | S f =>
      let n := h !!! current in
      let afterLeft (remaining : Z) : result string :=
        let '(found, remaining) :=
          if Node.isPresent n
          then (if remaining =? 0 then (true, remaining) else (false, remaining - 1))
          else (false, remaining) in
        if found then Ok current
        else
          match Node.bRightChild n with
          | None => Throw InternalError
          | Some r =>
              if Node.bCount (h !!! r) <? remaining then Throw InternalError
              else indexToNode_loop f h remaining r
          end in
      match Node.bLeftChild n with
      | Some child =>
          if remaining <? Node.bCount (h !!! child)
          then indexToNode_loop f h remaining child
          else afterLeft (remaining - Node.bCount (h !!! child))
      | None => afterLeft remaining
      end
  end.

Definition indexToNode (fuel : nat) (s : t) (index : Z) : result string :=
  if (index <? 0) || (length s <=? index) then Throw IndexOutOfBounds
  else indexToNode_loop fuel (nodesByID s) index (bRootNode s).

(** The [while] loop of [nodeToIndex]. *)
Fixpoint nodeToIndex_loop (fuel : nat) (h : gmap string Node.t)
    (geIndex : Z) (curNode : string) (curParent : option string) : result Z :=
  match fuel with
  | O => OutOfFuel
  | S f =>
      match curParent with
      | None => Ok geIndex
      | Some p =>
          let geIndex :=
            if bIsLeftChild h curNode then geIndex
            else geIndex + countOf h (Node.bLeftChild (h !!! p))
                 + (if Node.isPresent (h !!! p) then 1 else 0) in
          nodeToIndex_loop f h geIndex p (Node.bParent (h !!! p))
      end
  end.

Definition nodeToIndex (fuel : nat) (h : gmap string Node.t) (node : string)
  : result (Z * bool) :=
  let geIndex := countOf h (Node.bLeftChild (h !!! node)) in
  let* geIndex := nodeToIndex_loop fuel h geIndex node (Node.bParent (h !!! node)) in
  Ok (geIndex, Node.isPresent (h !!! node)).

(** [while (current.bLeftChild !== null) current = current.bLeftChild] *)
Fixpoint descendLeft (fuel : nat) (h : gmap string Node.t) (current : string)
  : result string :=
  match fuel with
  | O => OutOfFuel
  | S f =>
      match Node.bLeftChild (h !!! current) with
      | None => Ok current
      | Some c => descendLeft f h c
      end
  end.

(** [while (current.bRightChild !== null) current = current.bRightChild] *)
Fixpoint descendRight (fuel : nat) (h : gmap string Node.t) (current : string)
  : result string :=
  match fuel with
  | O => OutOfFuel
  | S f =>
      match Node.bRightChild (h !!! current) with
      | None => Ok current
      | Some c => descendRight f h c
      end
  end.

(** The upward [for(;;)] loop of [nextNode]. *)
Fixpoint nextNode_up (fuel : nat) (h : gmap string Node.t) (current : string)
  : result string :=
  match fuel with
  | O => OutOfFuel
  | S f =>
      match Node.bParent (h !!! current) with
      | Some p =>
          if bIsLeftChild h current then Ok p else nextNode_up f h p
      | None => Throw NodeIsLast
      end
  end.

Definition nextNode (fuel : nat) (h : gmap string Node.t) (node : string)
  : result string :=
  match Node.bRightChild (h !!! node) with
  | Some r => descendLeft fuel h r
  | None => nextNode_up fuel h node
  end.

(** *** toString *)

(** The [while (node !== null)] walk; [values] is the array being filled:
    [None] is an empty slot of [new Array(length)]. *)
Fixpoint toString_walk (fuel : nat) (h : gmap string Node.t)
    (node : option string) (lastWalked : LastWalked)
    (values : list (option string)) : result (list (option string)) :=
  match fuel with
  | O => OutOfFuel
  | S f =>
      match node with
      | None => Ok values
      | Some x =>
          let n := h !!! x in
          match lastWalked with
          | PARENT =>
              match Node.bLeftChild n with
              | Some l =>
                  if Node.bCount (h !!! l) =? 0
                  then toString_walk f h node LEFT_CHILD values
                  else toString_walk f h (Some l) PARENT values
              | None => toString_walk f h node LEFT_CHILD values
              end
          | LEFT_CHILD =>
              let values :=
                if Node.isPresent n then values ++ [Some (Node.value n)]
                else values in
              match Node.bRightChild n with
              | Some r =>
                  if Node.bCount (h !!! r) =? 0
                  then toString_walk f h node RIGHT_CHILD values
                  else toString_walk f h (Some r) PARENT values
              | None => toString_walk f h node RIGHT_CHILD values
              end
          | RIGHT_CHILD =>
              toString_walk f h (Node.bParent n)
                (if bIsLeftChild h x then LEFT_CHILD else RIGHT_CHILD) values
          end
      end
  end.

(** [values.join("")]: an empty slot contributes the empty string. *)
Definition join (values : list (option string)) : string :=
  foldr (λ v acc, String.append (default "" v) acc) "" values.

Definition toString (fuel : nat) (s : t) : result string :=
  if length s <? 0 then Throw RangeError
  else
    let values := replicate (Z.to_nat (length s)) None in
    let* values := toString_walk fuel (nodesByID s) (Some (bRootNode s)) PARENT values in
    let ans := join values in
    if bool_decide (Z.of_nat (String.length ans) = length s) then Ok ans
    else Throw WrongLength.

(** *** Receiving a message *)

(** [for (; i < siblings.length; i++) if (node.id < siblings[i].id) break;] *)
Fixpoint siblingIndex (h : gmap string Node.t) (id : string)
    (siblings : list string) : nat :=
  match siblings with
  | [] => 0%nat
  | sib :: rest =>
      if String.ltb id (Node.id (h !!! sib)) then 0%nat
      else S (siblingIndex h id rest)
  end.

(** [siblings.splice(i, 0, node)] *)
Definition splice (i : nat) (node : string) (siblings : list string) : list string :=
  take i siblings ++ node :: drop i siblings.

Definition getNeighbor (fuel : nat) (s : t) (node : string)
    (siblings : list string) (i : nat) : result (option string * option string) :=
  let n := nodesByID s !!! node in
  if Node.isLeftChild n then
    if bool_decide (i = (List.length siblings - 1)%nat) then
      Ok (None, Node.parent n)
    else
      match siblings !! (i + 1)%nat with
      | Some sib =>
          let* e := SALM.getEnd fuel (leftSALM s) sib in Ok (None, Some e)
      | None => Throw TypeError
      end
  else
    if bool_decide (i = 0%nat) then Ok (Node.parent n, None)
    else
      match siblings !! (i - 1)%nat with
      | Some sib =>
          let* e := SALM.getEnd fuel (rightSALM s) sib in Ok (Some e, None)
      | None => Throw TypeError
      end.

(** "Insert into balanced tree." *)
Definition attach (fuel : nat) (h : gmap string Node.t) (node : string)
    (predecessor successor : option string) : result (gmap string Node.t) :=
  match predecessor, successor with
  | Some p, _ =>
      match Node.bRightChild (h !!! p) with
      | None =>
          Ok (wr (Node.set_bParent (Some p)) node
                (wr (Node.set_bRightChild (Some node)) p h))
      | Some r =>
          let* current := descendLeft fuel h r in
          Ok (wr (Node.set_bParent (Some current)) node
                (wr (Node.set_bLeftChild (Some node)) current h))
      end
  | None, Some su =>
      match Node.bLeftChild (h !!! su) with
      | None =>
          Ok (wr (Node.set_bParent (Some su)) node
                (wr (Node.set_bLeftChild (Some node)) su h))
      | Some l =>
          let* current := descendRight fuel h l in
          Ok (wr (Node.set_bParent (Some current)) node
                (wr (Node.set_bRightChild (Some node)) current h))
      end
  | None, None => Ok h
  end.

(** "Update index metadata.": [bCount++] (or [bCount--]) on the node and all
    its balanced ancestors. *)
Fixpoint addToCounts (fuel : nat) (h : gmap string Node.t) (delta : Z)
    (ancestor : option string) : result (gmap string Node.t) :=
  match fuel with
  | O => OutOfFuel
  | S f =>
      match ancestor with
      | None => Ok h
      | Some a =>
          let h' := wr (Node.set_bCount (Node.bCount (h !!! a) + delta)) a h in
          addToCounts f h' delta (Node.bParent (h' !!! a))
      end
  end.

(** "Update SALMS." for a node at index [i] of [siblings] under [parent];
    [salm] is the manager of the node's own side, [other] the other one. *)
Definition updateSALM_side (fuel : nat) (salm other : SALM.t) (captures : bool)
    (siblings : list string) (parent node : string) : result (SALM.t * SALM.t) :=
  let* salm :=
    (if captures then
       let* salm := (if (2 <=? List.length siblings)%nat
                     then SALM.split fuel salm parent else Ok salm) in
       SALM.append fuel salm parent node
     else Ok (SALM.create salm node)) in
  Ok (salm, SALM.create other node).

Definition updateSALMS (fuel : nat) (s : t) (node parent : string)
    (siblings : list string) (i : nat) : result t :=
  if Node.isLeftChild (nodesByID s !!! node) then
    let* (l, r) := updateSALM_side fuel (leftSALM s) (rightSALM s)
                     (bool_decide (i = 0%nat)) siblings parent node in
    Ok (mk (nodesByID s) (bRootNode s) l r)
  else
    let* (r, l) := updateSALM_side fuel (rightSALM s) (leftSALM s)
                     (bool_decide (i = (List.length siblings - 1)%nat))
                     siblings parent node in
    Ok (mk (nodesByID s) (bRootNode s) l r).

Definition receivePrimitive (fuel : nat) (s : t) (decoded : NetworkMessage)
  : result (t * option Event) :=
  match decoded with
  | InsertMessage id parentID isLeftChild value =>
      match nodesByID s !! parentID with
      | None => Throw TypeError
      | Some parent =>
          let h := <[id := Node.new id (Some parentID) isLeftChild value true]>
                     (nodesByID s) in
          (* Insert node among its same-side siblings, in order by id. *)
          let siblings := Node.children isLeftChild parent in
          let i := siblingIndex h id siblings in
          let siblings := splice i id siblings in
          let h := wr (Node.set_children isLeftChild siblings) parentID h in
          let s := with_nodes s h in
          let* (predecessor, successor) := getNeighbor fuel s id siblings i in
          let* h := attach fuel h id predecessor successor in
          let* h := addToCounts fuel h 1 (Some id) in
          let* (h, root) := rebalance fuel h (bRootNode s) id in
          let s := mk h root (leftSALM s) (rightSALM s) in
          let* s := updateSALMS fuel s id parentID siblings i in
          let* (index, _) := nodeToIndex fuel (nodesByID s) id in
          Ok (s, Some (Insert index))
      end
  | DeleteMessage id =>
      match nodesByID s !! id with
      | None => Throw TypeError
      | Some node =>
          if Node.isPresent node then
            let* (index, _) := nodeToIndex fuel (nodesByID s) id in
            let h := wr (Node.set_isPresent false) id (nodesByID s) in
            let* h := addToCounts fuel h (-1) (Some id) in
            Ok (with_nodes s h, Some (Delete index (Node.value node)))
          else Ok (s, None)
      end
  end.

(** *** The local operations

    [sendPrimitive] hands the message to the runtime, which delivers it to
    this replica during the call (the benchmarks index into the text right
    after each local edit); [uid] is the result of [runtime.getUID()]. *)

Definition insertOne_message (fuel : nat) (s : t) (index : Z) (char : string)
    (uid : string) : result NetworkMessage :=
  let* leftOrigin := (if index =? 0 then Ok rootNode
                      else indexToNode fuel s (index - 1)) in
  let h := nodesByID s in
  if bool_decide (Node.rightChildren (h !!! leftOrigin) ≠ []) then
    let* parent := nextNode fuel h leftOrigin in
    Ok (InsertMessage uid (Node.id (h !!! parent)) true char)
  else
    Ok (InsertMessage uid (Node.id (h !!! leftOrigin)) false char).

Definition insertOne (fuel : nat) (s : t) (index : Z) (char : string)
    (uid : string) : result t :=
  let* message := insertOne_message fuel s index char uid in
  let* (s, _) := receivePrimitive fuel s message in
  Ok s.

Definition deleteOne_message (fuel : nat) (s : t) (index : Z)
  : result NetworkMessage :=
  let* node := indexToNode fuel s index in
  Ok (DeleteMessage (Node.id (nodesByID s !!! node))).

Definition deleteOne (fuel : nat) (s : t) (index : Z) : result t :=
  let* message := deleteOne_message fuel s index in
  let* (s, _) := receivePrimitive fuel s message in
  Ok s.

(** [insert(index, str)]; [chars] holds [str.charAt(i)] with the uid drawn
    for it. *)
Fixpoint insert (fuel : nat) (s : t) (index : Z) (chars : list (string * string))
  : result t :=
  match chars with
  | [] => Ok s
  | (char, uid) :: rest =>
      let* s := insertOne fuel s index char uid in
      insert fuel s (index + 1) rest
  end.

(** [delete(startIndex, count)]: [i] runs from [count - 1] down to [0].
    The loop changes the object call by call, and a call of [deleteOne] that
    throws ends it there: the object stays as the calls before have left it.
    So the result is the state that is left, together with how the loop
    ended.  ([deleteOne] itself throws before it changes anything: in
    [indexToNode], or at the start of the handler.) *)
Fixpoint delete (fuel : nat) (s : t) (startIndex : Z) (count : nat)
  : t * result unit :=
  match count with
  | O => (s, Ok tt)
  | S i =>
      match deleteOne fuel s (startIndex + Z.of_nat i) with
      | Ok s' => delete fuel s' startIndex i
      | Throw e => (s, Throw e)
      | OutOfFuel => (s, OutOfFuel)
      end
  end.

Definition getPosition (fuel : nat) (s : t) (index : Z) : result string :=
  let* node := indexToNode fuel s index in
  Ok (Node.id (nodesByID s !!! node)).

Definition findPosition (fuel : nat) (s : t) (position : string)
  : result (Z * bool) :=
  match nodesByID s !! position with
  | None => Throw TypeError
  | Some _ => nodeToIndex fuel (nodesByID s) position
  end.

(** *** The interleaving tree ("ground truth"), as the debugging code walks it *)

Fixpoint getLeftmostDescendant (fuel : nat) (h : gmap string Node.t)
    (current : string) : result string :=
  match fuel with
  | O => OutOfFuel
  | S f =>
      match Node.leftChildren (h !!! current) with
      | [] => Ok current
      | c :: _ => getLeftmostDescendant f h c
      end
  end.

Fixpoint getRightmostDescendant (fuel : nat) (h : gmap string Node.t)
    (current : string) : result string :=
  match fuel with
  | O => OutOfFuel
  | S f =>
      match last (Node.rightChildren (h !!! current)) with
      | None => Ok current
      | Some c => getRightmostDescendant f h c
      end
  end.

(** *** The debugging walks

    [console.log] is modelled by a log of the printed lines, without the
    header line; a line is the indentation and the fields of the object that
    [JSON.stringify] renders. *)

Record TrueLine := mkTrueLine {
  t_tabs : nat;
  t_id : string;
  t_value : string;
  t_isPresent : bool;
  t_leftSAL : string;
  t_rightSAL : string;
}.

Record BalancedLine := mkBalancedLine {
  b_tabs : Z;
  b_id : string;
  b_value : string;
  b_isPresent : bool;
  b_count : Z;
  b_bF : Z;
}.

(** The [for (;;)] loop of [printTrueTreeWalk]; the head of [stack] is the
    entry that [stack.pop()] returns. *)
Fixpoint printTrueTreeWalk_loop (fuel : nat) (s : t)
    (stack : list (string * bool * nat)) (node : string) (left : bool)
    (childIndex : nat) (log : list TrueLine) : result (list TrueLine) :=
  match fuel with
  | O => OutOfFuel
  | S f =>
      let n := nodesByID s !!! node in
      if bool_decide (childIndex = List.length (Node.children left n)) then
        if left then
          (* Visit node. *)
          let* leftSAL := SALM.getTreeID f (leftSALM s) node in
          let* rightSAL := SALM.getTreeID f (rightSALM s) node in
          let log := log ++ [mkTrueLine (List.length stack) (Node.id n)
                               (Node.value n) (Node.isPresent n)
                               leftSAL rightSAL] in
          (* Move to right children. *)
          printTrueTreeWalk_loop f s stack node false 0 log
        else
          (* Done with node; pop the stack. *)
          match stack with
          | [] => Ok log
          | (node', left', childIndex') :: stack' =>
              printTrueTreeWalk_loop f s stack' node' left' (S childIndex') log
          end
      else
        match Node.children left n !! childIndex with
        | Some child =>
            (* Recurse. *)
            printTrueTreeWalk_loop f s ((node, left, childIndex) :: stack)
              child true 0 log
        | None => Throw TypeError
        end
  end.

Definition printTrueTreeWalk (fuel : nat) (s : t) : result (list TrueLine) :=
  printTrueTreeWalk_loop fuel s [] rootNode true 0 [].

(** The [while (node !== null)] loop of [printBalancedTreeWalk];
    [new Array(depth)] throws a RangeError for a negative [depth]. *)
Fixpoint printBalancedTreeWalk_loop (fuel : nat) (h : gmap string Node.t)
    (node : option string) (lastWalked : LastWalked) (depth : Z)
    (log : list BalancedLine) : result (list BalancedLine) :=
  match fuel with
  | O => OutOfFuel
  | S f =>
      match node with
      | None => Ok log
      | Some x =>
          let n := h !!! x in
          match lastWalked with
          | PARENT =>
              match Node.bLeftChild n with
              | Some l =>
                  printBalancedTreeWalk_loop f h (Some l) PARENT (depth + 1) log
              | None => printBalancedTreeWalk_loop f h node LEFT_CHILD depth log
              end
          | LEFT_CHILD =>
              if depth <? 0 then Throw RangeError
              else
                let log := log ++ [mkBalancedLine depth (Node.id n) (Node.value n)
                                     (Node.isPresent n) (Node.bCount n)
                                     (Node.bF n)] in
                match Node.bRightChild n with
                | Some r =>
                    printBalancedTreeWalk_loop f h (Some r) PARENT (depth + 1) log
                | None =>
                    printBalancedTreeWalk_loop f h node RIGHT_CHILD depth log
                end
          | RIGHT_CHILD =>
              printBalancedTreeWalk_loop f h (Node.bParent n)
                (if bIsLeftChild h x then LEFT_CHILD else RIGHT_CHILD)
                (depth - 1) log
          end
      end
  end.

Definition printBalancedTreeWalk (fuel : nat) (s : t)
  : result (list BalancedLine) :=
  printBalancedTreeWalk_loop fuel (nodesByID s) (Some (bRootNode s)) PARENT 0 [].

(** The error of [checkSALMs], "Wrong SALM leftmost (rightmost) descendant
    for <node>: <salm>, <true>", with the three ids of the message. *)
Inductive WrongSALM :=
| WrongLeftmost (node salmEnd trueEnd : string)
| WrongRightmost (node salmEnd trueEnd : string).

(** The [for (;;)] loop of [checkSALMs]: [Ok None] when the walk is
    "completely done", [Ok (Some w)] when it throws the error [w]. *)
Fixpoint checkSALMs_loop (fuel : nat) (s : t)
    (stack : list (string * bool * nat)) (node : string) (left : bool)
    (childIndex : nat) : result (option WrongSALM) :=
  match fuel with
  | O => OutOfFuel
  | S f =>
      let h := nodesByID s in
      let n := h !!! node in
      if bool_decide (childIndex = List.length (Node.children left n)) then
        if left then
          (* Visit node. *)
          let* salmLeftDescendant := SALM.getEnd f (leftSALM s) node in
          let* trueLeftDescendent := getLeftmostDescendant f h node in
          if bool_decide (salmLeftDescendant ≠ trueLeftDescendent) then
            Ok (Some (WrongLeftmost (Node.id n)
                        (Node.id (h !!! salmLeftDescendant))
                        (Node.id (h !!! trueLeftDescendent))))
          else
            let* salmRightDescendant := SALM.getEnd f (rightSALM s) node in
            let* trueRightDescendent := getRightmostDescendant f h node in
            if bool_decide (salmRightDescendant ≠ trueRightDescendent) then
              Ok (Some (WrongRightmost (Node.id n)
                          (Node.id (h !!! salmRightDescendant))
                          (Node.id (h !!! trueRightDescendent))))
            else
              (* Move to right children. *)
              checkSALMs_loop f s stack node false 0
        else
          (* Done with node; pop the stack. *)
          match stack with
          | [] => Ok None
          | (node', left', childIndex') :: stack' =>
              checkSALMs_loop f s stack' node' left' (S childIndex')
          end
      else
        match Node.children left n !! childIndex with
        | Some child =>
            (* Recurse. *)
            checkSALMs_loop f s ((node, left, childIndex) :: stack) child true 0
        | None => Throw TypeError
        end
  end.

Definition checkSALMs (fuel : nat) (s : t) : result (option WrongSALM) :=
  checkSALMs_loop fuel s [] rootNode true 0.
End CTextLogn.


(** * Replica states *)

(** What the runtime promises about a delivered message (causal delivery and
    unique ids): an insert carries an id that is not in the directory yet, a
    parent that is, and one character; a delete refers to a node of the
    directory. *)
Definition admissible (s : CTextLogn.t) (m : NetworkMessage) : Prop :=
  match m with
  | InsertMessage id parentID _ value =>
      CTextLogn.nodesByID s !! id = None
      ∧ is_Some (CTextLogn.nodesByID s !! parentID)
      ∧ String.length value = 1%nat
  | DeleteMessage id => is_Some (CTextLogn.nodesByID s !! id)
  end.

Global Instance admissible_dec s m : Decision (admissible s m).
Proof. destruct m; simpl; apply _. Defined.

(** The states a replica can be in between two message handlers. *)
Inductive reachable : CTextLogn.t → Prop :=
| reachable_new : reachable CTextLogn.new
| reachable_receive s m fuel s' ev :
    reachable s → admissible s m →
    CTextLogn.receivePrimitive fuel s m = Ok (s', ev) →
    reachable s'.

(** Delivering a list of messages, in order. *)
Fixpoint deliver (fuel : nat) (s : CTextLogn.t) (ms : list NetworkMessage)
  : result CTextLogn.t :=
  match ms with
  | [] => Ok s
  | m :: ms =>
      if decide (admissible s m) then
        let* (s, _) := CTextLogn.receivePrimitive fuel s m in
        deliver fuel s ms
      else Throw TypeError
  end.

(** The real height of a balanced subtree (a leaf has height 0, [null] -1). *)
Fixpoint bheight (fuel : nat) (h : gmap string Node.t) (o : option string)
  : result Z :=
  match fuel with
  | O => OutOfFuel
  | S f =>
      match o with
      | None => Ok (-1)
      | Some x =>
          let* hl := bheight f h (Node.bLeftChild (h !!! x)) in
          let* hr := bheight f h (Node.bRightChild (h !!! x)) in
          Ok (1 + Z.max hl hr)
      end
  end.

(** ** Two concrete histories *)

(** One replica, six local edits: "a", then "b", "c", "d" typed at the start,
    then "e" at index 1 and "f" at index 4. *)
Definition six_edits (fuel : nat) : result CTextLogn.t :=
  let* s := CTextLogn.insertOne fuel CTextLogn.new 0 "a" "00" in
  let* s := CTextLogn.insertOne fuel s 0 "b" "01" in
  let* s := CTextLogn.insertOne fuel s 0 "c" "02" in
  let* s := CTextLogn.insertOne fuel s 0 "d" "03" in
  let* s := CTextLogn.insertOne fuel s 1 "e" "04" in
  CTextLogn.insertOne fuel s 4 "f" "05".

Definition six_edits_messages : list NetworkMessage :=
  [ InsertMessage "00" "" false "a"; InsertMessage "01" "00" true "b";
    InsertMessage "02" "01" true "c"; InsertMessage "03" "02" true "d";
    InsertMessage "04" "03" false "e"; InsertMessage "05" "01" false "f" ].

Definition six_edits_state : CTextLogn.t :=
  Eval vm_compute in
    match six_edits 20 with Ok s => s | _ => CTextLogn.new end.

(** Replica A types "abc" into the empty text; replica B, also starting from
    the empty text, types "z".  Replica A then receives B's message. *)
Definition abc_messages (fuel : nat) : result (list NetworkMessage) :=
  let a0 := CTextLogn.new in
  let* m1 := CTextLogn.insertOne_message fuel a0 0 "a" "a1" in
  let* (a1, _) := CTextLogn.receivePrimitive fuel a0 m1 in
  let* m2 := CTextLogn.insertOne_message fuel a1 1 "b" "a2" in
  let* (a2, _) := CTextLogn.receivePrimitive fuel a1 m2 in
  let* m3 := CTextLogn.insertOne_message fuel a2 2 "c" "a3" in
  let* mz := CTextLogn.insertOne_message fuel CTextLogn.new 0 "z" "b1" in
  Ok [m1; m2; m3; mz].

Definition abc_z_messages : list NetworkMessage :=
  [ InsertMessage "a1" "" false "a"; InsertMessage "a2" "a1" false "b";
    InsertMessage "a3" "a2" false "c"; InsertMessage "b1" "" false "z" ].

Definition abc_z_state : CTextLogn.t :=
  Eval vm_compute in
    match deliver 20 CTextLogn.new abc_z_messages with
    | Ok s => s
    | _ => CTextLogn.new
    end.

(** * Properties *)

Lemma deliver_reachable fuel ms : ∀ s s',
  reachable s → deliver fuel s ms = Ok s' → reachable s'.
Proof.
  induction ms as [|m ms IH]; simpl; intros s s' Hs H.
  - by inversion H; subst.
  - destruct (decide (admissible s m)) as [Ha|]; [|done].
    destruct (CTextLogn.receivePrimitive fuel s m) as [[s1 ev]| |] eqn:E;
      simpl in H; try done.
    eapply IH; [|exact H]. by eapply reachable_receive.
Qed.

Lemma six_edits_run : six_edits 20 = Ok six_edits_state.
Proof. vm_compute. reflexivity. Qed.

Lemma six_edits_deliver :
  deliver 20 CTextLogn.new six_edits_messages = Ok six_edits_state.
Proof. vm_compute. reflexivity. Qed.

Lemma abc_z_generated : abc_messages 20 = Ok abc_z_messages.
Proof. vm_compute. reflexivity. Qed.

Lemma abc_z_deliver :
  deliver 20 CTextLogn.new abc_z_messages = Ok abc_z_state.
Proof. vm_compute. reflexivity. Qed.

(** ** SplitAppendListManager (the version that keeps arrays)

    The first version of the manager maps every value to the array of its
    list.  The arrays are shared objects: [append] pushes onto the array that
    all the values of the list point to, [split] makes two new arrays and
    points the values to them.  The store [arrays] holds the array objects by
    allocation address. *)

Module ListSALM.
Record t := mk {
  arrays : gmap nat (list string);
  listByValue : gmap string nat;
  next : nat;
}.

(** [new SplitAppendListManager()] *)
Definition empty : t := mk ∅ ∅ 0%nat.

(** [this.listByValue.set(value, [value])] *)
Definition create (s : t) (value : string) : t :=
  mk (<[next s := [value]]> (arrays s)) (<[value := next s]> (listByValue s))
     (S (next s)).

(** [list.push(value); this.listByValue.set(value, list)]; [push] on the
    [undefined] that [get] returns for an unknown entry is a TypeError. *)
Definition append (s : t) (listEntry value : string) : result t :=
  match listByValue s !! listEntry with
  | None => Throw TypeError
  | Some a =>
      Ok (mk (<[a := arrays s !!! a ++ [value]]> (arrays s))
             (<[value := a]> (listByValue s)) (next s))
  end.

(** [list[list.length - 1]], which is [undefined] ([None]) for an empty
    array. *)
Definition getEnd (s : t) (value : string) : result (option string) :=
  match listByValue s !! value with
  | None => Throw TypeError
  | Some a => Ok (last (arrays s !!! a))
  end.

(** [list.indexOf(value)]: the first index, [-1] when there is none. *)
Fixpoint indexOf (value : string) (l : list string) : Z :=
  match l with
  | [] => -1
  | x :: l =>
      if bool_decide (x = value) then 0
      else let i := indexOf value l in if i <? 0 then -1 else i + 1
  end.

(** [for (const v of l) this.listByValue.set(v, a)] *)
Definition setAll (l : list string) (a : nat) (m : gmap string nat)
  : gmap string nat :=
  foldl (λ m v, <[v := a]> m) m l.

Definition split (s : t) (value : string) : result t :=
  match listByValue s !! value with
  | None => Throw TypeError
  | Some a =>
      let list := arrays s !!! a in
      let valueIndex := indexOf value list in
      let before := take (Z.to_nat (valueIndex + 1)) list in
      let after := drop (Z.to_nat (valueIndex + 1)) list in
      let b := next s in
      let c := S (next s) in
      Ok (mk (<[c := after]> (<[b := before]> (arrays s)))
             (setAll after c (setAll before b (listByValue s)))
             (S (S (next s))))
  end.
End ListSALM.

(** *** Calls of a manager *)

Inductive call :=
| Create (value : string)
| Append (listEntry value : string)
| Split (value : string).

(** A sequence of calls on the manager with arrays. *)
Fixpoint runList (cs : list call) (s : ListSALM.t) : result ListSALM.t :=
  match cs with
  | [] => Ok s
  | Create v :: cs => runList cs (ListSALM.create s v)
  | Append e v :: cs => let* s := ListSALM.append s e v in runList cs s
  | Split v :: cs => let* s := ListSALM.split s v in runList cs s
  end.

(** The same calls on the manager with AVL trees. *)
Fixpoint runAVL (fuel : nat) (cs : list call) (s : SALM.t) : result SALM.t :=
  match cs with
  | [] => Ok s
  | Create v :: cs => runAVL fuel cs (SALM.create s v)
  | Append e v :: cs => let* s := SALM.append fuel s e v in runAVL fuel cs s
  | Split v :: cs => let* s := SALM.split fuel s v in runAVL fuel cs s
  end.

(** The calls the text CRDT makes: a created or appended value is new, and
    the entry of an [append] and the value of a [split] are known. *)
Fixpoint wellFormed (cs : list call) (known : gset string) : Prop :=
  match cs with
  | [] => True
  | Create v :: cs => (v ∉ known) ∧ wellFormed cs ({[v]} ∪ known)
  | Append e v :: cs => e ∈ known ∧ (v ∉ known) ∧ wellFormed cs ({[v]} ∪ known)
  | Split v :: cs => v ∈ known ∧ wellFormed cs known
  end.

(** * Binary trees laid out in a store

    The balanced index and every list of a list manager are binary trees
    whose nodes point to their children and to their parent.  A [btree] is
    the shape such a structure is meant to have; [shape] says that the
    pointers of a store ([links]) spell out that tree below a given parent. *)

Inductive btree (K : Type) : Type :=
| BLeaf
| BNode (l : btree K) (x : K) (r : btree K).
Arguments BLeaf {K}.
Arguments BNode {K} l x r.

Record links (K : Type) := Links {
  par : K → option K;
  lft : K → option K;
  rgt : K → option K;
}.
Arguments Links {K} _ _ _.
Arguments par {K} _ _.
Arguments lft {K} _ _.
Arguments rgt {K} _ _.

(** One step of a path from a node to the root: the parent, and the subtree
    on the other side. *)
Inductive frame (K : Type) : Type :=
| FL (x : K) (r : btree K)   (* the hole is the left child of [x] *)
| FR (l : btree K) (x : K).  (* the hole is the right child of [x] *)
Arguments FL {K} x r.
Arguments FR {K} l x.

Definition broot {K} (t : btree K) : option K :=
  match t with
  | BLeaf => None
  | BNode _ x _ => Some x
  end.

Fixpoint inorder {K} (t : btree K) : list K :=
  match t with
  | BLeaf => []
  | BNode l x r => inorder l ++ x :: inorder r
  end.

Fixpoint shape {K} (L : links K) (p : option K) (t : btree K) : Prop :=
  match t with
  | BLeaf => True
  | BNode l x r =>
      par L x = p ∧ lft L x = broot l ∧ rgt L x = broot r
      ∧ shape L (Some x) l ∧ shape L (Some x) r
  end.

Definition fid {K} (f : frame K) : K :=
  match f with
  | FL x _ => x
  | FR _ x => x
  end.

Definition fill {K} (f : frame K) (t : btree K) : btree K :=
  match f with
  | FL x r => BNode t x r
  | FR l x => BNode l x t
  end.

(** A context lists the frames from the hole outwards. *)
Definition plug {K} (c : list (frame K)) (t : btree K) : btree K :=
  foldl (λ t f, fill f t) t c.

Definition cparent {K} (c : list (frame K)) (p : option K) : option K :=
  match c with
  | [] => p
  | f :: _ => Some (fid f)
  end.

Fixpoint cshape {K} (L : links K) (p : option K) (c : list (frame K))
    (hole : option K) : Prop :=
  match c with
  | [] => True
  | f :: c' =>
      par L (fid f) = cparent c' p
      ∧ match f with
        | FL x r => lft L x = hole ∧ rgt L x = broot r ∧ shape L (Some x) r
        | FR l x => lft L x = broot l ∧ rgt L x = hole ∧ shape L (Some x) l
        end
      ∧ cshape L p c' (Some (fid f))
  end.

(** The nodes before and after the hole, in order. *)
Fixpoint cleft {K} (c : list (frame K)) : list K :=
  match c with
  | [] => []
  | FL _ _ :: c' => cleft c'
  | FR l x :: c' => cleft c' ++ inorder l ++ [x]
  end.

Fixpoint cright {K} (c : list (frame K)) : list K :=
  match c with
  | [] => []
  | FL x r :: c' => x :: inorder r ++ cright c'
  | FR _ _ :: c' => cright c'
  end.

Definition b2z (b : bool) : Z := if b then 1 else 0.

(** Number of present nodes of a tree, and the stored counts being right. *)
Fixpoint tcount {K} (pres : K → bool) (t : btree K) : Z :=
  match t with
  | BLeaf => 0
  | BNode l x r => tcount pres l + b2z (pres x) + tcount pres r
  end.

Fixpoint counted {K} (cnt : K → Z) (pres : K → bool) (t : btree K) : Prop :=
  match t with
  | BLeaf => True
  | BNode l x r =>
      cnt x = tcount pres l + b2z (pres x) + tcount pres r
      ∧ counted cnt pres l ∧ counted cnt pres r
  end.

(** The counts along a context, when the hole holds [k] present nodes. *)
Fixpoint ccounted {K} (cnt : K → Z) (pres : K → bool) (c : list (frame K))
    (k : Z) : Prop :=
  match c with
  | [] => True
  | f :: c' =>
      let sib := match f with FL _ r => r | FR l _ => l end in
      let k' := k + b2z (pres (fid f)) + tcount pres sib in
      cnt (fid f) = k' ∧ counted cnt pres sib ∧ ccounted cnt pres c' k'
  end.

(** Present nodes before the hole. *)
Fixpoint cbefore {K} (pres : K → bool) (c : list (frame K)) : Z :=
  match c with
  | [] => 0
  | FL _ _ :: c' => cbefore pres c'
  | FR l x :: c' => cbefore pres c' + tcount pres l + b2z (pres x)
  end.

Section btree.
Context {K : Type}.
Implicit Types (t l r s : btree K) (c : list (frame K)) (L : links K).
Implicit Types (p hole : option K) (f : frame K).

Lemma plug_cons f c s : plug (f :: c) s = plug c (fill f s).
Proof. reflexivity. Qed.

Lemma plug_app c1 c2 s : plug (c1 ++ c2) s = plug c2 (plug c1 s).
Proof. apply foldl_app. Qed.

Lemma broot_fill f s : broot (fill f s) = Some (fid f).
Proof. by destruct f. Qed.

Lemma inorder_plug c : ∀ s, inorder (plug c s) = cleft c ++ inorder s ++ cright c.
Proof.
  induction c as [|[x r|l x] c IH]; intros s; simpl.
  - by rewrite app_nil_r.
  - rewrite IH. simpl. by rewrite <- !app_assoc.
  - rewrite IH. simpl. by rewrite <- !app_assoc.
Qed.

Lemma shape_plug L p c : ∀ s,
  shape L p (plug c s) ↔ cshape L p c (broot s) ∧ shape L (cparent c p) s.
Proof.
  induction c as [|f c IH]; intros s; simpl.
  - tauto.
  - rewrite IH, broot_fill. destruct f as [x r|l x]; simpl; tauto.
Qed.

Lemma tcount_plug (pres : K → bool) c : ∀ s s',
  tcount pres s = tcount pres s' → tcount pres (plug c s) = tcount pres (plug c s').
Proof.
  induction c as [|f c IH]; intros s s' E; simpl; [done|].
  apply IH. destruct f; simpl; lia.
Qed.

Lemma counted_plug (cnt : K → Z) (pres : K → bool) c : ∀ s,
  counted cnt pres (plug c s)
  ↔ counted cnt pres s ∧ ccounted cnt pres c (tcount pres s).
Proof.
  induction c as [|f c IH]; intros s; simpl.
  - tauto.
  - rewrite IH. destruct f as [x r|l x]; simpl.
    + replace (tcount pres s + b2z (pres x) + tcount pres r)
        with (tcount pres s + b2z (pres x) + tcount pres r) by lia. tauto.
    + replace (tcount pres l + b2z (pres x) + tcount pres s)
        with (tcount pres s + b2z (pres x) + tcount pres l) by lia. tauto.
Qed.

Lemma in_zipper `{EqDecision K} (x : K) t :
  x ∈ inorder t → ∃ c l r, t = plug c (BNode l x r).
Proof.
  induction t as [|l IHl y r IHr]; simpl; [by intros ?%elem_of_nil|].
  rewrite elem_of_app, elem_of_cons. intros [Hl|[->|Hr]].
  - destruct (IHl Hl) as (c & l' & r' & ->).
    exists (c ++ [FL y r]), l', r'. by rewrite plug_app.
  - by exists [], l, r.
  - destruct (IHr Hr) as (c & l' & r' & ->).
    exists (c ++ [FR l y]), l', r'. by rewrite plug_app.
Qed.

Lemma in_zipper_at `{EqDecision K} (x : K) t :
  NoDup (inorder t) → x ∈ inorder t → ∃ c l r, t = plug c (BNode l x r).
Proof. intros _. apply in_zipper. Qed.

(** Changing the store outside a tree. *)
Lemma shape_frame L L' p t :
  (∀ y, y ∈ inorder t →
     par L' y = par L y ∧ lft L' y = lft L y ∧ rgt L' y = rgt L y) →
  shape L p t → shape L' p t.
Proof.
  revert p. induction t as [|l IHl x r IHr]; intros p Hf; simpl; [done|].
  intros (Hp & Hl & Hr & Sl & Sr).
  destruct (Hf x) as (-> & -> & ->); [set_solver|].
  split_and!; [done..| |].
  - apply IHl; [|done]. intros y Hy. apply Hf. set_solver.
  - apply IHr; [|done]. intros y Hy. apply Hf. set_solver.
Qed.

(** Changing the parent of the root of a tree, and the store outside it. *)
Lemma shape_reparent L L' p p' t :
  NoDup (inorder t) →
  (∀ y, y ∈ inorder t → lft L' y = lft L y ∧ rgt L' y = rgt L y) →
  (∀ y, y ∈ inorder t → broot t ≠ Some y → par L' y = par L y) →
  (∀ y, broot t = Some y → par L' y = p') →
  shape L p t → shape L' p' t.
Proof.
  destruct t as [|l x r]; simpl; [done|].
  intros ND Hc Hp Hr (_ & Hl & Hrr & Sl & Sr).
  apply NoDup_app in ND as (_ & Hxl & ND).
  apply NoDup_cons in ND as [Hxr _].
  destruct (Hc x) as [-> ->]; [set_solver|].
  split_and!; [by apply Hr|done|done|..].
  - apply (shape_frame L); [|done]. intros y Hy.
    destruct (Hc y) as [-> ->]; [set_solver|].
    rewrite Hp; [done|set_solver|]. intros [= ->]. by apply (Hxl y); [|left].
  - apply (shape_frame L); [|done]. intros y Hy.
    destruct (Hc y) as [-> ->]; [set_solver|].
    rewrite Hp; [done|set_solver|]. by intros [= ->].
Qed.

Definition cnodes c : list K := cleft c ++ cright c.

Lemma cnodes_cons f c :
  ∀ y, y ∈ cnodes (f :: c) ↔
       y = fid f ∨ y ∈ inorder (match f with FL _ r => r | FR l _ => l end)
       ∨ y ∈ cnodes c.
Proof.
  intros y. unfold cnodes. destruct f as [x r|l x]; simpl; set_solver.
Qed.

Lemma cshape_frame L L' p c : ∀ hole,
  (∀ y, y ∈ cnodes c →
     par L' y = par L y ∧ lft L' y = lft L y ∧ rgt L' y = rgt L y) →
  cshape L p c hole → cshape L' p c hole.
Proof.
  induction c as [|f c IH]; intros hole Hf; simpl; [done|].
  intros (Hp & Hx & Hc).
  assert (∀ y, y ∈ inorder (match f with FL _ r => r | FR l _ => l end) →
               par L' y = par L y ∧ lft L' y = lft L y ∧ rgt L' y = rgt L y)
    as Hsib.
  { intros y Hy. apply Hf, cnodes_cons. auto. }
  destruct (Hf (fid f)) as (E1 & E2 & E3); [apply cnodes_cons; auto|].
  split_and!.
  - by rewrite E1.
  - destruct f as [x r|l x]; simpl in *; rewrite E2, E3;
      destruct Hx as (? & ? & ?); split_and!; try done;
      by apply (shape_frame L).
  - apply IH; [|done]. intros y Hy. apply Hf, cnodes_cons. auto.
Qed.

(** Pointing the innermost frame of a context at another subtree. *)
Lemma cshape_rehole L L' p c hole hole' :
  NoDup (cnodes c) →
  (∀ y, y ∈ cnodes c → cparent c None ≠ Some y →
     par L' y = par L y ∧ lft L' y = lft L y ∧ rgt L' y = rgt L y) →
  match c with
  | [] => True
  | f :: _ =>
      par L' (fid f) = par L (fid f)
      ∧ match f with
        | FL x _ => lft L' x = hole' ∧ rgt L' x = rgt L x
        | FR _ x => lft L' x = lft L x ∧ rgt L' x = hole'
        end
  end →
  cshape L p c hole → cshape L' p c hole'.
Proof.
  destruct c as [|f c]; simpl; [done|].
  intros ND Hf (E1 & Ef) (Hp & Hx & Hc).
  assert (∀ y, y ∈ cnodes (f :: c) → y ≠ fid f →
               par L' y = par L y ∧ lft L' y = lft L y ∧ rgt L' y = rgt L y)
    as Hf'.
  { intros y Hy Hne. apply Hf; [done|]. simpl. congruence. }
  assert ((fid f ∉ inorder (match f with FL _ r => r | FR l _ => l end))
          ∧ (fid f ∉ cnodes c)) as [N1 N2].
  { unfold cnodes in *. destruct f as [x r|l x]; simpl in *.
    - apply NoDup_app in ND as (_ & H1 & H2).
      apply NoDup_cons in H2 as [H2 _]. set_solver.
    - rewrite <- !app_assoc in ND.
      apply NoDup_app in ND as (_ & H1 & H2).
      apply NoDup_app in H2 as (_ & H2 & H3).
      apply NoDup_app in H3 as (_ & H3 & _).
      split; [intros Hl; apply (H2 x Hl); set_solver|].
      intros [Hl|Hr]%elem_of_app; [apply (H1 x Hl); set_solver|].
      apply (H3 x); set_solver. }
  split_and!.
  - by rewrite E1.
  - destruct f as [x r|l x]; simpl in *;
      destruct Ef as [-> ->]; destruct Hx as (? & ? & ?); split_and!; try done.
    + apply (shape_frame L); [|done]. intros y Hy. apply Hf'.
      * apply cnodes_cons. auto.
      * intros ->. done.
    + apply (shape_frame L); [|done]. intros y Hy. apply Hf'.
      * apply cnodes_cons. auto.
      * intros ->. done.
  - apply (cshape_frame L); [|done]. intros y Hy. apply Hf'.
    + apply cnodes_cons. auto.
    + intros ->. done.
Qed.

Lemma tcount_ext (pres pres' : K → bool) t :
  (∀ y, y ∈ inorder t → pres' y = pres y) → tcount pres' t = tcount pres t.
Proof.
  induction t as [|l IHl x r IHr]; intros Hf; simpl; [done|].
  rewrite IHl, IHr, (Hf x); [done|set_solver..].
Qed.

Lemma counted_ext (cnt cnt' : K → Z) (pres pres' : K → bool) t :
  (∀ y, y ∈ inorder t → cnt' y = cnt y ∧ pres' y = pres y) →
  counted cnt pres t → counted cnt' pres' t.
Proof.
  induction t as [|l IHl x r IHr]; intros Hf; simpl; [done|].
  intros (E & Cl & Cr).
  assert (∀ y, y ∈ inorder l → cnt' y = cnt y ∧ pres' y = pres y) as Hl
    by (intros y Hy; apply Hf; set_solver).
  assert (∀ y, y ∈ inorder r → cnt' y = cnt y ∧ pres' y = pres y) as Hr
    by (intros y Hy; apply Hf; set_solver).
  destruct (Hf x) as [-> ->]; [set_solver|].
  rewrite (tcount_ext pres pres' l), (tcount_ext pres pres' r);
    [|intros y Hy; by apply Hr|intros y Hy; by apply Hl].
  split_and!; [done|by apply IHl|by apply IHr].
Qed.

Lemma tcount_nonneg (pres : K → bool) t : 0 ≤ tcount pres t.
Proof. induction t as [|l IHl x r IHr]; simpl; [done|]. unfold b2z. destruct (pres x); lia. Qed.

(** Adding [d] to the stored counts of the path, when the hole gains [d]. *)
Lemma ccounted_bump (cnt cnt' : K → Z) (pres pres' : K → bool) (d : Z) c : ∀ k,
  (∀ f, f ∈ c →
     cnt' (fid f) = cnt (fid f) + d ∧ pres' (fid f) = pres (fid f)
     ∧ ∀ y, y ∈ inorder (match f with FL _ r => r | FR l _ => l end) →
            cnt' y = cnt y ∧ pres' y = pres y) →
  ccounted cnt pres c k → ccounted cnt' pres' c (k + d).
Proof.
  induction c as [|f c IH]; intros k Hf; simpl; [done|].
  intros (E & Cs & Cc).
  destruct (Hf f) as (E1 & E2 & E3); [set_solver|].
  rewrite E1, E2, (tcount_ext pres pres'); [|intros y Hy; by apply E3].
  split_and!; [lia|by apply (counted_ext cnt _ pres)|].
  replace (k + d + b2z (pres (fid f))
           + tcount pres (match f with FL _ r => r | FR l _ => l end))
    with ((k + b2z (pres (fid f))
           + tcount pres (match f with FL _ r => r | FR l _ => l end)) + d) by lia.
  apply IH; [|done]. intros f' Hf'. apply Hf. set_solver.
Qed.

Lemma cbefore_ext (pres pres' : K → bool) c :
  (∀ y, y ∈ cleft c → pres' y = pres y) → cbefore pres' c = cbefore pres c.
Proof.
  induction c as [|[x r|l x] c IH]; intros Hf; simpl in *; [done|by apply IH|].
  rewrite IH, (tcount_ext pres pres' l), (Hf x); [done|set_solver..].
Qed.

End btree.

(** * The balanced index as a tree *)

Definition tlinks (h : gmap string Node.t) : links string :=
  Links (λ x, Node.bParent (h !!! x)) (λ x, Node.bLeftChild (h !!! x))
        (λ x, Node.bRightChild (h !!! x)).

Definition tcnt (h : gmap string Node.t) (x : string) : Z := Node.bCount (h !!! x).
Definition tpres (h : gmap string Node.t) (x : string) : bool :=
  Node.isPresent (h !!! x).

(** The fields of a node that the balanced index does not own. *)
Definition core (n : Node.t) :=
  (Node.id n, Node.parent n, Node.isLeftChild n, Node.value n,
   Node.isPresent n, Node.leftChildren n, Node.rightChildren n).

(** A loop that needs [n] units of fuel to return [a]. *)
Definition computes {A} (run : nat → result A) (n : nat) (a : A) : Prop :=
  ∀ fuel, run fuel = Ok a ∨ (run fuel = OutOfFuel ∧ (fuel < n)%nat).

Lemma computes_enough {A} (run : nat → result A) n a fuel :
  computes run n a → (n ≤ fuel)%nat → run fuel = Ok a.
Proof. intros H Hn. destruct (H fuel) as [|[_ ?]]; [done|lia]. Qed.

Lemma computes_ok {A} (run : nat → result A) n a fuel a' :
  computes run n a → run fuel = Ok a' → a' = a.
Proof. intros H E. destruct (H fuel) as [E'|[E' _]]; congruence. Qed.

Lemma computes_exists {A} (run : nat → result A) n a :
  computes run n a → ∃ fuel, run fuel = Ok a.
Proof. intros H. exists n. by apply (computes_enough _ n). Qed.

Lemma computes_weaken {A} (run : nat → result A) n m a :
  computes run n a → (n ≤ m)%nat → computes run m a.
Proof. intros H Hm fuel. destruct (H fuel) as [|[? ?]]; [by left|right; split; [done|lia]]. Qed.

Lemma wr_lookup f x (h : gmap string Node.t) y :
  CTextLogn.wr f x h !!! y = if decide (x = y) then f (h !!! x) else h !!! y.
Proof. unfold CTextLogn.wr. apply lookup_total_insert. Qed.

Lemma wr_dom f x (h : gmap string Node.t) :
  is_Some (h !! x) → dom (CTextLogn.wr f x h) = dom h.
Proof.
  intros Hx. unfold CTextLogn.wr. rewrite dom_insert_L.
  apply elem_of_dom in Hx. set_solver.
Qed.

Lemma updateBCount_lookup (h : gmap string Node.t) x y :
  CTextLogn.updateBCount h x !!! y =
    if decide (x = y)
    then Node.set_bCount
           (CTextLogn.countOf h (Node.bLeftChild (h !!! x))
            + (if Node.isPresent (h !!! x) then 1 else 0)
            + CTextLogn.countOf h (Node.bRightChild (h !!! x))) (h !!! x)
    else h !!! y.
Proof. unfold CTextLogn.updateBCount. by rewrite wr_lookup. Qed.

(** Decide the comparisons of keys left by [wr_lookup]. *)
Ltac keys :=
  repeat match goal with
  | |- context [decide (?a = ?b)] =>
      destruct (decide (a = b)) as [?|?]; simplify_eq/=; try congruence
  | H : context [decide (?a = ?b)] |- _ =>
      destruct (decide (a = b)) as [?|?]; simplify_eq/=; try congruence
  end.

Ltac heap :=
  repeat (first [rewrite wr_lookup | rewrite updateBCount_lookup]; keys).

Lemma broot_in {K} (t : btree K) x : broot t = Some x → x ∈ inorder t.
Proof. destruct t; simpl; [done|]. intros [= ->]. set_solver. Qed.

Lemma NoDup_node {K} (l r : btree K) x :
  NoDup (inorder (BNode l x r)) ↔
  NoDup (inorder l) ∧ NoDup (inorder r) ∧ (x ∉ inorder l) ∧ (x ∉ inorder r)
  ∧ ∀ y, y ∈ inorder l → y ∉ inorder r.
Proof.
  simpl. rewrite NoDup_app, NoDup_cons. split.
  - intros (Hl & Hd & Hx & Hr). split_and!; try done.
    + intros H. apply (Hd _ H). by left.
    + intros y Hy H. apply (Hd _ Hy). by right.
  - intros (Hl & Hr & Hxl & Hxr & Hd). split_and!; try done.
    intros y Hy [->|H]%elem_of_cons; [done|]. by apply (Hd y).
Qed.

Lemma countOf_counted (h : gmap string Node.t) (pres : string → bool) t :
  counted (tcnt h) pres t → CTextLogn.countOf h (broot t) = tcount pres t.
Proof. destruct t; simpl; [done|]. intros (E & _). exact E. Qed.

Lemma cleft_app {K} (c1 c2 : list (frame K)) :
  cleft (c1 ++ c2) = cleft c2 ++ cleft c1.
Proof.
  induction c1 as [|[x r|l x] c1 IH]; simpl; [by rewrite app_nil_r|done|].
  by rewrite IH, <- app_assoc.
Qed.

Lemma cright_app {K} (c1 c2 : list (frame K)) :
  cright (c1 ++ c2) = cright c1 ++ cright c2.
Proof.
  induction c1 as [|[x r|l x] c1 IH]; simpl; [done| |done].
  by rewrite IH, <- app_assoc.
Qed.


(** ** Distinct nodes of a tree with a hole *)

Lemma NoDup_plug {K} (c : list (frame K)) (s : btree K) :
  NoDup (inorder (plug c s)) ↔
  NoDup (cnodes c) ∧ NoDup (inorder s) ∧ ∀ y, y ∈ inorder s → y ∉ cnodes c.
Proof.
  rewrite inorder_plug. unfold cnodes.
  assert (cleft c ++ inorder s ++ cright c ≡ₚ inorder s ++ cleft c ++ cright c)
    as -> by (rewrite !app_assoc; f_equiv; apply Permutation_app_comm).
  rewrite NoDup_app. naive_solver.
Qed.

Lemma fid_in_cnodes {K} (c : list (frame K)) f : f ∈ c → fid f ∈ cnodes c.
Proof.
  induction c as [|g c IH]; [by intros ?%elem_of_nil|].
  intros [->|H]%elem_of_cons; apply cnodes_cons; auto.
Qed.

Lemma cparent_in_cnodes {K} (c : list (frame K)) x :
  cparent c None = Some x → x ∈ cnodes c.
Proof.
  destruct c as [|f c]; simpl; [done|]. intros [= <-].
  apply cnodes_cons. auto.
Qed.

Lemma broot_plug_cons {K} (c : list (frame K)) : ∀ f (s s' : btree K),
  broot (plug (f :: c) s) = broot (plug (f :: c) s').
Proof.
  induction c as [|g c IH]; intros f s s'.
  - simpl. by rewrite !broot_fill.
  - rewrite (plug_cons f), (plug_cons f (g :: c)). apply IH.
Qed.

Lemma broot_plug {K} (c : list (frame K)) (s s' : btree K) :
  broot s = broot s' → broot (plug c s) = broot (plug c s').
Proof. destruct c; [done|]. intros _. apply broot_plug_cons. Qed.

(** ** Descending to the leftmost / rightmost node *)

Lemma descendLeft_spec (h : gmap string Node.t) t : ∀ p x fuel m,
  shape (tlinks h) p t → broot t = Some x →
  CTextLogn.descendLeft fuel h x = Ok m →
  ∃ c r, t = plug c (BNode BLeaf m r) ∧ cleft c = [].
Proof.
  induction t as [|l IHl y r _]; intros p x fuel m; simpl; [done|].
  intros (Hp & Hl & Hr & Sl & Sr) [= <-] E.
  destruct fuel as [|f]; simpl in E; [done|].
  rewrite Hl in E. destruct l as [|l1 y' l2]; simpl in E.
  - injection E as <-. by exists [], r.
  - destruct (IHl (Some y) y' f m Sl eq_refl E) as (c & r' & -> & Hc).
    exists (c ++ [FL y r]), r'. rewrite plug_app, cleft_app. by rewrite Hc.
Qed.

Lemma descendRight_spec (h : gmap string Node.t) t : ∀ p x fuel m,
  shape (tlinks h) p t → broot t = Some x →
  CTextLogn.descendRight fuel h x = Ok m →
  ∃ c l, t = plug c (BNode l m BLeaf) ∧ cright c = [].
Proof.
  induction t as [|l _ y r IHr]; intros p x fuel m; simpl; [done|].
  intros (Hp & Hl & Hr & Sl & Sr) [= <-] E.
  destruct fuel as [|f]; simpl in E; [done|].
  rewrite Hr in E. destruct r as [|r1 y' r2]; simpl in E.
  - injection E as <-. by exists [], l.
  - destruct (IHr (Some y) y' f m Sr eq_refl E) as (c & l' & -> & Hc).
    exists (c ++ [FR l y]), l'. rewrite plug_app, cright_app. by rewrite Hc.
Qed.

(** ** Attaching a new leaf *)

Definition attach_at (f : frame string) (n : string) (h : gmap string Node.t)
  : gmap string Node.t :=
  CTextLogn.wr (Node.set_bParent (Some (fid f))) n
    (CTextLogn.wr (match f with
                   | FL _ _ => Node.set_bLeftChild (Some n)
                   | FR _ _ => Node.set_bRightChild (Some n)
                   end) (fid f) h).

Lemma attach_at_lookup f n h y :
  attach_at f n h !!! y =
    if decide (n = y) then
      Node.set_bParent (Some (fid f))
        (if decide (fid f = n)
         then (match f with
               | FL _ _ => Node.set_bLeftChild (Some n)
               | FR _ _ => Node.set_bRightChild (Some n)
               end) (h !!! fid f)
         else h !!! n)
    else if decide (fid f = y)
         then (match f with
               | FL _ _ => Node.set_bLeftChild (Some n)
               | FR _ _ => Node.set_bRightChild (Some n)
               end) (h !!! fid f)
         else h !!! y.
Proof. unfold attach_at. by rewrite !wr_lookup. Qed.

Lemma attach_hole (h : gmap string Node.t) f c n :
  let t := plug (f :: c) BLeaf in
  shape (tlinks h) None t → NoDup (inorder t) → n ∉ inorder t →
  Node.bLeftChild (h !!! n) = None → Node.bRightChild (h !!! n) = None →
  shape (tlinks (attach_at f n h)) None (plug (f :: c) (BNode BLeaf n BLeaf)).
Proof.
  intros t S ND Hn Hl Hr. subst t.
  apply shape_plug in S as [CS _].
  apply NoDup_plug in ND as (ND & _ & _).
  rewrite inorder_plug in Hn. simpl in Hn.
  assert (n ∉ cnodes (f :: c)) as Hn' by done.
  assert (fid f ≠ n) as Hfn.
  { intros <-. apply Hn', cnodes_cons. auto. }
  apply shape_plug. split.
  - apply (cshape_rehole (tlinks h) _ _ _ None); [done| | |done].
    + intros y Hy Hne. simpl in Hne. simpl. rewrite attach_at_lookup.
      destruct (decide (n = y)) as [->|]; [by destruct Hn'|].
      destruct (decide (fid f = y)) as [<-|]; [by destruct Hne|]. done.
    + simpl. rewrite !attach_at_lookup.
      destruct (decide (n = fid f)) as [E|]; [by rewrite E in Hfn|].
      destruct (decide (fid f = fid f)); [|done].
      destruct f as [x r|l x]; simpl in *; rewrite attach_at_lookup; simpl;
        destruct (decide (n = x)); try done;
        destruct (decide (x = x)); done.
  - simpl. rewrite !attach_at_lookup.
    destruct (decide (n = n)); [|done].
    destruct (decide (fid f = n)); [done|]. simpl. done.
Qed.

Lemma attach_spec fuel (h : gmap string Node.t) n pred succ h' t :
  shape (tlinks h) None t →
  match pred, succ with
  | Some p, _ => p ∈ inorder t
  | None, Some su => su ∈ inorder t
  | None, None => False
  end →
  CTextLogn.attach fuel h n pred succ = Ok h' →
  ∃ f c, t = plug (f :: c) BLeaf ∧ h' = attach_at f n h
         ∧ match pred, succ with
           | Some p, _ => ∃ A, cleft (f :: c) = A ++ [p]
           | None, Some su => ∃ B, cright (f :: c) = su :: B
           | None, None => False
           end.
Proof.
  intros S Hin E. unfold CTextLogn.attach in E.
  destruct pred as [p|]; [|destruct succ as [su|]; [|done]].
  - destruct (in_zipper p t Hin) as (c & l & r & ->).
    apply shape_plug in S as [_ S]. simpl in S.
    destruct S as (_ & _ & Hr & _ & Sr). rewrite Hr in E.
    destruct r as [|r1 y r2]; simpl in E.
    + injection E as <-. exists (FR l p), c. split_and!; [reflexivity..|].
      simpl. exists (cleft c ++ inorder l). by rewrite <- app_assoc.
    + destruct (CTextLogn.descendLeft fuel h y) as [m| |] eqn:D; simpl in E; try done.
      injection E as <-.
      destruct (descendLeft_spec h _ _ _ _ _ Sr eq_refl D) as (cl & rm & -> & Hcl).
      exists (FL m rm), (cl ++ FR l p :: c). split_and!.
      * rewrite plug_cons, plug_app. reflexivity.
      * reflexivity.
      * simpl. rewrite cleft_app, Hcl, app_nil_r. simpl.
        exists (cleft c ++ inorder l). by rewrite <- app_assoc.
  - destruct (in_zipper su t Hin) as (c & l & r & ->).
    apply shape_plug in S as [_ S]. simpl in S.
    destruct S as (_ & Hl & _ & Sl & _). rewrite Hl in E.
    destruct l as [|l1 y l2]; simpl in E.
    + injection E as <-. exists (FL su r), c. split_and!; [reflexivity..|].
      simpl. by exists (inorder r ++ cright c).
    + destruct (CTextLogn.descendRight fuel h y) as [m| |] eqn:D; simpl in E; try done.
      injection E as <-.
      destruct (descendRight_spec h _ _ _ _ _ Sl eq_refl D) as (cl & lm & -> & Hcl).
      exists (FR lm m), (cl ++ FL su r :: c). split_and!.
      * rewrite plug_cons, plug_app. reflexivity.
      * reflexivity.
      * simpl. rewrite cright_app, Hcl. simpl.
        by exists (inorder r ++ cright c).
Qed.

(** ** Walking up from a node: the counts *)

Definition bump (d : Z) (path : list string) (h : gmap string Node.t)
    (y : string) : Node.t :=
  if decide (y ∈ path)
  then Node.set_bCount (Node.bCount (h !!! y) + d) (h !!! y)
  else h !!! y.

Lemma addToCounts_S f h d a :
  CTextLogn.addToCounts (S f) h d (Some a) =
    let h' := CTextLogn.wr (Node.set_bCount (Node.bCount (h !!! a) + d)) a h in
    CTextLogn.addToCounts f h' d (Node.bParent (h' !!! a)).
Proof. reflexivity. Qed.

Lemma addToCounts_spec d c : ∀ h l x r,
  shape (tlinks h) None (plug c (BNode l x r)) →
  NoDup (inorder (plug c (BNode l x r))) →
  (∀ y, y ∈ inorder (plug c (BNode l x r)) → is_Some (h !! y)) →
  ∃ h', computes (λ fuel, CTextLogn.addToCounts fuel h d (Some x))
          (length c + 2) h'
        ∧ (∀ y, h' !!! y = bump d (x :: (fid <$> c)) h y) ∧ dom h' = dom h.
Proof.
  induction c as [|f c IH]; intros h l x r S ND Hdom.
  - exists (CTextLogn.wr (Node.set_bCount (Node.bCount (h !!! x) + d)) x h).
    simpl in S. destruct S as (Hp & _).
    split_and!.
    + intros [|[|fuel]]; [right; split; [done|simpl; lia]..|left].
      rewrite addToCounts_S. simpl. rewrite wr_lookup.
      destruct (decide (x = x)); [|done]. simpl. by rewrite Hp.
    + intros y. unfold bump. rewrite wr_lookup.
      destruct (decide (x = y)) as [->|].
      * rewrite decide_True; [done|set_solver].
      * rewrite decide_False; [done|set_solver].
    + apply wr_dom, Hdom. simpl. set_solver.
  - set (h1 := CTextLogn.wr (Node.set_bCount (Node.bCount (h !!! x) + d)) x h).
    assert (∀ y, par (tlinks h1) y = par (tlinks h) y
                 ∧ lft (tlinks h1) y = lft (tlinks h) y
                 ∧ rgt (tlinks h1) y = rgt (tlinks h) y) as Hfr.
    { intros y. unfold h1. simpl. rewrite wr_lookup.
      by destruct (decide (x = y)) as [->|]. }
    assert (dom h1 = dom h) as Hd1.
    { apply wr_dom, Hdom. rewrite inorder_plug. simpl. set_solver. }
    assert (x ∉ cnodes (f :: c)) as Hx.
    { apply NoDup_plug in ND as (_ & _ & ND). apply ND. simpl. set_solver. }
    assert (Node.bParent (h1 !!! x) = Some (fid f)) as Hpx.
    { destruct (Hfr x) as (E & _). simpl in E. rewrite E.
      apply shape_plug in S as [_ S]. simpl in S. by destruct S as (? & _). }
    rewrite plug_cons in S, ND, Hdom.
    assert (∃ l' r', fill f (BNode l x r) = BNode l' (fid f) r') as (l' & r' & Ef).
    { destruct f; simpl; eauto. }
    rewrite Ef in S, ND, Hdom.
    destruct (IH h1 l' (fid f) r') as (h' & Hc & Hl & Hd).
    { apply (shape_frame (tlinks h)); [|done]. intros y _. apply Hfr. }
    { done. }
    { intros y Hy. apply elem_of_dom. rewrite Hd1. apply elem_of_dom. auto. }
    exists h'. split_and!.
    + intros [|fuel]; [right; split; [done|simpl; lia]|].
      rewrite addToCounts_S. fold h1. simpl. rewrite Hpx.
      destruct (Hc fuel) as [E|[E ?]]; [by left|right].
      split; [done|simpl in *; lia].
    + intros y. rewrite Hl. unfold bump. unfold h1. rewrite wr_lookup.
      destruct (decide (x = y)) as [<-|].
      * rewrite decide_False, decide_True; [done|set_solver|].
        intros [E|Hin]%elem_of_cons.
        -- apply Hx. rewrite E. apply cnodes_cons. auto.
        -- apply list_elem_of_fmap in Hin as (g & E & Hg).
           apply Hx. rewrite E. apply cnodes_cons. right; right.
           by apply fid_in_cnodes.
      * simpl. destruct (decide (y ∈ fid f :: (fid <$> c))).
        -- rewrite decide_True; [done|set_solver].
        -- rewrite decide_False; [done|set_solver].
    + by rewrite Hd, Hd1.
Qed.

(** ** Walking up from a node: its index *)

Lemma nodeToIndex_loop_spec (h : gmap string Node.t) c : ∀ s x g,
  broot s = Some x →
  shape (tlinks h) None (plug c s) →
  NoDup (inorder (plug c s)) →
  counted (tcnt h) (tpres h) (plug c s) →
  computes (λ fuel, CTextLogn.nodeToIndex_loop fuel h g x (cparent c None))
    (length c + 1) (g + cbefore (tpres h) c).
Proof.
  induction c as [|f c IH]; intros s x g Hx S ND C.
  - intros [|fuel]; [right; split; [done|simpl; lia]|left].
    simpl. f_equal. lia.
  - rewrite plug_cons in S, ND, C.
    pose proof S as S'. apply shape_plug in S' as [_ S'].
    pose proof C as C'. apply counted_plug in C' as [C' _].
    pose proof ND as ND'. apply NoDup_plug in ND' as (_ & ND' & _).
    assert (Node.bParent (h !!! fid f) = cparent c None) as Hpf.
    { destruct f; simpl in S'; by destruct S' as (? & _). }
    assert (CTextLogn.bIsLeftChild h x
            = match f with FL _ _ => true | FR _ _ => false end) as Hil.
    { unfold CTextLogn.bIsLeftChild.
      destruct f as [y r|l y]; simpl in S', ND'.
      - destruct S' as (_ & El & _ & Sx & _). simpl in El.
        destruct s as [|s1 x' s2]; [done|]. injection Hx as ->.
        simpl in Sx. destruct Sx as (Ep & _). simpl in Ep. rewrite Ep, El.
        simpl. by rewrite bool_decide_eq_true.
      - destruct S' as (_ & El & _ & _ & Sx). simpl in El.
        destruct s as [|s1 x' s2]; [done|]. injection Hx as ->.
        simpl in Sx. destruct Sx as (Ep & _). simpl in Ep. rewrite Ep, El.
        rewrite bool_decide_eq_false. intros Hb%broot_in.
        apply NoDup_app in ND' as (_ & ND' & _). apply (ND' x Hb).
        set_solver. }
    intros [|fuel]; [right; split; [done|simpl; lia]|].
    simpl CTextLogn.nodeToIndex_loop. rewrite Hil, Hpf.
    destruct f as [y r|l y]; simpl fid.
    + destruct (IH (BNode s y r) y g eq_refl S ND C fuel) as [E|[E ?]].
      * left. rewrite E. done.
      * right. split; [done|simpl in *; lia].
    + destruct (IH (BNode l y s) y
                  (g + CTextLogn.countOf h (Node.bLeftChild (h !!! y))
                   + (if Node.isPresent (h !!! y) then 1 else 0))
                  eq_refl S ND C fuel) as [E|[E ?]].
      * left. rewrite E. f_equal. simpl.
        simpl in S', C'. destruct S' as (_ & El & _). simpl in El.
        destruct C' as (_ & Cl & _).
        rewrite El, (countOf_counted _ _ _ Cl). unfold tpres, b2z. lia.
      * right. split; [done|simpl in *; lia].
Qed.

Lemma nodeToIndex_spec (h : gmap string Node.t) c l x r :
  shape (tlinks h) None (plug c (BNode l x r)) →
  NoDup (inorder (plug c (BNode l x r))) →
  counted (tcnt h) (tpres h) (plug c (BNode l x r)) →
  computes (λ fuel, CTextLogn.nodeToIndex fuel h x) (length c + 1)
    (cbefore (tpres h) c + tcount (tpres h) l, tpres h x).
Proof.
  intros S ND C fuel. unfold CTextLogn.nodeToIndex.
  pose proof S as S'. apply shape_plug in S' as [_ S']. simpl in S'.
  destruct S' as (Hp & Hl & _). simpl in Hp, Hl.
  pose proof C as C'. apply counted_plug in C' as [C' _]. simpl in C'.
  destruct C' as (_ & Cl & _).
  rewrite Hp, Hl, (countOf_counted _ _ _ Cl).
  destruct (nodeToIndex_loop_spec h c (BNode l x r) x (tcount (tpres h) l)
              eq_refl S ND C fuel) as [E|[E ?]].
  - left. rewrite E. simpl. do 2 f_equal. lia.
  - right. by rewrite E.
Qed.

(** ** Walking down from the root: the node at an index *)

Lemma computes_S {A} (run run' : nat → result A) n a :
  run 0%nat = OutOfFuel → (∀ f, run (S f) = run' f) →
  computes run' n a → computes run (S n) a.
Proof.
  intros H0 HS Hc [|fuel]; [right; split; [done|lia]|].
  rewrite HS. destruct (Hc fuel) as [|[? ?]]; [by left|right; split; [done|lia]].
Qed.

Lemma computes_ret {A} (run : nat → result A) a :
  run 0%nat = OutOfFuel → (∀ f, run (S f) = Ok a) → computes run 1 a.
Proof.
  intros H0 HS [|fuel]; [right; split; [done|lia]|left; apply HS].
Qed.

Lemma indexToNode_loop_S f (h : gmap string Node.t) remaining current :
  CTextLogn.indexToNode_loop (S f) h remaining current =
    let n := h !!! current in
    let goLeft :=
      match Node.bLeftChild n with
      | Some child => remaining <? Node.bCount (h !!! child)
      | None => false
      end in
    if goLeft then
      match Node.bLeftChild n with
      | Some child => CTextLogn.indexToNode_loop f h remaining child
      | None => Throw TypeError
      end
    else
      let remaining := remaining - CTextLogn.countOf h (Node.bLeftChild n) in
      if Node.isPresent n && (remaining =? 0) then Ok current
      else
        let remaining := remaining - (if Node.isPresent n then 1 else 0) in
        match Node.bRightChild n with
        | None => Throw InternalError
        | Some r =>
            if Node.bCount (h !!! r) <? remaining then Throw InternalError
            else CTextLogn.indexToNode_loop f h remaining r
        end.
Proof.
  simpl. destruct (Node.bLeftChild (h !!! current)) as [child|]; simpl.
  - destruct (remaining <? Node.bCount (h !!! child)); [done|].
    destruct (Node.isPresent (h !!! current)); simpl; [|by rewrite Z.sub_0_r].
    by destruct (remaining - Node.bCount (h !!! child) =? 0).
  - rewrite !Z.sub_0_r.
    destruct (Node.isPresent (h !!! current)); simpl; [|by rewrite Z.sub_0_r].
    by destruct (remaining =? 0).
Qed.

Lemma indexToNode_loop_spec (h : gmap string Node.t) t : ∀ c0 i x0,
  broot t = Some x0 →
  shape (tlinks h) None (plug c0 t) →
  counted (tcnt h) (tpres h) (plug c0 t) →
  0 ≤ i < tcount (tpres h) t →
  ∃ c l x r n,
    plug c0 t = plug c (BNode l x r) ∧ tpres h x = true
    ∧ cbefore (tpres h) c + tcount (tpres h) l = cbefore (tpres h) c0 + i
    ∧ computes (λ fuel, CTextLogn.indexToNode_loop fuel h i x0) n x.
Proof.
  induction t as [|l IHl y r IHr]; intros c0 i x0; simpl; [done|].
  intros [= <-] Sh C Hi.
  pose proof Sh as S'. apply shape_plug in S' as [_ S']. simpl in S'.
  destruct S' as (_ & El & Er & _). simpl in El, Er.
  pose proof C as C'. apply counted_plug in C' as [C' _]. simpl in C'.
  destruct C' as (_ & Cl & Cr).
  pose proof (countOf_counted _ _ _ Cl) as Kl.
  pose proof (countOf_counted _ _ _ Cr) as Kr.
  pose proof (tcount_nonneg (tpres h) l) as Nl.
  pose proof (tcount_nonneg (tpres h) r) as Nr.
  destruct (decide (i < tcount (tpres h) l)) as [Hlt|Hge].
  - (* into the left subtree *)
    destruct l as [|l1 z l2]; [simpl in Hlt; lia|].
    destruct (IHl (FL y r :: c0) i z eq_refl Sh C ltac:(lia))
      as (c & l' & x & r' & n & E & Hp & Hb & Hc).
    exists c, l', x, r', (S n). split_and!; [done..|].
    apply (computes_S _ (λ fuel, CTextLogn.indexToNode_loop fuel h i z));
      [done| |done].
    intros f. rewrite indexToNode_loop_S. cbv zeta. rewrite El.
    simpl in Kl. simpl broot. cbv iota beta. rewrite Kl.
    by destruct (Z.ltb_spec i (tcount (tpres h) l1 + b2z (tpres h z)
                               + tcount (tpres h) l2)); [|simpl in *; lia].
  - assert ((match Node.bLeftChild (h !!! y) with
             | Some child => i <? Node.bCount (h !!! child)
             | None => false
             end) = false) as Hgo.
    { rewrite El. destruct l as [|l1 z l2]; [done|]. simpl.
      simpl in Kl. rewrite Kl. apply Z.ltb_ge. simpl in Hge. lia. }
    destruct (decide (tpres h y = true ∧ i = tcount (tpres h) l)) as [[Hp ->]|Hn].
    + (* this node *)
      exists c0, l, y, r, 1%nat. split_and!; [done|done|lia|].
      apply computes_ret; [done|]. intros f.
      rewrite indexToNode_loop_S. cbv zeta. rewrite Hgo, El, Kl.
      unfold tpres in Hp. rewrite Hp, Z.sub_diag. done.
    + (* into the right subtree *)
      set (i' := i - tcount (tpres h) l - b2z (tpres h y)).
      assert (0 ≤ i' < tcount (tpres h) r) as Hi'.
      { unfold i', b2z in *. destruct (tpres h y); [|lia].
        assert (i ≠ tcount (tpres h) l) by naive_solver. lia. }
      destruct r as [|r1 z r2]; [simpl in Hi'; lia|].
      destruct (IHr (FR l y :: c0) i' z eq_refl Sh C Hi')
        as (c & l' & x & r' & n & E & Hp & Hb & Hc).
      exists c, l', x, r', (S n). split_and!; [done|done| |].
      { rewrite Hb. simpl. unfold i'. lia. }
      apply (computes_S _ (λ fuel, CTextLogn.indexToNode_loop fuel h i' z));
        [done| |done].
      intros f. rewrite indexToNode_loop_S. cbv zeta. rewrite Hgo, El, Kl, Er.
      simpl in Kr. simpl broot. cbv iota beta. rewrite Kr.
      assert (Node.isPresent (h !!! y) && (i - tcount (tpres h) l =? 0) = false)
        as ->.
      { apply andb_false_iff. destruct (Node.isPresent (h !!! y)) eqn:Ep; [|auto].
        right. apply Z.eqb_neq. intros E0. apply Hn. split; [done|lia]. }
      fold (tpres h y). fold (b2z (tpres h y)).
      replace (i - tcount (tpres h) l - b2z (tpres h y)) with i' by done.
      by destruct (Z.ltb_spec (tcount (tpres h) r1 + b2z (tpres h z)
                               + tcount (tpres h) r2) i'); [simpl in *; lia|].
Qed.

(** ** The walk of [toString] *)

(** The values of the present nodes of a list of nodes, in order. *)
Definition pvalues (h : gmap string Node.t) (l : list string) : list string :=
  l ≫= λ x, if tpres h x then [Node.value (h !!! x)] else [].

(** The text spelled by a list of nodes. *)
Definition text_of (h : gmap string Node.t) (l : list string) : string :=
  foldr String.append "" (pvalues h l).

Lemma pvalues_app h l1 l2 : pvalues h (l1 ++ l2) = pvalues h l1 ++ pvalues h l2.
Proof. unfold pvalues. apply bind_app. Qed.

Lemma pvalues_cons h x l :
  pvalues h (x :: l) =
    (if tpres h x then [Node.value (h !!! x)] else []) ++ pvalues h l.
Proof. reflexivity. Qed.

Lemma pvalues_absent h t : tcount (tpres h) t = 0 → pvalues h (inorder t) = [].
Proof.
  induction t as [|l IHl x r IHr]; simpl; [done|]. intros E.
  pose proof (tcount_nonneg (tpres h) l). pose proof (tcount_nonneg (tpres h) r).
  rewrite pvalues_app, pvalues_cons, IHl, IHr by (unfold b2z in E; destruct (tpres h x); lia).
  unfold b2z in E. destruct (tpres h x); [lia|done].
Qed.

Lemma pvalues_length h t :
  Z.of_nat (length (pvalues h (inorder t))) = tcount (tpres h) t.
Proof.
  induction t as [|l IHl x r IHr]; simpl; [done|].
  rewrite pvalues_app, pvalues_cons, !length_app, !Nat2Z.inj_add, IHl, IHr.
  unfold b2z. destruct (tpres h x); simpl; lia.
Qed.

Lemma walk_PARENT f (h : gmap string Node.t) x vals :
  CTextLogn.toString_walk (S f) h (Some x) PARENT vals =
    match Node.bLeftChild (h !!! x) with
    | Some l =>
        if Node.bCount (h !!! l) =? 0
        then CTextLogn.toString_walk f h (Some x) LEFT_CHILD vals
        else CTextLogn.toString_walk f h (Some l) PARENT vals
    | None => CTextLogn.toString_walk f h (Some x) LEFT_CHILD vals
    end.
Proof. reflexivity. Qed.

Lemma walk_LEFT_CHILD f (h : gmap string Node.t) x vals :
  CTextLogn.toString_walk (S f) h (Some x) LEFT_CHILD vals =
    let vals := if Node.isPresent (h !!! x)
                then vals ++ [Some (Node.value (h !!! x))] else vals in
    match Node.bRightChild (h !!! x) with
    | Some r =>
        if Node.bCount (h !!! r) =? 0
        then CTextLogn.toString_walk f h (Some x) RIGHT_CHILD vals
        else CTextLogn.toString_walk f h (Some r) PARENT vals
    | None => CTextLogn.toString_walk f h (Some x) RIGHT_CHILD vals
    end.
Proof. reflexivity. Qed.

Lemma walk_RIGHT_CHILD f (h : gmap string Node.t) x vals :
  CTextLogn.toString_walk (S f) h (Some x) RIGHT_CHILD vals =
    CTextLogn.toString_walk f h (Node.bParent (h !!! x))
      (if CTextLogn.bIsLeftChild h x then LEFT_CHILD else RIGHT_CHILD) vals.
Proof. reflexivity. Qed.

Lemma walk_subtree (h : gmap string Node.t) t : ∀ p x,
  broot t = Some x → shape (tlinks h) p t → NoDup (inorder t) →
  counted (tcnt h) (tpres h) t →
  ∃ k, ∀ fuel vals,
    CTextLogn.toString_walk (k + fuel) h (Some x) PARENT vals =
    CTextLogn.toString_walk fuel h (Some x) RIGHT_CHILD
      (vals ++ (Some <$> pvalues h (inorder t))).
Proof.
  induction t as [|l IHl y r IHr]; intros p x; simpl; [done|].
  intros [= <-] (Ep & El & Er & Sl & Sr) ND (_ & Cl & Cr).
  simpl in Ep, El, Er.
  apply NoDup_node in ND as (NDl & NDr & Hyl & Hyr & Hlr).
  pose proof (countOf_counted _ _ _ Cl) as Kl.
  pose proof (countOf_counted _ _ _ Cr) as Kr.
  (* the left subtree *)
  assert (∃ kl, ∀ fuel vals,
    CTextLogn.toString_walk (kl + fuel) h (Some y) PARENT vals =
    CTextLogn.toString_walk fuel h (Some y) LEFT_CHILD
      (vals ++ (Some <$> pvalues h (inorder l)))) as [kl Hkl].
  { destruct l as [|l1 z l2].
    - exists 1%nat. intros fuel vals. simpl plus. rewrite walk_PARENT, El.
      simpl. by rewrite app_nil_r.
    - simpl in Kl. destruct (decide (tcount (tpres h) (BNode l1 z l2) = 0)) as [E0|E0].
      + exists 1%nat. intros fuel vals. simpl plus. rewrite walk_PARENT, El.
        simpl broot. cbv iota beta. simpl in E0. rewrite Kl, E0, Z.eqb_refl.
        rewrite (pvalues_absent h (BNode l1 z l2)) by done.
        by rewrite app_nil_r.
      + destruct (IHl (Some y) z eq_refl Sl NDl Cl) as [k Hk].
        exists (S (k + 1))%nat. intros fuel vals. simpl plus.
        rewrite walk_PARENT, El. simpl broot. cbv iota beta. rewrite Kl.
        simpl in E0. apply Z.eqb_neq in E0. rewrite E0.
        rewrite <- Nat.add_assoc, Hk. simpl plus. rewrite walk_RIGHT_CHILD.
        unfold CTextLogn.bIsLeftChild. simpl in Sl. destruct Sl as (Epz & _).
        simpl in Epz. rewrite Epz, El. simpl.
        by rewrite bool_decide_eq_true_2. }
  (* the node and the right subtree *)
  assert (∃ kr, ∀ fuel vals,
    CTextLogn.toString_walk (kr + fuel) h (Some y) LEFT_CHILD vals =
    CTextLogn.toString_walk fuel h (Some y) RIGHT_CHILD
      (vals ++ (Some <$> pvalues h (y :: inorder r)))) as [kr Hkr].
  { assert (∀ vals : list (option string),
      (if Node.isPresent (h !!! y)
       then vals ++ [Some (Node.value (h !!! y))] else vals)
      = vals ++ (Some <$> (if tpres h y then [Node.value (h !!! y)] else [])))
      as Hpush.
    { intros vals. unfold tpres. destruct (Node.isPresent (h !!! y)); simpl;
        [done|by rewrite app_nil_r]. }
    destruct r as [|r1 z r2].
    - exists 1%nat. intros fuel vals. simpl plus. rewrite walk_LEFT_CHILD, Er.
      cbv zeta. rewrite Hpush, pvalues_cons. simpl. by rewrite app_nil_r.
    - simpl in Kr. destruct (decide (tcount (tpres h) (BNode r1 z r2) = 0)) as [E0|E0].
      + exists 1%nat. intros fuel vals. simpl plus. rewrite walk_LEFT_CHILD, Er.
        cbv zeta. simpl broot. cbv iota beta. simpl in E0. rewrite Kr, E0, Z.eqb_refl.
        rewrite Hpush, pvalues_cons.
        rewrite (pvalues_absent h (BNode r1 z r2)) by done.
        by rewrite app_nil_r.
      + destruct (IHr (Some y) z eq_refl Sr NDr Cr) as [k Hk].
        exists (S (k + 1))%nat. intros fuel vals. simpl plus.
        rewrite walk_LEFT_CHILD, Er. cbv zeta. simpl broot. cbv iota beta.
        rewrite Kr. simpl in E0. apply Z.eqb_neq in E0. rewrite E0.
        rewrite <- Nat.add_assoc, Hk. simpl plus. rewrite walk_RIGHT_CHILD.
        unfold CTextLogn.bIsLeftChild. simpl in Sr. destruct Sr as (Epz & _).
        simpl in Epz. rewrite Epz, El.
        rewrite bool_decide_eq_false_2.
        * rewrite Hpush, pvalues_cons, fmap_app, app_assoc. done.
        * intros Hb%broot_in. apply (Hlr z Hb). simpl. set_solver. }
  exists (kl + kr)%nat. intros fuel vals.
  rewrite <- Nat.add_assoc, Hkl, Hkr, pvalues_app, fmap_app, app_assoc. done.
Qed.

Lemma walk_mono f : ∀ (h : gmap string Node.t) node lw vals v,
  CTextLogn.toString_walk f h node lw vals = Ok v →
  CTextLogn.toString_walk (S f) h node lw vals = Ok v.
Proof.
  induction f as [|f IH]; intros h node lw vals v; [done|].
  destruct node as [x|]; [|done].
  destruct lw.
  - rewrite walk_PARENT, (walk_PARENT (S f)).
    destruct (Node.bLeftChild (h !!! x)); [|apply IH].
    destruct (_ =? _); apply IH.
  - rewrite walk_LEFT_CHILD, (walk_LEFT_CHILD (S f)). cbv zeta.
    destruct (Node.bRightChild (h !!! x)); [|apply IH].
    destruct (_ =? _); apply IH.
  - rewrite walk_RIGHT_CHILD, (walk_RIGHT_CHILD (S f)). apply IH.
Qed.

Lemma walk_mono_le f f' (h : gmap string Node.t) node lw vals v :
  (f ≤ f')%nat →
  CTextLogn.toString_walk f h node lw vals = Ok v →
  CTextLogn.toString_walk f' h node lw vals = Ok v.
Proof. induction 1; [done|]. intros E. by apply walk_mono, IHle. Qed.

Lemma walk_no_throw f : ∀ (h : gmap string Node.t) node lw vals e,
  CTextLogn.toString_walk f h node lw vals ≠ Throw e.
Proof.
  induction f as [|f IH]; intros h node lw vals e; [done|].
  destruct node as [x|]; [|done].
  destruct lw.
  - rewrite walk_PARENT.
    destruct (Node.bLeftChild (h !!! x)); [|apply IH].
    destruct (_ =? _); apply IH.
  - rewrite walk_LEFT_CHILD. cbv zeta.
    destruct (Node.bRightChild (h !!! x)); [|apply IH].
    destruct (_ =? _); apply IH.
  - rewrite walk_RIGHT_CHILD. apply IH.
Qed.

Lemma walk_root (h : gmap string Node.t) t x :
  broot t = Some x → shape (tlinks h) None t → NoDup (inorder t) →
  counted (tcnt h) (tpres h) t →
  ∃ k, ∀ fuel vals, (k ≤ fuel)%nat →
    CTextLogn.toString_walk fuel h (Some x) PARENT vals =
      Ok (vals ++ (Some <$> pvalues h (inorder t))).
Proof.
  intros Hx S ND C.
  destruct (walk_subtree h t None x Hx S ND C) as [k Hk].
  exists (k + 2)%nat. intros fuel vals Hf.
  apply (walk_mono_le (k + 2)); [done|].
  rewrite Hk. simpl plus. rewrite walk_RIGHT_CHILD.
  destruct t as [|l y r]; [done|]. injection Hx as ->.
  simpl in S. destruct S as (Ep & _). simpl in Ep. by rewrite Ep.
Qed.

Lemma join_holes n (vs : list string) :
  CTextLogn.join (replicate n None ++ (Some <$> vs)) = foldr String.append "" vs.
Proof.
  unfold CTextLogn.join. induction n as [|n IH]; simpl; [|exact IH].
  induction vs as [|v vs IH]; simpl; [done|]. f_equal. exact IH.
Qed.

Lemma length_append (s1 s2 : string) :
  String.length (s1 +:+ s2) = (String.length s1 + String.length s2)%nat.
Proof. induction s1 as [|a s1 IH]; simpl; [done|]. by rewrite IH. Qed.

Lemma length_concat_chars (vs : list string) :
  Forall (λ v, String.length v = 1%nat) vs →
  String.length (foldr String.append "" vs) = length vs.
Proof.
  induction 1 as [|v vs Hv _ IH]; simpl; [done|].
  by rewrite length_append, Hv, IH.
Qed.

(** ** Rotations of the balanced index *)

(** [shape] without the parent of the root. *)
Definition shape' {K} (L : links K) (t : btree K) : Prop :=
  match t with
  | BLeaf => True
  | BNode l x r =>
      lft L x = broot l ∧ rgt L x = broot r
      ∧ shape L (Some x) l ∧ shape L (Some x) r
  end.

Lemma shape_shape' {K} (L : links K) p (t : btree K) :
  shape L p t ↔ shape' L t ∧ ∀ x, broot t = Some x → par L x = p.
Proof.
  destruct t as [|l x r]; simpl; [naive_solver|].
  split; [intros (? & ? & ? & ? & ?); split_and!; try done; by intros ? [= <-]|].
  intros ((? & ? & ? & ?) & Hp). split_and!; try done. by apply Hp.
Qed.

(** What a rotation leaves alone: nodes outside the rotated subtree, and the
    fields that the balanced index does not own. *)
Definition rotated (h h' : gmap string Node.t) (sub sub' : btree string) : Prop :=
  shape' (tlinks h') sub'
  ∧ counted (tcnt h') (tpres h') sub'
  ∧ inorder sub' = inorder sub
  ∧ (∀ y, y ∉ inorder sub → h' !!! y = h !!! y)
  ∧ (∀ y, core (h' !!! y) = core (h !!! y))
  ∧ ((∀ y, y ∈ inorder sub → is_Some (h !! y)) → dom h' = dom h).

Lemma core_wr_links (h : gmap string Node.t) f x y :
  (∀ n, core (f n) = core n) →
  core (CTextLogn.wr f x h !!! y) = core (h !!! y).
Proof. intros Hf. rewrite wr_lookup. destruct (decide (x = y)) as [->|]; [apply Hf|done]. Qed.

Lemma wr_eq f x (h : gmap string Node.t) :
  CTextLogn.wr f x h !!! x = f (h !!! x).
Proof. rewrite wr_lookup. by destruct (decide (x = x)). Qed.

Lemma wr_ne f x (h : gmap string Node.t) y :
  x ≠ y → CTextLogn.wr f x h !!! y = h !!! y.
Proof. intros. rewrite wr_lookup. by destruct (decide (x = y)). Qed.

Lemma updateBCount_eq (h : gmap string Node.t) x :
  CTextLogn.updateBCount h x !!! x =
    Node.set_bCount
      (CTextLogn.countOf h (Node.bLeftChild (h !!! x))
       + (if Node.isPresent (h !!! x) then 1 else 0)
       + CTextLogn.countOf h (Node.bRightChild (h !!! x))) (h !!! x).
Proof. unfold CTextLogn.updateBCount. by rewrite wr_eq. Qed.

Lemma updateBCount_ne (h : gmap string Node.t) x y :
  x ≠ y → CTextLogn.updateBCount h x !!! y = h !!! y.
Proof. intros. unfold CTextLogn.updateBCount. by rewrite wr_ne. Qed.

Lemma reparent_eq (h : gmap string Node.t) p w :
  CTextLogn.reparent (Some w) p h !!! w = Node.set_bParent (Some p) (h !!! w).
Proof. apply wr_eq. Qed.

Lemma reparent_ne (h : gmap string Node.t) child p w :
  child ≠ Some w → CTextLogn.reparent child p h !!! w = h !!! w.
Proof.
  intros Hne. destruct child as [c|]; simpl; [|done].
  apply wr_ne. congruence.
Qed.

(** The factor assignments touch nothing but [bF]. *)
Definition nobf (n : Node.t) : Node.t := Node.set_bF 0 n.

Lemma single_factors (h : gmap string Node.t) X Zn w :
  nobf (CTextLogn.singleRotationFactors h X Zn !!! w) = nobf (h !!! w).
Proof.
  unfold CTextLogn.singleRotationFactors.
  destruct (_ =? 0); rewrite !wr_lookup;
    destruct (decide (Zn = w)) as [->|]; destruct (decide (X = w)) as [->|];
    try done; by destruct (decide (X = w)).
Qed.

Lemma double_factors (h : gmap string Node.t) X Zn Y w :
  nobf (CTextLogn.doubleRotationFactors h X Zn Y !!! w) = nobf (h !!! w).
Proof.
  unfold CTextLogn.doubleRotationFactors.
  destruct (_ =? 0); [|destruct (0 <? _)]; rewrite !wr_lookup;
    destruct (decide (Y = w)) as [->|]; destruct (decide (Zn = w)) as [->|];
    destruct (decide (X = w)) as [->|]; try done;
    repeat (destruct (decide _)); try done.
Qed.

Lemma nobf_fields (n n' : Node.t) :
  nobf n = nobf n' →
  Node.bParent n = Node.bParent n' ∧ Node.bLeftChild n = Node.bLeftChild n'
  ∧ Node.bRightChild n = Node.bRightChild n' ∧ Node.bCount n = Node.bCount n'
  ∧ Node.isPresent n = Node.isPresent n' ∧ core n = core n'.
Proof.
  intros E. destruct n, n'. unfold nobf, Node.set_bF in E. simpl in E.
  injection E; intros; subst. unfold core. simpl. done.
Qed.

Lemma single_bParent h X Zn w :
  Node.bParent (CTextLogn.singleRotationFactors h X Zn !!! w) = Node.bParent (h !!! w).
Proof. apply (nobf_fields _ _ (single_factors h X Zn w)). Qed.
Lemma single_bLeftChild h X Zn w :
  Node.bLeftChild (CTextLogn.singleRotationFactors h X Zn !!! w)
  = Node.bLeftChild (h !!! w).
Proof. apply (nobf_fields _ _ (single_factors h X Zn w)). Qed.
Lemma single_bRightChild h X Zn w :
  Node.bRightChild (CTextLogn.singleRotationFactors h X Zn !!! w)
  = Node.bRightChild (h !!! w).
Proof. apply (nobf_fields _ _ (single_factors h X Zn w)). Qed.
Lemma single_bCount h X Zn w :
  Node.bCount (CTextLogn.singleRotationFactors h X Zn !!! w) = Node.bCount (h !!! w).
Proof. apply (nobf_fields _ _ (single_factors h X Zn w)). Qed.
Lemma single_isPresent h X Zn w :
  Node.isPresent (CTextLogn.singleRotationFactors h X Zn !!! w)
  = Node.isPresent (h !!! w).
Proof. apply (nobf_fields _ _ (single_factors h X Zn w)). Qed.
Lemma single_core h X Zn w :
  core (CTextLogn.singleRotationFactors h X Zn !!! w) = core (h !!! w).
Proof. apply (nobf_fields _ _ (single_factors h X Zn w)). Qed.
Lemma single_ne h X Zn w :
  X ≠ w → Zn ≠ w → CTextLogn.singleRotationFactors h X Zn !!! w = h !!! w.
Proof.
  intros. unfold CTextLogn.singleRotationFactors.
  destruct (_ =? 0); by rewrite !wr_ne.
Qed.

Lemma double_bParent h X Zn Y w :
  Node.bParent (CTextLogn.doubleRotationFactors h X Zn Y !!! w)
  = Node.bParent (h !!! w).
Proof. apply (nobf_fields _ _ (double_factors h X Zn Y w)). Qed.
Lemma double_bLeftChild h X Zn Y w :
  Node.bLeftChild (CTextLogn.doubleRotationFactors h X Zn Y !!! w)
  = Node.bLeftChild (h !!! w).
Proof. apply (nobf_fields _ _ (double_factors h X Zn Y w)). Qed.
Lemma double_bRightChild h X Zn Y w :
  Node.bRightChild (CTextLogn.doubleRotationFactors h X Zn Y !!! w)
  = Node.bRightChild (h !!! w).
Proof. apply (nobf_fields _ _ (double_factors h X Zn Y w)). Qed.
Lemma double_bCount h X Zn Y w :
  Node.bCount (CTextLogn.doubleRotationFactors h X Zn Y !!! w)
  = Node.bCount (h !!! w).
Proof. apply (nobf_fields _ _ (double_factors h X Zn Y w)). Qed.
Lemma double_isPresent h X Zn Y w :
  Node.isPresent (CTextLogn.doubleRotationFactors h X Zn Y !!! w)
  = Node.isPresent (h !!! w).
Proof. apply (nobf_fields _ _ (double_factors h X Zn Y w)). Qed.
Lemma double_core h X Zn Y w :
  core (CTextLogn.doubleRotationFactors h X Zn Y !!! w) = core (h !!! w).
Proof. apply (nobf_fields _ _ (double_factors h X Zn Y w)). Qed.
Lemma double_ne h X Zn Y w :
  X ≠ w → Zn ≠ w → Y ≠ w →
  CTextLogn.doubleRotationFactors h X Zn Y !!! w = h !!! w.
Proof.
  intros. unfold CTextLogn.doubleRotationFactors.
  destruct (_ =? 0); [|destruct (0 <? _)]; by rewrite !wr_ne.
Qed.

Lemma core_set_bCount k n : core (Node.set_bCount k n) = core n.
Proof. reflexivity. Qed.
Lemma core_set_bParent k n : core (Node.set_bParent k n) = core n.
Proof. reflexivity. Qed.
Lemma core_set_bLeftChild k n : core (Node.set_bLeftChild k n) = core n.
Proof. reflexivity. Qed.
Lemma core_set_bRightChild k n : core (Node.set_bRightChild k n) = core n.
Proof. reflexivity. Qed.
Lemma core_set_bF k n : core (Node.set_bF k n) = core n.
Proof. reflexivity. Qed.

(** Read through a sequence of writes, given the (dis)equalities of keys. *)
Ltac rd :=
  repeat first
    [ rewrite wr_eq | rewrite updateBCount_eq | rewrite reparent_eq
    | rewrite wr_ne by congruence | rewrite updateBCount_ne by congruence
    | rewrite reparent_ne by congruence
    | rewrite single_ne by congruence | rewrite double_ne by congruence
    | rewrite core_set_bCount | rewrite core_set_bParent
    | rewrite core_set_bLeftChild | rewrite core_set_bRightChild
    | rewrite core_set_bF
    | rewrite single_bParent | rewrite single_bLeftChild
    | rewrite single_bRightChild | rewrite single_bCount
    | rewrite single_isPresent | rewrite single_core
    | rewrite double_bParent | rewrite double_bLeftChild
    | rewrite double_bRightChild | rewrite double_bCount
    | rewrite double_isPresent | rewrite double_core
    | progress cbn [Node.bParent Node.bLeftChild Node.bRightChild Node.bF
        Node.bCount Node.isPresent
        Node.set_bParent Node.set_bLeftChild Node.set_bRightChild Node.set_bF
        Node.set_bCount Node.set_isPresent] ].

Lemma wr_dom' f x (h : gmap string Node.t) :
  x ∈ dom h → dom (CTextLogn.wr f x h) = dom h.
Proof. intros Hx. apply wr_dom. by apply elem_of_dom. Qed.

Lemma updateBCount_dom (h : gmap string Node.t) x :
  x ∈ dom h → dom (CTextLogn.updateBCount h x) = dom h.
Proof. apply wr_dom'. Qed.

Lemma dom_wr f x (h0 h : gmap string Node.t) :
  x ∈ dom h0 → dom h = dom h0 → dom (CTextLogn.wr f x h) = dom h0.
Proof. intros Hx E. rewrite wr_dom'; [done|by rewrite E]. Qed.

Lemma dom_updateBCount x (h0 h : gmap string Node.t) :
  x ∈ dom h0 → dom h = dom h0 → dom (CTextLogn.updateBCount h x) = dom h0.
Proof. apply dom_wr. Qed.

Lemma dom_reparent child p (h0 h : gmap string Node.t) :
  (∀ w, child = Some w → w ∈ dom h0) → dom h = dom h0 →
  dom (CTextLogn.reparent child p h) = dom h0.
Proof. destruct child as [w|]; simpl; [|done]. intros Hw. apply dom_wr. by apply Hw. Qed.

Lemma dom_single X Zn (h0 h : gmap string Node.t) :
  X ∈ dom h0 → Zn ∈ dom h0 → dom h = dom h0 →
  dom (CTextLogn.singleRotationFactors h X Zn) = dom h0.
Proof.
  intros. unfold CTextLogn.singleRotationFactors.
  destruct (_ =? 0); by repeat apply dom_wr.
Qed.

Lemma dom_double X Zn Y (h0 h : gmap string Node.t) :
  X ∈ dom h0 → Zn ∈ dom h0 → Y ∈ dom h0 → dom h = dom h0 →
  dom (CTextLogn.doubleRotationFactors h X Zn Y) = dom h0.
Proof.
  intros. unfold CTextLogn.doubleRotationFactors.
  destruct (_ =? 0); [|destruct (0 <? _)]; by repeat apply dom_wr.
Qed.

(** The domain after a sequence of writes to keys of the domain; the
    memberships are taken from the context. *)
Ltac solve_dom :=
  repeat first [ apply dom_double; [assumption|assumption|assumption|]
               | apply dom_single; [assumption|assumption|]
               | apply dom_reparent; [assumption|]
               | apply dom_updateBCount; [assumption|]
               | apply dom_wr; [assumption|] ];
  reflexivity.

Lemma elem_of_inorder_node {K} (l r : btree K) (x y : K) :
  y ∈ inorder (BNode l x r) ↔ y ∈ inorder l ∨ y = x ∨ y ∈ inorder r.
Proof. simpl. rewrite elem_of_app, elem_of_cons. tauto. Qed.

(** Membership in the nodes of a tree given by its constructors. *)
Ltac ino := rewrite ?elem_of_inorder_node; auto 8.

(** Assembling the result of a single rotation that lifts [z] above [x]:
    [old] is the subtree that moves from [z] to [x]. *)
Lemma rotated_single (h h' : gmap string Node.t) (sub sub' : btree string)
    (a old c : btree string) (x z : string) (left_heavy : bool) :
  sub = (if left_heavy then BNode (BNode a z old) x c
         else BNode c x (BNode old z a)) →
  sub' = (if left_heavy then BNode a z (BNode old x c)
          else BNode (BNode c x old) z a) →
  (∃ q, shape (tlinks h) q sub) → NoDup (inorder sub) →
  counted (tcnt h) (tpres h) sub →
  (∀ y, y ≠ x → y ≠ z → broot old ≠ Some y → h' !!! y = h !!! y) →
  (∀ y, broot old = Some y → h' !!! y = Node.set_bParent (Some x) (h !!! y)) →
  Node.bParent (h' !!! x) = Some z →
  Node.bLeftChild (h' !!! x) = (if left_heavy then broot old else broot c) →
  Node.bRightChild (h' !!! x) = (if left_heavy then broot c else broot old) →
  Node.bCount (h' !!! x)
    = tcount (tpres h) old + b2z (tpres h x) + tcount (tpres h) c →
  core (h' !!! x) = core (h !!! x) →
  Node.bLeftChild (h' !!! z) = (if left_heavy then broot a else Some x) →
  Node.bRightChild (h' !!! z) = (if left_heavy then Some x else broot a) →
  Node.bCount (h' !!! z)
    = tcount (tpres h) a + b2z (tpres h z)
      + (tcount (tpres h) old + b2z (tpres h x) + tcount (tpres h) c) →
  core (h' !!! z) = core (h !!! z) →
  ((∀ y, y ∈ inorder sub → is_Some (h !! y)) → dom h' = dom h) →
  rotated h h' sub sub'.
Proof.
  intros -> -> [q S] ND C Hout Hold Hx1 Hx2 Hx3 Hx4 Hx5 Hz2 Hz3 Hz4 Hz5 Hdom.
  assert (∀ y, core (h' !!! y) = core (h !!! y)) as Hcore.
  { intros y. destruct (decide (y = x)) as [->|]; [done|].
    destruct (decide (y = z)) as [->|]; [done|].
    destruct (decide (broot old = Some y)) as [E|]; [|by rewrite Hout].
    by rewrite (Hold y E). }
  assert (∀ y, tpres h' y = tpres h y) as Hpres.
  { intros y. unfold tpres. specialize (Hcore y). unfold core in Hcore. congruence. }
  assert (∀ t, tcount (tpres h') t = tcount (tpres h) t) as Htc.
  { intros t. apply tcount_ext. auto. }
  assert (∀ t p, (∀ y, y ∈ inorder t → y ≠ x ∧ y ≠ z ∧ broot old ≠ Some y) →
                 shape (tlinks h) p t → shape (tlinks h') p t) as Hfr.
  { intros t p Ht. apply shape_frame. intros y Hy. simpl.
    destruct (Ht y Hy) as (? & ? & ?). by rewrite Hout. }
  assert (∀ t, (∀ y, y ∈ inorder t → y ≠ x ∧ y ≠ z ∧ broot old ≠ Some y) →
               counted (tcnt h) (tpres h) t → counted (tcnt h') (tpres h') t)
    as Hfc.
  { intros t Ht. apply counted_ext. intros y Hy.
    destruct (Ht y Hy) as (? & ? & ?). unfold tcnt. split; [|done].
    by rewrite Hout. }
  assert (∀ p, NoDup (inorder old) → x ∉ inorder old → z ∉ inorder old →
               shape (tlinks h) p old → shape (tlinks h') (Some x) old) as Hro.
  { intros p NDo Hxo Hzo. apply shape_reparent; [done|..].
    - intros y Hy. simpl.
      destruct (decide (broot old = Some y)) as [E|].
      + by rewrite (Hold y E).
      + rewrite Hout; [done|by intros ->|by intros ->|done].
    - intros y Hy Hne. simpl.
      rewrite Hout; [done|by intros ->|by intros ->|done].
    - intros y E. simpl. by rewrite (Hold y E). }
  assert (NoDup (inorder old) → x ∉ inorder old → z ∉ inorder old →
          counted (tcnt h) (tpres h) old → counted (tcnt h') (tpres h') old)
    as Hco.
  { intros NDo Hxo Hzo. apply counted_ext. intros y Hy. split; [|done].
    unfold tcnt. destruct (decide (broot old = Some y)) as [E|].
    - by rewrite (Hold y E).
    - rewrite Hout; [done|by intros ->|by intros ->|done]. }
  destruct left_heavy.
  - destruct S as (_ & _ & _ & (_ & _ & _ & Sa & So) & Sc).
    apply NoDup_node in ND as (NDl & NDc & Hxl & Hxc & Hlc).
    apply NoDup_node in NDl as (NDa & NDo & Hza & Hzo & Hao).
    destruct C as (_ & (_ & Ca & Co) & Cc).
    assert (x ∉ inorder old) as Hxo by (intros ?; apply Hxl; ino).
    assert (∀ y, y ∈ inorder a → y ≠ x ∧ y ≠ z ∧ broot old ≠ Some y) as Ha.
    { intros y Hy. split_and!.
      - intros ->. apply Hxl. simpl. set_solver.
      - by intros ->.
      - intros ?%broot_in. by apply (Hao y). }
    assert (∀ y, y ∈ inorder c → y ≠ x ∧ y ≠ z ∧ broot old ≠ Some y) as Hc.
    { intros y Hy. split_and!.
      - by intros ->.
      - intros ->. apply (Hlc z); [ino|done].
      - intros ?%broot_in. apply (Hlc y); [ino|done]. }
    split_and!; try done.
    + simpl. split_and!; try done; eauto.
    + simpl. rewrite !Htc, !Hpres. unfold tcnt.
      split_and!; try done; eauto; lia.
    + simpl. by rewrite <- app_assoc.
    + intros y Hy. apply Hout.
      * intros ->. apply Hy. ino.
      * intros ->. apply Hy. ino.
      * intros ?%broot_in. apply Hy. ino.
  - destruct S as (_ & _ & _ & Sc & (_ & _ & _ & So & Sa)).
    apply NoDup_node in ND as (NDc & NDr & Hxc & Hxr & Hcr).
    apply NoDup_node in NDr as (NDo & NDa & Hzo & Hza & Hoa).
    destruct C as (_ & Cc & (_ & Co & Ca)).
    assert (x ∉ inorder old) as Hxo by (intros ?; apply Hxr; ino).
    assert (∀ y, y ∈ inorder a → y ≠ x ∧ y ≠ z ∧ broot old ≠ Some y) as Ha.
    { intros y Hy. split_and!.
      - intros ->. apply Hxr. simpl. set_solver.
      - by intros ->.
      - intros ?%broot_in. by apply (Hoa y). }
    assert (∀ y, y ∈ inorder c → y ≠ x ∧ y ≠ z ∧ broot old ≠ Some y) as Hc.
    { intros y Hy. split_and!.
      - by intros ->.
      - intros ->. apply (Hcr z); [done|ino].
      - intros ?%broot_in. apply (Hcr y); [done|ino]. }
    split_and!; try done.
    + simpl. split_and!; try done; eauto.
    + simpl. rewrite !Htc, !Hpres. unfold tcnt.
      split_and!; try done; eauto; lia.
    + simpl. by rewrite <- app_assoc.
    + intros y Hy. apply Hout.
      * intros ->. apply Hy. ino.
      * intros ->. apply Hy. ino.
      * intros ?%broot_in. apply Hy. ino.
Qed.

(** Assembling the result of a double rotation that lifts [y] above [z] and
    [x]: [b1] moves from [y] to [z], [b2] from [y] to [x]. *)
Lemma rotated_double (h h' : gmap string Node.t) (sub sub' : btree string)
    (a b1 b2 c : btree string) (x y z : string) (left_heavy : bool) :
  sub = (if left_heavy then BNode (BNode a z (BNode b1 y b2)) x c
         else BNode c x (BNode (BNode b2 y b1) z a)) →
  sub' = (if left_heavy then BNode (BNode a z b1) y (BNode b2 x c)
          else BNode (BNode c x b2) y (BNode b1 z a)) →
  (∃ q, shape (tlinks h) q sub) → NoDup (inorder sub) →
  counted (tcnt h) (tpres h) sub →
  (∀ w, w ≠ x → w ≠ y → w ≠ z → broot b1 ≠ Some w → broot b2 ≠ Some w →
        h' !!! w = h !!! w) →
  (∀ w, broot b1 = Some w → h' !!! w = Node.set_bParent (Some z) (h !!! w)) →
  (∀ w, broot b2 = Some w → h' !!! w = Node.set_bParent (Some x) (h !!! w)) →
  Node.bParent (h' !!! x) = Some y →
  Node.bLeftChild (h' !!! x) = (if left_heavy then broot b2 else broot c) →
  Node.bRightChild (h' !!! x) = (if left_heavy then broot c else broot b2) →
  Node.bCount (h' !!! x)
    = tcount (tpres h) b2 + b2z (tpres h x) + tcount (tpres h) c →
  core (h' !!! x) = core (h !!! x) →
  Node.bParent (h' !!! z) = Some y →
  Node.bLeftChild (h' !!! z) = (if left_heavy then broot a else broot b1) →
  Node.bRightChild (h' !!! z) = (if left_heavy then broot b1 else broot a) →
  Node.bCount (h' !!! z)
    = tcount (tpres h) a + b2z (tpres h z) + tcount (tpres h) b1 →
  core (h' !!! z) = core (h !!! z) →
  Node.bLeftChild (h' !!! y) = (if left_heavy then Some z else Some x) →
  Node.bRightChild (h' !!! y) = (if left_heavy then Some x else Some z) →
  Node.bCount (h' !!! y)
    = (tcount (tpres h) a + b2z (tpres h z) + tcount (tpres h) b1)
      + b2z (tpres h y)
      + (tcount (tpres h) b2 + b2z (tpres h x) + tcount (tpres h) c) →
  core (h' !!! y) = core (h !!! y) →
  ((∀ w, w ∈ inorder sub → is_Some (h !! w)) → dom h' = dom h) →
  rotated h h' sub sub'.
Proof.
  intros -> -> [q S] ND C Hout Hb1 Hb2 Hx1 Hx2 Hx3 Hx4 Hx5
    Hz1 Hz2 Hz3 Hz4 Hz5 Hy2 Hy3 Hy4 Hy5 Hdom.
  assert (∀ w, core (h' !!! w) = core (h !!! w)) as Hcore.
  { intros w. destruct (decide (w = x)) as [->|]; [done|].
    destruct (decide (w = y)) as [->|]; [done|].
    destruct (decide (w = z)) as [->|]; [done|].
    destruct (decide (broot b1 = Some w)) as [E|]; [by rewrite (Hb1 w E)|].
    destruct (decide (broot b2 = Some w)) as [E|]; [by rewrite (Hb2 w E)|].
    by rewrite Hout. }
  assert (∀ w, tpres h' w = tpres h w) as Hpres.
  { intros w. unfold tpres. specialize (Hcore w). unfold core in Hcore. congruence. }
  assert (∀ t, tcount (tpres h') t = tcount (tpres h) t) as Htc.
  { intros t. apply tcount_ext. auto. }
  (* a subtree that stays where it is *)
  assert (∀ t p, x ∉ inorder t → y ∉ inorder t → z ∉ inorder t →
                 (∀ w, w ∈ inorder t → w ∉ inorder b1) →
                 (∀ w, w ∈ inorder t → w ∉ inorder b2) →
                 shape (tlinks h) p t ∧ counted (tcnt h) (tpres h) t →
                 shape (tlinks h') p t ∧ counted (tcnt h') (tpres h') t) as Hfr.
  { intros t p Hxt Hyt Hzt H1 H2 [St Ct].
    assert (∀ w, w ∈ inorder t → h' !!! w = h !!! w) as E.
    { intros w Hw. apply Hout.
      - by intros ->.
      - by intros ->.
      - by intros ->.
      - intros ?%broot_in. by apply (H1 w).
      - intros ?%broot_in. by apply (H2 w). }
    split.
    - apply (shape_frame (tlinks h)); [|done]. intros w Hw. simpl. by rewrite E.
    - apply (counted_ext (tcnt h) _ (tpres h)); [|done]. intros w Hw.
      unfold tcnt. by rewrite E. }
  (* a subtree that moves under [n] *)
  assert (∀ t p n, NoDup (inorder t) →
            x ∉ inorder t → y ∉ inorder t → z ∉ inorder t →
            (∀ w, w ∈ inorder t → broot t ≠ Some w →
                  broot b1 ≠ Some w ∧ broot b2 ≠ Some w) →
            (∀ w, broot t = Some w →
                  h' !!! w = Node.set_bParent (Some n) (h !!! w)) →
            shape (tlinks h) p t ∧ counted (tcnt h) (tpres h) t →
            shape (tlinks h') (Some n) t ∧ counted (tcnt h') (tpres h') t)
    as Hmv.
  { intros t p n NDt Hxt Hyt Hzt Hin Hroot [St Ct].
    assert (∀ w, w ∈ inorder t → broot t ≠ Some w → h' !!! w = h !!! w) as E.
    { intros w Hw Hne. destruct (Hin w Hw Hne). apply Hout; try done.
      - by intros ->.
      - by intros ->.
      - by intros ->. }
    split.
    - apply (shape_reparent (tlinks h) _ p); try done.
      + intros w Hw. simpl.
        destruct (decide (broot t = Some w)) as [Er|Er].
        * by rewrite (Hroot w Er).
        * by rewrite E.
      + intros w Hw Hne. simpl. by rewrite E.
      + intros w Er. simpl. by rewrite (Hroot w Er).
    - apply (counted_ext (tcnt h) _ (tpres h)); [|done]. intros w Hw.
      unfold tcnt. split; [|done].
      destruct (decide (broot t = Some w)) as [Er|Er].
      + by rewrite (Hroot w Er).
      + by rewrite E. }
  destruct left_heavy.
  - destruct S as (_ & _ & _ & (_ & _ & _ & Sa & (_ & _ & _ & S1 & S2)) & Sc).
    apply NoDup_node in ND as (NDl & NDc & Hxl & Hxc & Hlc).
    apply NoDup_node in NDl as (NDa & NDy & Hza & Hzy & Hay).
    apply NoDup_node in NDy as (ND1 & ND2 & Hy1 & Hy2' & H12).
    destruct C as (_ & (_ & Ca & (_ & C1 & C2)) & Cc).
    destruct (Hfr a (Some z)) as [Sa' Ca']; try done.
    { intros ?. apply Hxl. ino. }
    { intros ?. apply (Hay y); [done|ino]. }
    { intros w Hw ?. apply (Hay w); [done|ino]. }
    { intros w Hw ?. apply (Hay w); [done|ino]. }
    destruct (Hfr c (Some x)) as [Sc' Cc']; try done.
    { intros ?. apply (Hlc y); [ino|done]. }
    { intros ?. apply (Hlc z); [ino|done]. }
    { intros w Hw ?. apply (Hlc w); [ino|done]. }
    { intros w Hw ?. apply (Hlc w); [ino|done]. }
    destruct (Hmv b1 (Some y) z) as [S1' C1']; try done.
    { intros ?. apply Hxl. ino. }
    { intros ?. apply Hzy. ino. }
    { intros w Hw Hne. split; [done|]. intros ?%broot_in. by apply (H12 w). }
    destruct (Hmv b2 (Some y) x) as [S2' C2']; try done.
    { intros ?. apply Hxl. ino. }
    { intros ?. apply Hzy. ino. }
    { intros w Hw Hne. split; [|done]. intros ?%broot_in. by apply (H12 w). }
    unfold rotated. split_and!; [| | |intros w Hw; apply Hout|done|done].
    + simpl. split_and!; done.
    + simpl. rewrite !Htc, !Hpres. unfold tcnt. split_and!; try done; lia.
    + simpl. rewrite <- ?app_assoc. simpl. by rewrite <- ?app_assoc.
    + intros ->. apply Hw. ino.
    + intros ->. apply Hw. ino.
    + intros ->. apply Hw. ino.
    + intros ?%broot_in. apply Hw. ino.
    + intros ?%broot_in. apply Hw. ino.
  - destruct S as (_ & _ & _ & Sc & (_ & _ & _ & (_ & _ & _ & S2 & S1) & Sa)).
    apply NoDup_node in ND as (NDc & NDr & Hxc & Hxr & Hcr).
    apply NoDup_node in NDr as (NDy & NDa & Hzy & Hza & Hya).
    apply NoDup_node in NDy as (ND2 & ND1 & Hy2' & Hy1 & H21).
    destruct C as (_ & Cc & (_ & (_ & C2 & C1) & Ca)).
    destruct (Hfr a (Some z)) as [Sa' Ca']; try done.
    { intros ?. apply Hxr. ino. }
    { intros ?. apply (Hya y); [ino|done]. }
    { intros w Hw ?. apply (Hya w); [ino|done]. }
    { intros w Hw ?. apply (Hya w); [ino|done]. }
    destruct (Hfr c (Some x)) as [Sc' Cc']; try done.
    { intros ?. apply (Hcr y); [done|ino]. }
    { intros ?. apply (Hcr z); [done|ino]. }
    { intros w Hw ?. apply (Hcr w); [done|ino]. }
    { intros w Hw ?. apply (Hcr w); [done|ino]. }
    destruct (Hmv b1 (Some y) z) as [S1' C1']; try done.
    { intros ?. apply Hxr. ino. }
    { intros ?. apply Hzy. ino. }
    { intros w Hw Hne. split; [done|]. intros ?%broot_in. by apply (H21 w). }
    destruct (Hmv b2 (Some y) x) as [S2' C2']; try done.
    { intros ?. apply Hxr. ino. }
    { intros ?. apply Hzy. ino. }
    { intros w Hw Hne. split; [|done]. intros ?%broot_in. by apply (H21 w). }
    unfold rotated. split_and!; [| | |intros w Hw; apply Hout|done|done].
    + simpl. split_and!; done.
    + simpl. rewrite !Htc, !Hpres. unfold tcnt. split_and!; try done; lia.
    + simpl. rewrite <- ?app_assoc. simpl. by rewrite <- ?app_assoc.
    + intros ->. apply Hw. ino.
    + intros ->. apply Hw. ino.
    + intros ->. apply Hw. ino.
    + intros ?%broot_in. apply Hw. ino.
    + intros ?%broot_in. apply Hw. ino.
Qed.


Lemma rotate_Right_spec (h : gmap string Node.t) q a z b x c :
  let sub := BNode (BNode a z b) x c in
  shape (tlinks h) q sub → NoDup (inorder sub) →
  counted (tcnt h) (tpres h) sub →
  rotated h (CTextLogn.rotate_Right h x z) sub (BNode a z (BNode b x c)).
Proof.
  intros sub S ND C. unfold sub in *. clear sub.
  pose proof S as (Epx & Elx & Erx & (Epz & Elz & Erz & Sa & Sb) & Sc).
  simpl in Epx, Elx, Erx, Epz, Elz, Erz.
  pose proof ND as ND'.
  apply NoDup_node in ND' as (NDl & NDc & Hxl & Hxc & Hlc).
  apply NoDup_node in NDl as (NDa & NDb & Hza & Hzb & Hab).
  pose proof C as (Cx & (Cz & Ca & Cb) & Cc).
  assert (x ≠ z) as Hxz by (intros ->; apply Hxl; ino).
  assert (broot a ≠ Some x) as Nax by (intros Hy%broot_in; apply Hxl; ino).
  assert (broot a ≠ Some z) as Naz by (intros Hy%broot_in; done).
  assert (broot b ≠ Some x) as Nbx by (intros Hy%broot_in; apply Hxl; ino).
  assert (broot b ≠ Some z) as Nbz by (intros Hy%broot_in; done).
  assert (broot c ≠ Some x) as Ncx by (intros Hy%broot_in; done).
  assert (broot c ≠ Some z) as Ncz
    by (intros Hy%broot_in; apply (Hlc z); [ino|done]).
  assert (∀ w, broot b = Some w → broot a ≠ Some w) as Nba
    by (intros w Hb%broot_in Ha%broot_in; by apply (Hab w)).
  assert (∀ w, broot b = Some w → broot c ≠ Some w) as Nbc
    by (intros w Hb%broot_in Ha%broot_in; apply (Hlc w); [ino|done]).
  apply (rotated_single h _ _ _ a b c x z true); try done; [by exists q|..].
  all: rewrite <- ?(countOf_counted h _ _ Ca), <- ?(countOf_counted h _ _ Cb),
         <- ?(countOf_counted h _ _ Cc).
  all: unfold CTextLogn.rotate_Right; rewrite ?Erz.
  - intros y Hyx Hyz Hyb. rd. done.
  - intros y Hy. rewrite Hy. rd. done.
  - rd. done.
  - rd. done.
  - rd. done.
  - rd. rewrite Erx. unfold CTextLogn.countOf, tpres, b2z.
    destruct (broot b) as [b0|] eqn:Eb;
      [pose proof (Nbc _ eq_refl)|]; destruct (broot c) as [c0|] eqn:Ec; rd; done.
  - rd. done.
  - rd. done.
  - rd. done.
  - rd. rewrite Elz. unfold tpres, b2z.
    destruct (broot b) as [b0|] eqn:Eb;
      [pose proof (Nbc _ eq_refl); pose proof (Nba _ eq_refl)|];
      destruct (broot c) as [c0|] eqn:Ec; destruct (broot a) as [a0|] eqn:Ea;
      unfold CTextLogn.countOf; rd; rewrite ?Erx, ?Ec;
      unfold CTextLogn.countOf; rd; lia.
  - rd. done.
  - intros Hd.
  assert (x ∈ dom h) by (apply elem_of_dom, Hd; ino).
  assert (z ∈ dom h) by (apply elem_of_dom, Hd; ino).
  assert (∀ w, broot b = Some w → w ∈ dom h)
    by (intros w Hw%broot_in; apply elem_of_dom, Hd; ino).
  solve_dom.
Qed.


Lemma rotate_Left_spec (h : gmap string Node.t) q a z b x c :
  let sub := BNode c x (BNode b z a) in
  shape (tlinks h) q sub → NoDup (inorder sub) →
  counted (tcnt h) (tpres h) sub →
  rotated h (CTextLogn.rotate_Left h x z) sub (BNode (BNode c x b) z a).
Proof.
  intros sub S ND C. unfold sub in *. clear sub.
  pose proof S as (Epx & Elx & Erx & Sc & (Epz & Elz & Erz & Sb & Sa)).
  simpl in Epx, Elx, Erx, Epz, Elz, Erz.
  pose proof ND as ND'.
  apply NoDup_node in ND' as (NDc & NDr & Hxc & Hxr & Hcr).
  apply NoDup_node in NDr as (NDb & NDa & Hzb & Hza & Hba).
  pose proof C as (Cx & Cc & (Cz & Cb & Ca)).
  assert (x ≠ z) as Hxz by (intros ->; apply Hxr; ino).
  assert (broot a ≠ Some x) as Nax by (intros Hy%broot_in; apply Hxr; ino).
  assert (broot a ≠ Some z) as Naz by (intros Hy%broot_in; done).
  assert (broot b ≠ Some x) as Nbx by (intros Hy%broot_in; apply Hxr; ino).
  assert (broot b ≠ Some z) as Nbz by (intros Hy%broot_in; done).
  assert (broot c ≠ Some x) as Ncx by (intros Hy%broot_in; done).
  assert (broot c ≠ Some z) as Ncz
    by (intros Hy%broot_in; apply (Hcr z); [done|ino]).
  assert (∀ w, broot b = Some w → broot a ≠ Some w) as Nba
    by (intros w Hb%broot_in Ha%broot_in; by apply (Hba w)).
  assert (∀ w, broot b = Some w → broot c ≠ Some w) as Nbc
    by (intros w Hb%broot_in Ha%broot_in; apply (Hcr w); [done|ino]).
  apply (rotated_single h _ _ _ a b c x z false); try done; [by exists q|..].
  all: rewrite <- ?(countOf_counted h _ _ Ca), <- ?(countOf_counted h _ _ Cb),
         <- ?(countOf_counted h _ _ Cc).
  all: unfold CTextLogn.rotate_Left; rewrite ?Elz.
  - intros y Hyx Hyz Hyb. rd. done.
  - intros y Hy. rewrite Hy. rd. done.
  - rd. done.
  - rd. rewrite Elx. destruct (broot b) as [b0|] eqn:Eb; rd; done.
  - rd. done.
  - rd. rewrite Elx. unfold CTextLogn.countOf, tpres, b2z.
    destruct (broot b) as [b0|] eqn:Eb;
      [pose proof (Nbc _ eq_refl)|]; destruct (broot c) as [c0|] eqn:Ec; rd; lia.
  - rd. done.
  - rd. done.
  - rd. done.
  - rd. rewrite Erz. unfold tpres, b2z.
    destruct (broot b) as [b0|] eqn:Eb;
      [pose proof (Nbc _ eq_refl); pose proof (Nba _ eq_refl)|];
      destruct (broot c) as [c0|] eqn:Ec; destruct (broot a) as [a0|] eqn:Ea;
      unfold CTextLogn.countOf; rd; rewrite ?Elx, ?Ec;
      unfold CTextLogn.countOf; rd; lia.
  - rd. done.
  - intros Hd.
  assert (x ∈ dom h) by (apply elem_of_dom, Hd; ino).
  assert (z ∈ dom h) by (apply elem_of_dom, Hd; ino).
  assert (∀ w, broot b = Some w → w ∈ dom h)
    by (intros w Hw%broot_in; apply elem_of_dom, Hd; ino).
  solve_dom.
Qed.

Lemma countOf_same (h h' : gmap string Node.t) o :
  (∀ w, o = Some w → Node.bCount (h' !!! w) = Node.bCount (h !!! w)) →
  CTextLogn.countOf h' o = CTextLogn.countOf h o.
Proof. destruct o as [w|]; simpl; [|done]. intros H. by apply H. Qed.

(** Instantiate the facts about the root [w] of a subtree. *)
Ltac use Hw :=
  repeat match goal with
  | N : ∀ w, ?o = Some w → _ |- _ =>
      lazymatch type of Hw with
      | o = Some _ => let F := fresh "F" in pose proof (N _ Hw) as F; clear N
      end
  end.

(** The count of an untouched subtree is read in the old store. *)
Ltac cs h :=
  repeat match goal with
  | |- context [CTextLogn.countOf ?H (broot ?t)] =>
      tryif constr_eq H h then fail
      else rewrite (countOf_same h H (broot t))
             by (let w := fresh "w" in let Hw := fresh "Hw" in
                 intros w Hw; use Hw; rewrite ?Hw; rd; done)
  end.

Lemma rotate_LeftRight_spec (h : gmap string Node.t) q a z b1 y b2 x c :
  let sub := BNode (BNode a z (BNode b1 y b2)) x c in
  shape (tlinks h) q sub → NoDup (inorder sub) →
  counted (tcnt h) (tpres h) sub →
  ∃ h', CTextLogn.rotate_LeftRight h x z = Ok (h', y)
        ∧ rotated h h' sub (BNode (BNode a z b1) y (BNode b2 x c)).
Proof.
  intros sub S ND C. unfold sub in *. clear sub.
  pose proof S as (Epx & Elx & Erx & (Epz & Elz & Erz & Sa & (Epy & Ely & Ery & Sb1 & Sb2)) & Sc).
  simpl in Epx, Elx, Erx, Epz, Elz, Erz, Epy, Ely, Ery.
  pose proof ND as ND'.
  apply NoDup_node in ND' as (NDl & NDc & Hxl & Hxc & Hlc).
  apply NoDup_node in NDl as (NDa & NDb & Hza & Hzb & Hab).
  apply NoDup_node in NDb as (NDb1 & NDb2 & Hyb1 & Hyb2 & Hb12).
  pose proof C as (Cx & (Cz & Ca & (Cy & Cb1 & Cb2)) & Cc).
  assert (x ≠ z) as Hxz by (intros ->; apply Hxl; ino).
  assert (x ≠ y) as Hxy by (intros ->; apply Hxl; ino).
  assert (z ≠ y) as Hzy by (intros ->; apply Hzb; ino).
  assert (broot a ≠ Some x) as Nax by (intros Hy%broot_in; apply Hxl; ino).
  assert (broot a ≠ Some z) as Naz by (intros Hy%broot_in; done).
  assert (broot a ≠ Some y) as Nay
    by (intros Hy%broot_in; apply (Hab y); [done|ino]).
  assert (broot b1 ≠ Some x) as Nb1x by (intros Hy%broot_in; apply Hxl; ino).
  assert (broot b1 ≠ Some z) as Nb1z by (intros Hy%broot_in; apply Hzb; ino).
  assert (broot b1 ≠ Some y) as Nb1y by (intros Hy%broot_in; done).
  assert (broot b2 ≠ Some x) as Nb2x by (intros Hy%broot_in; apply Hxl; ino).
  assert (broot b2 ≠ Some z) as Nb2z by (intros Hy%broot_in; apply Hzb; ino).
  assert (broot b2 ≠ Some y) as Nb2y by (intros Hy%broot_in; done).
  assert (broot c ≠ Some x) as Ncx by (intros Hy%broot_in; done).
  assert (broot c ≠ Some z) as Ncz
    by (intros Hy%broot_in; apply (Hlc z); [ino|done]).
  assert (broot c ≠ Some y) as Ncy
    by (intros Hy%broot_in; apply (Hlc y); [ino|done]).
  assert (∀ w, broot b1 = Some w → broot b2 ≠ Some w) as Nb12
    by (intros w Hb%broot_in Ha%broot_in; by apply (Hb12 w)).
  assert (∀ w, broot b2 = Some w → broot b1 ≠ Some w) as Nb21
    by (intros w Hb%broot_in Ha%broot_in; by apply (Hb12 w)).
  assert (∀ w, broot a = Some w → broot b1 ≠ Some w) as Nab1
    by (intros w Ha%broot_in Hb%broot_in; apply (Hab w); [done|ino]).
  assert (∀ w, broot a = Some w → broot b2 ≠ Some w) as Nab2
    by (intros w Ha%broot_in Hb%broot_in; apply (Hab w); [done|ino]).
  assert (∀ w, broot c = Some w → broot b1 ≠ Some w) as Ncb1
    by (intros w Ha%broot_in Hb%broot_in; apply (Hlc w); [ino|done]).
  assert (∀ w, broot c = Some w → broot b2 ≠ Some w) as Ncb2
    by (intros w Ha%broot_in Hb%broot_in; apply (Hlc w); [ino|done]).
  unfold CTextLogn.rotate_LeftRight. rewrite Erz. cbv zeta. rewrite Ely.
  rd. rewrite Ery.
  eexists; split; [reflexivity|].
  apply (rotated_double h _ _ _ a b1 b2 c x y z true); try done; [by exists q|..].
  all: rewrite <- ?(countOf_counted h _ _ Ca), <- ?(countOf_counted h _ _ Cb1),
         <- ?(countOf_counted h _ _ Cb2), <- ?(countOf_counted h _ _ Cc).
  - intros w Hwx Hwy Hwz Hw1 Hw2. rd. done.
  - intros w Hw. use Hw. rewrite Hw. rd. done.
  - intros w Hw. use Hw. rewrite Hw. rd. done.
  - rd. done.
  - rd. done.
  - rd. done.
  - rd. rewrite ?Erx. cs h. done.
  - rd. done.
  - rd. done.
  - rd. done.
  - rd. done.
  - rd. rewrite ?Elz. cs h. done.
  - rd. done.
  - rd. done.
  - rd. done.
  - rd. unfold CTextLogn.countOf at 1 2. rd. rewrite ?Erx, ?Elz. cs h. done.
  - rd. done.
  - intros Hd.
    assert (x ∈ dom h) by (apply elem_of_dom, Hd; ino).
    assert (y ∈ dom h) by (apply elem_of_dom, Hd; ino).
    assert (z ∈ dom h) by (apply elem_of_dom, Hd; ino).
    assert (∀ w, broot b1 = Some w → w ∈ dom h)
      by (intros w Hw%broot_in; apply elem_of_dom, Hd; ino).
    assert (∀ w, broot b2 = Some w → w ∈ dom h)
      by (intros w Hw%broot_in; apply elem_of_dom, Hd; ino).
    solve_dom.
Qed.

Lemma rotate_RightLeft_spec (h : gmap string Node.t) q a z b1 y b2 x c :
  let sub := BNode c x (BNode (BNode b2 y b1) z a) in
  shape (tlinks h) q sub → NoDup (inorder sub) →
  counted (tcnt h) (tpres h) sub →
  ∃ h', CTextLogn.rotate_RightLeft h x z = Ok (h', y)
        ∧ rotated h h' sub (BNode (BNode c x b2) y (BNode b1 z a)).
Proof.
  intros sub S ND C. unfold sub in *. clear sub.
  pose proof S as (Epx & Elx & Erx & Sc & (Epz & Elz & Erz & (Epy & Ely & Ery & Sb2 & Sb1) & Sa)).
  simpl in Epx, Elx, Erx, Epz, Elz, Erz, Epy, Ely, Ery.
  pose proof ND as ND'.
  apply NoDup_node in ND' as (NDc & NDr & Hxc & Hxr & Hcr).
  apply NoDup_node in NDr as (NDb & NDa & Hzb & Hza & Hba).
  apply NoDup_node in NDb as (NDb2 & NDb1 & Hyb2 & Hyb1 & Hb21).
  pose proof C as (Cx & Cc & (Cz & (Cy & Cb2 & Cb1) & Ca)).
  assert (x ≠ z) as Hxz by (intros ->; apply Hxr; ino).
  assert (x ≠ y) as Hxy by (intros ->; apply Hxr; ino).
  assert (z ≠ y) as Hzy by (intros ->; apply Hzb; ino).
  assert (broot a ≠ Some x) as Nax by (intros Hy%broot_in; apply Hxr; ino).
  assert (broot a ≠ Some z) as Naz by (intros Hy%broot_in; done).
  assert (broot a ≠ Some y) as Nay
    by (intros Hy%broot_in; apply (Hba y); [ino|done]).
  assert (broot b1 ≠ Some x) as Nb1x by (intros Hy%broot_in; apply Hxr; ino).
  assert (broot b1 ≠ Some z) as Nb1z by (intros Hy%broot_in; apply Hzb; ino).
  assert (broot b1 ≠ Some y) as Nb1y by (intros Hy%broot_in; done).
  assert (broot b2 ≠ Some x) as Nb2x by (intros Hy%broot_in; apply Hxr; ino).
  assert (broot b2 ≠ Some z) as Nb2z by (intros Hy%broot_in; apply Hzb; ino).
  assert (broot b2 ≠ Some y) as Nb2y by (intros Hy%broot_in; done).
  assert (broot c ≠ Some x) as Ncx by (intros Hy%broot_in; done).
  assert (broot c ≠ Some z) as Ncz
    by (intros Hy%broot_in; apply (Hcr z); [done|ino]).
  assert (broot c ≠ Some y) as Ncy
    by (intros Hy%broot_in; apply (Hcr y); [done|ino]).
  assert (∀ w, broot b1 = Some w → broot b2 ≠ Some w) as Nb12
    by (intros w Hb%broot_in Ha%broot_in; by apply (Hb21 w)).
  assert (∀ w, broot b2 = Some w → broot b1 ≠ Some w) as Nb21
    by (intros w Hb%broot_in Ha%broot_in; by apply (Hb21 w)).
  assert (∀ w, broot a = Some w → broot b1 ≠ Some w) as Nab1
    by (intros w Ha%broot_in Hb%broot_in; apply (Hba w); [ino|done]).
  assert (∀ w, broot a = Some w → broot b2 ≠ Some w) as Nab2
    by (intros w Ha%broot_in Hb%broot_in; apply (Hba w); [ino|done]).
  assert (∀ w, broot c = Some w → broot b1 ≠ Some w) as Ncb1
    by (intros w Ha%broot_in Hb%broot_in; apply (Hcr w); [done|ino]).
  assert (∀ w, broot c = Some w → broot b2 ≠ Some w) as Ncb2
    by (intros w Ha%broot_in Hb%broot_in; apply (Hcr w); [done|ino]).
  unfold CTextLogn.rotate_RightLeft. rewrite Elz. cbv zeta. rewrite Ery.
  rd. rewrite Ely.
  eexists; split; [reflexivity|].
  apply (rotated_double h _ _ _ a b1 b2 c x y z false); try done; [by exists q|..].
  all: rewrite <- ?(countOf_counted h _ _ Ca), <- ?(countOf_counted h _ _ Cb1),
         <- ?(countOf_counted h _ _ Cb2), <- ?(countOf_counted h _ _ Cc).
  - intros w Hwx Hwy Hwz Hw1 Hw2. rd. done.
  - intros w Hw. use Hw. rewrite Hw. rd. done.
  - intros w Hw. use Hw. rewrite Hw. rd. done.
  - rd. done.
  - rd. done.
  - rd. done.
  - rd. rewrite ?Elx. cs h. unfold tpres, b2z. lia.
  - rd. done.
  - rd. done.
  - rd. done.
  - rd. done.
  - rd. rewrite ?Erz. cs h. unfold tpres, b2z. lia.
  - rd. done.
  - rd. done.
  - rd. done.
  - rd. unfold CTextLogn.countOf at 1 2. rd. rewrite ?Elx, ?Erz. cs h.
    unfold tpres, b2z. lia.
  - rd. done.
  - intros Hd.
    assert (x ∈ dom h) by (apply elem_of_dom, Hd; ino).
    assert (y ∈ dom h) by (apply elem_of_dom, Hd; ino).
    assert (z ∈ dom h) by (apply elem_of_dom, Hd; ino).
    assert (∀ w, broot b1 = Some w → w ∈ dom h)
      by (intros w Hw%broot_in; apply elem_of_dom, Hd; ino).
    assert (∀ w, broot b2 = Some w → w ∈ dom h)
      by (intros w Hw%broot_in; apply elem_of_dom, Hd; ino).
    solve_dom.
Qed.

(** ** Rebalancing keeps the index a tree with the same nodes in order *)

(** The balanced index of the store [h] is the tree [t], rooted at [root],
    with the right counts. *)
Definition indexed (h : gmap string Node.t) (root : string) (t : btree string)
  : Prop :=
  shape (tlinks h) None t ∧ broot t = Some root ∧ NoDup (inorder t)
  ∧ counted (tcnt h) (tpres h) t.

Lemma tcount_inorder (h : gmap string Node.t) t t' :
  inorder t' = inorder t → tcount (tpres h) t' = tcount (tpres h) t.
Proof. intros E. by rewrite <- !pvalues_length, E. Qed.

Lemma tpres_core (h h' : gmap string Node.t) y :
  core (h' !!! y) = core (h !!! y) → tpres h' y = tpres h y.
Proof. unfold tpres, core. congruence. Qed.

Lemma ccounted_ext {K} (cnt cnt' : K → Z) (pres pres' : K → bool) c k :
  (∀ y, y ∈ cnodes c → cnt' y = cnt y ∧ pres' y = pres y) →
  ccounted cnt pres c k → ccounted cnt' pres' c k.
Proof.
  intros Hc C. replace k with (k + 0) by lia.
  apply (ccounted_bump cnt cnt' pres pres' 0); [|done].
  intros f Hf.
  assert (∀ y, y = fid f ∨ y ∈ inorder (match f with FL _ r => r | FR l _ => l end)
               → y ∈ cnodes c) as Hin.
  { clear -Hf. induction c as [|g c IH]; [by apply elem_of_nil in Hf|].
    intros y Hy. apply cnodes_cons.
    apply elem_of_cons in Hf as [->|Hf]; [tauto|]. right; right. by apply IH. }
  split_and!.
  - destruct (Hc (fid f)) as [-> _]; [apply Hin; by left|lia].
  - apply Hc, Hin. by left.
  - intros y Hy. apply Hc, Hin. by right.
Qed.

Lemma NoDup_cnodes {K} (c : list (frame K)) s :
  NoDup (inorder (plug c s)) →
  NoDup (cnodes c) ∧ NoDup (inorder s)
  ∧ ∀ y, y ∈ inorder s → y ∉ cnodes c.
Proof.
  rewrite inorder_plug. unfold cnodes. intros ND.
  apply NoDup_app in ND as (N1 & N2 & N3).
  apply NoDup_app in N3 as (N3 & N4 & N5).
  split_and!; [|done|].
  - apply NoDup_app. split_and!; [done| |done].
    intros y Hy Hy'. apply (N2 y Hy). apply elem_of_app. by right.
  - intros y Hy [Hl|Hr]%elem_of_app.
    + apply (N2 y Hl). apply elem_of_app. by left.
    + by apply (N4 y).
Qed.

(** Changing balance factors only. *)
Lemma indexed_nobf (h h' : gmap string Node.t) root t :
  (∀ y, nobf (h' !!! y) = nobf (h !!! y)) →
  indexed h root t → indexed h' root t.
Proof.
  intros E (S & R & ND & C). split_and!; try done.
  - apply (shape_frame (tlinks h)); [|done]. intros y _. simpl.
    destruct (nobf_fields _ _ (E y)) as (-> & -> & -> & _). done.
  - apply (counted_ext (tcnt h) _ (tpres h)); [|done]. intros y _.
    unfold tcnt, tpres.
    destruct (nobf_fields _ _ (E y)) as (_ & _ & _ & -> & -> & _). done.
Qed.

Lemma nobf_wr_bF v x (h : gmap string Node.t) y :
  nobf (CTextLogn.wr (Node.set_bF v) x h !!! y) = nobf (h !!! y).
Proof.
  rewrite wr_lookup. destruct (decide (x = y)) as [->|]; [|done].
  by destruct (h !!! y).
Qed.

Lemma shape'_frame {K} (L L' : links K) (t : btree K) :
  (∀ y, y ∈ inorder t →
     lft L' y = lft L y ∧ rgt L' y = rgt L y
     ∧ (broot t ≠ Some y → par L' y = par L y)) →
  NoDup (inorder t) → shape' L t → shape' L' t.
Proof.
  destruct t as [|l x r]; [done|]. intros HL ND (El & Er & Sl & Sr).
  apply NoDup_node in ND as (NDl & NDr & Hxl & Hxr & Hlr).
  assert (∀ y, y ∈ inorder l ∨ y ∈ inorder r →
    par L' y = par L y ∧ lft L' y = lft L y ∧ rgt L' y = rgt L y) as HL'.
  { intros y Hy. destruct (HL y) as (? & ? & Hp).
    - simpl. rewrite elem_of_app, elem_of_cons. tauto.
    - split_and!; try done. apply Hp. simpl. intros [= ->]. tauto. }
  destruct (HL x) as (El' & Er' & _).
  { simpl. rewrite elem_of_app, elem_of_cons. tauto. }
  simpl. split_and!; [congruence|congruence|..].
  - apply (shape_frame L); [|done]. intros y Hy. apply HL'. tauto.
  - apply (shape_frame L); [|done]. intros y Hy. apply HL'. tauto.
Qed.

(** Linking the rotated subtree where the old one was. *)
Lemma relink_spec (h h1 : gmap string Node.t) root c sub sub' X N h2 root2 :
  indexed h root (plug c sub) → broot sub = Some X → broot sub' = Some N →
  rotated h h1 sub sub' →
  (∀ y, y ∈ inorder (plug c sub) → is_Some (h !! y)) →
  CTextLogn.relink h1 root (cparent c None) X N = (h2, root2) →
  indexed h2 root2 (plug c sub')
  ∧ inorder (plug c sub') = inorder (plug c sub)
  ∧ (∀ y, core (h2 !!! y) = core (h !!! y)) ∧ dom h2 = dom h.
Proof.
  intros (S & R & ND & C) HX HN (S' & C' & Ei & Hout & Hcore & Hdom) Hd E.
  apply shape_plug in S as [CS Ssub]. apply counted_plug in C as [Csub CC].
  destruct (NoDup_cnodes c sub ND) as (NDc & NDs & Hdisj).
  assert (N ∈ inorder sub) as HNin by (rewrite <- Ei; by apply broot_in).
  assert (X ∈ inorder sub) as HXin by (by apply broot_in).
  assert (dom h1 = dom h) as Ed.
  { apply Hdom. intros y Hy. apply Hd. rewrite inorder_plug, !elem_of_app. tauto. }
  assert (N ∈ dom h1) as HNd.
  { rewrite Ed. apply elem_of_dom, Hd. rewrite inorder_plug, !elem_of_app. tauto. }
  assert (NoDup (inorder sub')) as NDs' by (by rewrite Ei).
  assert (∀ y, tpres h1 y = tpres h y) as Hpres
    by (intros y; apply tpres_core, Hcore).
  assert (inorder (plug c sub') = inorder (plug c sub)) as Ei'
    by (by rewrite !inorder_plug, Ei).
  unfold CTextLogn.relink in E. cbv zeta in E.
  rewrite HX in CS.
  destruct c as [|f c].
  - simpl in E. injection E as <- <-. split_and!; [split_and!|..].
    + simpl. apply shape_shape'. split.
      * apply (shape'_frame (tlinks h1)); [|done..].
        intros y Hy. simpl. rewrite wr_lookup.
        destruct (decide (N = y)) as [->|]; [|done].
        split_and!; done.
      * intros x. rewrite HN. intros [= <-]. simpl. by rewrite wr_eq.
    + done.
    + by rewrite Ei'.
    + simpl. apply (counted_ext (tcnt h1) _ (tpres h1)); [|done].
      intros y _. unfold tcnt, tpres. rewrite wr_lookup.
      by destruct (decide (N = y)) as [->|].
    + done.
    + intros y. rewrite <- Hcore. by apply core_wr_links.
    + by rewrite wr_dom'.
  - simpl cparent in E. cbv beta iota in E. set (g := fid f) in *.
    assert (g ∈ cnodes (f :: c)) as Hg by (apply cnodes_cons; by left).
    assert (g ∉ inorder sub) as Hgs by (intros Hy; by apply (Hdisj g)).
    assert (N ≠ g) as HNg by (by intros ->).
    assert (g ∈ dom h1) as Hgd.
    { rewrite Ed. apply elem_of_dom, Hd. rewrite inorder_plug.
      unfold cnodes in Hg. rewrite !elem_of_app in *. tauto. }
    assert (∃ hf, h2 = CTextLogn.wr hf g
                    (CTextLogn.wr (Node.set_bParent (Some g)) N h1)
                  ∧ root2 = root
                  ∧ hf = match f with
                         | FL _ _ => Node.set_bLeftChild (Some N)
                         | FR _ _ => Node.set_bRightChild (Some N)
                         end) as (hf & -> & -> & Ehf).
    { simpl in CS. destruct CS as (_ & Hf & _).
      rewrite wr_ne, (Hout g Hgs) in E by done.
      destruct f as [g' rg|lg g']; simpl in Hf, g; subst g.
      - destruct Hf as (El & _). simpl in El. rewrite El, bool_decide_true in E by done.
        injection E as <- <-. eauto.
      - destruct Hf as (El & Er & _). simpl in El, Er.
        rewrite bool_decide_false in E.
        + injection E as <- <-. eauto.
        + rewrite El. intros Hb%broot_in. apply (Hdisj X HXin).
          apply cnodes_cons. right; left. done. }
    assert (∀ y, y ≠ g → y ≠ N →
              CTextLogn.wr hf g (CTextLogn.wr (Node.set_bParent (Some g)) N h1) !!! y
              = h1 !!! y) as Hoth.
    { intros y ? ?. by rewrite !wr_ne. }
    split_and!; [split_and!|..].
    + apply shape_plug. split.
      * apply (cshape_rehole (tlinks h) _ _ _ (Some X)); [done| | |done].
        -- intros y Hy Hne. simpl in Hne.
           assert (y ∉ inorder sub) by (intros ?; by apply (Hdisj y)).
           simpl. rewrite Hoth, Hout; [done|done|intros ->; by apply Hne|by intros ->].
        -- subst g hf. clear E Hoth.
           destruct f as [g rg|lg g]; simpl in *;
             rewrite wr_eq, wr_ne, (Hout g Hgs) by done; simpl; by rewrite HN.
      * simpl cparent. fold g. apply shape_shape'. split.
        -- apply (shape'_frame (tlinks h1)); [|done..].
           intros y Hy. rewrite Ei in Hy. simpl.
           rewrite wr_ne by (by intros <-).
           rewrite wr_lookup. destruct (decide (N = y)) as [->|]; [|done].
           split_and!; done.
        -- intros x. rewrite HN. intros [= <-]. simpl.
           by rewrite wr_ne, wr_eq.
    + by rewrite (broot_plug_cons c f sub' sub).
    + by rewrite Ei'.
    + apply counted_plug. split.
      * apply (counted_ext (tcnt h1) _ (tpres h1)); [|done].
        intros y Hy. rewrite Ei in Hy. unfold tcnt, tpres.
        rewrite wr_ne by (by intros <-). rewrite wr_lookup.
        by destruct (decide (N = y)) as [->|].
      * assert (∀ y, tpres (CTextLogn.wr hf g
                    (CTextLogn.wr (Node.set_bParent (Some g)) N h1)) y = tpres h y)
          as Hp2.
        { intros y. rewrite <- Hpres. unfold tpres. rewrite !wr_lookup.
          destruct (decide (g = y)) as [->|].
          - rewrite decide_False by done. destruct f; subst hf; done.
          - by destruct (decide (N = y)) as [->|]. }
        rewrite (tcount_ext (tpres h)) by auto.
        rewrite (tcount_inorder h sub sub') by done.
        apply (ccounted_ext (tcnt h) _ (tpres h)); [|done].
        intros y Hy. split; [|apply Hp2].
        assert (y ∉ inorder sub) by (intros ?; by apply (Hdisj y)).
        unfold tcnt. rewrite !wr_lookup.
        destruct (decide (g = y)) as [->|].
        -- rewrite decide_False by done. rewrite (Hout y) by done.
           destruct f; subst hf; done.
        -- rewrite decide_False by (by intros ->). by rewrite Hout.
    + done.
    + intros y. rewrite <- Hcore. rewrite !wr_lookup.
      destruct (decide (g = y)) as [->|].
      * rewrite decide_False by done. destruct f; subst hf; done.
      * by destruct (decide (N = y)) as [->|].
    + rewrite !wr_dom'; [done..|by rewrite wr_dom'].
Qed.

Lemma nobf_core (n n' : Node.t) : nobf n = nobf n' → core n = core n'.
Proof. intros E. by destruct (nobf_fields _ _ E) as (_ & _ & _ & _ & _ & ?). Qed.

Lemma rebalance_spec fuel : ∀ h root c l z r h' root',
  indexed h root (plug c (BNode l z r)) →
  (∀ y, y ∈ inorder (plug c (BNode l z r)) → is_Some (h !! y)) →
  CTextLogn.rebalance fuel h root z = Ok (h', root') →
  ∃ t', indexed h' root' t' ∧ inorder t' = inorder (plug c (BNode l z r))
        ∧ (∀ y, core (h' !!! y) = core (h !!! y)) ∧ dom h' = dom h.
Proof.
  induction fuel as [|fuel IH]; intros h root c l z r h' root' I Hd E; [done|].
  simpl in E.
  pose proof I as (S & R & ND & C).
  pose proof S as S0. apply shape_plug in S0 as [_ S0].
  destruct S0 as (Epz & Elz & Erz & _). simpl in Epz, Elz, Erz.
  rewrite Epz in E.
  destruct c as [|f c]; simpl in E.
  { injection E as <- <-. by exists (BNode l z r). }
  rewrite plug_cons in *.
  pose proof S as S1. apply shape_plug in S1 as [_ S1].
  pose proof ND as ND1. apply NoDup_cnodes in ND1 as (_ & ND1 & _).
  assert (∀ y, y ∈ inorder (fill f (BNode l z r)) → is_Some (h !! y)) as Hd1.
  { intros y Hy. apply Hd. rewrite inorder_plug, !elem_of_app. tauto. }
  assert (∀ v X, X ∈ dom h → dom (CTextLogn.wr (Node.set_bF v) X h) = dom h)
    as Hdbf by (intros; by apply wr_dom').
  destruct f as [X rx|lx X]; cbn [fill] in ND1, Hd1; simpl in S1, E.
  - destruct S1 as (Epx & Elx & Erx & _). simpl in Epx, Elx, Erx.
    assert (X ∈ dom h) as HXd by (apply elem_of_dom, Hd1; ino).
    rewrite bool_decide_false in E.
    2:{ rewrite Erx. intros Hb%broot_in.
        apply NoDup_node in ND1 as (_ & _ & _ & _ & Hlr).
        apply (Hlr z); [ino|done]. }
    destruct (Node.bF (h !!! X) <? 0).
    + rewrite Epx in E.
      destruct (0 <? Node.bF (h !!! z)).
      * destruct r as [|b1 y b2].
        { unfold CTextLogn.rotate_LeftRight in E. by rewrite Erz in E. }
        destruct (rotate_LeftRight_spec h _ l z b1 y b2 X rx
                    (proj2 (proj1 (shape_plug _ _ _ _) S)) ND1)
          as (h1 & E1 & Hrot).
        { by apply counted_plug in C as [C _]. }
        rewrite E1 in E. simpl in E. injection E as E.
        eexists. eapply (relink_spec h h1 root c _ (BNode (BNode l z b1) y (BNode b2 X rx)) X y);
          [done..|exact E].
      * simpl in E. injection E as E.
        eexists. eapply (relink_spec h _ root c _ (BNode l z (BNode r X rx)) X z);
          [done|done|done| |done|exact E].
        apply (rotate_Right_spec h (cparent c None)); [|done|].
        -- by apply shape_plug in S as [_ S].
        -- by apply counted_plug in C as [C _].
    + destruct (0 <? Node.bF (h !!! X)).
      * injection E as <- <-. eexists. split_and!; [|done| |by apply Hdbf].
        -- eapply indexed_nobf; [|done]. intros y. apply nobf_wr_bF.
        -- intros y. apply nobf_core, nobf_wr_bF.
      * apply (IH _ _ c (BNode l z r) X rx) in E as (t' & I' & Ei & Hc & Hdm).
        -- exists t'. split_and!; [done|done| |by rewrite Hdm, Hdbf].
           intros y. rewrite Hc. apply nobf_core, nobf_wr_bF.
        -- eapply indexed_nobf; [|done]. intros y. apply nobf_wr_bF.
        -- intros y Hy. apply elem_of_dom. rewrite Hdbf by done.
           by apply elem_of_dom, Hd.
  - destruct S1 as (Epx & Elx & Erx & _). simpl in Epx, Elx, Erx.
    assert (X ∈ dom h) as HXd by (apply elem_of_dom, Hd1; ino).
    rewrite bool_decide_true in E by done.
    destruct (0 <? Node.bF (h !!! X)).
    + rewrite Epx in E.
      destruct (Node.bF (h !!! z) <? 0).
      * destruct l as [|b2 y b1].
        { unfold CTextLogn.rotate_RightLeft in E. by rewrite Elz in E. }
        destruct (rotate_RightLeft_spec h _ r z b1 y b2 X lx
                    (proj2 (proj1 (shape_plug _ _ _ _) S)) ND1)
          as (h1 & E1 & Hrot).
        { by apply counted_plug in C as [C _]. }
        rewrite E1 in E. simpl in E. injection E as E.
        eexists. eapply (relink_spec h h1 root c _ (BNode (BNode lx X b2) y (BNode b1 z r)) X y);
          [done..|exact E].
      * simpl in E. injection E as E.
        eexists. eapply (relink_spec h _ root c _ (BNode (BNode lx X l) z r) X z);
          [done|done|done| |done|exact E].
        apply (rotate_Left_spec h (cparent c None)); [|done|].
        -- by apply shape_plug in S as [_ S].
        -- by apply counted_plug in C as [C _].
    + destruct (Node.bF (h !!! X) <? 0).
      * injection E as <- <-. eexists. split_and!; [|done| |by apply Hdbf].
        -- eapply indexed_nobf; [|done]. intros y. apply nobf_wr_bF.
        -- intros y. apply nobf_core, nobf_wr_bF.
      * apply (IH _ _ c lx X (BNode l z r)) in E as (t' & I' & Ei & Hc & Hdm).
        -- exists t'. split_and!; [done|done| |by rewrite Hdm, Hdbf].
           intros y. rewrite Hc. apply nobf_core, nobf_wr_bF.
        -- eapply indexed_nobf; [|done]. intros y. apply nobf_wr_bF.
        -- intros y Hy. apply elem_of_dom. rewrite Hdbf by done.
           by apply elem_of_dom, Hd.
Qed.

(** * The list managers only ever name nodes of the directory

    Whatever the managers do with their trees, the values they store are the
    ones they were given, so [getEnd] answers with one of them. *)

(** Split an equation [(let* x := m in k) = Ok r]. *)
Tactic Notation "bind_ok" hyp(E) "as" simple_intropattern(x) :=
  match type of E with
  | bind ?m _ = Ok _ =>
      let Em := fresh "Em" in
      destruct m as [x| |] eqn:Em; cbn [bind] in E; [|discriminate..]
  end.

Section values.
Variable D : gset string.

Definition vals (h : gmap nat SNode.t) : Prop :=
  ∀ a, SNode.value (h !!! a) ∈ D.

Lemma vals_wr f a h :
  (∀ n, SNode.value (f n) = SNode.value n) → vals h → vals (SALM.wr f a h).
Proof.
  intros Hf V b. unfold SALM.wr.
  destruct (decide (a = b)) as [->|].
  - rewrite lookup_total_insert_eq, Hf. apply V.
  - rewrite lookup_total_insert_ne by done. apply V.
Qed.

Lemma vals_reparent c p h : vals h → vals (SALM.reparent c p h).
Proof. destruct c; simpl; [|done]. by apply vals_wr. Qed.

Lemma vals_updateBHeight h a : vals h → vals (SALM.updateBHeight h a).
Proof.
  intros V. unfold SALM.updateBHeight.
  destruct (SNode.bLeftChild _), (SNode.bRightChild _); by apply vals_wr.
Qed.

Lemma vals_new h a v : v ∈ D → vals h → vals (<[a := SNode.new v]> h).
Proof.
  intros Hv V b. destruct (decide (a = b)) as [->|].
  - by rewrite lookup_total_insert_eq.
  - rewrite lookup_total_insert_ne by done. apply V.
Qed.

Ltac vals :=
  repeat first [ assumption
               | apply vals_updateBHeight
               | apply vals_reparent
               | apply vals_wr; [done|] ].

Lemma vals_rotate_Left h X h' z :
  vals h → SALM.rotate_Left h X = Ok (h', z) → vals h'.
Proof.
  unfold SALM.rotate_Left. intros V E.
  destruct (SNode.bRightChild _); [|done]. injection E as <- <-. vals.
Qed.

Lemma vals_rotate_Right h X h' z :
  vals h → SALM.rotate_Right h X = Ok (h', z) → vals h'.
Proof.
  unfold SALM.rotate_Right. intros V E.
  destruct (SNode.bLeftChild _); [|done]. injection E as <- <-. vals.
Qed.

Lemma vals_rotate_RightLeft h X Zn h' z :
  vals h → SALM.rotate_RightLeft h X Zn = Ok (h', z) → vals h'.
Proof.
  unfold SALM.rotate_RightLeft. intros V E.
  destruct (SNode.bLeftChild _); [|done]. injection E as <- <-. vals.
Qed.

Lemma vals_rotate_LeftRight h X Zn h' z :
  vals h → SALM.rotate_LeftRight h X Zn = Ok (h', z) → vals h'.
Proof.
  unfold SALM.rotate_LeftRight. intros V E.
  destruct (SNode.bRightChild _); [|done]. injection E as <- <-. vals.
Qed.

Lemma vals_relink h G X N : vals h → vals (SALM.relink h G X N).
Proof.
  intros V. unfold SALM.relink. destruct G; [|vals].
  destruct (bool_decide _); vals.
Qed.

Lemma vals_rebalance fuel : ∀ h z h',
  vals h → SALM.rebalance fuel h z = Ok h' → vals h'.
Proof.
  induction fuel as [|fuel IH]; intros h z h' V E; [done|].
  simpl in E. destruct (SNode.bParent _) as [X|]; [|by injection E as <-].
  destruct (bool_decide _).
  - destruct (0 <? _).
    + bind_ok E as [h1 N]. injection E as <-.
      apply vals_relink.
      destruct (_ <? 0);
        [by eapply vals_rotate_RightLeft|by eapply vals_rotate_Left].
    + destruct (_ <? 0); [by injection E as <-|by eapply IH].
  - destruct (_ <? 0).
    + bind_ok E as [h1 N]. injection E as <-.
      apply vals_relink.
      destruct (0 <? _);
        [by eapply vals_rotate_LeftRight|by eapply vals_rotate_Right].
    + destruct (0 <? _); [by injection E as <-|by eapply IH].
Qed.

Lemma vals_updateHeights fuel : ∀ h k c h',
  vals h → SALM.updateHeights fuel h k c = Ok h' → vals h'.
Proof.
  induction fuel as [|fuel IH]; intros h k c h' V E; [done|].
  simpl in E. destruct c as [c|]; [|by injection E as <-].
  eapply IH; [|exact E]. vals.
Qed.

Lemma vals_createInternal s v s' a :
  v ∈ D → vals (SALM.heap s) → SALM.createInternal s v = (s', a) →
  vals (SALM.heap s').
Proof. intros Hv V [= <- <-]. simpl. by apply vals_new. Qed.

Lemma vals_create s v : v ∈ D → vals (SALM.heap s) → vals (SALM.heap (SALM.create s v)).
Proof. intros Hv V. by apply vals_new. Qed.

Lemma vals_append fuel s e v s' :
  v ∈ D → vals (SALM.heap s) → SALM.append fuel s e v = Ok s' →
  vals (SALM.heap s').
Proof.
  intros Hv V E. unfold SALM.append in E.
  destruct (SALM.createInternal s v) as [s1 node] eqn:Ec.
  apply vals_createInternal in Ec; [|done..].
  bind_ok E as parent. bind_ok E as h1. bind_ok E as h2. injection E as <-. simpl.
  eapply vals_rebalance; [|done].
  eapply vals_updateHeights; [|done]. vals.
Qed.

Lemma vals_nodeWithChildren s l k r s' a :
  k ∈ D → vals (SALM.heap s) → SALM.nodeWithChildren s l k r = (s', a) →
  vals (SALM.heap s').
Proof.
  intros Hk V E. unfold SALM.nodeWithChildren in E.
  destruct (SALM.createInternal s k) as [s1 node] eqn:Ec.
  apply vals_createInternal in Ec; [|done..].
  injection E as <- <-. simpl. vals.
Qed.

Lemma vals_nodeWithChildren_Ok s l k r s' a :
  k ∈ D → vals (SALM.heap s) →
  Ok (SALM.nodeWithChildren s l k r) = Ok (s', a) → vals (SALM.heap s').
Proof.
  intros Hk V. destruct (SALM.nodeWithChildren s l k r) as [s2 a2] eqn:E2.
  intros [= <- <-]. by eapply vals_nodeWithChildren.
Qed.

Lemma vals_rot_Left s x s' z :
  vals (SALM.heap s) → SALM.rot SALM.rotate_Left (s, x) = Ok (s', z) →
  vals (SALM.heap s').
Proof.
  intros V E. unfold SALM.rot in E. bind_ok E as [h1 N].
  injection E as <- <-. simpl. by eapply vals_rotate_Left.
Qed.

Lemma vals_rot_Right s x s' z :
  vals (SALM.heap s) → SALM.rot SALM.rotate_Right (s, x) = Ok (s', z) →
  vals (SALM.heap s').
Proof.
  intros V E. unfold SALM.rot in E. bind_ok E as [h1 N].
  injection E as <- <-. simpl. by eapply vals_rotate_Right.
Qed.

Lemma vals_expose h a l k r : vals h → SALM.expose h a = (l, k, r) → k ∈ D.
Proof. intros V [= _ <- _]. apply V. Qed.

Lemma vals_joinRightAVL fuel : ∀ s TL k TR s' j,
  k ∈ D → vals (SALM.heap s) →
  SALM.joinRightAVL fuel s TL k TR = Ok (s', j) → vals (SALM.heap s').
Proof.
  induction fuel as [|fuel IH]; intros s TL k TR s' j Hk V E; [done|].
  cbn [SALM.joinRightAVL] in E.
  destruct (SALM.expose (SALM.heap s) TL) as [[l k'] c] eqn:Ex.
  pose proof (vals_expose _ _ _ _ _ V Ex) as Hk'.
  destruct (_ <=? _).
  - destruct (SALM.nodeWithChildren s c k TR) as [s1 T'] eqn:E1.
    apply vals_nodeWithChildren in E1; [|done..].
    destruct (_ <=? _).
    + by eapply vals_nodeWithChildren_Ok.
    + bind_ok E as [s2 r].
      apply vals_rot_Right in Em; [|done].
      destruct (SALM.nodeWithChildren s2 l k' (Some r)) as [s3 T3] eqn:E3.
      apply vals_nodeWithChildren in E3; [|done..].
      by eapply vals_rot_Left.
  - destruct c as [c'|]; [|done].
    bind_ok E as [s1 T'].
    apply IH in Em; [|done..].
    destruct (SALM.nodeWithChildren s1 l k' (Some T')) as [s2 T2] eqn:E2.
    apply vals_nodeWithChildren in E2; [|done..].
    destruct (_ <=? _); [by injection E as <- <-|by eapply vals_rot_Left].
Qed.

Lemma vals_joinLeftAVL fuel : ∀ s TL k TR s' j,
  k ∈ D → vals (SALM.heap s) →
  SALM.joinLeftAVL fuel s TL k TR = Ok (s', j) → vals (SALM.heap s').
Proof.
  induction fuel as [|fuel IH]; intros s TL k TR s' j Hk V E; [done|].
  cbn [SALM.joinLeftAVL] in E.
  destruct (SALM.expose (SALM.heap s) TR) as [[c k'] r] eqn:Ex.
  pose proof (vals_expose _ _ _ _ _ V Ex) as Hk'.
  destruct (_ <=? _).
  - destruct (SALM.nodeWithChildren s TL k c) as [s1 T'] eqn:E1.
    apply vals_nodeWithChildren in E1; [|done..].
    destruct (_ <=? _).
    + by eapply vals_nodeWithChildren_Ok.
    + bind_ok E as [s2 l].
      apply vals_rot_Left in Em; [|done].
      destruct (SALM.nodeWithChildren s2 (Some l) k' r) as [s3 T3] eqn:E3.
      apply vals_nodeWithChildren in E3; [|done..].
      by eapply vals_rot_Right.
  - destruct c as [c'|]; [|done].
    bind_ok E as [s1 T'].
    apply IH in Em; [|done..].
    destruct (SALM.nodeWithChildren s1 (Some T') k' r) as [s2 T2] eqn:E2.
    apply vals_nodeWithChildren in E2; [|done..].
    destruct (_ <=? _); [by injection E as <- <-|by eapply vals_rot_Right].
Qed.

Lemma vals_join fuel s TL k TR s' j :
  k ∈ D → vals (SALM.heap s) →
  SALM.join fuel s TL k TR = Ok (s', j) → vals (SALM.heap s').
Proof.
  intros Hk V E. unfold SALM.join in E.
  destruct (_ <? _).
  - destruct TL; [|done]. by eapply vals_joinRightAVL.
  - destruct (_ <? _).
    + destruct TR; [|done]. by eapply vals_joinLeftAVL.
    + by eapply vals_nodeWithChildren_Ok.
Qed.

Lemma vals_eraseParent h c : vals h → vals (SALM.eraseParent h c).
Proof.
  intros V. unfold SALM.eraseParent. destruct c; [|done].
  destruct (SNode.bParent _); [|done]. destruct (SALM.bIsLeftChild _ _); vals.
Qed.

Lemma vals_splitInternal fuel path : ∀ s T s' L R,
  vals (SALM.heap s) →
  SALM.splitInternal fuel s T path = Ok (s', L, R) → vals (SALM.heap s').
Proof.
  induction path as [|n path IH]; intros s T s' L R V E;
    cbn [SALM.splitInternal] in E;
    destruct (SALM.expose (SALM.heap s) T) as [[L0 m] R0] eqn:Ex;
    pose proof (vals_expose _ _ _ _ _ V Ex) as Hm.
  - injection E as <- <- <-. simpl. by do 2 apply vals_eraseParent.
  - destruct (bool_decide _).
    + bind_ok E as [[s1 L1] R1]. apply IH in Em; [|done].
      bind_ok E as [s2 j]. injection E as <- <- <-.
      by eapply vals_join.
    + destruct (bool_decide _); [|done].
      bind_ok E as [[s1 L1] R1]. apply IH in Em; [|done].
      bind_ok E as [s2 j]. injection E as <- <- <-.
      by eapply vals_join.
Qed.

Lemma vals_split fuel s v s' :
  v ∈ D → vals (SALM.heap s) → SALM.split fuel s v = Ok s' →
  vals (SALM.heap s').
Proof.
  intros Hv V E. unfold SALM.split in E.
  bind_ok E as node. bind_ok E as [root path]. bind_ok E as [[s1 l] r].
  apply vals_splitInternal in Em1; [|done].
  destruct l; [by eapply vals_append|].
  injection E as <-. by apply vals_create.
Qed.

Lemma vals_getEnd fuel s v e :
  vals (SALM.heap s) → SALM.getEnd fuel s v = Ok e → e ∈ D.
Proof.
  intros V E. unfold SALM.getEnd in E. bind_ok E as a.
  injection E as <-. apply V.
Qed.

Lemma vals_empty : "" ∈ D → vals (SALM.heap SALM.empty).
Proof. intros H a. simpl. by rewrite lookup_total_empty. Qed.
End values.

Lemma vals_mono (D D' : gset string) h : D ⊆ D' → vals D h → vals D' h.
Proof. intros HD V a. apply HD, V. Qed.

(** * The invariant of a replica *)

Definition fsib {K} (f : frame K) : btree K :=
  match f with FL _ r => r | FR l _ => l end.

Lemma cnodes_perm {K} (f : frame K) c :
  cnodes (f :: c) ≡ₚ fid f :: inorder (fsib f) ++ cnodes c.
Proof.
  unfold cnodes. destruct f as [x r|l x]; simpl.
  - rewrite (Permutation_app_comm (cleft c)). simpl.
    constructor. rewrite <- !app_assoc. apply Permutation_app_head.
    apply Permutation_app_comm.
  - rewrite <- !app_assoc. simpl.
    rewrite (Permutation_app_comm (cleft c)). rewrite <- !app_assoc. simpl.
    rewrite <- Permutation_middle. constructor.
    apply Permutation_app_head. apply Permutation_app_comm.
Qed.

Lemma NoDup_cnodes_cons {K} (f : frame K) c :
  NoDup (cnodes (f :: c)) →
  NoDup (cnodes c) ∧ (fid f ∉ inorder (fsib f)) ∧ (fid f ∉ cnodes c)
  ∧ ∀ y, y ∈ inorder (fsib f) → y ∉ cnodes c.
Proof.
  rewrite cnodes_perm. intros ND.
  apply NoDup_cons in ND as [N1 ND]. apply NoDup_app in ND as (N2 & N3 & N4).
  rewrite elem_of_app in N1. split_and!; tauto.
Qed.

Lemma path_in_cnodes {K} (c : list (frame K)) y :
  y ∈ fid <$> c → y ∈ cnodes c.
Proof.
  induction c as [|f c IH]; simpl; [by intros ?%elem_of_nil|].
  intros [->|Hy]%elem_of_cons; apply cnodes_cons; [by left|].
  right; right. by apply IH.
Qed.

Lemma sib_not_path {K} (c : list (frame K)) f y :
  NoDup (cnodes c) → f ∈ c → y ∈ inorder (fsib f) → y ∉ fid <$> c.
Proof.
  induction c as [|g c IH]; [by intros _ ?%elem_of_nil|].
  intros ND Hf Hy.
  apply NoDup_cnodes_cons in ND as (ND & N1 & N2 & N3).
  simpl. intros [->|Hp]%elem_of_cons.
  - apply elem_of_cons in Hf as [->|Hf]; [done|].
    apply N2. clear -Hf Hy. induction c as [|g' c IH]; [by apply elem_of_nil in Hf|].
    apply cnodes_cons. apply elem_of_cons in Hf as [->|Hf]; [tauto|].
    right; right. by apply IH.
  - apply elem_of_cons in Hf as [->|Hf].
    + apply (N3 y Hy). by apply path_in_cnodes.
    + by apply (IH ND Hf Hy).
Qed.

Lemma sib_in_cnodes {K} (c : list (frame K)) f y :
  f ∈ c → y ∈ inorder (fsib f) → y ∈ cnodes c.
Proof.
  induction c as [|g c IH]; [by intros ?%elem_of_nil|].
  intros Hf Hy. apply cnodes_cons. apply elem_of_cons in Hf as [->|Hf]; [tauto|].
  right; right. by apply IH.
Qed.

(** Adding [d] to the counts from a node up to the root. *)
Lemma counted_bump_path {K} (cnt cnt' : K → Z) (pres pres' : K → bool)
    c l x r d :
  NoDup (inorder (plug c (BNode l x r))) →
  counted cnt pres (plug c (BNode l x r)) →
  (∀ y, y ∈ x :: (fid <$> c) → cnt' y = cnt y + d) →
  (∀ y, y ∈ inorder (plug c (BNode l x r)) → y ∉ x :: (fid <$> c) →
        cnt' y = cnt y) →
  (∀ y, y ∈ inorder (plug c (BNode l x r)) → y ≠ x → pres' y = pres y) →
  b2z (pres' x) = b2z (pres x) + d →
  counted cnt' pres' (plug c (BNode l x r)).
Proof.
  intros ND C Hp Hn Hpr Hx.
  destruct (NoDup_cnodes _ _ ND) as (NDc & NDs & Hdisj).
  apply NoDup_node in NDs as (NDl & NDr & Hxl & Hxr & Hlr).
  apply counted_plug in C as [(Cx & Cl & Cr) CC].
  assert (∀ y, y ∈ inorder l ∨ y ∈ inorder r →
               cnt' y = cnt y ∧ pres' y = pres y) as Hsub.
  { intros y Hy.
    assert (y ∈ inorder (BNode l x r)) as Hy'.
    { simpl. rewrite elem_of_app, elem_of_cons. tauto. }
    assert (y ≠ x) by (intros ->; tauto).
    assert (y ∈ inorder (plug c (BNode l x r))) as Hy''.
    { rewrite inorder_plug, !elem_of_app. tauto. }
    split; [|by apply Hpr]. apply Hn; [done|].
    intros [->|Hc]%elem_of_cons; [done|].
    apply (Hdisj y Hy'). by apply path_in_cnodes. }
  assert (tcount pres' l = tcount pres l) as El.
  { apply tcount_ext. intros y Hy. apply Hsub. tauto. }
  assert (tcount pres' r = tcount pres r) as Er.
  { apply tcount_ext. intros y Hy. apply Hsub. tauto. }
  apply counted_plug. split.
  - simpl. split_and!.
    + rewrite Hp by (by left). rewrite El, Er. lia.
    + apply (counted_ext cnt _ pres); [|done]. intros y Hy. apply Hsub. tauto.
    + apply (counted_ext cnt _ pres); [|done]. intros y Hy. apply Hsub. tauto.
  - replace (tcount pres' (BNode l x r)) with (tcount pres (BNode l x r) + d)
      by (simpl; lia).
    apply (ccounted_bump cnt _ pres); [|done].
    intros f Hf.
    assert (fid f ∈ cnodes c) as Hfc.
    { apply path_in_cnodes. apply list_elem_of_fmap. eauto. }
    assert (∀ y, y ∈ cnodes c → y ∈ inorder (plug c (BNode l x r))) as Hin.
    { intros y. rewrite inorder_plug. unfold cnodes. rewrite !elem_of_app. tauto. }
    assert (∀ y, y ∈ cnodes c → y ≠ x) as Hne.
    { intros y Hy ->. apply (Hdisj x); [|done].
      simpl. rewrite elem_of_app, elem_of_cons. tauto. }
    split_and!.
    + apply Hp. right. apply list_elem_of_fmap. eauto.
    + apply Hpr; auto.
    + intros y Hy. pose proof (sib_in_cnodes c f y Hf Hy) as Hyc.
      split; [|apply Hpr; auto].
      apply Hn; [auto|]. intros [->|Hc]%elem_of_cons; [by apply (Hne x)|].
      by apply (sib_not_path c f y).
Qed.

(** ** Inserting a node into the balanced index *)

(** The part of a node that the balanced index reads, balance factor apart. *)
Definition ix (n : Node.t) :=
  (Node.bParent n, Node.bLeftChild n, Node.bRightChild n, Node.bCount n,
   Node.isPresent n).

Lemma indexed_ix (h h' : gmap string Node.t) root t :
  (∀ y, y ∈ inorder t → ix (h' !!! y) = ix (h !!! y)) →
  indexed h root t → indexed h' root t.
Proof.
  intros E (S & R & ND & C). split_and!; try done.
  - apply (shape_frame (tlinks h)); [|done]. intros y Hy. simpl.
    specialize (E y Hy). unfold ix in E. by simplify_eq.
  - apply (counted_ext (tcnt h) _ (tpres h)); [|done]. intros y Hy.
    unfold tcnt, tpres. specialize (E y Hy). unfold ix in E. by simplify_eq.
Qed.

Lemma attach_at_dom f n (h : gmap string Node.t) :
  n ∈ dom h → fid f ∈ dom h → dom (attach_at f n h) = dom h.
Proof.
  intros Hn Hf. unfold attach_at. rewrite !wr_dom'; [done..|by rewrite wr_dom'].
Qed.

Lemma attach_at_core f n (h : gmap string Node.t) y :
  core (attach_at f n h !!! y) = core (h !!! y).
Proof.
  unfold attach_at. rewrite core_wr_links by done.
  apply core_wr_links. by destruct f.
Qed.

Lemma bump_core d path h y : core (bump d path h y) = core (h !!! y).
Proof. unfold bump. by destruct (decide _). Qed.

Definition neighbor_in (D : gset string) (pred succ : option string) : Prop :=
  match pred, succ with
  | Some p, _ => p ∈ D
  | None, Some su => su ∈ D
  | None, None => False
  end.

Lemma bump_isPresent d path h y :
  Node.isPresent (bump d path h y) = Node.isPresent (h !!! y).
Proof. unfold bump. by destruct (decide _). Qed.

Lemma insert_index fuel (h : gmap string Node.t) root t id pid isL v sibs
    pred succ h3 h4 h5 root' :
  let h2 := CTextLogn.wr (Node.set_children isL sibs) pid
              (<[id := Node.new id (Some pid) isL v true]> h) in
  indexed h root t → (∀ y, y ∈ inorder t ↔ y ∈ dom h) →
  id ∉ dom h → pid ∈ dom h → neighbor_in (dom h) pred succ →
  CTextLogn.attach fuel h2 id pred succ = Ok h3 →
  CTextLogn.addToCounts fuel h3 1 (Some id) = Ok h4 →
  CTextLogn.rebalance fuel h4 root id = Ok (h5, root') →
  ∃ t' A B,
    indexed h5 root' t' ∧ inorder t = A ++ B ∧ inorder t' = A ++ id :: B
    ∧ match pred, succ with
      | Some p, _ => last A = Some p
      | None, Some su => head B = Some su
      | None, None => False
      end
    ∧ (∀ y, core (h5 !!! y) = core (h2 !!! y))
    ∧ dom h5 = {[id]} ∪ dom h.
Proof.
  intros h2 I Hdom Hid Hpid Hnb Eat Eadd Ereb.
  assert (pid ≠ id) as Hne by (by intros ->).
  assert (∀ y, y ≠ id → ix (h2 !!! y) = ix (h !!! y)) as Hix.
  { intros y Hy. unfold h2. rewrite wr_lookup.
    destruct (decide (pid = y)) as [->|].
    - by rewrite lookup_total_insert_ne.
    - by rewrite lookup_total_insert_ne. }
  assert (h2 !!! id = Node.new id (Some pid) isL v true) as Hnew.
  { unfold h2. by rewrite wr_ne, lookup_total_insert_eq. }
  assert (dom h2 = {[id]} ∪ dom h) as Hd2.
  { unfold h2. rewrite wr_dom'; [by rewrite dom_insert_L|].
    rewrite dom_insert_L. set_solver. }
  assert (id ∉ inorder t) as Hidt by (by rewrite Hdom).
  assert (indexed h2 root t) as I2.
  { apply (indexed_ix h); [|done]. intros y Hy. apply Hix. by intros ->. }
  destruct I2 as (S2 & R2 & ND & C2).
  destruct (attach_spec fuel h2 id pred succ h3 t S2) as (f & c & Et & -> & Hps);
    [|done|].
  { unfold neighbor_in in Hnb.
    destruct pred as [p|]; [by apply Hdom|]. destruct succ as [su|]; [by apply Hdom|done]. }
  set (h3 := attach_at f id h2) in *.
  set (t3 := plug (f :: c) (BNode BLeaf id BLeaf)).
  assert (inorder t = cleft (f :: c) ++ cright (f :: c)) as Eint
    by (by rewrite Et, inorder_plug).
  assert (inorder t3 = cleft (f :: c) ++ id :: cright (f :: c)) as Eint3
    by (unfold t3; by rewrite inorder_plug).
  assert (fid f ∈ inorder t) as Hft.
  { rewrite Et, inorder_plug. apply (path_in_cnodes (f :: c)). simpl. by left. }
  assert (fid f ≠ id) as Hfid by (by intros E; rewrite E in Hft).
  assert (dom h3 = {[id]} ∪ dom h) as Hd3.
  { unfold h3. rewrite attach_at_dom; [done|..]; rewrite Hd2; [set_solver|].
    apply elem_of_union_r. by apply Hdom. }
  assert (shape (tlinks h3) None t3) as S3.
  { apply attach_hole; rewrite <- ?Et; try done; by rewrite Hnew. }
  assert (NoDup (inorder t3)) as ND3.
  { rewrite Eint3. rewrite Eint in ND, Hidt.
    apply NoDup_app in ND as (N1 & N2 & N3). rewrite elem_of_app in Hidt.
    apply NoDup_app. split_and!; [done| |].
    - intros y Hy [->|Hy']%elem_of_cons; [tauto|by apply (N2 y)].
    - apply NoDup_cons. split; [tauto|done]. }
  assert (∀ y, y ∈ inorder t3 → is_Some (h3 !! y)) as Hin3.
  { intros y Hy. apply elem_of_dom. rewrite Hd3.
    rewrite Eint3 in Hy.
    assert (y = id ∨ y ∈ inorder t) as [->|Hy'].
    { rewrite Eint. rewrite !elem_of_app, ?elem_of_cons in *. tauto. }
    - set_solver.
    - apply elem_of_union_r. by apply Hdom. }
  destruct (addToCounts_spec 1 (f :: c) h3 BLeaf id BLeaf S3 ND3 Hin3)
    as (h4' & Hc4 & Hb4 & Hd4).
  assert (h4 = h4') as -> by (apply (computes_ok _ _ _ fuel _ Hc4 Eadd)).
  set (pres0 := λ y, if decide (y = id) then false else tpres h3 y).
  assert (pres0 id = false) as Hp0 by (unfold pres0; by rewrite decide_True).
  assert (∀ y, y ≠ id → ix (h3 !!! y) = (Node.bParent (h2 !!! y),
            Node.bLeftChild (h3 !!! y), Node.bRightChild (h3 !!! y),
            Node.bCount (h2 !!! y), Node.isPresent (h2 !!! y))) as Hix3.
  { intros y Hy. unfold h3. rewrite attach_at_lookup.
    rewrite decide_False by done.
    destruct (decide (fid f = y)) as [<-|]; [|done]. by destruct f. }
  assert (counted (tcnt h4') (tpres h4') t3) as C4.
  { apply (counted_bump_path (tcnt h3) _ pres0 _ _ _ _ _ 1); try done.
    - apply counted_plug. split.
      + simpl. split_and!; try done. rewrite Hp0. unfold tcnt, h3.
        rewrite attach_at_lookup, decide_True, decide_False by done.
        by rewrite Hnew.
      + replace (tcount pres0 (BNode BLeaf id BLeaf))
          with (tcount (tpres h2) (@BLeaf string)) by (simpl; by rewrite Hp0).
        rewrite Et in C2. apply counted_plug in C2 as [_ C2].
        apply (ccounted_ext (tcnt h2) _ (tpres h2)); [|done].
        intros y Hy.
        assert (y ≠ id).
        { intros ->. apply Hidt. rewrite Eint. done. }
        unfold pres0. rewrite decide_False by done.
        unfold tcnt, tpres. specialize (Hix3 y H). unfold ix in Hix3.
        by simplify_eq.
    - intros y Hy. unfold tcnt. rewrite Hb4. unfold bump.
      by rewrite decide_True.
    - intros y _ Hy. unfold tcnt. rewrite Hb4. unfold bump.
      by rewrite decide_False.
    - intros y _ Hy. unfold tpres, pres0. rewrite decide_False by done.
      rewrite Hb4. unfold bump. by destruct (decide _).
    - rewrite Hp0. unfold tpres. rewrite Hb4.
      unfold bump. rewrite decide_True by (by left). simpl.
      unfold h3. rewrite attach_at_lookup, decide_True, decide_False by done.
      by rewrite Hnew. }
  assert (indexed h4' root t3) as I4.
  { split_and!; [|..|done|done].
    - apply (shape_frame (tlinks h3)); [|done]. intros y _. simpl.
      rewrite Hb4. unfold bump. by destruct (decide _).
    - unfold t3. by rewrite (broot_plug_cons c f _ BLeaf), <- Et. }
  destruct (rebalance_spec fuel h4' root (f :: c) BLeaf id BLeaf h5 root' I4)
    as (t' & I5 & Ei5 & Hc5 & Hd5); [|done|].
  { intros y Hy. apply elem_of_dom. rewrite Hd4. by apply elem_of_dom, Hin3. }
  exists t', (cleft (f :: c)), (cright (f :: c)). split_and!; try done.
  - by rewrite Ei5.
  - destruct pred as [p|]; [|destruct succ as [su|]; [|done]].
    + destruct Hps as [A ->]. by rewrite last_snoc.
    + destruct Hps as [B ->]. done.
  - intros y. rewrite Hc5, Hb4, bump_core. apply attach_at_core.
  - by rewrite Hd5, Hd4.
Qed.

(** ** The invariant *)

Record Inv (s : CTextLogn.t) (t : btree string) : Prop := mkInv {
  inv_indexed : indexed (CTextLogn.nodesByID s) (CTextLogn.bRootNode s) t;
  inv_dom : ∀ y, y ∈ inorder t ↔ y ∈ dom (CTextLogn.nodesByID s);
  inv_id : ∀ y, y ∈ dom (CTextLogn.nodesByID s) →
                Node.id (CTextLogn.nodesByID s !!! y) = y;
  inv_char : ∀ y, tpres (CTextLogn.nodesByID s) y = true →
                  String.length (Node.value (CTextLogn.nodesByID s !!! y)) = 1%nat;
  inv_left : vals (dom (CTextLogn.nodesByID s)) (SALM.heap (CTextLogn.leftSALM s));
  inv_right : vals (dom (CTextLogn.nodesByID s)) (SALM.heap (CTextLogn.rightSALM s));
}.

Lemma Inv_new : Inv CTextLogn.new (BNode BLeaf CTextLogn.rootNode BLeaf).
Proof.
  assert (dom (CTextLogn.nodesByID CTextLogn.new) = {[ "" ]}) as Ed
    by (simpl; by rewrite dom_singleton_L).
  split.
  - split_and!; simpl; try done.
    + apply NoDup_singleton.
  - intros y. rewrite Ed. simpl. set_solver.
  - intros y. rewrite Ed. intros ->%elem_of_singleton. done.
  - intros y. unfold tpres. simpl. unfold CTextLogn.rootNode.
    destruct (decide (y = "")) as [->|].
    + by rewrite lookup_total_singleton.
    + by rewrite lookup_total_singleton_ne.
  - rewrite Ed. apply vals_new; [set_solver|]. apply vals_empty. set_solver.
  - rewrite Ed. apply vals_new; [set_solver|]. apply vals_empty. set_solver.
Qed.

Lemma getNeighbor_in fuel s node sibs i pred succ (D : gset string) p :
  vals D (SALM.heap (CTextLogn.leftSALM s)) →
  vals D (SALM.heap (CTextLogn.rightSALM s)) →
  Node.parent (CTextLogn.nodesByID s !!! node) = Some p → p ∈ D →
  CTextLogn.getNeighbor fuel s node sibs i = Ok (pred, succ) →
  neighbor_in D pred succ.
Proof.
  intros VL VR Ep Hp E. unfold CTextLogn.getNeighbor in E. rewrite Ep in E.
  destruct (Node.isLeftChild _).
  - destruct (bool_decide _); [by injection E as <- <-|].
    destruct (sibs !! _) as [sib|]; [|done].
    bind_ok E as e. injection E as <- <-. simpl. by apply (vals_getEnd D _ _ _ _ VL Em).
  - destruct (bool_decide _); [by injection E as <- <-|].
    destruct (sibs !! _) as [sib|]; [|done].
    bind_ok E as e. injection E as <- <-. simpl. by apply (vals_getEnd D _ _ _ _ VR Em).
Qed.

Lemma vals_updateSALM_side fuel salm other cap sibs parent node a b
    (D : gset string) :
  node ∈ D → parent ∈ D → vals D (SALM.heap salm) → vals D (SALM.heap other) →
  CTextLogn.updateSALM_side fuel salm other cap sibs parent node = Ok (a, b) →
  vals D (SALM.heap a) ∧ vals D (SALM.heap b).
Proof.
  intros Hn Hp V1 V2 E. unfold CTextLogn.updateSALM_side in E.
  bind_ok E as salm'. injection E as <- <-. split; [|by apply vals_create].
  destruct cap.
  - bind_ok Em as salm1. apply (vals_append D fuel salm1 parent node salm' Hn); [|done].
    destruct (_ <=? _)%nat;
      [apply (vals_split D fuel salm parent salm1 Hp V1 Em0)|by injection Em0 as <-].
  - injection Em as <-. by apply vals_create.
Qed.

Lemma vals_updateSALMS fuel s node parent sibs i s' (D : gset string) :
  node ∈ D → parent ∈ D →
  vals D (SALM.heap (CTextLogn.leftSALM s)) →
  vals D (SALM.heap (CTextLogn.rightSALM s)) →
  CTextLogn.updateSALMS fuel s node parent sibs i = Ok s' →
  vals D (SALM.heap (CTextLogn.leftSALM s'))
  ∧ vals D (SALM.heap (CTextLogn.rightSALM s'))
  ∧ CTextLogn.nodesByID s' = CTextLogn.nodesByID s
  ∧ CTextLogn.bRootNode s' = CTextLogn.bRootNode s.
Proof.
  intros Hn Hp VL VR E. unfold CTextLogn.updateSALMS in E.
  destruct (Node.isLeftChild _).
  - bind_ok E as [l r]. injection E as <-. simpl.
    eapply vals_updateSALM_side in Em as [? ?]; done.
  - bind_ok E as [r l]. injection E as <-. simpl.
    eapply vals_updateSALM_side in Em as [? ?]; done.
Qed.

(** The store after the new node is entered in the directory and among its
    siblings. *)
Definition entered (h : gmap string Node.t) (id pid : string) (isL : bool)
    (v : string) : gmap string Node.t * list string * nat :=
  let parent := h !!! pid in
  let h1 := <[id := Node.new id (Some pid) isL v true]> h in
  let i := CTextLogn.siblingIndex h1 id (Node.children isL parent) in
  let sibs := CTextLogn.splice i id (Node.children isL parent) in
  (CTextLogn.wr (Node.set_children isL sibs) pid h1, sibs, i).

(** What receiving an insert message does, step by step. *)
Lemma receive_insert fuel s t id pid isL v s' ev :
  Inv s t → admissible s (InsertMessage id pid isL v) →
  CTextLogn.receivePrimitive fuel s (InsertMessage id pid isL v) = Ok (s', ev) →
  let '(h2, sibs, i) := entered (CTextLogn.nodesByID s) id pid isL v in
  ∃ t' A B pred succ,
    CTextLogn.getNeighbor fuel (CTextLogn.with_nodes s h2) id sibs i
      = Ok (pred, succ)
    ∧ inorder t = A ++ B ∧ inorder t' = A ++ id :: B
    ∧ match pred, succ with
      | Some p, _ => last A = Some p
      | None, Some su => head B = Some su
      | None, None => False
      end
    ∧ Inv s' t'
    ∧ (∀ y, core (CTextLogn.nodesByID s' !!! y) = core (h2 !!! y))
    ∧ dom (CTextLogn.nodesByID s') = {[id]} ∪ dom (CTextLogn.nodesByID s)
    ∧ (if isL
       then CTextLogn.updateSALM_side fuel (CTextLogn.leftSALM s)
              (CTextLogn.rightSALM s) (bool_decide (i = 0%nat)) sibs pid id
            = Ok (CTextLogn.leftSALM s', CTextLogn.rightSALM s')
       else CTextLogn.updateSALM_side fuel (CTextLogn.rightSALM s)
              (CTextLogn.leftSALM s)
              (bool_decide (i = (length sibs - 1)%nat)) sibs pid id
            = Ok (CTextLogn.rightSALM s', CTextLogn.leftSALM s')).
Proof.
  intros [I Hdom Hid Hch VL VR] (Hfresh & [parent Hpar] & Hv) E.
  unfold entered. simpl in E. rewrite Hpar in E.
  rewrite (lookup_total_correct _ _ _ Hpar).
  set (h := CTextLogn.nodesByID s) in *.
  set (h1 := <[id := Node.new id (Some pid) isL v true]> h) in *.
  set (i := CTextLogn.siblingIndex h1 id (Node.children isL parent)) in *.
  set (sibs := CTextLogn.splice i id (Node.children isL parent)) in *.
  set (h2 := CTextLogn.wr (Node.set_children isL sibs) pid h1) in *.
  assert (id ∉ dom h) as Hidd by (by apply not_elem_of_dom).
  assert (pid ∈ dom h) as Hpd by (by apply elem_of_dom).
  assert (pid ≠ id) as Hne by (by intros ->).
  assert (h2 !!! id = Node.new id (Some pid) isL v true) as Hnew.
  { unfold h2, h1. by rewrite wr_ne, lookup_total_insert_eq. }
  bind_ok E as [pred succ]. bind_ok E as h3. bind_ok E as h4.
  bind_ok E as [h5 root']. bind_ok E as s6. bind_ok E as [index b].
  injection E as <- <-.
  pose proof (getNeighbor_in fuel (CTextLogn.with_nodes s h2) id sibs i pred succ
                (dom h) pid VL VR) as Hnb.
  simpl in Hnb. rewrite Hnew in Hnb. specialize (Hnb eq_refl Hpd Em).
  destruct (insert_index fuel h _ t id pid isL v sibs pred succ h3 h4 h5 root'
              I Hdom Hidd Hpd Hnb Em0 Em1 Em2)
    as (t' & A & B & I5 & EA & EB & Hps & Hcore & Hd5).
  fold h1 h2 in Hcore.
  assert (vals (dom h5) (SALM.heap (CTextLogn.leftSALM s))) as VL5.
  { eapply vals_mono; [|done]. rewrite Hd5. set_solver. }
  assert (vals (dom h5) (SALM.heap (CTextLogn.rightSALM s))) as VR5.
  { eapply vals_mono; [|done]. rewrite Hd5. set_solver. }
  assert (id ∈ dom h5) as Hid5 by (rewrite Hd5; set_solver).
  assert (pid ∈ dom h5) as Hpid5 by (rewrite Hd5; set_solver).
  destruct (vals_updateSALMS fuel
              (CTextLogn.mk h5 root' (CTextLogn.leftSALM s) (CTextLogn.rightSALM s))
              id pid sibs i s6 (dom h5) Hid5 Hpid5 VL5 VR5 Em3)
    as (VL6 & VR6 & En6 & Er6).
  simpl in En6, Er6.
  exists t', A, B, pred, succ. split_and!; try done.
  - split; rewrite ?En6, ?Er6; try done.
    + intros y. rewrite EB, Hd5.
      rewrite elem_of_union, elem_of_singleton, <- Hdom, EA.
      rewrite !elem_of_app, elem_of_cons. tauto.
    + intros y Hy. specialize (Hcore y).
      assert (Node.id (h5 !!! y) = Node.id (h2 !!! y)) as ->
        by (unfold core in Hcore; by simplify_eq).
      destruct (decide (y = id)) as [->|]; [by rewrite Hnew|].
      unfold h2. rewrite wr_lookup.
      assert (y ∈ dom h) as Hyd by (rewrite Hd5 in Hy; set_solver).
      destruct (decide (pid = y)) as [->|]; unfold h1;
        rewrite lookup_total_insert_ne by done; simpl; by apply Hid.
    + intros y Hy. specialize (Hcore y).
      assert (Node.value (h5 !!! y) = Node.value (h2 !!! y)
              ∧ tpres h5 y = tpres h2 y) as [-> Ep]
        by (unfold tpres, core in *; by simplify_eq).
      rewrite Ep in Hy. revert Hy.
      destruct (decide (y = id)) as [->|]; [by rewrite Hnew|].
      unfold tpres, h2. rewrite wr_lookup.
      destruct (decide (pid = y)) as [->|]; unfold h1;
        rewrite lookup_total_insert_ne by done; simpl; apply Hch.
  - by rewrite En6.
  - by rewrite En6.
  - unfold CTextLogn.updateSALMS in Em3. simpl in Em3.
    assert (Node.isLeftChild (h5 !!! id) = isL) as Eil.
    { specialize (Hcore id). rewrite Hnew in Hcore. unfold core in Hcore.
      by simplify_eq. }
    rewrite Eil in Em3. destruct isL.
    + bind_ok Em3 as [l r]. by injection Em3 as <-.
    + bind_ok Em3 as [r l]. by injection Em3 as <-.
Qed.

(** ** Receiving a delete message *)

Lemma computes_bind {A B} (run : nat → result A) (k : nat → A → result B)
    n1 n2 a b :
  computes run n1 a → computes (λ fuel, k fuel a) n2 b →
  computes (λ fuel, bind (run fuel) (k fuel)) (n1 `max` n2) b.
Proof.
  intros H1 H2 fuel. destruct (H1 fuel) as [->|[-> ?]]; simpl.
  - destruct (H2 fuel) as [?|[? ?]]; [by left|right]. split; [done|lia].
  - right. split; [done|lia].
Qed.

Lemma computes_pure {A} (a : A) n : computes (λ _, Ok a) n a.
Proof. intros fuel. by left. Qed.

(** The store after a delete of a present node [id] whose balanced ancestors
    are the frames of [c]. *)
Definition deleted (h : gmap string Node.t) (id : string)
    (c : list (frame string)) (y : string) : Node.t :=
  bump (-1) (id :: (fid <$> c)) (CTextLogn.wr (Node.set_isPresent false) id h) y.

Lemma receive_delete s t id :
  Inv s t → id ∈ dom (CTextLogn.nodesByID s) →
  ∃ n s' ev,
    computes (λ fuel, CTextLogn.receivePrimitive fuel s (DeleteMessage id)) n (s', ev)
    ∧ Inv s' t
    ∧ if tpres (CTextLogn.nodesByID s) id then
        ∃ c l r, t = plug c (BNode l id r)
          ∧ (∀ y, CTextLogn.nodesByID s' !!! y = deleted (CTextLogn.nodesByID s) id c y)
          ∧ dom (CTextLogn.nodesByID s') = dom (CTextLogn.nodesByID s)
          ∧ CTextLogn.bRootNode s' = CTextLogn.bRootNode s
          ∧ CTextLogn.leftSALM s' = CTextLogn.leftSALM s
          ∧ CTextLogn.rightSALM s' = CTextLogn.rightSALM s
          ∧ ev = Some (Delete (cbefore (tpres (CTextLogn.nodesByID s)) c
                               + tcount (tpres (CTextLogn.nodesByID s)) l)
                              (Node.value (CTextLogn.nodesByID s !!! id)))
      else s' = s ∧ ev = None.
Proof.
  intros HI Hin. pose proof HI as [I Hdom Hid Hch VL VR].
  set (h := CTextLogn.nodesByID s) in *.
  pose proof Hin as [node Hnode]%elem_of_dom.
  pose proof (lookup_total_correct _ _ _ Hnode) as Hnode'.
  unfold tpres. rewrite Hnode'.
  destruct (Node.isPresent node) eqn:Hpres.
  2:{ exists 0%nat, s, None. split_and!; [|done..].
      intros fuel. left. simpl. fold h. by rewrite Hnode, Hpres. }
  destruct I as (S & R & ND & C).
  destruct (in_zipper id t) as (c & l & r & ->); [by apply Hdom|].
  set (t := plug c (BNode l id r)) in *.
  set (h1 := CTextLogn.wr (Node.set_isPresent false) id h).
  assert (∀ y, Node.bParent (h1 !!! y) = Node.bParent (h !!! y)
               ∧ Node.bLeftChild (h1 !!! y) = Node.bLeftChild (h !!! y)
               ∧ Node.bRightChild (h1 !!! y) = Node.bRightChild (h !!! y)
               ∧ Node.bCount (h1 !!! y) = Node.bCount (h !!! y)) as Hl1.
  { intros y. unfold h1. rewrite wr_lookup. by destruct (decide (id = y)) as [->|]. }
  assert (dom h1 = dom h) as Hd1 by (by apply wr_dom').
  assert (shape (tlinks h1) None t) as S1.
  { apply (shape_frame (tlinks h)); [|done]. intros y _. simpl.
    destruct (Hl1 y) as (-> & -> & -> & _). done. }
  destruct (addToCounts_spec (-1) c h1 l id r S1 ND) as (h4 & Hc4 & Hb4 & Hd4).
  { intros y Hy. apply elem_of_dom. rewrite Hd1. by apply Hdom. }
  pose proof (nodeToIndex_spec h c l id r S ND C) as Hc1.
  set (s' := CTextLogn.with_nodes s h4).
  exists ((length c + 1) `max` ((length c + 2) `max` 0))%nat, s',
    (Some (Delete (cbefore (tpres h) c + tcount (tpres h) l) (Node.value node))).
  assert (∀ y, tpres h4 y = if decide (y = id) then false else tpres h y) as Hp4.
  { intros y. unfold tpres. rewrite Hb4, bump_isPresent. unfold h1.
    rewrite wr_lookup. destruct (decide (y = id)) as [->|].
    - by rewrite decide_True.
    - by rewrite decide_False. }
  assert (∀ y, core (h4 !!! y) = core (h !!! y) ∨ y = id) as Hco4.
  { intros y. destruct (decide (y = id)) as [->|]; [by right|left].
    rewrite Hb4, bump_core. unfold h1. by rewrite wr_ne. }
  split_and!.
  - intros fuel. simpl. fold h. rewrite Hnode, Hpres.
    apply (computes_bind
             (λ fuel, CTextLogn.nodeToIndex fuel h id)
             (λ fuel '(index, _),
                let* h0 := CTextLogn.addToCounts fuel h1 (-1) (Some id) in
                Ok (CTextLogn.with_nodes s h0,
                    Some (Delete index (Node.value node))))
             _ _ _ _ Hc1).
    apply (computes_bind
             (λ fuel, CTextLogn.addToCounts fuel h1 (-1) (Some id))
             (λ _ h0, Ok (CTextLogn.with_nodes s h0,
                          Some (Delete _ (Node.value node))))
             _ _ _ _ Hc4).
    apply computes_pure.
  - split; simpl; fold h.
    + split_and!; try done.
      * apply (shape_frame (tlinks h1)); [|done]. intros y _. simpl.
        rewrite Hb4. unfold bump. by destruct (decide _).
      * apply (counted_bump_path (tcnt h) _ (tpres h) _ _ _ _ _ (-1)); try done.
        -- intros y Hy. unfold tcnt. rewrite Hb4. unfold bump.
           rewrite decide_True by done. simpl. by destruct (Hl1 y) as (_ & _ & _ & ->).
        -- intros y _ Hy. unfold tcnt. rewrite Hb4. unfold bump.
           rewrite decide_False by done. by destruct (Hl1 y) as (_ & _ & _ & ->).
        -- intros y _ Hy. rewrite Hp4. by rewrite decide_False.
        -- rewrite Hp4, decide_True by done. unfold tpres. fold h in Hnode'.
           by rewrite Hnode', Hpres.
    + intros y. rewrite Hd4, Hd1. apply Hdom.
    + intros y. rewrite Hd4, Hd1. intros Hy.
      rewrite Hb4. unfold bump, h1.
      assert (Node.id (CTextLogn.wr (Node.set_isPresent false) id h !!! y) = y) as E.
      { rewrite wr_lookup. destruct (decide (id = y)) as [->|]; simpl; by apply Hid. }
      by destruct (decide _).
    + intros y. rewrite Hp4. destruct (decide (y = id)) as [->|]; [done|].
      intros Hy. destruct (Hco4 y) as [E|]; [|done].
      assert (Node.value (h4 !!! y) = Node.value (h !!! y)) as ->
        by (unfold core in E; by simplify_eq).
      by apply Hch.
    + by rewrite Hd4, Hd1.
    + by rewrite Hd4, Hd1.
  - exists c, l, r. split_and!; try done. simpl. by rewrite Hd4.
Qed.

(** * What the operations compute in a state that satisfies the invariant *)

Lemma reachable_Inv s : reachable s → ∃ t, Inv s t.
Proof.
  induction 1 as [|s m fuel s' ev _ [t I] Ha E].
  - eexists. apply Inv_new.
  - destruct m as [id|id pid isL v].
    + destruct (receive_delete s t id I) as (n & s1 & ev1 & Hc & I1 & _).
      { by apply elem_of_dom. }
      pose proof (computes_ok _ _ _ fuel _ Hc E) as [= -> ->]. by exists t.
    + pose proof (receive_insert fuel s t id pid isL v s' ev I Ha E) as H.
      unfold entered in H. destruct H as (t' & A & B & pred & succ & _ & _ & _ & _ & I' & _).
      by exists t'.
Qed.

Lemma length_tcount s t :
  Inv s t → CTextLogn.length s = tcount (tpres (CTextLogn.nodesByID s)) t.
Proof.
  intros [(S & R & ND & C) _ _ _ _ _]. unfold CTextLogn.length.
  destruct t as [|l x r]; [done|]. injection R as <-. by destruct C as (E & _).
Qed.

Lemma length_pvalues s t :
  Inv s t →
  CTextLogn.length s
  = Z.of_nat (length (pvalues (CTextLogn.nodesByID s) (inorder t))).
Proof. intros I. by rewrite pvalues_length, (length_tcount s t). Qed.

Lemma pvalues_chars s t l :
  Inv s t →
  Forall (λ v, String.length v = 1%nat) (pvalues (CTextLogn.nodesByID s) l).
Proof.
  intros I. induction l as [|x l IH]; [constructor|].
  rewrite pvalues_cons. apply Forall_app. split; [|done].
  destruct (tpres _ x) eqn:E; constructor; [|done]. by apply (inv_char _ _ I).
Qed.

(** The text of a replica. *)
Lemma toString_spec s t :
  Inv s t →
  ∃ n, computes (λ fuel, CTextLogn.toString fuel s) n
         (text_of (CTextLogn.nodesByID s) (inorder t))
       ∧ Z.of_nat (String.length (text_of (CTextLogn.nodesByID s) (inorder t)))
         = CTextLogn.length s.
Proof.
  intros I. pose proof I as [(S & R & ND & C) _ _ _ _ _].
  set (h := CTextLogn.nodesByID s) in *.
  assert (Z.of_nat (String.length (text_of h (inorder t))) = CTextLogn.length s)
    as Elen.
  { unfold text_of. rewrite length_concat_chars by (by eapply pvalues_chars).
    by rewrite (length_pvalues s t). }
  destruct (walk_root h t _ R S ND C) as [k Hk].
  exists k. split; [|done]. intros fuel. unfold CTextLogn.toString.
  pose proof (tcount_nonneg (tpres h) t) as Hnn.
  pose proof (length_tcount s t I) as EL. fold h in EL. rewrite <- EL in Hnn.
  destruct (CTextLogn.length s <? 0) eqn:E0; [lia|].
  fold h.
  destruct (CTextLogn.toString_walk fuel h (Some (CTextLogn.bRootNode s))
              PARENT (replicate (Z.to_nat (CTextLogn.length s)) None))
    as [vals|e|] eqn:Ew.
  - left. simpl.
    destruct (Nat.le_gt_cases k fuel) as [Hle|Hgt].
    + rewrite Hk in Ew by done. injection Ew as <-.
      rewrite join_holes. fold (text_of h (inorder t)).
      by rewrite bool_decide_true.
    + apply (walk_mono_le fuel k) in Ew; [|lia].
      rewrite Hk in Ew by done. injection Ew as <-.
      rewrite join_holes. fold (text_of h (inorder t)).
      by rewrite bool_decide_true.
  - by apply walk_no_throw in Ew.
  - right. split; [done|].
    destruct (Nat.le_gt_cases k fuel) as [Hle|Hgt]; [|done].
    by rewrite Hk in Ew.
Qed.

Lemma cbefore_pvalues (h : gmap string Node.t) c :
  cbefore (tpres h) c = Z.of_nat (length (pvalues h (cleft c))).
Proof.
  induction c as [|[x r|l x] c IH]; simpl; [done|done|].
  rewrite !pvalues_app, !length_app, !Nat2Z.inj_add, <- IH, pvalues_length.
  rewrite pvalues_cons. simpl. rewrite app_nil_r.
  unfold b2z. destruct (tpres h x); simpl; lia.
Qed.

(** The node at an index. *)
Lemma indexToNode_spec s t i :
  Inv s t → 0 ≤ i < CTextLogn.length s →
  ∃ c l x r n,
    t = plug c (BNode l x r) ∧ tpres (CTextLogn.nodesByID s) x = true
    ∧ cbefore (tpres (CTextLogn.nodesByID s)) c
      + tcount (tpres (CTextLogn.nodesByID s)) l = i
    ∧ computes (λ fuel, CTextLogn.indexToNode fuel s i) n x.
Proof.
  intros I Hi. pose proof I as [(S & R & ND & C) _ _ _ _ _].
  rewrite (length_tcount s t I) in Hi.
  destruct (indexToNode_loop_spec (CTextLogn.nodesByID s) t [] i _ R S C Hi)
    as (c & l & x & r & n & Et & Hp & Hb & Hc).
  exists c, l, x, r, n. split_and!; try done.
  intros fuel. unfold CTextLogn.indexToNode.
  rewrite (length_tcount s t I).
  destruct (i <? 0) eqn:E1; [lia|]. destruct (_ <=? i) eqn:E2; [lia|].
  apply Hc.
Qed.

Lemma indexToNode_out s i fuel :
  i < 0 ∨ CTextLogn.length s ≤ i →
  CTextLogn.indexToNode fuel s i = Throw IndexOutOfBounds.
Proof.
  intros Hi. unfold CTextLogn.indexToNode.
  destruct (i <? 0) eqn:E1; [done|]. destruct (_ <=? i) eqn:E2; [done|lia].
Qed.

Lemma in_plug {K} (c : list (frame K)) l x r : x ∈ inorder (plug c (BNode l x r)).
Proof. rewrite inorder_plug. simpl. rewrite !elem_of_app, elem_of_cons. tauto. Qed.

Lemma round_trip_spec s t i :
  Inv s t → 0 ≤ i < CTextLogn.length s →
  ∃ x n,
    computes (λ fuel, CTextLogn.indexToNode fuel s i) n x
    ∧ computes (λ fuel, CTextLogn.nodeToIndex fuel (CTextLogn.nodesByID s) x) n
        (i, true)
    ∧ x ∈ dom (CTextLogn.nodesByID s)
    ∧ Node.id (CTextLogn.nodesByID s !!! x) = x.
Proof.
  intros I Hi.
  destruct (indexToNode_spec s t i I Hi) as (c & l & x & r & n & -> & Hp & Hb & Hc).
  pose proof I as [(S & R & ND & C) Hdom Hid _ _ _].
  pose proof (nodeToIndex_spec _ c l x r S ND C) as Hn.
  rewrite Hb, Hp in Hn.
  assert (x ∈ dom (CTextLogn.nodesByID s)) as Hx by (apply Hdom, in_plug).
  exists x, (n `max` (length c + 1))%nat. split_and!; [| |done|by apply Hid].
  - eapply computes_weaken; [done|lia].
  - eapply computes_weaken; [done|lia].
Qed.

Lemma pvalues_ext (h h' : gmap string Node.t) l :
  (∀ y, y ∈ l → tpres h' y = tpres h y
               ∧ Node.value (h' !!! y) = Node.value (h !!! y)) →
  pvalues h' l = pvalues h l.
Proof.
  induction l as [|x l IH]; intros H; [done|].
  rewrite !pvalues_cons, IH.
  - destruct (H x) as [-> ->]; [by left|done].
  - intros y Hy. apply H. by right.
Qed.

(** Deleting the character at an index. *)
Lemma deleteOne_spec s t i :
  Inv s t → 0 ≤ i < CTextLogn.length s →
  ∃ n s',
    computes (λ fuel, CTextLogn.deleteOne fuel s i) n s'
    ∧ Inv s' t
    ∧ CTextLogn.length s' = CTextLogn.length s - 1
    ∧ pvalues (CTextLogn.nodesByID s') (inorder t)
      = delete (Z.to_nat i) (pvalues (CTextLogn.nodesByID s) (inorder t)).
Proof.
  intros I Hi.
  destruct (indexToNode_spec s t i I Hi) as (c & l & x & r & n & Et & Hp & Hb & Hc).
  pose proof I as [(S & R & ND & C) Hdom Hid _ _ _].
  assert (x ∈ dom (CTextLogn.nodesByID s)) as Hx by (rewrite Et in Hdom; apply Hdom, in_plug).
  destruct (receive_delete s t x I Hx) as (n2 & s' & ev & Hc2 & I' & Hd).
  rewrite Hp in Hd. destruct Hd as (c' & l' & r' & Et' & Hnodes & Hdom' & _).
  set (h := CTextLogn.nodesByID s) in *. set (h' := CTextLogn.nodesByID s') in *.
  assert (∀ y, tpres h' y = if decide (y = x) then false else tpres h y) as Hp'.
  { intros y. unfold tpres. rewrite Hnodes. unfold deleted.
    rewrite bump_isPresent, wr_lookup.
    destruct (decide (y = x)) as [->|]; [by rewrite decide_True|by rewrite decide_False]. }
  assert (∀ y, Node.value (h' !!! y) = Node.value (h !!! y)) as Hv'.
  { intros y. rewrite Hnodes. unfold deleted.
    assert (∀ d p g, Node.value (bump d p g y) = Node.value (g !!! y)) as ->
      by (intros; unfold bump; by destruct (decide _)).
    rewrite wr_lookup. by destruct (decide (x = y)) as [->|]. }
  assert (pvalues h' (inorder t) = delete (Z.to_nat i) (pvalues h (inorder t))) as Epv.
  { rewrite Et in ND. destruct (NoDup_cnodes c _ ND) as (_ & NDs & Hdisj).
    apply NoDup_node in NDs as (_ & _ & Hxl & Hxr & _).
    specialize (Hdisj x ltac:(ino)). unfold cnodes in Hdisj.
    rewrite elem_of_app in Hdisj.
    rewrite Et, inorder_plug. simpl.
    assert (∀ y, y ≠ x → tpres h' y = tpres h y ∧ Node.value (h' !!! y) = Node.value (h !!! y))
      as Hoth.
    { intros y Hy. split; [|done]. by rewrite Hp', decide_False. }
    rewrite !pvalues_app, !pvalues_cons, Hp, Hp', decide_True by done. simpl.
    rewrite (pvalues_ext h h' (cleft c)), (pvalues_ext h h' (inorder l)),
      (pvalues_ext h h' (inorder r)), (pvalues_ext h h' (cright c));
      try (intros y Hy; apply Hoth; intros ->; tauto).
    replace (Z.to_nat i) with (length (pvalues h (cleft c) ++ pvalues h (inorder l))).
    2:{ rewrite length_app. rewrite <- Hb, cbefore_pvalues, <- pvalues_length. lia. }
    rewrite <- !app_assoc. simpl.
    rewrite !(app_assoc (pvalues h (cleft c)) (pvalues h (inorder l))).
    by rewrite delete_middle. }
  exists (n `max` (n2 `max` 0))%nat, s'. split_and!; try done.
  - intros fuel. unfold CTextLogn.deleteOne, CTextLogn.deleteOne_message.
    destruct (Hc fuel) as [->|[-> ?]]; cbn [bind]; [|right; split; [done|lia]].
    fold h. rewrite (Hid x Hx).
    destruct (Hc2 fuel) as [->|[-> ?]]; cbn [bind]; [by left|right; split; [done|lia]].
  - rewrite (length_pvalues s t I), (length_pvalues s' t I').
    fold h h'. rewrite Epv, length_delete.
    + pose proof (length_pvalues s t I) as EL. fold h in EL. lia.
    + apply lookup_lt_is_Some_2.
      pose proof (length_pvalues s t I) as EL. fold h in EL. lia.
Qed.

Lemma take_delete_ge {A} (l : list A) : ∀ a j,
  (a ≤ j)%nat → take a (delete j l) = take a l.
Proof.
  induction l as [|x l IH]; intros [|a] [|j] Hle; simpl; try done; try lia.
  f_equal. apply IH. lia.
Qed.

Lemma drop_delete_eq {A} (l : list A) : ∀ j, drop j (delete j l) = drop (S j) l.
Proof.
  induction l as [|x l IH]; intros [|j]; simpl; done.
Qed.

(** [delete(i, k)] inside the text. *)
Lemma delete_spec k : ∀ s t i,
  Inv s t → 0 ≤ i → i + Z.of_nat k ≤ CTextLogn.length s →
  ∃ n s',
    (∀ fuel, (n ≤ fuel)%nat → CTextLogn.delete fuel s i k = (s', Ok tt))
    ∧ Inv s' t
    ∧ pvalues (CTextLogn.nodesByID s') (inorder t)
      = take (Z.to_nat i) (pvalues (CTextLogn.nodesByID s) (inorder t))
        ++ drop (Z.to_nat i + k) (pvalues (CTextLogn.nodesByID s) (inorder t)).
Proof.
  induction k as [|k IH]; intros s t i I H0 Hk.
  - exists 0%nat, s. split_and!; [done..|].
    by rewrite Nat.add_0_r, take_drop.
  - destruct (deleteOne_spec s t (i + Z.of_nat k) I) as (n1 & s1 & Hc1 & I1 & El & Ep);
      [lia|].
    destruct (IH s1 t i I1 H0) as (n2 & s2 & Hc2 & I2 & Ep2); [lia|].
    exists (n1 `max` n2)%nat, s2. split_and!; [|done|].
    + intros fuel Hf. simpl.
      rewrite (computes_enough _ _ _ fuel Hc1) by lia. apply Hc2. lia.
    + rewrite Ep2, Ep.
      replace (Z.to_nat (i + Z.of_nat k)) with (Z.to_nat i + k)%nat by lia.
      rewrite take_delete_ge by lia. rewrite drop_delete_eq.
      by replace (Z.to_nat i + S k)%nat with (S (Z.to_nat i + k)) by lia.
Qed.

(** A loop that needs [n] units of fuel to throw [e]. *)
Definition raises {A} (run : nat → result A) (n : nat) (e : error) : Prop :=
  ∀ fuel, run fuel = Throw e ∨ (run fuel = OutOfFuel ∧ (fuel < n)%nat).

Lemma raises_enough {A} (run : nat → result A) n e fuel :
  raises run n e → (n ≤ fuel)%nat → run fuel = Throw e.
Proof. intros H Hn. destruct (H fuel) as [|[_ ?]]; [done|lia]. Qed.

(** [delete(i, k)] reaching outside the text throws; by then it has
    deleted the characters [0 .. i+k-1] if the range starts before the text
    and ends inside it, and nothing otherwise. *)
Lemma delete_throws k : ∀ s t i,
  Inv s t → (1 ≤ k)%nat → i < 0 ∨ CTextLogn.length s < i + Z.of_nat k →
  ∃ n s',
    (∀ fuel, (n ≤ fuel)%nat →
       CTextLogn.delete fuel s i k = (s', Throw IndexOutOfBounds))
    ∧ Inv s' t
    ∧ pvalues (CTextLogn.nodesByID s') (inorder t)
      = (if decide (i + Z.of_nat k ≤ CTextLogn.length s)
         then drop (Z.to_nat (i + Z.of_nat k))
                (pvalues (CTextLogn.nodesByID s) (inorder t))
         else pvalues (CTextLogn.nodesByID s) (inorder t))
    ∧ (CTextLogn.length s < i + Z.of_nat k ∨ i + Z.of_nat k ≤ 0 → s' = s).
Proof.
  induction k as [|k IH]; intros s t i I Hk Hout; [lia|].
  destruct (decide (0 ≤ i + Z.of_nat k < CTextLogn.length s)) as [Hin|Hnin].
  - destruct (deleteOne_spec s t (i + Z.of_nat k) I Hin)
      as (n1 & s1 & Hc1 & I1 & El & Ep).
    destruct (IH s1 t i I1) as (n2 & s2 & Hr2 & I2 & Ep2 & _); [lia|lia|].
    exists (n1 `max` n2)%nat, s2. split_and!; [|done| |lia].
    + intros fuel Hf. simpl.
      rewrite (computes_enough _ _ _ fuel Hc1) by lia. apply Hr2. lia.
    + rewrite Ep2, Ep, El. rewrite !decide_True by lia.
      replace (Z.to_nat (i + Z.of_nat (S k)))
        with (S (Z.to_nat (i + Z.of_nat k))) by lia.
      apply drop_delete_eq.
  - exists 0%nat, s. split_and!; [|done| |done].
    + intros fuel _. simpl.
      unfold CTextLogn.deleteOne, CTextLogn.deleteOne_message.
      rewrite indexToNode_out; [done|lia].
    + destruct (decide _) as [Hle|]; [|done].
      by replace (Z.to_nat (i + Z.of_nat (S k))) with 0%nat by lia.
Qed.

(** * The trees of a list manager *)

Definition slinks (h : gmap nat SNode.t) : links nat :=
  Links (λ a, SNode.bParent (h !!! a)) (λ a, SNode.bLeftChild (h !!! a))
        (λ a, SNode.bRightChild (h !!! a)).

Definition sval (h : gmap nat SNode.t) (a : nat) : string :=
  SNode.value (h !!! a).

(** The pointers and the value of a node: all but its height. *)
Definition noh (n : SNode.t) : SNode.t := SNode.set_bHeight 0 n.

Lemma swr_lookup f a (h : gmap nat SNode.t) b :
  SALM.wr f a h !!! b = if decide (a = b) then f (h !!! a) else h !!! b.
Proof. unfold SALM.wr. apply lookup_total_insert. Qed.

Lemma swr_eq f a (h : gmap nat SNode.t) : SALM.wr f a h !!! a = f (h !!! a).
Proof. rewrite swr_lookup. by destruct (decide (a = a)). Qed.

Lemma swr_ne f a (h : gmap nat SNode.t) b :
  a ≠ b → SALM.wr f a h !!! b = h !!! b.
Proof. intros. rewrite swr_lookup. by destruct (decide (a = b)). Qed.

Lemma sreparent_eq (h : gmap nat SNode.t) p w :
  SALM.reparent (Some w) p h !!! w = SNode.set_bParent (Some p) (h !!! w).
Proof. apply swr_eq. Qed.

Lemma sreparent_ne (h : gmap nat SNode.t) child p w :
  child ≠ Some w → SALM.reparent child p h !!! w = h !!! w.
Proof.
  intros Hne. destruct child as [c|]; simpl; [|done]. apply swr_ne. congruence.
Qed.

Lemma updateBHeight_noh (h : gmap nat SNode.t) a w :
  noh (SALM.updateBHeight h a !!! w) = noh (h !!! w).
Proof.
  unfold SALM.updateBHeight.
  destruct (SNode.bLeftChild _), (SNode.bRightChild _);
    rewrite swr_lookup; destruct (decide (a = w)) as [->|]; done.
Qed.

Lemma noh_fields (n n' : SNode.t) :
  noh n = noh n' →
  SNode.bParent n = SNode.bParent n' ∧ SNode.bLeftChild n = SNode.bLeftChild n'
  ∧ SNode.bRightChild n = SNode.bRightChild n' ∧ SNode.value n = SNode.value n'.
Proof.
  intros E. destruct n, n'. unfold noh, SNode.set_bHeight in E. simpl in E.
  injection E; intros; subst. done.
Qed.

Lemma ubh_bParent h a w :
  SNode.bParent (SALM.updateBHeight h a !!! w) = SNode.bParent (h !!! w).
Proof. apply (noh_fields _ _ (updateBHeight_noh h a w)). Qed.
Lemma ubh_bLeftChild h a w :
  SNode.bLeftChild (SALM.updateBHeight h a !!! w) = SNode.bLeftChild (h !!! w).
Proof. apply (noh_fields _ _ (updateBHeight_noh h a w)). Qed.
Lemma ubh_bRightChild h a w :
  SNode.bRightChild (SALM.updateBHeight h a !!! w) = SNode.bRightChild (h !!! w).
Proof. apply (noh_fields _ _ (updateBHeight_noh h a w)). Qed.
Lemma ubh_value h a w :
  SNode.value (SALM.updateBHeight h a !!! w) = SNode.value (h !!! w).
Proof. apply (noh_fields _ _ (updateBHeight_noh h a w)). Qed.

Lemma ubh_ne (h : gmap nat SNode.t) a w :
  a ≠ w → SALM.updateBHeight h a !!! w = h !!! w.
Proof.
  intros. unfold SALM.updateBHeight.
  destruct (SNode.bLeftChild _), (SNode.bRightChild _); by rewrite swr_ne.
Qed.

(** Read through a sequence of writes of a list manager. *)
Ltac srd :=
  repeat first
    [ rewrite swr_eq | rewrite sreparent_eq
    | rewrite swr_ne by congruence | rewrite sreparent_ne by congruence
    | rewrite ubh_ne by congruence
    | rewrite ubh_bParent | rewrite ubh_bLeftChild | rewrite ubh_bRightChild
    | rewrite ubh_value
    | progress cbn [SNode.bParent SNode.bLeftChild SNode.bRightChild
        SNode.value SNode.bHeight SNode.set_bParent SNode.set_bLeftChild
        SNode.set_bRightChild SNode.set_bHeight] ].

(** ** Rotations, on the pointers alone *)

Section rotations.
Context {K : Type}.
Implicit Types (L : links K) (t a b c : btree K).

(** The pointers [L'] agree with [L] on the nodes of [t]. *)
Definition same_links L L' (t : btree K) : Prop :=
  ∀ y, y ∈ inorder t →
       par L' y = par L y ∧ lft L' y = lft L y ∧ rgt L' y = rgt L y.

(** The same, but the root of [t] now has the parent [p]. *)
Definition moved_links L L' (p : K) (t : btree K) : Prop :=
  (∀ y, y ∈ inorder t → lft L' y = lft L y ∧ rgt L' y = rgt L y
                        ∧ (broot t ≠ Some y → par L' y = par L y))
  ∧ ∀ y, broot t = Some y → par L' y = Some p.

Lemma same_links_shape L L' p t : same_links L L' t → shape L p t → shape L' p t.
Proof. apply shape_frame. Qed.

Lemma moved_links_shape L L' p q t :
  NoDup (inorder t) → moved_links L L' p t → shape L q t → shape L' (Some p) t.
Proof.
  intros ND [H1 H2]. apply shape_reparent; [done|..].
  - intros y Hy. by destruct (H1 y Hy) as (? & ? & _).
  - intros y Hy Hne. by destruct (H1 y Hy) as (_ & _ & ->).
  - done.
Qed.

Lemma shape_single_left L L' q c x b z a :
  shape L q (BNode c x (BNode b z a)) →
  NoDup (inorder (BNode c x (BNode b z a))) →
  same_links L L' c → same_links L L' a → moved_links L L' x b →
  par L' x = Some z → lft L' x = broot c → rgt L' x = broot b →
  lft L' z = Some x → rgt L' z = broot a →
  shape' L' (BNode (BNode c x b) z a).
Proof.
  intros (_ & _ & _ & Sc & (_ & _ & _ & Sb & Sa)) ND Hc Ha Hb Px Lx Rx Lz Rz.
  apply NoDup_node in ND as (_ & ND & _).
  apply NoDup_node in ND as (NDb & _).
  simpl. split_and!; try done.
  - by apply (same_links_shape L).
  - by apply (moved_links_shape L L' x (Some z)).
  - by apply (same_links_shape L).
Qed.

Lemma shape_single_right L L' q a z b x c :
  shape L q (BNode (BNode a z b) x c) →
  NoDup (inorder (BNode (BNode a z b) x c)) →
  same_links L L' c → same_links L L' a → moved_links L L' x b →
  par L' x = Some z → lft L' x = broot b → rgt L' x = broot c →
  lft L' z = broot a → rgt L' z = Some x →
  shape' L' (BNode a z (BNode b x c)).
Proof.
  intros (_ & _ & _ & (_ & _ & _ & Sa & Sb) & Sc) ND Hc Ha Hb Px Lx Rx Lz Rz.
  apply NoDup_node in ND as (ND & _).
  apply NoDup_node in ND as (_ & NDb & _).
  simpl. split_and!; try done.
  - by apply (same_links_shape L).
  - by apply (moved_links_shape L L' x (Some z)).
  - by apply (same_links_shape L).
Qed.

(** [BNode c x (BNode (BNode b2 y b1) z a)] becomes
    [BNode (BNode c x b2) y (BNode b1 z a)]. *)
Lemma shape_double_right_left L L' q c x b2 y b1 z a :
  shape L q (BNode c x (BNode (BNode b2 y b1) z a)) →
  NoDup (inorder (BNode c x (BNode (BNode b2 y b1) z a))) →
  same_links L L' c → same_links L L' a →
  moved_links L L' x b2 → moved_links L L' z b1 →
  par L' x = Some y → lft L' x = broot c → rgt L' x = broot b2 →
  par L' z = Some y → lft L' z = broot b1 → rgt L' z = broot a →
  lft L' y = Some x → rgt L' y = Some z →
  shape' L' (BNode (BNode c x b2) y (BNode b1 z a)).
Proof.
  intros (_ & _ & _ & Sc & (_ & _ & _ & (_ & _ & _ & Sb2 & Sb1) & Sa)) ND
    Hc Ha Hb2 Hb1 Px Lx Rx Pz Lz Rz Ly Ry.
  apply NoDup_node in ND as (_ & ND & _).
  apply NoDup_node in ND as (ND & _).
  apply NoDup_node in ND as (NDb2 & NDb1 & _).
  simpl. split_and!; try done.
  - by apply (same_links_shape L).
  - by apply (moved_links_shape L L' x (Some y)).
  - by apply (moved_links_shape L L' z (Some y)).
  - by apply (same_links_shape L).
Qed.

(** [BNode (BNode a z (BNode b1 y b2)) x c] becomes
    [BNode (BNode a z b1) y (BNode b2 x c)]. *)
Lemma shape_double_left_right L L' q a z b1 y b2 x c :
  shape L q (BNode (BNode a z (BNode b1 y b2)) x c) →
  NoDup (inorder (BNode (BNode a z (BNode b1 y b2)) x c)) →
  same_links L L' c → same_links L L' a →
  moved_links L L' x b2 → moved_links L L' z b1 →
  par L' x = Some y → lft L' x = broot b2 → rgt L' x = broot c →
  par L' z = Some y → lft L' z = broot a → rgt L' z = broot b1 →
  lft L' y = Some z → rgt L' y = Some x →
  shape' L' (BNode (BNode a z b1) y (BNode b2 x c)).
Proof.
  intros (_ & _ & _ & (_ & _ & _ & Sa & (_ & _ & _ & Sb1 & Sb2)) & Sc) ND
    Hc Ha Hb2 Hb1 Px Lx Rx Pz Lz Rz Ly Ry.
  apply NoDup_node in ND as (ND & _).
  apply NoDup_node in ND as (_ & ND & _).
  apply NoDup_node in ND as (NDb1 & NDb2 & _).
  simpl. split_and!; try done.
  - by apply (same_links_shape L).
  - by apply (moved_links_shape L L' z (Some y)).
  - by apply (moved_links_shape L L' x (Some y)).
  - by apply (same_links_shape L).
Qed.
End rotations.

(** ** The rotations of the list manager *)

Lemma sval_wr f a (h : gmap nat SNode.t) w :
  (∀ n, SNode.value (f n) = SNode.value n) →
  sval (SALM.wr f a h) w = sval h w.
Proof.
  intros Hf. unfold sval. rewrite swr_lookup.
  destruct (decide (a = w)) as [->|]; [apply Hf|done].
Qed.

Lemma sval_reparent c p (h : gmap nat SNode.t) w :
  sval (SALM.reparent c p h) w = sval h w.
Proof. destruct c; simpl; [|done]. by apply sval_wr. Qed.

Lemma sval_updateBHeight (h : gmap nat SNode.t) a w :
  sval (SALM.updateBHeight h a) w = sval h w.
Proof. unfold sval. apply ubh_value. Qed.

Ltac sval :=
  repeat first [ rewrite sval_updateBHeight | rewrite sval_reparent
               | rewrite sval_wr by done ];
  try reflexivity.

Lemma srotate_Left_spec (h : gmap nat SNode.t) q c x r h' n :
  shape (slinks h) q (BNode c x r) → NoDup (inorder (BNode c x r)) →
  SALM.rotate_Left h x = Ok (h', n) →
  ∃ b z a, r = BNode b z a ∧ n = z
    ∧ shape' (slinks h') (BNode (BNode c x b) z a)
    ∧ SNode.bParent (h' !!! z) = Some x
    ∧ (∀ w, w ∉ inorder (BNode c x r) → h' !!! w = h !!! w)
    ∧ (∀ w, sval h' w = sval h w).
Proof.
  intros S ND E. unfold SALM.rotate_Left in E.
  pose proof S as (Epx & Elx & Erx & Sc & Sr). simpl in Epx, Elx, Erx.
  rewrite Erx in E. destruct r as [|b z a]; [done|]. simpl in E.
  injection E as <- <-.
  pose proof Sr as (Epz & Elz & Erz & Sb & Sa). simpl in Epz, Elz, Erz.
  rewrite Elz.
  pose proof ND as ND'.
  apply NoDup_node in ND' as (NDc & NDr & Hxc & Hxr & Hcr).
  apply NoDup_node in NDr as (NDb & NDa & Hzb & Hza & Hba).
  assert (x ≠ z) as Hxz by (intros ->; apply Hxr; ino).
  assert (broot b ≠ Some x) as Nbx by (intros Hy%broot_in; apply Hxr; ino).
  assert (broot b ≠ Some z) as Nbz by (intros Hy%broot_in; done).
  exists b, z, a. split_and!; try done.
  - apply (shape_single_left (slinks h) _ q); try done.
    + intros y Hy. cbn [slinks par lft rgt].
      assert (x ≠ y) by (by intros ->).
      assert (z ≠ y) by (intros ->; apply (Hcr y); [done|ino]).
      assert (broot b ≠ Some y)
        by (intros Hb%broot_in; apply (Hcr y); [done|ino]).
      srd. done.
    + intros y Hy. cbn [slinks par lft rgt].
      assert (x ≠ y) by (intros ->; apply Hxr; ino).
      assert (z ≠ y) by (by intros ->).
      assert (broot b ≠ Some y) by (intros Hb%broot_in; by apply (Hba y)).
      srd. done.
    + split.
      * intros y Hy.
        assert (x ≠ y) by (intros ->; apply Hxr; ino).
        assert (z ≠ y) by (by intros ->).
        cbn [slinks par lft rgt]. destruct (decide (broot b = Some y)) as [Eb|Nb].
        -- rewrite Eb. srd. done.
        -- srd. done.
      * intros y Eb. cbn [slinks par lft rgt]. rewrite Eb. srd. done.
    + cbn [slinks par lft rgt]. srd. done.
    + cbn [slinks par lft rgt]. srd. done.
    + cbn [slinks par lft rgt]. srd. done.
    + cbn [slinks par lft rgt]. srd. done.
    + cbn [slinks par lft rgt]. srd. done.
  - srd. done.
  - intros w Hw.
    assert (x ≠ w) by (intros ->; apply Hw; ino).
    assert (z ≠ w) by (intros ->; apply Hw; ino).
    assert (broot b ≠ Some w) by (intros Hb%broot_in; apply Hw; ino).
    srd. done.
  - intros w. sval.
Qed.

Lemma srotate_Right_spec (h : gmap nat SNode.t) q l x c h' n :
  shape (slinks h) q (BNode l x c) → NoDup (inorder (BNode l x c)) →
  SALM.rotate_Right h x = Ok (h', n) →
  ∃ a z b, l = BNode a z b ∧ n = z
    ∧ shape' (slinks h') (BNode a z (BNode b x c))
    ∧ SNode.bParent (h' !!! z) = Some x
    ∧ (∀ w, w ∉ inorder (BNode l x c) → h' !!! w = h !!! w)
    ∧ (∀ w, sval h' w = sval h w).
Proof.
  intros S ND E. unfold SALM.rotate_Right in E.
  pose proof S as (Epx & Elx & Erx & Sl & Sc). simpl in Epx, Elx, Erx.
  rewrite Elx in E. destruct l as [|a z b]; [done|]. simpl in E.
  injection E as <- <-.
  pose proof Sl as (Epz & Elz & Erz & Sa & Sb). simpl in Epz, Elz, Erz.
  rewrite Erz.
  pose proof ND as ND'.
  apply NoDup_node in ND' as (NDl & NDc & Hxl & Hxc & Hlc).
  apply NoDup_node in NDl as (NDa & NDb & Hza & Hzb & Hab).
  assert (x ≠ z) as Hxz by (intros ->; apply Hxl; ino).
  assert (broot b ≠ Some x) as Nbx by (intros Hy%broot_in; apply Hxl; ino).
  assert (broot b ≠ Some z) as Nbz by (intros Hy%broot_in; done).
  exists a, z, b. split_and!; try done.
  - apply (shape_single_right (slinks h) _ q); try done.
    + intros y Hy. cbn [slinks par lft rgt].
      assert (x ≠ y) by (by intros ->).
      assert (z ≠ y) by (intros ->; apply (Hlc y); [ino|done]).
      assert (broot b ≠ Some y)
        by (intros Hb%broot_in; apply (Hlc y); [ino|done]).
      srd. done.
    + intros y Hy. cbn [slinks par lft rgt].
      assert (x ≠ y) by (intros ->; apply Hxl; ino).
      assert (z ≠ y) by (by intros ->).
      assert (broot b ≠ Some y) by (intros Hb%broot_in; by apply (Hab y)).
      srd. done.
    + split.
      * intros y Hy.
        assert (x ≠ y) by (intros ->; apply Hxl; ino).
        assert (z ≠ y) by (by intros ->).
        cbn [slinks par lft rgt]. destruct (decide (broot b = Some y)) as [Eb|Nb].
        -- rewrite Eb. srd. done.
        -- srd. done.
      * intros y Eb. cbn [slinks par lft rgt]. rewrite Eb. srd. done.
    + cbn [slinks par lft rgt]. srd. done.
    + cbn [slinks par lft rgt]. srd. done.
    + cbn [slinks par lft rgt]. srd. done.
    + cbn [slinks par lft rgt]. srd. done.
    + cbn [slinks par lft rgt]. srd. done.
  - srd. done.
  - intros w Hw.
    assert (x ≠ w) by (intros ->; apply Hw; ino).
    assert (z ≠ w) by (intros ->; apply Hw; ino).
    assert (broot b ≠ Some w) by (intros Hb%broot_in; apply Hw; ino).
    srd. done.
  - intros w. sval.
Qed.

Lemma srotate_RightLeft_spec (h : gmap nat SNode.t) q c x l z a h' n :
  shape (slinks h) q (BNode c x (BNode l z a)) →
  NoDup (inorder (BNode c x (BNode l z a))) →
  SALM.rotate_RightLeft h x z = Ok (h', n) →
  ∃ b2 y b1, l = BNode b2 y b1 ∧ n = y
    ∧ shape' (slinks h') (BNode (BNode c x b2) y (BNode b1 z a))
    ∧ (∀ w, w ∉ inorder (BNode c x (BNode l z a)) → h' !!! w = h !!! w)
    ∧ (∀ w, sval h' w = sval h w).
Proof.
  intros S ND E. unfold SALM.rotate_RightLeft in E.
  pose proof S as (Epx & Elx & Erx & Sc & (Epz & Elz & Erz & Sl & Sa)).
  simpl in Epx, Elx, Erx, Epz, Elz, Erz.
  rewrite Elz in E. destruct l as [|b2 y b1]; [done|]. simpl broot in E.
  cbv beta iota zeta in E.
  pose proof Sl as (Epy & Ely & Ery & Sb2 & Sb1). simpl in Epy, Ely, Ery.
  pose proof ND as ND'.
  apply NoDup_node in ND' as (NDc & NDr & Hxc & Hxr & Hcr).
  apply NoDup_node in NDr as (NDl & NDa & Hzl & Hza & Hla).
  apply NoDup_node in NDl as (NDb2 & NDb1 & Hyb2 & Hyb1 & Hb21).
  assert (x ≠ z) as Hxz by (intros ->; apply Hxr; ino).
  assert (x ≠ y) as Hxy by (intros ->; apply Hxr; ino).
  assert (z ≠ y) as Hzy by (intros ->; apply Hzl; ino).
  assert (broot b1 ≠ Some x) as Nb1x by (intros Hy%broot_in; apply Hxr; ino).
  assert (broot b1 ≠ Some z) as Nb1z by (intros Hy%broot_in; apply Hzl; ino).
  assert (broot b1 ≠ Some y) as Nb1y by (intros Hy%broot_in; done).
  assert (broot b2 ≠ Some x) as Nb2x by (intros Hy%broot_in; apply Hxr; ino).
  assert (broot b2 ≠ Some z) as Nb2z by (intros Hy%broot_in; apply Hzl; ino).
  assert (broot b2 ≠ Some y) as Nb2y by (intros Hy%broot_in; done).
  assert (∀ w, broot b1 = Some w → broot b2 ≠ Some w) as Nb12
    by (intros w Hb%broot_in Ha%broot_in; by apply (Hb21 w)).
  assert (∀ w, broot b2 = Some w → broot b1 ≠ Some w) as Nb21
    by (intros w Hb%broot_in Ha%broot_in; by apply (Hb21 w)).
  rewrite Ery in E. revert E. srd. rewrite Ely. intros [= <- <-].
  exists b2, y, b1. split_and!; try done.
  - apply (shape_double_right_left (slinks h) _ q); try done.
    + intros w Hw. cbn [slinks par lft rgt].
      assert (x ≠ w) by (by intros ->).
      assert (z ≠ w) by (intros ->; apply (Hcr w); [done|ino]).
      assert (y ≠ w) by (intros ->; apply (Hcr w); [done|ino]).
      assert (broot b1 ≠ Some w)
        by (intros Hb%broot_in; apply (Hcr w); [done|ino]).
      assert (broot b2 ≠ Some w)
        by (intros Hb%broot_in; apply (Hcr w); [done|ino]).
      srd. done.
    + intros w Hw. cbn [slinks par lft rgt].
      assert (x ≠ w) by (intros ->; apply Hxr; ino).
      assert (z ≠ w) by (by intros ->).
      assert (y ≠ w) by (intros ->; apply (Hla w); [ino|done]).
      assert (broot b1 ≠ Some w)
        by (intros Hb%broot_in; apply (Hla w); [ino|done]).
      assert (broot b2 ≠ Some w)
        by (intros Hb%broot_in; apply (Hla w); [ino|done]).
      srd. done.
    + split.
      * intros w Hw.
        assert (x ≠ w) by (intros ->; apply Hxr; ino).
        assert (z ≠ w) by (intros ->; apply Hzl; ino).
        assert (y ≠ w) by (by intros ->).
        assert (broot b1 ≠ Some w)
          by (intros Hb%broot_in; by apply (Hb21 w)).
        cbn [slinks par lft rgt]. destruct (decide (broot b2 = Some w)) as [Eb|Nb].
        -- rewrite Eb. srd. done.
        -- srd. done.
      * intros w Eb. use Eb. cbn [slinks par lft rgt]. rewrite Eb. srd. done.
    + split.
      * intros w Hw.
        assert (x ≠ w) by (intros ->; apply Hxr; ino).
        assert (z ≠ w) by (intros ->; apply Hzl; ino).
        assert (y ≠ w) by (by intros ->).
        assert (broot b2 ≠ Some w)
          by (intros Hb%broot_in; by apply (Hb21 w)).
        cbn [slinks par lft rgt]. destruct (decide (broot b1 = Some w)) as [Eb|Nb].
        -- rewrite Eb. srd. done.
        -- srd. done.
      * intros w Eb. use Eb. cbn [slinks par lft rgt]. rewrite Eb. srd. done.
    + cbn [slinks par lft rgt]. srd. done.
    + cbn [slinks par lft rgt]. srd. done.
    + cbn [slinks par lft rgt]. srd. done.
    + cbn [slinks par lft rgt]. srd. done.
    + cbn [slinks par lft rgt]. srd. done.
    + cbn [slinks par lft rgt]. srd. done.
    + cbn [slinks par lft rgt]. srd. done.
    + cbn [slinks par lft rgt]. srd. done.
  - intros w Hw.
    assert (x ≠ w) by (intros ->; apply Hw; ino).
    assert (z ≠ w) by (intros ->; apply Hw; ino).
    assert (y ≠ w) by (intros ->; apply Hw; ino).
    assert (broot b1 ≠ Some w) by (intros Hb%broot_in; apply Hw; ino).
    assert (broot b2 ≠ Some w) by (intros Hb%broot_in; apply Hw; ino).
    srd. done.
  - intros w. sval.
Qed.

Lemma srotate_LeftRight_spec (h : gmap nat SNode.t) q a z r x c h' n :
  shape (slinks h) q (BNode (BNode a z r) x c) →
  NoDup (inorder (BNode (BNode a z r) x c)) →
  SALM.rotate_LeftRight h x z = Ok (h', n) →
  ∃ b1 y b2, r = BNode b1 y b2 ∧ n = y
    ∧ shape' (slinks h') (BNode (BNode a z b1) y (BNode b2 x c))
    ∧ (∀ w, w ∉ inorder (BNode (BNode a z r) x c) → h' !!! w = h !!! w)
    ∧ (∀ w, sval h' w = sval h w).
Proof.
  intros S ND E. unfold SALM.rotate_LeftRight in E.
  pose proof S as (Epx & Elx & Erx & (Epz & Elz & Erz & Sa & Sr) & Sc).
  simpl in Epx, Elx, Erx, Epz, Elz, Erz.
  rewrite Erz in E. destruct r as [|b1 y b2]; [done|]. simpl broot in E.
  cbv beta iota zeta in E.
  pose proof Sr as (Epy & Ely & Ery & Sb1 & Sb2). simpl in Epy, Ely, Ery.
  pose proof ND as ND'.
  apply NoDup_node in ND' as (NDl & NDc & Hxl & Hxc & Hlc).
  apply NoDup_node in NDl as (NDa & NDr & Hza & Hzr & Har).
  apply NoDup_node in NDr as (NDb1 & NDb2 & Hyb1 & Hyb2 & Hb12).
  assert (x ≠ z) as Hxz by (intros ->; apply Hxl; ino).
  assert (x ≠ y) as Hxy by (intros ->; apply Hxl; ino).
  assert (z ≠ y) as Hzy by (intros ->; apply Hzr; ino).
  assert (broot b1 ≠ Some x) as Nb1x by (intros Hy%broot_in; apply Hxl; ino).
  assert (broot b1 ≠ Some z) as Nb1z by (intros Hy%broot_in; apply Hzr; ino).
  assert (broot b1 ≠ Some y) as Nb1y by (intros Hy%broot_in; done).
  assert (broot b2 ≠ Some x) as Nb2x by (intros Hy%broot_in; apply Hxl; ino).
  assert (broot b2 ≠ Some z) as Nb2z by (intros Hy%broot_in; apply Hzr; ino).
  assert (broot b2 ≠ Some y) as Nb2y by (intros Hy%broot_in; done).
  assert (∀ w, broot b1 = Some w → broot b2 ≠ Some w) as Nb12
    by (intros w Hb%broot_in Ha%broot_in; by apply (Hb12 w)).
  assert (∀ w, broot b2 = Some w → broot b1 ≠ Some w) as Nb21
    by (intros w Hb%broot_in Ha%broot_in; by apply (Hb12 w)).
  rewrite Ely in E. revert E. srd. rewrite Ery. intros [= <- <-].
  exists b1, y, b2. split_and!; try done.
  - apply (shape_double_left_right (slinks h) _ q); try done.
    + intros w Hw. cbn [slinks par lft rgt].
      assert (x ≠ w) by (by intros ->).
      assert (z ≠ w) by (intros ->; apply (Hlc w); [ino|done]).
      assert (y ≠ w) by (intros ->; apply (Hlc w); [ino|done]).
      assert (broot b1 ≠ Some w)
        by (intros Hb%broot_in; apply (Hlc w); [ino|done]).
      assert (broot b2 ≠ Some w)
        by (intros Hb%broot_in; apply (Hlc w); [ino|done]).
      srd. done.
    + intros w Hw. cbn [slinks par lft rgt].
      assert (x ≠ w) by (intros ->; apply Hxl; ino).
      assert (z ≠ w) by (by intros ->).
      assert (y ≠ w) by (intros ->; apply (Har w); [done|ino]).
      assert (broot b1 ≠ Some w)
        by (intros Hb%broot_in; apply (Har w); [done|ino]).
      assert (broot b2 ≠ Some w)
        by (intros Hb%broot_in; apply (Har w); [done|ino]).
      srd. done.
    + split.
      * intros w Hw.
        assert (x ≠ w) by (intros ->; apply Hxl; ino).
        assert (z ≠ w) by (intros ->; apply Hzr; ino).
        assert (y ≠ w) by (by intros ->).
        assert (broot b1 ≠ Some w)
          by (intros Hb%broot_in; by apply (Hb12 w)).
        cbn [slinks par lft rgt]. destruct (decide (broot b2 = Some w)) as [Eb|Nb].
        -- rewrite Eb. srd. done.
        -- srd. done.
      * intros w Eb. use Eb. cbn [slinks par lft rgt]. rewrite Eb. srd. done.
    + split.
      * intros w Hw.
        assert (x ≠ w) by (intros ->; apply Hxl; ino).
        assert (z ≠ w) by (intros ->; apply Hzr; ino).
        assert (y ≠ w) by (by intros ->).
        assert (broot b2 ≠ Some w)
          by (intros Hb%broot_in; by apply (Hb12 w)).
        cbn [slinks par lft rgt]. destruct (decide (broot b1 = Some w)) as [Eb|Nb].
        -- rewrite Eb. srd. done.
        -- srd. done.
      * intros w Eb. use Eb. cbn [slinks par lft rgt]. rewrite Eb. srd. done.
    + cbn [slinks par lft rgt]. srd. done.
    + cbn [slinks par lft rgt]. srd. done.
    + cbn [slinks par lft rgt]. srd. done.
    + cbn [slinks par lft rgt]. srd. done.
    + cbn [slinks par lft rgt]. srd. done.
    + cbn [slinks par lft rgt]. srd. done.
    + cbn [slinks par lft rgt]. srd. done.
    + cbn [slinks par lft rgt]. srd. done.
  - intros w Hw.
    assert (x ≠ w) by (intros ->; apply Hw; ino).
    assert (z ≠ w) by (intros ->; apply Hw; ino).
    assert (y ≠ w) by (intros ->; apply Hw; ino).
    assert (broot b1 ≠ Some w) by (intros Hb%broot_in; apply Hw; ino).
    assert (broot b2 ≠ Some w) by (intros Hb%broot_in; apply Hw; ino).
    srd. done.
  - intros w. sval.
Qed.

(** ** The nodes a list manager owns *)

(** The root of a tree of a manager either has no parent, or has kept the
    parent it had before a rotation made it the root: one of its own nodes. *)
Definition rootcond (h : gmap nat SNode.t) (T : btree nat) : Prop :=
  ∀ r, broot T = Some r →
       match SNode.bParent (h !!! r) with
       | None => True
       | Some p => p ∈ inorder T
       end.

Definition stree (h : gmap nat SNode.t) (T : btree nat) : Prop :=
  shape' (slinks h) T ∧ rootcond h T.

(** The addresses [A] are allocated, and the map [_nodeByValue] leads from
    the value of each to itself. *)
Record owned (s : SALM.t) (A : list nat) : Prop := mkOwned {
  own_nodup : NoDup A;
  own_alloc : ∀ a, a ∈ A → (a < SALM.next s)%nat;
  own_map : ∀ a, a ∈ A →
              SALM._nodeByValue s !! sval (SALM.heap s) a = Some a;
}.

Lemma owned_inj s A a b :
  owned s A → a ∈ A → b ∈ A →
  sval (SALM.heap s) a = sval (SALM.heap s) b → a = b.
Proof.
  intros [_ _ Hm] Ha Hb E. pose proof (Hm a Ha) as E1.
  rewrite E, (Hm b Hb) in E1. by injection E1.
Qed.

Lemma NoDup_sub {A} (l k : list A) : l ⊆+ k → NoDup k → NoDup l.
Proof.
  intros [k' E]%submseteq_Permutation. rewrite E. by intros [? _]%NoDup_app.
Qed.

Lemma owned_sub s A A' : A' ⊆+ A → owned s A → owned s A'.
Proof.
  intros Hs [N1 N2 N3]. split.
  - by eapply NoDup_sub.
  - intros a Ha. apply N2. by eapply elem_of_submseteq.
  - intros a Ha. apply N3. by eapply elem_of_submseteq.
Qed.

Lemma owned_perm s A A' : A' ≡ₚ A → owned s A → owned s A'.
Proof. intros Hp. apply owned_sub. by rewrite Hp. Qed.

(** A change of the store that keeps the values. *)
Lemma owned_with_heap s A h' :
  (∀ a, a ∈ A → sval h' a = sval (SALM.heap s) a) →
  owned s A → owned (SALM.with_heap s h') A.
Proof.
  intros Hv [N1 N2 N3]. split; simpl; try done.
  intros a Ha. rewrite Hv by done. by apply N3.
Qed.

Lemma shape_par_in {K} (L : links K) q (T : btree K) a :
  shape L q T → a ∈ inorder T →
  (broot T = Some a ∧ par L a = q) ∨ (∃ p, par L a = Some p ∧ p ∈ inorder T).
Proof.
  revert q. induction T as [|l IHl x r IHr]; intros q; simpl.
  { by intros _ ?%elem_of_nil. }
  intros (Hp & _ & _ & Sl & Sr) Ha.
  apply elem_of_app in Ha as [Ha|Ha]; [|apply elem_of_cons in Ha as [->|Ha]].
  - right. destruct (IHl _ Sl Ha) as [[_ E]|(p & E & Hin)].
    + exists x. split; [done|]. rewrite elem_of_app, elem_of_cons. tauto.
    + exists p. split; [done|]. rewrite elem_of_app. tauto.
  - by left.
  - right. destruct (IHr _ Sr Ha) as [[_ E]|(p & E & Hin)].
    + exists x. split; [done|]. rewrite elem_of_app, elem_of_cons. tauto.
    + exists p. split; [done|]. rewrite elem_of_app, elem_of_cons. tauto.
Qed.

Lemma stree_par_in h T a :
  stree h T → a ∈ inorder T →
  (broot T = Some a ∧ SNode.bParent (h !!! a) = None)
  ∨ ∃ p, SNode.bParent (h !!! a) = Some p ∧ p ∈ inorder T.
Proof.
  intros [S' R] Ha.
  assert (shape (slinks h) (match broot T with
                            | Some r => SNode.bParent (h !!! r)
                            | None => None
                            end) T) as S.
  { apply shape_shape'. split; [done|]. by intros x ->. }
  destruct (shape_par_in _ _ _ _ S Ha) as [[Er Ep]|H]; [|by right].
  simpl in Ep. rewrite Er in Ep. specialize (R a Er).
  destruct (SNode.bParent (h !!! a)) as [p|]; [right|by left]. eauto.
Qed.

(** Climbing from a node of a tree ends at its root, which then has no
    parent. *)
Lemma goUp_spec fuel : ∀ h T a r,
  stree h T → a ∈ inorder T → SALM.goUp fuel h a = Ok r →
  broot T = Some r ∧ SNode.bParent (h !!! r) = None.
Proof.
  induction fuel as [|fuel IH]; intros h T a r ST Ha E; [done|].
  simpl in E.
  destruct (stree_par_in h T a ST Ha) as [[Er Ep]|(p & Ep & Hp)];
    rewrite Ep in E.
  - by injection E as <-.
  - by apply (IH h T p).
Qed.

Lemma pathToRoot_spec fuel : ∀ h T a acc root path,
  stree h T → a ∈ inorder T →
  SALM.pathToRoot fuel h a acc = Ok (root, path) →
  broot T = Some root ∧ SNode.bParent (h !!! root) = None
  ∧ default root (last path) = default a (last acc).
Proof.
  induction fuel as [|fuel IH]; intros h T a acc root path ST Ha E; [done|].
  simpl in E.
  destruct (stree_par_in h T a ST Ha) as [[Er Ep]|(p & Ep & Hp)];
    rewrite Ep in E.
  - by injection E as <- <-.
  - destruct (IH h T p (a :: acc) root path ST Hp E) as (? & ? & El).
    split_and!; try done. rewrite El, last_cons. by destruct (last acc).
Qed.

Lemma goRight_spec (h : gmap nat SNode.t) T : ∀ q r fuel e,
  shape (slinks h) q T → broot T = Some r →
  SALM.goRight fuel h r = Ok e →
  ∃ c l, T = plug c (BNode l e BLeaf) ∧ cright c = [].
Proof.
  induction T as [|l _ y rt IHr]; intros q r fuel e; simpl; [done|].
  intros (Hp & Hl & Hr & Sl & Sr) [= <-] E.
  destruct fuel as [|f]; simpl in E; [done|].
  rewrite Hr in E. destruct rt as [|r1 y' r2]; simpl in E.
  - injection E as <-. by exists [], l.
  - destruct (IHr (Some y) y' f e Sr eq_refl E) as (c & l' & -> & Hc).
    exists (c ++ [FR l y]), l'. rewrite plug_app, cright_app. by rewrite Hc.
Qed.

Definition svals (h : gmap nat SNode.t) (T : btree nat) : list string :=
  sval h <$> inorder T.

Lemma svals_node h l x r :
  svals h (BNode l x r) = svals h l ++ sval h x :: svals h r.
Proof. unfold svals. simpl. by rewrite fmap_app. Qed.

Lemma svals_ext h h' T :
  (∀ a, a ∈ inorder T → sval h' a = sval h a) → svals h' T = svals h T.
Proof.
  intros H. unfold svals. apply list_fmap_ext. intros i a Ha.
  apply H. by eapply list_elem_of_lookup_2.
Qed.

Lemma shape'_shape {K} (L : links K) (T : btree K) :
  shape' L T → ∃ q, shape L q T.
Proof.
  intros S. destruct T as [|l x r]; [by exists None|].
  exists (par L x). apply shape_shape'. split; [done|]. by intros ? [= <-].
Qed.

Lemma createInternal_spec s k s' n A :
  owned s A → (∀ a, a ∈ A → sval (SALM.heap s) a ≠ k) →
  SALM.createInternal s k = (s', n) →
  n = SALM.next s ∧ SALM.next s' = S n
  ∧ SALM.heap s' = <[n := SNode.new k]> (SALM.heap s)
  ∧ owned s' (n :: A).
Proof.
  intros [N1 N2 N3] Hk [= <- <-]. split_and!; try done.
  assert (SALM.next s ∉ A) as Hn by (intros ?%N2; lia).
  split; simpl.
  - by apply NoDup_cons.
  - intros a [->|Ha]%elem_of_cons; [lia|]. specialize (N2 a Ha). lia.
  - intros a [->|Ha]%elem_of_cons; unfold sval.
    + rewrite lookup_total_insert_eq. simpl. by rewrite lookup_insert_eq.
    + assert (SALM.next s ≠ a) by (by intros <-).
      rewrite lookup_total_insert_ne by done.
      rewrite lookup_insert_ne; [by apply N3|]. intros E. by apply (Hk a).
Qed.

Lemma nodeWithChildren_spec s tl tr k G s' n :
  shape' (slinks (SALM.heap s)) tl → shape' (slinks (SALM.heap s)) tr →
  owned s (inorder tl ++ inorder tr ++ G) →
  (∀ a, a ∈ inorder tl ++ inorder tr ++ G → sval (SALM.heap s) a ≠ k) →
  SALM.nodeWithChildren s (broot tl) k (broot tr) = (s', n) →
  shape (slinks (SALM.heap s')) None (BNode tl n tr)
  ∧ svals (SALM.heap s') (BNode tl n tr)
    = svals (SALM.heap s) tl ++ k :: svals (SALM.heap s) tr
  ∧ owned s' (inorder (BNode tl n tr) ++ G)
  ∧ (∀ a, a ∈ G → SALM.heap s' !!! a = SALM.heap s !!! a)
  ∧ (∀ a, (a < SALM.next s)%nat → sval (SALM.heap s') a = sval (SALM.heap s) a)
  ∧ (SALM.next s ≤ SALM.next s')%nat
  ∧ sval (SALM.heap s') n = k.
Proof.
  intros Sl Sr O Hk E. unfold SALM.nodeWithChildren in E.
  destruct (SALM.createInternal s k) as [s1 n1] eqn:Ec.
  destruct (createInternal_spec s k s1 n1 _ O Hk Ec) as (-> & En & Eh & O1).
  injection E as <- <-. rewrite Eh. set (h := SALM.heap s) in *.
  set (n := SALM.next s) in *. simpl.
  pose proof O as [ND Hal _].
  assert (∀ a, a ∈ inorder tl ++ inorder tr ++ G → n ≠ a) as Hfresh.
  { intros a Ha%Hal. lia. }
  apply NoDup_app in ND as (NDl & Hlr & ND).
  apply NoDup_app in ND as (NDr & HrG & NDG).
  assert (broot tl ≠ Some n) as Nl.
  { intros Hb%broot_in. apply (Hfresh n); [|done]. rewrite elem_of_app. tauto. }
  assert (broot tr ≠ Some n) as Nr.
  { intros Hb%broot_in. apply (Hfresh n); [|done]. rewrite !elem_of_app. tauto. }
  assert (∀ w, broot tl = Some w → broot tr ≠ Some w) as Nlr.
  { intros w Hl%broot_in Hr%broot_in. apply (Hlr w Hl). rewrite elem_of_app. tauto. }
  assert (∀ w, broot tr = Some w → broot tl ≠ Some w) as Nrl.
  { intros w Hr Hl. by apply (Nlr w). }
  set (h' := SALM.updateBHeight _ n).
  assert (∀ w, n ≠ w → broot tl ≠ Some w → broot tr ≠ Some w →
               noh (h' !!! w) = noh (h !!! w)) as Hout.
  { intros w ? ? ?. unfold h'. rewrite updateBHeight_noh. srd.
    by rewrite lookup_total_insert_ne. }
  assert (∀ w, n ≠ w → sval h' w = sval h w) as Hval.
  { intros w ?. unfold h'. sval. unfold sval.
    by rewrite lookup_total_insert_ne. }
  assert (sval h' n = k) as Hvn.
  { unfold h'. sval. unfold sval. by rewrite lookup_total_insert_eq. }
  split_and!.
  - unfold h'. srd. by rewrite lookup_total_insert_eq.
  - unfold h'. srd. done.
  - unfold h'. srd. done.
  - destruct (shape'_shape _ _ Sl) as [q Sq].
    apply (moved_links_shape (slinks h) _ n q); [done| |done]. split.
    + intros y Hy. simpl.
      assert (n ≠ y) by (apply Hfresh; rewrite elem_of_app; tauto).
      assert (broot tr ≠ Some y).
      { intros Hb%broot_in. apply (Hlr y Hy). rewrite elem_of_app. tauto. }
      unfold h'. srd.
      destruct (decide (broot tl = Some y)) as [Eb|Nb].
      * rewrite Eb. srd. by rewrite lookup_total_insert_ne.
      * srd. by rewrite lookup_total_insert_ne.
    + intros y Eb. use Eb. simpl. unfold h'. srd. rewrite Eb. srd. done.
  - destruct (shape'_shape _ _ Sr) as [q Sq].
    apply (moved_links_shape (slinks h) _ n q); [done| |done]. split.
    + intros y Hy. simpl.
      assert (n ≠ y) by (apply Hfresh; rewrite !elem_of_app; tauto).
      assert (broot tl ≠ Some y).
      { intros Hb%broot_in. apply (Hlr y Hb). rewrite elem_of_app. tauto. }
      unfold h'. srd.
      destruct (decide (broot tr = Some y)) as [Eb|Nb].
      * rewrite Eb. srd. by rewrite lookup_total_insert_ne.
      * srd. by rewrite lookup_total_insert_ne.
    + intros y Eb. use Eb. simpl. unfold h'. rewrite Eb. srd. done.
  - rewrite svals_node, Hvn.
    rewrite (svals_ext h h' tl), (svals_ext h h' tr); [done|..];
      intros a Ha; apply Hval, Hfresh; rewrite !elem_of_app; tauto.
  - apply (owned_with_heap s1 _ h') in O1.
    + eapply owned_perm; [|exact O1]. simpl. by solve_Permutation.
    + intros a _. rewrite Eh. unfold h'. by sval.
  - intros a Ha.
    assert (n ≠ a) by (apply Hfresh; rewrite !elem_of_app; tauto).
    assert (broot tl ≠ Some a).
    { intros Hb%broot_in. apply (Hlr a Hb). rewrite elem_of_app. tauto. }
    assert (broot tr ≠ Some a).
    { intros Hb%broot_in. by apply (HrG a Hb). }
    unfold h'. srd. by rewrite lookup_total_insert_ne.
  - intros a Ha. apply Hval. lia.
  - rewrite En. lia.
  - done.
Qed.

(** ** Joining two trees of a manager *)

(** No node of [A] holds the value [k]. *)
Definition fresh (s : SALM.t) (A : list nat) (k : string) : Prop :=
  ∀ a, a ∈ A → sval (SALM.heap s) a ≠ k.

(** What a step that builds a tree out of owned nodes guarantees: the tree
    [J] with root [j] holds the values [vs] in order, the nodes [G] that were
    not involved are as before, and so are the values of the nodes that
    existed. *)
Definition built (s : SALM.t) (G : list nat) (vs : list string)
    (s' : SALM.t) (j : nat) (J : btree nat) : Prop :=
  broot J = Some j ∧ stree (SALM.heap s') J ∧ svals (SALM.heap s') J = vs
  ∧ owned s' (inorder J ++ G)
  ∧ (∀ a, a ∈ G → SALM.heap s' !!! a = SALM.heap s !!! a)
  ∧ (∀ a, (a < SALM.next s)%nat → sval (SALM.heap s') a = sval (SALM.heap s) a)
  ∧ (SALM.next s ≤ SALM.next s')%nat.

Lemma shape_stree h T : shape (slinks h) None T → stree h T.
Proof.
  intros S. split; [by apply shape_shape' in S as [? _]|].
  intros r Hr. apply shape_shape' in S as [_ S]. simpl in S. by rewrite (S r Hr).
Qed.

Lemma shape'_same {K} (L L' : links K) (T : btree K) :
  (∀ y, y ∈ inorder T →
     par L' y = par L y ∧ lft L' y = lft L y ∧ rgt L' y = rgt L y) →
  shape' L T → shape' L' T.
Proof.
  intros H S. destruct (shape'_shape _ _ S) as [q Sq].
  by apply (shape_frame L L' q T H), shape_shape' in Sq as [? _].
Qed.

(** A tree of nodes that a step left alone. *)
Lemma shape'_kept (h h' : gmap nat SNode.t) (G : list nat) T :
  (∀ a, a ∈ G → h' !!! a = h !!! a) → (∀ a, a ∈ inorder T → a ∈ G) →
  shape' (slinks h) T → shape' (slinks h') T.
Proof.
  intros Hf Hin. apply shape'_same. intros y Hy. simpl. by rewrite Hf by auto.
Qed.

Lemma svals_kept s s' A T :
  owned s A → (∀ a, a ∈ inorder T → a ∈ A) →
  (∀ a, (a < SALM.next s)%nat → sval (SALM.heap s') a = sval (SALM.heap s) a) →
  svals (SALM.heap s') T = svals (SALM.heap s) T.
Proof.
  intros O Hin Hv. apply svals_ext. intros a Ha. apply Hv. by apply O, Hin.
Qed.

Lemma fresh_kept s s' A k :
  owned s A →
  (∀ a, (a < SALM.next s)%nat → sval (SALM.heap s') a = sval (SALM.heap s) a) →
  fresh s A k → fresh s' A k.
Proof. intros O Hv Hf a Ha. rewrite Hv; [by apply Hf|by apply O]. Qed.

(** The value of an owned node is not the value of another one. *)
Lemma fresh_owned s A x :
  owned s (x :: A) → fresh s A (sval (SALM.heap s) x).
Proof.
  intros O a Ha E. pose proof (own_nodup _ _ O) as [Hx _]%NoDup_cons.
  apply Hx. rewrite <- (owned_inj s (x :: A) a x O); [done|by right|by left|done].
Qed.

Lemma nodeWithChildren_built s tl tr k G s' n :
  shape' (slinks (SALM.heap s)) tl → shape' (slinks (SALM.heap s)) tr →
  owned s (inorder tl ++ inorder tr ++ G) →
  fresh s (inorder tl ++ inorder tr ++ G) k →
  SALM.nodeWithChildren s (broot tl) k (broot tr) = (s', n) →
  built s G (svals (SALM.heap s) tl ++ k :: svals (SALM.heap s) tr) s' n
    (BNode tl n tr)
  ∧ shape (slinks (SALM.heap s')) None (BNode tl n tr)
  ∧ sval (SALM.heap s') n = k.
Proof.
  intros Sl Sr O Hk E.
  destruct (nodeWithChildren_spec s tl tr k G s' n Sl Sr O Hk E)
    as (S & Ev & O' & Hf & Hv & Hn & Hvn).
  split; [|done]. split_and!; try done. by apply shape_stree.
Qed.

Lemma built_mono s G G' vs s' j J :
  G' ⊆+ G → built s G vs s' j J → built s G' vs s' j J.
Proof.
  intros Hs (R & ST & Ev & O & F & V & N). split_and!; try done.
  - eapply owned_sub; [|done]. by apply submseteq_app.
  - intros a Ha. apply F. by eapply elem_of_submseteq.
Qed.

Lemma rot_Left_built s q c x r G s' z :
  shape (slinks (SALM.heap s)) q (BNode c x r) →
  owned s (inorder (BNode c x r) ++ G) →
  SALM.rot SALM.rotate_Left (s, x) = Ok (s', z) →
  ∃ J, built s G (svals (SALM.heap s) (BNode c x r)) s' z J
       ∧ SALM.next s' = SALM.next s.
Proof.
  intros S O E. unfold SALM.rot in E. simpl in E.
  destruct (SALM.rotate_Left (SALM.heap s) x) as [[h' n]| |] eqn:Er; [|done..].
  simpl in E. injection E as <- <-.
  pose proof (own_nodup _ _ O) as (ND & HG & _)%NoDup_app.
  destruct (srotate_Left_spec _ q c x r h' n S ND Er)
    as (b & z & a & -> & -> & S' & Ep & Hout & Hval).
  exists (BNode (BNode c x b) z a).
  assert (inorder (BNode (BNode c x b) z a) = inorder (BNode c x (BNode b z a)))
    as Ei by (simpl; by rewrite <- app_assoc).
  split; [|done]. split_and!; simpl SALM.heap; try done.
  - split; [done|]. intros r [= <-]. rewrite Ep. ino.
  - unfold svals. rewrite Ei. apply list_fmap_ext. intros; apply Hval.
  - rewrite Ei. apply owned_with_heap; [|done]. intros; apply Hval.
  - intros w Hw. apply Hout. intros Hin. by apply (HG w).
Qed.

Lemma rot_Right_built s q l x c G s' z :
  shape (slinks (SALM.heap s)) q (BNode l x c) →
  owned s (inorder (BNode l x c) ++ G) →
  SALM.rot SALM.rotate_Right (s, x) = Ok (s', z) →
  ∃ J, built s G (svals (SALM.heap s) (BNode l x c)) s' z J
       ∧ SALM.next s' = SALM.next s.
Proof.
  intros S O E. unfold SALM.rot in E. simpl in E.
  destruct (SALM.rotate_Right (SALM.heap s) x) as [[h' n]| |] eqn:Er; [|done..].
  simpl in E. injection E as <- <-.
  pose proof (own_nodup _ _ O) as (ND & HG & _)%NoDup_app.
  destruct (srotate_Right_spec _ q l x c h' n S ND Er)
    as (a & z & b & -> & -> & S' & Ep & Hout & Hval).
  exists (BNode a z (BNode b x c)).
  assert (inorder (BNode a z (BNode b x c)) = inorder (BNode (BNode a z b) x c))
    as Ei by (simpl; by rewrite <- app_assoc).
  split; [|done]. split_and!; simpl SALM.heap; try done.
  - split; [done|]. intros r [= <-]. rewrite Ep. ino.
  - unfold svals. rewrite Ei. apply list_fmap_ext. intros; apply Hval.
  - rewrite Ei. apply owned_with_heap; [|done]. intros; apply Hval.
  - intros w Hw. apply Hout. intros Hin. by apply (HG w).
Qed.

(** One step after another. *)
Lemma built_trans s G vs1 s1 j1 J1 vs2 s2 j2 J2 :
  built s G vs1 s1 j1 J1 → built s1 G vs2 s2 j2 J2 → built s G vs2 s2 j2 J2.
Proof.
  intros (_ & _ & _ & O1 & F1 & V1 & N1) (R & ST & Ev & O2 & F2 & V2 & N2).
  split_and!; try done.
  - intros a Ha. by rewrite F2, F1.
  - intros a Ha. rewrite V2, V1; [done|done|lia].
  - lia.
Qed.

Lemma built_vals s G vs s' j J vs' :
  vs = vs' → built s G vs s' j J → built s G vs' s' j J.
Proof. by intros ->. Qed.

(** The last step of [joinRightAVL]: the root [TL] of the left tree is
    replaced by a new node above its left subtree and the tree [J1] built
    out of its right subtree and the right tree. *)
Lemma rejoin_left s tll TL tlc tr k G s1 T' J1 s2 n :
  let h := SALM.heap s in
  shape' (slinks h) (BNode tll TL tlc) →
  owned s (inorder (BNode tll TL tlc) ++ inorder tr ++ G) →
  fresh s (inorder (BNode tll TL tlc) ++ inorder tr ++ G) k →
  built s (inorder tll ++ G) (svals h tlc ++ k :: svals h tr) s1 T' J1 →
  SALM.nodeWithChildren s1 (SNode.bLeftChild (h !!! TL))
    (SNode.value (h !!! TL)) (Some T') = (s2, n) →
  built s G (svals h (BNode tll TL tlc) ++ k :: svals h tr) s2 n (BNode tll n J1)
  ∧ shape (slinks (SALM.heap s2)) None (BNode tll n J1).
Proof.
  intros h (El & Ec & Sll & Slc) O Hk B1 E. simpl in El, Ec.
  pose proof B1 as (R1 & ST1 & Ev1 & O1 & F1 & V1 & N1).
  rewrite El, <- R1 in E.
  set (k' := SNode.value (h !!! TL)) in *.
  assert (owned s (TL :: inorder tll ++ inorder tlc ++ inorder tr ++ G)) as OT.
  { eapply owned_perm; [|exact O]. simpl. by solve_Permutation. }
  pose proof (fresh_owned _ _ _ OT) as Hk'. fold h in Hk'. fold (sval h TL) in k'.
  assert (k ≠ k') as Hkk.
  { intros ->. apply (Hk TL); [|done]. simpl. rewrite !elem_of_app, elem_of_cons. tauto. }
  assert (∀ a, a ∈ inorder tll ++ G → sval (SALM.heap s1) a = sval h a) as V1'.
  { intros a Ha. apply V1. apply (own_alloc _ _ OT). right.
    rewrite !elem_of_app in *. tauto. }
  assert (shape' (slinks (SALM.heap s1)) tll) as Sll1.
  { apply (shape'_kept h _ (inorder tll ++ G)); [done| |].
    - intros a Ha. rewrite elem_of_app. tauto.
    - by apply shape_shape' in Sll as [? _]. }
  assert (fresh s1 (inorder tll ++ inorder J1 ++ G) k') as Hk1.
  { intros a Ha.
    assert (a ∈ inorder J1 ∨ a ∈ inorder tll ++ G) as [HJ|Hold]
      by (rewrite !elem_of_app in *; tauto).
    - assert (sval (SALM.heap s1) a ∈ svals (SALM.heap s1) J1) as Hin
        by (by apply list_elem_of_fmap_2).
      rewrite Ev1 in Hin. intros Ek. rewrite Ek in Hin.
      apply elem_of_app in Hin as [Hin|Hin];
        [|apply elem_of_cons in Hin as [Hin|Hin]; [by apply Hkk|]].
      + apply list_elem_of_fmap in Hin as (b & Eb & Hb).
        apply (Hk' b); [|done]. rewrite !elem_of_app. tauto.
      + apply list_elem_of_fmap in Hin as (b & Eb & Hb).
        apply (Hk' b); [|done]. rewrite !elem_of_app. tauto.
    - rewrite V1' by done. apply Hk'. rewrite !elem_of_app in *. tauto. }
  assert (owned s1 (inorder tll ++ inorder J1 ++ G)) as O1'.
  { eapply owned_perm; [|exact O1]. by solve_Permutation. }
  destruct (nodeWithChildren_built s1 tll J1 k' G s2 n Sll1 (proj1 ST1) O1' Hk1 E)
    as (B2 & S2 & _).
  split; [|done].
  eapply built_trans; [eapply (built_mono _ _ G); [|exact B1]|].
  { apply submseteq_inserts_l. done. }
  eapply built_vals; [|exact B2].
  rewrite Ev1, svals_node. fold k'.
  rewrite (svals_ext h (SALM.heap s1) tll).
  - by rewrite <- app_assoc.
  - intros a Ha. apply V1'. rewrite elem_of_app. tauto.
Qed.

Lemma stree_shape h T : stree h T → ∃ q, shape (slinks h) q T.
Proof. intros [S _]. by apply shape'_shape. Qed.

Lemma joinRightAVL_spec fuel : ∀ s tl TL tr k G s' j,
  broot tl = Some TL →
  shape' (slinks (SALM.heap s)) tl → shape' (slinks (SALM.heap s)) tr →
  owned s (inorder tl ++ inorder tr ++ G) →
  fresh s (inorder tl ++ inorder tr ++ G) k →
  SALM.joinRightAVL fuel s TL k (broot tr) = Ok (s', j) →
  ∃ J, built s G (svals (SALM.heap s) tl ++ k :: svals (SALM.heap s) tr) s' j J.
Proof.
  induction fuel as [|fuel IH]; intros s tl TL tr k G s' j R Sl Sr O Hk E; [done|].
  destruct tl as [|tll x tlc]; [done|]. injection R as ->.
  cbn [SALM.joinRightAVL] in E. unfold SALM.expose in E.
  pose proof Sl as (El & Ec & Sll & Slc). simpl in El, Ec.
  rewrite Ec in E.
  assert (owned s (inorder tlc ++ inorder tr ++ inorder tll ++ G)) as O1.
  { eapply owned_sub; [|exact O]. simpl. by solve_submseteq. }
  assert (fresh s (inorder tlc ++ inorder tr ++ inorder tll ++ G) k) as Hk1.
  { intros a Ha. apply Hk. simpl. rewrite !elem_of_app, ?elem_of_cons in *. tauto. }
  assert (shape' (slinks (SALM.heap s)) tlc) as Slc'
    by (by apply shape_shape' in Slc as [? _]).
  destruct (_ <=? _).
  - destruct (SALM.nodeWithChildren s (broot tlc) k (broot tr)) as [s1 T'] eqn:E1.
    destruct (nodeWithChildren_built s tlc tr k (inorder tll ++ G) s1 T'
                Slc' Sr O1 Hk1 E1) as (B1 & S1 & _).
    destruct (_ <=? _).
    + destruct (SALM.nodeWithChildren s1 _ _ (Some T')) as [s2 n] eqn:E2.
      injection E as <- <-.
      destruct (rejoin_left s tll TL tlc tr k G s1 T' _ s2 n Sl O Hk B1 E2)
        as [B2 _].
      eauto.
    + destruct (SALM.rot SALM.rotate_Right (s1, T')) as [[s2 r]| |] eqn:E2;
        cbn [bind] in E; [|done..].
      pose proof B1 as (_ & _ & _ & OB1 & _).
      destruct (rot_Right_built s1 None tlc T' tr (inorder tll ++ G) s2 r S1 OB1 E2)
        as (J2 & B2 & _).
      pose proof B1 as (_ & _ & Ev1 & _).
      rewrite Ev1 in B2.
      pose proof (built_trans _ _ _ _ _ _ _ _ _ _ B1 B2) as B12.
      destruct (SALM.nodeWithChildren s2 _ _ (Some r)) as [s3 n] eqn:E3.
      destruct (rejoin_left s tll TL tlc tr k G s2 r _ s3 n Sl O Hk B12 E3)
        as [B3 S3].
      pose proof B3 as (_ & _ & Ev3 & OB3 & _).
      rewrite <- Ev3 in B3 |- *.
      destruct J2 as [|j2l j2 j2r]; [by destruct B2|].
      destruct (rot_Left_built s3 None tll n (BNode j2l j2 j2r) G s' j S3 OB3 E)
        as (J4 & B4 & _).
      exists J4. exact (built_trans _ _ _ _ _ _ _ _ _ _ B3 B4).
  - destruct tlc as [|c1 c' c2]; [done|]. simpl broot in E.
    cbv beta iota in E.
    destruct (SALM.joinRightAVL fuel s c' k (broot tr)) as [[s1 T']| |] eqn:E1;
      cbn [bind] in E; [|done..].
    destruct (IH s (BNode c1 c' c2) c' tr k (inorder tll ++ G) s1 T'
                eq_refl Slc' Sr O1 Hk1 E1) as (J1 & B1).
    destruct (SALM.nodeWithChildren s1 _ _ (Some T')) as [s2 n] eqn:E2.
    destruct (rejoin_left s tll TL _ tr k G s1 T' _ s2 n Sl O Hk B1 E2)
      as [B2 S2].
    destruct (_ <=? _).
    + injection E as <- <-. eauto.
    + pose proof B2 as (_ & _ & Ev2 & OB2 & _).
      rewrite <- Ev2 in B2 |- *.
      destruct (rot_Left_built s2 None tll n J1 G s' j S2 OB2 E)
        as (J4 & B4 & _).
      exists J4. exact (built_trans _ _ _ _ _ _ _ _ _ _ B2 B4).
Qed.

(** The last step of [joinLeftAVL], the mirror image. *)
Lemma rejoin_right s tl trc TR trr k G s1 T' J1 s2 n :
  let h := SALM.heap s in
  shape' (slinks h) (BNode trc TR trr) →
  owned s (inorder tl ++ inorder (BNode trc TR trr) ++ G) →
  fresh s (inorder tl ++ inorder (BNode trc TR trr) ++ G) k →
  built s (inorder trr ++ G) (svals h tl ++ k :: svals h trc) s1 T' J1 →
  SALM.nodeWithChildren s1 (Some T') (SNode.value (h !!! TR))
    (SNode.bRightChild (h !!! TR)) = (s2, n) →
  built s G (svals h tl ++ k :: svals h (BNode trc TR trr)) s2 n (BNode J1 n trr)
  ∧ shape (slinks (SALM.heap s2)) None (BNode J1 n trr).
Proof.
  intros h (Ec & Er & Src & Srr) O Hk B1 E. simpl in Ec, Er.
  pose proof B1 as (R1 & ST1 & Ev1 & O1 & F1 & V1 & N1).
  rewrite Er, <- R1 in E.
  set (k' := SNode.value (h !!! TR)) in *.
  assert (owned s (TR :: inorder tl ++ inorder trc ++ inorder trr ++ G)) as OT.
  { eapply owned_perm; [|exact O]. simpl. by solve_Permutation. }
  pose proof (fresh_owned _ _ _ OT) as Hk'. fold h in Hk'. fold (sval h TR) in k'.
  assert (k ≠ k') as Hkk.
  { intros ->. apply (Hk TR); [|done]. simpl. rewrite !elem_of_app, elem_of_cons. tauto. }
  assert (∀ a, a ∈ inorder trr ++ G → sval (SALM.heap s1) a = sval h a) as V1'.
  { intros a Ha. apply V1. apply (own_alloc _ _ OT). right.
    rewrite !elem_of_app in *. tauto. }
  assert (shape' (slinks (SALM.heap s1)) trr) as Srr1.
  { apply (shape'_kept h _ (inorder trr ++ G)); [done| |].
    - intros a Ha. rewrite elem_of_app. tauto.
    - by apply shape_shape' in Srr as [? _]. }
  assert (fresh s1 (inorder J1 ++ inorder trr ++ G) k') as Hk1.
  { intros a Ha.
    assert (a ∈ inorder J1 ∨ a ∈ inorder trr ++ G) as [HJ|Hold]
      by (rewrite !elem_of_app in *; tauto).
    - assert (sval (SALM.heap s1) a ∈ svals (SALM.heap s1) J1) as Hin
        by (by apply list_elem_of_fmap_2).
      rewrite Ev1 in Hin. intros Ek. rewrite Ek in Hin.
      apply elem_of_app in Hin as [Hin|Hin];
        [|apply elem_of_cons in Hin as [Hin|Hin]; [by apply Hkk|]].
      + apply list_elem_of_fmap in Hin as (b & Eb & Hb).
        apply (Hk' b); [|done]. rewrite !elem_of_app. tauto.
      + apply list_elem_of_fmap in Hin as (b & Eb & Hb).
        apply (Hk' b); [|done]. rewrite !elem_of_app. tauto.
    - rewrite V1' by done. apply Hk'. rewrite !elem_of_app in *. tauto. }
  destruct (nodeWithChildren_built s1 J1 trr k' G s2 n (proj1 ST1) Srr1 O1 Hk1 E)
    as (B2 & S2 & _).
  split; [|done].
  eapply built_trans; [eapply (built_mono _ _ G); [|exact B1]|].
  { apply submseteq_inserts_l. done. }
  eapply built_vals; [|exact B2].
  rewrite Ev1, svals_node. fold k'.
  rewrite (svals_ext h (SALM.heap s1) trr).
  - by rewrite <- app_assoc.
  - intros a Ha. apply V1'. rewrite elem_of_app. tauto.
Qed.

Lemma joinLeftAVL_spec fuel : ∀ s tl tr TR k G s' j,
  broot tr = Some TR →
  shape' (slinks (SALM.heap s)) tl → shape' (slinks (SALM.heap s)) tr →
  owned s (inorder tl ++ inorder tr ++ G) →
  fresh s (inorder tl ++ inorder tr ++ G) k →
  SALM.joinLeftAVL fuel s (broot tl) k TR = Ok (s', j) →
  ∃ J, built s G (svals (SALM.heap s) tl ++ k :: svals (SALM.heap s) tr) s' j J.
Proof.
  induction fuel as [|fuel IH]; intros s tl tr TR k G s' j R Sl Sr O Hk E; [done|].
  destruct tr as [|trc x trr]; [done|]. injection R as ->.
  cbn [SALM.joinLeftAVL] in E. unfold SALM.expose in E.
  pose proof Sr as (Ec & Er & Src & Srr). simpl in Ec, Er.
  rewrite Ec in E.
  assert (owned s (inorder tl ++ inorder trc ++ inorder trr ++ G)) as O1.
  { eapply owned_sub; [|exact O]. simpl. by solve_submseteq. }
  assert (fresh s (inorder tl ++ inorder trc ++ inorder trr ++ G) k) as Hk1.
  { intros a Ha. apply Hk. simpl. rewrite !elem_of_app, ?elem_of_cons in *. tauto. }
  assert (shape' (slinks (SALM.heap s)) trc) as Src'
    by (by apply shape_shape' in Src as [? _]).
  destruct (_ <=? _).
  - destruct (SALM.nodeWithChildren s (broot tl) k (broot trc)) as [s1 T'] eqn:E1.
    destruct (nodeWithChildren_built s tl trc k (inorder trr ++ G) s1 T'
                Sl Src' O1 Hk1 E1) as (B1 & S1 & _).
    destruct (_ <=? _).
    + destruct (SALM.nodeWithChildren s1 (Some T') _ _) as [s2 n] eqn:E2.
      injection E as <- <-.
      destruct (rejoin_right s tl trc TR trr k G s1 T' _ s2 n Sr O Hk B1 E2)
        as [B2 _].
      eauto.
    + destruct (SALM.rot SALM.rotate_Left (s1, T')) as [[s2 r]| |] eqn:E2;
        cbn [bind] in E; [|done..].
      pose proof B1 as (_ & _ & _ & OB1 & _).
      destruct (rot_Left_built s1 None tl T' trc (inorder trr ++ G) s2 r S1 OB1 E2)
        as (J2 & B2 & _).
      pose proof B1 as (_ & _ & Ev1 & _).
      rewrite Ev1 in B2.
      pose proof (built_trans _ _ _ _ _ _ _ _ _ _ B1 B2) as B12.
      destruct (SALM.nodeWithChildren s2 (Some r) _ _) as [s3 n] eqn:E3.
      destruct (rejoin_right s tl trc TR trr k G s2 r _ s3 n Sr O Hk B12 E3)
        as [B3 S3].
      pose proof B3 as (_ & _ & Ev3 & OB3 & _).
      rewrite <- Ev3 in B3 |- *.
      destruct (rot_Right_built s3 None J2 n trr G s' j S3 OB3 E)
        as (J4 & B4 & _).
      exists J4. exact (built_trans _ _ _ _ _ _ _ _ _ _ B3 B4).
  - destruct trc as [|c1 c' c2]; [done|]. simpl broot in E.
    cbv beta iota in E.
    destruct (SALM.joinLeftAVL fuel s (broot tl) k c') as [[s1 T']| |] eqn:E1;
      cbn [bind] in E; [|done..].
    destruct (IH s tl (BNode c1 c' c2) c' k (inorder trr ++ G) s1 T'
                eq_refl Sl Src' O1 Hk1 E1) as (J1 & B1).
    destruct (SALM.nodeWithChildren s1 (Some T') _ _) as [s2 n] eqn:E2.
    destruct (rejoin_right s tl _ TR trr k G s1 T' _ s2 n Sr O Hk B1 E2)
      as [B2 S2].
    destruct (_ <=? _).
    + injection E as <- <-. eauto.
    + pose proof B2 as (_ & _ & Ev2 & OB2 & _).
      rewrite <- Ev2 in B2 |- *.
      destruct (rot_Right_built s2 None J1 n trr G s' j S2 OB2 E)
        as (J4 & B4 & _).
      exists J4. exact (built_trans _ _ _ _ _ _ _ _ _ _ B2 B4).
Qed.

Lemma join_spec fuel s tl tr k G s' j :
  shape' (slinks (SALM.heap s)) tl → shape' (slinks (SALM.heap s)) tr →
  owned s (inorder tl ++ inorder tr ++ G) →
  fresh s (inorder tl ++ inorder tr ++ G) k →
  SALM.join fuel s (broot tl) k (broot tr) = Ok (s', j) →
  ∃ J, built s G (svals (SALM.heap s) tl ++ k :: svals (SALM.heap s) tr) s' j J.
Proof.
  intros Sl Sr O Hk E. unfold SALM.join in E.
  destruct (_ <? _).
  - destruct (broot tl) as [TL|] eqn:R; [|done].
    by eapply joinRightAVL_spec.
  - destruct (_ <? _).
    + destruct (broot tr) as [TR|] eqn:R; [|done].
      by eapply joinLeftAVL_spec.
    + destruct (SALM.nodeWithChildren s (broot tl) k (broot tr)) as [s1 n] eqn:E1.
      injection E as <- <-.
      destruct (nodeWithChildren_built s tl tr k G s1 n Sl Sr O Hk E1) as [B _].
      eauto.
Qed.

(** ** Splitting a tree of a manager *)

Lemma stree_kept (h h' : gmap nat SNode.t) T :
  (∀ a, a ∈ inorder T → h' !!! a = h !!! a) → stree h T → stree h' T.
Proof.
  intros Hf [S R]. split.
  - by apply (shape'_kept h h' (inorder T)).
  - intros r Hr. specialize (R r Hr). rewrite Hf; [done|].
    destruct T; [done|]. injection Hr as <-. simpl. rewrite elem_of_app, elem_of_cons. tauto.
Qed.

Lemma stree_leaf h : stree h BLeaf.
Proof. by split. Qed.

(** "Erase the old parents": the subtree under [T] becomes a tree of its
    own. *)
Lemma eraseParent_spec (h : gmap nat SNode.t) T tc :
  shape (slinks h) (Some T) tc → T ∉ inorder tc → NoDup (inorder tc) →
  shape (slinks (SALM.eraseParent h (broot tc))) None tc
  ∧ (∀ a, a ≠ T → a ∉ inorder tc → SALM.eraseParent h (broot tc) !!! a = h !!! a)
  ∧ (∀ a, sval (SALM.eraseParent h (broot tc)) a = sval h a).
Proof.
  intros S HT ND. destruct tc as [|l c r]; [done|]. simpl broot. unfold SALM.eraseParent.
  pose proof S as (Hp & Hl & Hr & Sl & Sr). simpl in Hp, Hl, Hr. rewrite Hp.
  assert (c ≠ T) as Hc by (intros ->; apply HT; simpl; rewrite elem_of_app, elem_of_cons; tauto).
  set (h0 := if SALM.bIsLeftChild h c
             then SALM.wr (SNode.set_bLeftChild None) T h else h).
  assert (∀ a, a ≠ T → h0 !!! a = h !!! a) as H0.
  { intros a Ha. unfold h0. destruct (SALM.bIsLeftChild h c); [|done].
    by rewrite swr_ne. }
  assert (∀ a, sval h0 a = sval h a) as V0.
  { intros a. unfold h0. destruct (SALM.bIsLeftChild h c); [|done].
    unfold sval. destruct (decide (a = T)) as [->|]; [by rewrite swr_eq|by rewrite swr_ne]. }
  split_and!.
  - simpl in ND. apply NoDup_app in ND as (_ & ND1 & ND).
    apply NoDup_cons in ND as [ND2 _].
    assert (∀ y, y ∈ inorder l ++ inorder r →
              SALM.wr (SNode.set_bParent None) c h0 !!! y = h !!! y) as Hsame.
    { intros y Hy. rewrite swr_ne, H0; [done| |].
      - intros ->. apply HT. simpl. rewrite !elem_of_app, elem_of_cons in *. tauto.
      - intros <-. apply elem_of_app in Hy as [Hy|Hy]; [|done].
        apply (ND1 c Hy). by left. }
    simpl. rewrite swr_eq, H0 by done. split_and!.
    + by destruct (h !!! c).
    + by destruct (h !!! c).
    + by destruct (h !!! c).
    + revert Sl. apply shape_frame. intros y Hy. simpl.
      rewrite Hsame; [done|]. rewrite elem_of_app. tauto.
    + revert Sr. apply shape_frame. intros y Hy. simpl.
      rewrite Hsame; [done|]. rewrite elem_of_app. tauto.
  - intros a Ha Hin. rewrite swr_ne, H0; [done..|].
    intros ->. apply Hin. simpl. rewrite elem_of_app, elem_of_cons. tauto.
  - intros a. rewrite <- V0. unfold sval.
    destruct (decide (a = c)) as [->|]; [rewrite swr_eq; by destruct (h0 !!! c)|by rewrite swr_ne].
Qed.

(** The result of [splitInternal]: the values before the one at the end of
    the path are those of the left tree, the values after it those of the
    right tree; the node at the end of the path is given up. *)
Lemma splitInternal_spec fuel : ∀ path s tl T tr G s' lo ro,
  shape' (slinks (SALM.heap s)) (BNode tl T tr) →
  owned s (inorder (BNode tl T tr) ++ G) →
  SALM.splitInternal fuel s T path = Ok (s', lo, ro) →
  ∃ Lt Rt,
    broot Lt = lo ∧ broot Rt = ro
    ∧ stree (SALM.heap s') Lt ∧ stree (SALM.heap s') Rt
    ∧ svals (SALM.heap s) (BNode tl T tr)
      = svals (SALM.heap s') Lt
        ++ sval (SALM.heap s) (default T (last path)) :: svals (SALM.heap s') Rt
    ∧ default T (last path) ∈ inorder (BNode tl T tr)
    ∧ owned s' (inorder Lt ++ inorder Rt ++ G)
    ∧ (∀ a, a ∈ G → SALM.heap s' !!! a = SALM.heap s !!! a)
    ∧ (∀ a, (a < SALM.next s)%nat →
            sval (SALM.heap s') a = sval (SALM.heap s) a)
    ∧ (SALM.next s ≤ SALM.next s')%nat.
Proof.
  induction path as [|nx path IH]; intros s tl T tr G s' lo ro S O E.
  - simpl in E. injection E as <- <- <-. simpl SALM.heap.
    set (h := SALM.heap s) in *.
    pose proof S as (Hl & Hr & Sl & Sr). simpl in Hl, Hr.
    pose proof (own_nodup _ _ O) as ND. simpl in ND.
    rewrite <- !app_assoc in ND. apply NoDup_app in ND as (ND1' & ND1 & ND).
    apply NoDup_cons in ND as [ND2 ND]. apply NoDup_app in ND as (ND3' & ND3 & _).
    assert (T ∉ inorder tl) as HTl.
    { intros Hin. apply (ND1 T Hin). by left. }
    assert (T ∉ inorder tr) as HTr.
    { intros Hin. apply ND2. rewrite elem_of_app. tauto. }
    rewrite Hl, Hr.
    destruct (eraseParent_spec h T tl Sl HTl ND1') as (S1 & F1 & V1).
    set (h1 := SALM.eraseParent h (broot tl)) in *.
    assert (shape (slinks h1) (Some T) tr) as Sr1.
    { revert Sr. apply shape_frame. intros y Hy. simpl. rewrite F1; [done|by intros ->|].
      intros Hin. apply (ND1 y Hin). right. rewrite elem_of_app. tauto. }
    destruct (eraseParent_spec h1 T tr Sr1 HTr ND3') as (S2 & F2 & V2).
    set (h2 := SALM.eraseParent h1 (broot tr)) in *.
    assert (∀ a, sval h2 a = sval h a) as V by (intros a; by rewrite V2, V1).
    exists tl, tr. split_and!; try done.
    + apply shape_stree. revert S1. apply shape_frame. intros y Hy. simpl.
      rewrite F2; [done|by intros ->|].
      intros Hin. apply (ND1 y Hy). right. rewrite elem_of_app. tauto.
    + by apply shape_stree.
    + rewrite svals_node. simpl. f_equal; [|f_equal]; symmetry; by apply svals_ext.
    + simpl. rewrite elem_of_app, elem_of_cons. tauto.
    + apply owned_with_heap; [done|]. eapply owned_sub; [|exact O].
      simpl. by solve_submseteq.
    + intros a Ha. rewrite F2, F1; try done.
      * intros ->. apply ND2. rewrite elem_of_app. tauto.
      * intros Hin. apply (ND1 a Hin). right. rewrite !elem_of_app. tauto.
      * intros ->. apply ND2. rewrite elem_of_app. tauto.
      * intros Hin. apply (ND3 a Hin). done.
  - cbn [SALM.splitInternal] in E. unfold SALM.expose in E.
    set (h := SALM.heap s) in *.
    pose proof S as (Hl & Hr & Sl & Sr). simpl in Hl, Hr.
    rewrite Hl, Hr in E. fold (sval h T) in E.
    assert (owned s (T :: inorder tl ++ inorder tr ++ G)) as OT.
    { eapply owned_perm; [|exact O]. simpl. by solve_Permutation. }
    pose proof (fresh_owned _ _ _ OT) as HT. fold h in HT.
    assert (owned s (inorder tl ++ inorder tr ++ G)) as O'.
    { eapply owned_sub; [|exact OT]. by apply submseteq_cons. }
    assert (shape' (slinks h) tl) as Sl' by (by apply shape_shape' in Sl as [? _]).
    assert (shape' (slinks h) tr) as Sr' by (by apply shape_shape' in Sr as [? _]).
    rewrite last_cons.
    assert (default T match last path with Some y => Some y | None => Some nx end
            = default nx (last path)) as -> by (by destruct (last path)).
    case_bool_decide as HL.
    + destruct tl as [|a x b]; [done|]. injection HL as ->.
      destruct (SALM.splitInternal fuel s nx path) as [[[s1 lo1] ro1]| |] eqn:E1;
        cbn [bind] in E; [|done..].
      destruct (IH s a nx b (inorder tr ++ G) s1 lo1 ro1 Sl' O' E1)
        as (Lt & Rt & <- & <- & ST1 & ST2 & Ev & Hx & O1 & F1 & V1 & N1).
      fold h in Ev, F1, V1.
      destruct (SALM.join fuel s1 (broot Rt) (sval h T) (broot tr))
        as [[s2 j]| |] eqn:E2; cbn [bind] in E; [|done..].
      injection E as <- <- <-.
      assert (shape' (slinks (SALM.heap s1)) tr) as Sr1.
      { apply (shape'_kept h _ (inorder tr ++ G)); [done| |done].
        intros y Hy. rewrite elem_of_app. tauto. }
      assert (owned s1 (inorder Rt ++ inorder tr ++ inorder Lt ++ G)) as O1'.
      { eapply owned_perm; [|exact O1]. by solve_Permutation. }
      assert (fresh s1 (inorder Rt ++ inorder tr ++ inorder Lt ++ G) (sval h T)) as Hk.
      { intros y Hy.
        assert (y ∈ inorder Lt ++ inorder Rt ∨ y ∈ inorder tr ++ G) as [Hn|Ho]
          by (rewrite !elem_of_app in *; tauto).
        - assert (sval (SALM.heap s1) y ∈ svals h (BNode a nx b)) as Hin.
          { rewrite Ev. rewrite elem_of_app, elem_of_cons. unfold svals.
            apply elem_of_app in Hn as [Hn|Hn];
              [left|right; right]; by apply list_elem_of_fmap_2. }
          apply list_elem_of_fmap in Hin as (z & -> & Hz).
          apply HT. rewrite elem_of_app. tauto.
        - rewrite V1; [|apply (own_alloc _ _ O'); rewrite !elem_of_app in *; tauto].
          apply HT. rewrite !elem_of_app in *. tauto. }
      destruct (join_spec fuel s1 Rt tr (sval h T) (inorder Lt ++ G) s2 j
                  (proj1 ST2) Sr1 O1' Hk E2) as (J & R2 & STJ & EvJ & OJ & FJ & VJ & NJ).
      exists Lt, J. split_and!; try done.
      * eapply stree_kept; [|exact ST1]. intros y Hy. apply FJ.
        rewrite elem_of_app. tauto.
      * rewrite EvJ, svals_node, Ev, <- app_assoc. simpl.
        rewrite (svals_ext (SALM.heap s1) (SALM.heap s2) Lt).
        2:{ intros y Hy. unfold sval. rewrite FJ; [done|]. rewrite elem_of_app. tauto. }
        rewrite (svals_ext h (SALM.heap s1) tr); [done|].
        intros y Hy. apply V1.
        apply (own_alloc _ _ O'). rewrite !elem_of_app. tauto.
      * simpl. rewrite elem_of_app, elem_of_cons. tauto.
      * eapply owned_perm; [|exact OJ]. by solve_Permutation.
      * intros y Hy. rewrite FJ, F1; [done|..]; rewrite elem_of_app; tauto.
      * intros y Hy. rewrite VJ, V1; [done|done|lia].
      * lia.
    + case_bool_decide as HR; [|done].
      destruct tr as [|a x b]; [done|]. injection HR as ->.
      destruct (SALM.splitInternal fuel s nx path) as [[[s1 lo1] ro1]| |] eqn:E1;
        cbn [bind] in E; [|done..].
      assert (owned s (inorder (BNode a nx b) ++ inorder tl ++ G)) as O''.
      { eapply owned_perm; [|exact O']. by solve_Permutation. }
      destruct (IH s a nx b (inorder tl ++ G) s1 lo1 ro1 Sr' O'' E1)
        as (Lt & Rt & <- & <- & ST1 & ST2 & Ev & Hx & O1 & F1 & V1 & N1).
      fold h in Ev, F1, V1.
      destruct (SALM.join fuel s1 (broot tl) (sval h T) (broot Lt))
        as [[s2 j]| |] eqn:E2; cbn [bind] in E; [|done..].
      injection E as <- <- <-.
      assert (shape' (slinks (SALM.heap s1)) tl) as Sl1.
      { apply (shape'_kept h _ (inorder tl ++ G)); [done| |done].
        intros y Hy. rewrite elem_of_app. tauto. }
      assert (owned s1 (inorder tl ++ inorder Lt ++ inorder Rt ++ G)) as O1'.
      { eapply owned_perm; [|exact O1]. by solve_Permutation. }
      assert (fresh s1 (inorder tl ++ inorder Lt ++ inorder Rt ++ G) (sval h T)) as Hk.
      { intros y Hy.
        assert (y ∈ inorder Lt ++ inorder Rt ∨ y ∈ inorder tl ++ G) as [Hn|Ho]
          by (rewrite !elem_of_app in *; tauto).
        - assert (sval (SALM.heap s1) y ∈ svals h (BNode a nx b)) as Hin.
          { rewrite Ev. rewrite elem_of_app, elem_of_cons. unfold svals.
            apply elem_of_app in Hn as [Hn|Hn];
              [left|right; right]; by apply list_elem_of_fmap_2. }
          apply list_elem_of_fmap in Hin as (z & -> & Hz).
          apply HT. rewrite !elem_of_app. tauto.
        - rewrite V1; [|apply (own_alloc _ _ O'); rewrite !elem_of_app in *; tauto].
          apply HT. rewrite !elem_of_app in *. tauto. }
      destruct (join_spec fuel s1 tl Lt (sval h T) (inorder Rt ++ G) s2 j
                  Sl1 (proj1 ST1) O1' Hk E2) as (J & R2 & STJ & EvJ & OJ & FJ & VJ & NJ).
      exists J, Rt. split_and!; try done.
      * eapply stree_kept; [|exact ST2]. intros y Hy. apply FJ.
        rewrite elem_of_app. tauto.
      * rewrite EvJ, svals_node, Ev, <- app_assoc. simpl.
        rewrite (svals_ext (SALM.heap s1) (SALM.heap s2) Rt).
        2:{ intros y Hy. unfold sval. rewrite FJ; [done|]. rewrite elem_of_app. tauto. }
        rewrite (svals_ext h (SALM.heap s1) tl); [done|].
        intros y Hy. apply V1.
        apply (own_alloc _ _ O'). rewrite !elem_of_app. tauto.
      * simpl. rewrite !elem_of_app, elem_of_cons. tauto.
      * intros y Hy. rewrite FJ, F1; [done|..]; rewrite elem_of_app; tauto.
      * intros y Hy. rewrite VJ, V1; [done|done|lia].
      * lia.
Qed.

(** ** Appending to a list of a manager *)

(** A rotation of the subtree [sub] into [sub']. *)
Definition srot (h h1 : gmap nat SNode.t) (sub sub' : btree nat) : Prop :=
  shape' (slinks h1) sub' ∧ inorder sub' = inorder sub
  ∧ (∀ w, w ∉ inorder sub → h1 !!! w = h !!! w)
  ∧ (∀ w, sval h1 w = sval h w).

(** Linking the rotated subtree where the old one was. *)
Lemma srelink_spec (h h1 : gmap nat SNode.t) c sub sub' X N :
  shape (slinks h) None (plug c sub) → NoDup (inorder (plug c sub)) →
  broot sub = Some X → broot sub' = Some N → srot h h1 sub sub' →
  let h2 := SALM.relink h1 (cparent c None) X N in
  shape (slinks h2) None (plug c sub')
  ∧ inorder (plug c sub') = inorder (plug c sub)
  ∧ (∀ w, w ∉ inorder (plug c sub) → h2 !!! w = h !!! w)
  ∧ (∀ w, sval h2 w = sval h w).
Proof.
  intros S ND HX HN (S' & Ei & Hout & Hval) h2.
  apply shape_plug in S as [CS Ssub].
  destruct (NoDup_cnodes c sub ND) as (NDc & NDs & Hdisj).
  assert (N ∈ inorder sub) as HNin by (rewrite <- Ei; by apply broot_in).
  assert (X ∈ inorder sub) as HXin by (by apply broot_in).
  assert (inorder (plug c sub') = inorder (plug c sub)) as Ei'
    by (by rewrite !inorder_plug, Ei).
  assert (∀ w, w ∉ inorder (plug c sub) → w ∉ inorder sub) as Hsub.
  { intros w Hw Hin. apply Hw. rewrite inorder_plug, !elem_of_app. tauto. }
  unfold SALM.relink in h2. cbv zeta in h2.
  rewrite HX in CS.
  assert (NoDup (inorder sub')) as NDs' by (by rewrite Ei).
  destruct c as [|f c].
  - simpl in h2. subst h2. split_and!; [|done| |].
    + simpl. apply shape_shape'. split.
      * apply (shape'_frame (slinks h1)); [|done..].
        intros y Hy. simpl. rewrite swr_lookup.
        destruct (decide (N = y)) as [->|]; [|done].
        split_and!; done.
      * intros x. rewrite HN. intros [= <-]. simpl. by rewrite swr_eq.
    + intros w Hw. rewrite swr_ne by (by intros <-). by apply Hout.
    + intros w. rewrite <- Hval. unfold sval. rewrite swr_lookup.
      by destruct (decide (N = w)) as [->|].
  - simpl cparent in h2. cbv beta iota in h2. set (g := fid f) in *.
    assert (g ∈ cnodes (f :: c)) as Hg by (apply cnodes_cons; by left).
    assert (g ∉ inorder sub) as Hgs by (intros Hy; by apply (Hdisj g)).
    assert (N ≠ g) as HNg by (by intros ->).
    assert (∃ hf, h2 = SALM.wr hf g (SALM.wr (SNode.set_bParent (Some g)) N h1)
                  ∧ hf = match f with
                         | FL _ _ => SNode.set_bLeftChild (Some N)
                         | FR _ _ => SNode.set_bRightChild (Some N)
                         end) as (hf & Eh2 & Ehf).
    { simpl in CS. destruct CS as (_ & Hf & _). subst h2.
      rewrite swr_ne, (Hout g Hgs) by done.
      destruct f as [g' rg|lg g']; simpl in Hf, g; subst g.
      - destruct Hf as (El & _). simpl in El. rewrite El, bool_decide_true by done.
        eauto.
      - destruct Hf as (El & Er & _). simpl in El, Er.
        rewrite bool_decide_false; [eauto|].
        rewrite El. intros Hb%broot_in. apply (Hdisj X HXin).
        apply cnodes_cons. right; left. done. }
    clearbody h2. subst h2.
    assert (∀ y, y ≠ g → y ≠ N →
              SALM.wr hf g (SALM.wr (SNode.set_bParent (Some g)) N h1) !!! y
              = h1 !!! y) as Hoth.
    { intros y ? ?. by rewrite !swr_ne. }
    split_and!.
    + apply shape_plug. split.
      * apply (cshape_rehole (slinks h) _ _ _ (Some X)); [done| | |done].
        -- intros y Hy Hne. simpl in Hne.
           assert (y ∉ inorder sub) by (intros ?; by apply (Hdisj y)).
           simpl. rewrite Hoth, Hout; [done|done|intros ->; by apply Hne|by intros ->].
        -- subst g hf. clear Hoth.
           destruct f as [g rg|lg g]; simpl in *;
             rewrite swr_eq, swr_ne, (Hout g Hgs) by done; simpl; by rewrite HN.
      * simpl cparent. fold g. apply shape_shape'. split.
        -- apply (shape'_frame (slinks h1)); [|done..].
           intros y Hy. rewrite Ei in Hy. simpl.
           rewrite swr_ne by (by intros <-).
           rewrite swr_lookup. destruct (decide (N = y)) as [->|]; [|done].
           split_and!; done.
        -- intros x. rewrite HN. intros [= <-]. simpl.
           by rewrite swr_ne, swr_eq.
    + done.
    + intros w Hw. rewrite Hoth; [by apply Hout, Hsub| |].
      * intros ->. apply Hw. rewrite inorder_plug. unfold cnodes in Hg.
        rewrite !elem_of_app in *. tauto.
      * intros ->. by apply (Hsub N).
    + intros w. rewrite <- Hval. unfold sval. rewrite !swr_lookup.
      destruct (decide (g = w)) as [->|].
      * rewrite decide_False by done. destruct f; subst hf; done.
      * by destruct (decide (N = w)) as [->|].
Qed.

Lemma srot_of_shape' (h h1 : gmap nat SNode.t) sub sub' :
  shape' (slinks h1) sub' → inorder sub' = inorder sub →
  (∀ w, w ∉ inorder sub → h1 !!! w = h !!! w) → (∀ w, sval h1 w = sval h w) →
  srot h h1 sub sub'.
Proof. by intros; split_and!. Qed.

(** [rebalance] permutes no value: the tree it leaves has the nodes of the
    tree it found, in the same order. *)
Lemma srebalance_spec fuel : ∀ h c l z r h',
  shape (slinks h) None (plug c (BNode l z r)) →
  NoDup (inorder (plug c (BNode l z r))) →
  SALM.rebalance fuel h z = Ok h' →
  ∃ t', shape (slinks h') None t'
        ∧ inorder t' = inorder (plug c (BNode l z r))
        ∧ (∀ w, w ∉ inorder (plug c (BNode l z r)) → h' !!! w = h !!! w)
        ∧ (∀ w, sval h' w = sval h w).
Proof.
  induction fuel as [|fuel IH]; intros h c l z r h' S ND E; [done|].
  simpl in E.
  pose proof S as S0. apply shape_plug in S0 as [_ S0].
  destruct S0 as (Epz & Elz & Erz & _). simpl in Epz, Elz, Erz.
  rewrite Epz in E.
  destruct c as [|f c]; simpl in E.
  { injection E as <-. by exists (BNode l z r). }
  rewrite plug_cons in *.
  pose proof S as S1. apply shape_plug in S1 as [_ S1].
  pose proof ND as ND1. apply NoDup_cnodes in ND1 as (_ & ND1 & _).
  destruct f as [X rx|lx X]; cbn [fill] in ND1, S1; simpl in E.
  - pose proof S1 as (Epx & Elx & Erx & _). simpl in Epx, Elx, Erx.
    rewrite bool_decide_false in E.
    2:{ rewrite Erx. intros Hb%broot_in.
        apply NoDup_node in ND1 as (_ & _ & _ & _ & Hlr).
        apply (Hlr z); [ino|done]. }
    destruct (SALM.bF h X <? 0).
    + rewrite Epx in E.
      destruct (0 <? SALM.bF h z).
      * destruct (SALM.rotate_LeftRight h X z) as [[h1 N]| |] eqn:E1;
          cbn [bind] in E; [|done..]. injection E as <-.
        destruct (srotate_LeftRight_spec h _ l z r X rx h1 N S1 ND1 E1)
          as (b1 & y & b2 & -> & -> & S' & Hout & Hval).
        eexists. eapply (srelink_spec h h1 c _ (BNode (BNode l z b1) y (BNode b2 X rx)) X y);
          [done|done|done|done|].
        apply srot_of_shape'; [done| |done|done].
        cbn [inorder fill].
        by repeat (rewrite <- app_assoc || rewrite <- app_comm_cons).
      * destruct (SALM.rotate_Right h X) as [[h1 N]| |] eqn:E1;
          cbn [bind] in E; [|done..]. injection E as <-.
        destruct (srotate_Right_spec h _ (BNode l z r) X rx h1 N S1 ND1 E1)
          as (a & z' & b & [= <- <- <-] & -> & S' & _ & Hout & Hval).
        eexists. eapply (srelink_spec h h1 c _ (BNode l z (BNode r X rx)) X z);
          [done|done|done|done|].
        apply srot_of_shape'; [done| |done|done].
        cbn [inorder fill].
        by repeat (rewrite <- app_assoc || rewrite <- app_comm_cons).
    + destruct (0 <? SALM.bF h X).
      * injection E as <-. eexists. split_and!; done.
      * by apply (IH _ c (BNode l z r) X rx) in E.
  - pose proof S1 as (Epx & Elx & Erx & _). simpl in Epx, Elx, Erx.
    rewrite bool_decide_true in E by done.
    destruct (0 <? SALM.bF h X).
    + rewrite Epx in E.
      destruct (SALM.bF h z <? 0).
      * destruct (SALM.rotate_RightLeft h X z) as [[h1 N]| |] eqn:E1;
          cbn [bind] in E; [|done..]. injection E as <-.
        destruct (srotate_RightLeft_spec h _ lx X l z r h1 N S1 ND1 E1)
          as (b2 & y & b1 & -> & -> & S' & Hout & Hval).
        eexists. eapply (srelink_spec h h1 c _ (BNode (BNode lx X b2) y (BNode b1 z r)) X y);
          [done|done|done|done|].
        apply srot_of_shape'; [done| |done|done].
        cbn [inorder fill].
        by repeat (rewrite <- app_assoc || rewrite <- app_comm_cons).
      * destruct (SALM.rotate_Left h X) as [[h1 N]| |] eqn:E1;
          cbn [bind] in E; [|done..]. injection E as <-.
        destruct (srotate_Left_spec h _ lx X (BNode l z r) h1 N S1 ND1 E1)
          as (b & z' & a & [= <- <- <-] & -> & S' & _ & Hout & Hval).
        eexists. eapply (srelink_spec h h1 c _ (BNode (BNode lx X l) z r) X z);
          [done|done|done|done|].
        apply srot_of_shape'; [done| |done|done].
        cbn [inorder fill].
        by repeat (rewrite <- app_assoc || rewrite <- app_comm_cons).
    + destruct (SALM.bF h X <? 0).
      * injection E as <-. eexists. split_and!; done.
      * by apply (IH _ c lx X (BNode l z r)) in E.
Qed.

(** The height walk of [append] changes heights only, on the way from the
    node to the root. *)
Lemma supdateHeights_spec fuel T : ∀ h v cur h',
  shape (slinks h) None T → (∀ c, cur = Some c → c ∈ inorder T) →
  SALM.updateHeights fuel h v cur = Ok h' →
  (∀ a, noh (h' !!! a) = noh (h !!! a))
  ∧ (∀ a, a ∉ inorder T → h' !!! a = h !!! a).
Proof.
  induction fuel as [|fuel IH]; intros h v cur h' S Hc E; [done|].
  simpl in E. destruct cur as [c|]; [|by injection E as <-].
  set (h1 := SALM.wr _ c h) in E.
  assert (∀ a, noh (h1 !!! a) = noh (h !!! a)) as Hn.
  { intros a. unfold h1. rewrite swr_lookup. by destruct (decide (c = a)) as [->|]. }
  assert (shape (slinks h1) None T) as S1.
  { revert S. apply shape_frame. intros y _. simpl.
    by destruct (noh_fields _ _ (Hn y)) as (-> & -> & -> & _). }
  apply IH in E as [E1 E2]; [|done|].
  - split.
    + intros a. by rewrite E1.
    + intros a Ha. rewrite E2 by done. unfold h1. rewrite swr_ne; [done|].
      intros ->. by apply Ha, Hc.
  - intros p Hp.
    destruct (shape_par_in _ _ _ c S1 (Hc c eq_refl)) as [[_ Ep]|(p' & Ep & Hin)];
      simpl in Ep; rewrite Ep in Hp; [done|]. by injection Hp as <-.
Qed.

Lemma create_built s G v :
  owned s G → fresh s G v →
  built s G [v] (SALM.create s v) (SALM.next s) (BNode BLeaf (SALM.next s) BLeaf).
Proof.
  intros O Hv. unfold SALM.create.
  destruct (SALM.createInternal s v) as [s1 n] eqn:E.
  destruct (createInternal_spec s v s1 n G O Hv E) as (-> & En & Eh & O1).
  simpl. assert (SALM.next s ∉ G) as Hn by (intros ?%(own_alloc _ _ O); lia).
  split_and!; try done.
  - apply shape_stree. rewrite Eh. simpl. by rewrite lookup_total_insert_eq.
  - rewrite Eh. unfold svals, sval. simpl. by rewrite lookup_total_insert_eq.
  - intros a Ha. rewrite Eh, lookup_total_insert_ne; [done|]. by intros <-.
  - intros a Ha. rewrite Eh. unfold sval. rewrite lookup_total_insert_ne; [done|lia].
  - lia.
Qed.

(** The end of the list that holds a value. *)
Lemma getEndNode_spec fuel s T A e a :
  stree (SALM.heap s) T → owned s A → (∀ a, a ∈ inorder T → a ∈ A) →
  e ∈ svals (SALM.heap s) T →
  SALM.getEndNode fuel s e = Ok a →
  shape (slinks (SALM.heap s)) None T
  ∧ ∃ c l, T = plug c (BNode l a BLeaf) ∧ cright c = [].
Proof.
  intros ST O Hin He E. unfold SALM.getEndNode, SALM.nodeByValue in E.
  apply list_elem_of_fmap in He as (x & -> & Hx).
  rewrite (own_map _ _ O x (Hin x Hx)) in E. cbn [bind] in E.
  destruct (SALM.goUp fuel (SALM.heap s) x) as [root| |] eqn:E1;
    cbn [bind] in E; [|done..].
  destruct (goUp_spec fuel _ T x root ST Hx E1) as [R Ep].
  assert (shape (slinks (SALM.heap s)) None T) as S.
  { apply shape_shape'. split; [apply ST|]. intros y Hy. simpl. congruence. }
  split; [done|]. by eapply goRight_spec.
Qed.

Lemma getEnd_spec fuel s T A e v :
  stree (SALM.heap s) T → owned s A → (∀ a, a ∈ inorder T → a ∈ A) →
  e ∈ svals (SALM.heap s) T →
  SALM.getEnd fuel s e = Ok v →
  last (svals (SALM.heap s) T) = Some v.
Proof.
  intros ST O Hin He E. unfold SALM.getEnd in E.
  destruct (SALM.getEndNode fuel s e) as [a| |] eqn:E1; cbn [bind] in E; [|done..].
  injection E as <-.
  destruct (getEndNode_spec fuel s T A e a ST O Hin He E1) as (_ & c & l & -> & Hc).
  unfold svals. rewrite inorder_plug, Hc, app_nil_r. simpl.
  rewrite app_assoc, fmap_app. simpl. by rewrite last_snoc.
Qed.

(** [append] puts the new value at the end of the list of [listEntry]. *)
Lemma append_spec fuel s T G e v s' :
  stree (SALM.heap s) T → owned s (inorder T ++ G) →
  fresh s (inorder T ++ G) v → e ∈ svals (SALM.heap s) T →
  SALM.append fuel s e v = Ok s' →
  ∃ j T', built s G (svals (SALM.heap s) T ++ [v]) s' j T'.
Proof.
  intros ST O Hv He E. unfold SALM.append in E.
  destruct (SALM.createInternal s v) as [s1 n] eqn:Ec.
  destruct (createInternal_spec s v s1 n _ O Hv Ec) as (-> & En & Eh & O1).
  set (h := SALM.heap s) in *. set (n := SALM.next s) in *.
  assert (∀ a, a ∈ inorder T ++ G → a ≠ n) as Hne.
  { intros a Ha%(own_alloc _ _ O). unfold n. lia. }
  assert (∀ a, a ≠ n → SALM.heap s1 !!! a = h !!! a) as H1.
  { intros a Ha. by rewrite Eh, lookup_total_insert_ne. }
  assert (SALM.heap s1 !!! n = SNode.new v) as H1n
    by (by rewrite Eh, lookup_total_insert_eq).
  assert (stree (SALM.heap s1) T) as ST1.
  { eapply stree_kept; [|exact ST]. intros a Ha. apply H1, Hne.
    rewrite elem_of_app. tauto. }
  assert (svals (SALM.heap s1) T = svals h T) as Ev1.
  { apply svals_ext. intros a Ha. unfold sval. rewrite H1; [done|].
    apply Hne. rewrite elem_of_app. tauto. }
  destruct (SALM.getEndNode fuel s1 e) as [p| |] eqn:E1; cbn [bind] in E; [|done..].
  destruct (getEndNode_spec fuel s1 T (n :: inorder T ++ G) e p ST1 O1) as (S1 & c & l & ET & Hc).
  { intros a Ha. right. rewrite elem_of_app. tauto. }
  { by rewrite Ev1. }
  { done. }
  set (h2 := SALM.wr (SNode.set_bParent (Some p)) n
               (SALM.wr (SNode.set_bRightChild (Some n)) p (SALM.heap s1))) in E.
  pose proof (own_nodup _ _ O1) as ND1. apply NoDup_cons in ND1 as [Hn ND1].
  apply NoDup_app in ND1 as (NDT & NDTG & NDG).
  assert (n ∉ inorder T) as HnT by (intros ?; apply Hn; rewrite elem_of_app; tauto).
  assert (p ∈ inorder T) as HpT.
  { rewrite ET, inorder_plug. simpl. rewrite !elem_of_app, elem_of_cons. tauto. }
  assert (p ≠ n) as Hpn by (by intros ->).
  set (T2 := plug (FR l p :: c) (BNode BLeaf n BLeaf)).
  assert (inorder T2 = inorder T ++ [n]) as Ei2.
  { unfold T2. rewrite plug_cons, ET, !inorder_plug, Hc. simpl.
    by rewrite !app_nil_r, <- !app_assoc. }
  assert (shape (slinks h2) None T2) as S2.
  { unfold T2. rewrite plug_cons. rewrite ET in S1, NDT.
    apply shape_plug in S1 as [CS Ssub]. apply shape_plug. split.
    - rewrite broot_fill. revert CS. simpl broot. apply cshape_frame.
      intros y Hy. simpl. unfold h2. rewrite !swr_ne; [done|..].
      + intros ->. apply NoDup_cnodes in NDT as (_ & _ & Hd).
        apply (Hd y); [|done]. simpl. rewrite elem_of_app, elem_of_cons. tauto.
      + intros ->. apply HnT. rewrite ET, inorder_plug. unfold cnodes in Hy.
        rewrite !elem_of_app in *. tauto.
    - destruct Ssub as (Ep & El & Er & Sl & _). simpl in Ep, El, Er.
      apply NoDup_cnodes in NDT as (_ & NDs & _).
      apply NoDup_node in NDs as (_ & _ & Hpl & _ & _).
      cbn [fill shape]. simpl. unfold h2.
      rewrite swr_eq, (swr_ne _ n _ p), swr_eq by done.
      rewrite swr_ne, H1n by done. simpl. split_and!; try done.
      revert Sl. apply shape_frame. intros y Hy. simpl.
      rewrite !swr_ne; [done|..].
      + by intros ->.
      + intros ->. apply HnT. rewrite ET, inorder_plug. simpl.
        rewrite !elem_of_app. tauto. }
  assert (∀ a, a ∉ inorder T2 → h2 !!! a = SALM.heap s1 !!! a) as F2.
  { intros a Ha. rewrite Ei2, elem_of_app, list_elem_of_singleton in Ha.
    unfold h2. rewrite !swr_ne; [done|..]; intros ->; tauto. }
  assert (∀ a, sval h2 a = sval (SALM.heap s1) a) as V2.
  { intros a. unfold h2, sval. rewrite !swr_lookup.
    destruct (decide (n = a)) as [->|].
    - rewrite decide_False by done. done.
    - by destruct (decide (p = a)) as [->|]. }
  destruct (SALM.updateHeights fuel h2 1 (Some p)) as [h3| |] eqn:E3;
    cbn [bind] in E; [|done..].
  destruct (supdateHeights_spec fuel T2 h2 1 (Some p) h3 S2) as [N3 F3]; [|done|].
  { intros ? [= <-]. rewrite Ei2, elem_of_app. tauto. }
  assert (shape (slinks h3) None T2) as S3.
  { revert S2. apply shape_frame. intros y _. simpl.
    by destruct (noh_fields _ _ (N3 y)) as (-> & -> & -> & _). }
  assert (∀ a, sval h3 a = sval h2 a) as V3.
  { intros a. unfold sval. by destruct (noh_fields _ _ (N3 a)) as (_ & _ & _ & ->). }
  destruct (SALM.rebalance fuel h3 n) as [h4| |] eqn:E4; cbn [bind] in E; [|done..].
  injection E as <-.
  assert (NoDup (inorder T2)) as ND2.
  { rewrite Ei2. apply NoDup_app. split_and!; [done| |apply NoDup_singleton].
    intros y Hy ->%list_elem_of_singleton. done. }
  destruct (srebalance_spec fuel h3 (FR l p :: c) BLeaf n BLeaf h4 S3 ND2 E4)
    as (T4 & S4 & Ei4 & F4 & V4).
  fold T2 in Ei4, F4.
  assert (∀ a, sval h4 a = sval (SALM.heap s1) a) as V
    by (intros a; by rewrite V4, V3, V2).
  destruct T4 as [|l4 j r4].
  { rewrite Ei2 in Ei4. by destruct (inorder T). }
  exists j, (BNode l4 j r4). split_and!; try done.
  - by apply shape_stree.
  - unfold svals. rewrite Ei4, Ei2, fmap_app. simpl. f_equal.
    + apply list_fmap_ext. intros i a Ha. rewrite V. unfold sval. rewrite H1; [done|].
      apply Hne. rewrite elem_of_app. left. by eapply list_elem_of_lookup_2.
    + rewrite V. unfold sval. by rewrite H1n.
  - rewrite Ei4, Ei2. apply owned_with_heap; [done|].
    eapply owned_perm; [|exact O1]. by solve_Permutation.
  - intros a Ha. simpl. rewrite F4, F3, F2, H1; try done.
    + apply Hne. rewrite elem_of_app. tauto.
    + rewrite Ei2, elem_of_app, list_elem_of_singleton. intros [Hin| ->].
      * by apply (NDTG a).
      * apply (Hne n); [|done]. rewrite elem_of_app. tauto.
    + rewrite Ei2, elem_of_app, list_elem_of_singleton. intros [Hin| ->].
      * by apply (NDTG a).
      * apply (Hne n); [|done]. rewrite elem_of_app. tauto.
    + rewrite Ei2, elem_of_app, list_elem_of_singleton. intros [Hin| ->].
      * by apply (NDTG a).
      * apply (Hne n); [|done]. rewrite elem_of_app. tauto.
  - intros a Ha. simpl. rewrite V. unfold sval. rewrite H1; [done|]. unfold n. lia.
  - simpl. rewrite En. unfold n. lia.
Qed.

(** ** The lists a manager holds *)

(** The manager [s] holds the lists [Ls] (in any order): each is the
    sequence of values of one of its trees. *)
Definition SRep (s : SALM.t) (Ls : list (list string)) : Prop :=
  ∃ F : list (btree nat),
    Forall (stree (SALM.heap s)) F
    ∧ svals (SALM.heap s) <$> F ≡ₚ Ls
    ∧ owned s (F ≫= inorder).

Lemma SRep_perm s Ls Ls' : Ls ≡ₚ Ls' → SRep s Ls → SRep s Ls'.
Proof. intros Hp (F & ? & ? & ?). exists F. split_and!; try done. by rewrite <- Hp. Qed.

Lemma SRep_empty : SRep SALM.empty [].
Proof.
  exists []. split_and!; try done. split; simpl.
  - apply NoDup_nil_2.
  - by intros a ?%elem_of_nil.
  - by intros a ?%elem_of_nil.
Qed.

Lemma fmap_perm_cons {A B} (f : A → B) (F : list A) l Ls :
  f <$> F ≡ₚ l :: Ls → ∃ T F', F ≡ₚ T :: F' ∧ f T = l ∧ f <$> F' ≡ₚ Ls.
Proof.
  intros Hp.
  assert (l ∈ f <$> F) as (T & -> & HT)%list_elem_of_fmap
    by (rewrite Hp; by left).
  apply elem_of_Permutation in HT as [F' HF]. exists T, F'.
  split_and!; try done. rewrite HF in Hp. simpl in Hp.
  by apply Permutation_cons_inv in Hp.
Qed.

Lemma owned_NoDup_vals s A : owned s A → NoDup (sval (SALM.heap s) <$> A).
Proof.
  intros O. apply NoDup_fmap_2_strong; [|apply O].
  intros a b Ha Hb. by apply (owned_inj s A).
Qed.

(** The place of an element of a list without repetition. *)
Lemma NoDup_split_eq {A} (l1 l2 l1' l2' : list A) x :
  NoDup (l1 ++ x :: l2) → l1 ++ x :: l2 = l1' ++ x :: l2' →
  l1 = l1' ∧ l2 = l2'.
Proof.
  revert l1'. induction l1 as [|a l1 IH]; intros l1' ND E.
  - destruct l1' as [|a' l1']; simpl in *.
    + by injection E as ->.
    + injection E as <- ->. apply NoDup_cons in ND as [ND _].
      exfalso. apply ND. rewrite elem_of_app, elem_of_cons. tauto.
  - destruct l1' as [|a' l1']; simpl in *.
    + injection E as -> <-. apply NoDup_cons in ND as [ND _].
      exfalso. apply ND. rewrite elem_of_app, elem_of_cons. tauto.
    + injection E as <- E. apply NoDup_cons in ND as [_ ND].
      destruct (IH l1' ND E) as [-> ->]. done.
Qed.

Section rep.
Context (s : SALM.t).

Lemma bind_inorder_cons (T : btree nat) F :
  (T :: F) ≫= inorder = inorder T ++ F ≫= inorder.
Proof. done. Qed.

Lemma SRep_inv l Ls :
  SRep s (l :: Ls) →
  ∃ T F, stree (SALM.heap s) T ∧ svals (SALM.heap s) T = l ∧ Forall (stree (SALM.heap s)) F
         ∧ svals (SALM.heap s) <$> F ≡ₚ Ls ∧ owned s (inorder T ++ F ≫= inorder).
Proof.
  intros (F0 & HF & Hp & O).
  destruct (fmap_perm_cons _ _ _ _ Hp) as (T & F & EF & El & Hp').
  exists T, F. rewrite EF in HF. apply Forall_cons in HF as [? ?].
  split_and!; try done. eapply owned_perm; [|exact O]. by rewrite EF.
Qed.

Lemma svals_in_mjoin a (F : list (btree nat)) Ls :
  svals (SALM.heap s) <$> F ≡ₚ Ls → a ∈ F ≫= inorder → sval (SALM.heap s) a ∈ mjoin Ls.
Proof.
  intros Hp (T & Ha & HT)%list_elem_of_bind. rewrite <- Hp.
  apply list_elem_of_join. exists (svals (SALM.heap s) T). split.
  - by apply list_elem_of_fmap_2.
  - by apply list_elem_of_fmap_2.
Qed.
End rep.

Lemma stree_all_kept (h h' : gmap nat SNode.t) (F : list (btree nat)) :
  (∀ a, a ∈ F ≫= inorder → h' !!! a = h !!! a) →
  Forall (stree h) F → Forall (stree h') F.
Proof.
  intros Hf. rewrite !Forall_forall. intros HF T HT.
  eapply stree_kept; [|by apply HF]. intros a Ha. apply Hf.
  apply list_elem_of_bind. eauto.
Qed.

Lemma svals_all_kept (h h' : gmap nat SNode.t) (F : list (btree nat)) :
  (∀ a, a ∈ F ≫= inorder → h' !!! a = h !!! a) →
  svals h' <$> F = svals h <$> F.
Proof.
  intros Hf. apply list_fmap_ext. intros i T HT. apply svals_ext.
  intros a Ha. unfold sval. rewrite Hf; [done|].
  apply list_elem_of_bind. exists T. split; [done|]. by eapply list_elem_of_lookup_2.
Qed.

(** What a building step does to the lists. *)
Lemma built_SRep s F Ls vs s' j J :
  Forall (stree (SALM.heap s)) F → svals (SALM.heap s) <$> F ≡ₚ Ls →
  built s (F ≫= inorder) vs s' j J → SRep s' (vs :: Ls).
Proof.
  intros HF Hp (R & ST & Ev & O & Fr & V & N).
  exists (J :: F). split_and!.
  - apply Forall_cons. split; [done|]. by apply (stree_all_kept (SALM.heap s)).
  - simpl. rewrite Ev, (svals_all_kept (SALM.heap s)) by done. by f_equiv.
  - done.
Qed.

Lemma SRep_create s Ls v :
  SRep s Ls → v ∉ mjoin Ls → SRep (SALM.create s v) ([v] :: Ls).
Proof.
  intros (F & HF & Hp & O) Hv. eapply built_SRep; [done..|].
  apply create_built; [done|]. intros a Ha E. apply Hv. rewrite <- E.
  by eapply svals_in_mjoin.
Qed.

Lemma SRep_append fuel s l Ls e v s' :
  SRep s (l :: Ls) → e ∈ l → v ∉ mjoin (l :: Ls) →
  SALM.append fuel s e v = Ok s' → SRep s' ((l ++ [v]) :: Ls).
Proof.
  intros (T & F & ST & <- & HF & Hp & O)%SRep_inv He Hv E.
  destruct (append_spec fuel s T (F ≫= inorder) e v s' ST O) as (j & T' & B);
    [|done|done|by eapply built_SRep].
  intros a Ha E'. apply Hv. rewrite <- E'.
  apply (svals_in_mjoin s a (T :: F)); [|done]. simpl. by rewrite Hp.
Qed.

Lemma SRep_getEnd fuel s l Ls e v :
  SRep s (l :: Ls) → e ∈ l → SALM.getEnd fuel s e = Ok v → last l = Some v.
Proof.
  intros (T & F & ST & <- & HF & Hp & O)%SRep_inv He E.
  apply (getEnd_spec fuel s T _ e v ST O); [|done..].
  intros a Ha. rewrite elem_of_app. tauto.
Qed.

(** [split] cuts the list after the value. *)
Lemma SRep_split fuel s l1 v l2 Ls s' :
  SRep s ((l1 ++ v :: l2) :: Ls) →
  SALM.split fuel s v = Ok s' → SRep s' ((l1 ++ [v]) :: l2 :: Ls).
Proof.
  intros (T & F & ST & El & HF & Hp & O)%SRep_inv E.
  set (h := SALM.heap s) in *. set (G := F ≫= inorder) in *.
  assert (v ∈ svals h T) as Hv by (rewrite El, elem_of_app, elem_of_cons; tauto).
  apply list_elem_of_fmap in Hv as (a & Ea & Ha). symmetry in Ea.
  unfold SALM.split, SALM.nodeByValue in E.
  pose proof (own_map _ _ O a) as Em. fold h in Em. rewrite Ea in Em.
  rewrite Em in E by (rewrite elem_of_app; tauto).
  cbn [bind] in E. fold h in E.
  destruct (SALM.pathToRoot fuel h a []) as [[root path]| |] eqn:E1;
    cbn [bind] in E; [|done..].
  destruct (pathToRoot_spec fuel h T a [] root path ST Ha E1) as (R & Ep & Elast).
  simpl in Elast.
  destruct T as [|tl x tr]; [done|]. injection R as ->.
  destruct (SALM.splitInternal fuel s root path) as [[[s1 lo] ro]| |] eqn:E2;
    cbn [bind] in E; [|done..].
  destruct (splitInternal_spec fuel path s tl root tr G s1 lo ro (proj1 ST) O E2)
    as (Lt & Rt & <- & <- & ST1 & ST2 & Ev & Hx & O1 & F1 & V1 & N1).
  fold h in Ev, F1, V1. rewrite Elast, Ea, El in Ev.
  pose proof (owned_NoDup_vals _ _ O) as NDv. fold h in NDv.
  rewrite fmap_app in NDv. apply NoDup_app in NDv as (NDv & _ & _).
  fold (svals h (BNode tl root tr)) in NDv. rewrite El in NDv.
  destruct (NoDup_split_eq _ _ _ _ _ NDv Ev) as [E1' E2'].
  assert (Forall (stree (SALM.heap s1)) (Rt :: F)) as HF1.
  { apply Forall_cons. split; [done|]. by apply (stree_all_kept h). }
  assert (svals (SALM.heap s1) <$> (Rt :: F) ≡ₚ l2 :: Ls) as Hp1.
  { rewrite fmap_cons, <- E2', (svals_all_kept h) by done. by f_equiv. }
  assert (fresh s1 (inorder Lt ++ (Rt :: F) ≫= inorder) (sval h a)) as Hfr.
  { intros y Hy E'.
    apply NoDup_app in NDv as (_ & NDv & _).
    assert (sval (SALM.heap s1) y ∈ l1 ++ l2 ++ mjoin Ls) as Hin.
    { rewrite bind_inorder_cons in Hy. fold G in Hy.
      rewrite !elem_of_app in Hy. rewrite !elem_of_app.
      destruct Hy as [Hy|[Hy|Hy]].
      - left. rewrite E1'. by apply list_elem_of_fmap_2.
      - right; left. rewrite E2'. by apply list_elem_of_fmap_2.
      - right; right. unfold sval. rewrite F1 by done.
        by apply (svals_in_mjoin s y F). }
    rewrite E', Ea in Hin. rewrite !elem_of_app in Hin.
    pose proof (owned_NoDup_vals _ _ O) as NDa. fold h in NDa.
    rewrite fmap_app in NDa. fold (svals h (BNode tl root tr)) in NDa.
    rewrite El in NDa. apply NoDup_app in NDa as (NDa & Hd & _).
    destruct Hin as [Hin|[Hin|Hin]].
    - apply NoDup_app in NDa as (_ & NDa & _). apply (NDa v Hin). by left.
    - apply NoDup_app in NDa as (_ & _ & NDa). by apply NoDup_cons in NDa as [? _].
    - apply (Hd v); [rewrite elem_of_app, elem_of_cons; tauto|].
      rewrite <- Hp in Hin. apply list_elem_of_join in Hin as (l & Hvl & Hl).
      apply list_elem_of_fmap in Hl as (T & -> & HT).
      apply list_elem_of_fmap in Hvl as (b & -> & Hb).
      apply list_elem_of_fmap_2. apply list_elem_of_bind. eauto. }
  rewrite Ea in Hfr.
  destruct (broot Lt) as [lr|] eqn:RL.
  - destruct (append_spec fuel s1 Lt ((Rt :: F) ≫= inorder)
                (SNode.value (SALM.heap s1 !!! lr)) v s' ST1 O1 Hfr)
      as (j & T' & B); [|done|].
    + apply (list_elem_of_fmap_2 (sval (SALM.heap s1))). by apply broot_in.
    + rewrite <- E1' in B. by eapply built_SRep.
  - injection E as <-. destruct Lt; [|done]. simpl in E1'. subst l1.
    simpl. apply (built_SRep s1 (Rt :: F) _ [v] _ (SALM.next s1)
                    (BNode BLeaf (SALM.next s1) BLeaf)); [done..|].
    by apply create_built.
Qed.

(** ** The two managers side by side *)

(** The climbing loops throw nothing. *)
Lemma goUp_no_throw fuel : ∀ h a e, SALM.goUp fuel h a ≠ Throw e.
Proof.
  induction fuel as [|fuel IH]; intros h a e; simpl; [done|].
  destruct (SNode.bParent _); [apply IH|done].
Qed.

Lemma goRight_no_throw fuel : ∀ h a e, SALM.goRight fuel h a ≠ Throw e.
Proof.
  induction fuel as [|fuel IH]; intros h a e; simpl; [done|].
  destruct (SNode.bRightChild _); [apply IH|done].
Qed.

Lemma SRep_NoDup s Ls : SRep s Ls → NoDup (mjoin Ls).
Proof.
  intros (F & _ & Hp & O). rewrite <- Hp.
  pose proof (owned_NoDup_vals _ _ O) as ND.
  assert (sval (SALM.heap s) <$> F ≫= inorder = mjoin (svals (SALM.heap s) <$> F))
    as <-; [|done].
  clear. induction F as [|T F IH]; [done|].
  by rewrite bind_inorder_cons, fmap_app, IH.
Qed.

Lemma SRep_known s Ls v :
  SRep s Ls → v ∈ mjoin Ls → is_Some (SALM._nodeByValue s !! v).
Proof.
  intros (F & _ & Hp & O) Hv. rewrite <- Hp in Hv.
  apply list_elem_of_join in Hv as (l & Hv & Hl).
  apply list_elem_of_fmap in Hl as (T & -> & HT).
  apply list_elem_of_fmap in Hv as (a & -> & Ha).
  rewrite (own_map _ _ O a); [done|]. apply list_elem_of_bind. eauto.
Qed.

(** [getEnd] of a value of a list returns the last value of the list, or
    is cut off; it throws nothing. *)
Lemma SRep_getEnd_total fuel s l Ls e :
  SRep s (l :: Ls) → e ∈ l →
  ∃ v, last l = Some v
       ∧ (SALM.getEnd fuel s e = Ok v ∨ SALM.getEnd fuel s e = OutOfFuel).
Proof.
  intros R He.
  assert (∃ v, last l = Some v) as [v Hv].
  { destruct l as [|x l]; [by apply elem_of_nil in He|].
    rewrite last_cons. destruct (last l); eauto. }
  exists v. split; [done|].
  destruct (SALM.getEnd fuel s e) as [w|err|] eqn:E; [| |by right].
  - left. pose proof (SRep_getEnd fuel s l Ls e w R He E). congruence.
  - exfalso. unfold SALM.getEnd, SALM.getEndNode, SALM.nodeByValue in E.
    destruct (SRep_known s (l :: Ls) e R) as [a Ea].
    { simpl. rewrite elem_of_app. tauto. }
    rewrite Ea in E. cbn [bind] in E.
    destruct (SALM.goUp fuel (SALM.heap s) a) as [r|err'|] eqn:E1;
      cbn [bind] in E; [|by apply goUp_no_throw in E1|done].
    destruct (SALM.goRight fuel (SALM.heap s) r) as [x|err'|] eqn:E2;
      cbn [bind] in E; [done|by apply goRight_no_throw in E2|done].
Qed.

(** The value at the root of the tree of a value. *)
Lemma getTreeID_spec fuel s T A e i :
  stree (SALM.heap s) T → owned s A → (∀ a, a ∈ inorder T → a ∈ A) →
  e ∈ svals (SALM.heap s) T →
  SALM.getTreeID fuel s e = Ok i →
  ∃ r, broot T = Some r ∧ i = sval (SALM.heap s) r.
Proof.
  intros ST O Hin He E. unfold SALM.getTreeID, SALM.nodeByValue in E.
  apply list_elem_of_fmap in He as (x & -> & Hx).
  rewrite (own_map _ _ O x (Hin x Hx)) in E. cbn [bind] in E.
  destruct (SALM.goUp fuel (SALM.heap s) x) as [root| |] eqn:E1;
    cbn [bind] in E; [|done..].
  destruct (goUp_spec fuel _ T x root ST Hx E1) as [R Ep].
  injection E as <-. eauto.
Qed.

(** Two values have the same tree id exactly when they are in the same
    list. *)
Lemma SRep_getTreeID fuel s l Ls e1 e2 i1 i2 :
  SRep s (l :: Ls) → e1 ∈ l → e2 ∈ mjoin (l :: Ls) →
  SALM.getTreeID fuel s e1 = Ok i1 → SALM.getTreeID fuel s e2 = Ok i2 →
  i1 = i2 ↔ e2 ∈ l.
Proof.
  intros R He1 He2 E1 E2. pose proof (SRep_NoDup _ _ R) as ND.
  apply SRep_inv in R as (T & F & ST & <- & HF & Hp & O).
  destruct (getTreeID_spec fuel s T _ e1 i1 ST O) as (r1 & R1 & ->); [|done..|].
  { intros a Ha. rewrite elem_of_app. tauto. }
  simpl in He2, ND. apply elem_of_app in He2 as [He2|He2].
  - destruct (getTreeID_spec fuel s T _ e2 i2 ST O) as (r2 & R2 & ->); [|done..|].
    { intros a Ha. rewrite elem_of_app. tauto. }
    split; [done|]. intros _. congruence.
  - apply NoDup_app in ND as (_ & ND & _).
    split; [|intros Hin; by destruct (ND e2 Hin)].
    intros Ei. exfalso.
    rewrite <- Hp in He2. apply list_elem_of_join in He2 as (l2 & He2 & Hl2).
    apply list_elem_of_fmap in Hl2 as (T2 & -> & HT2).
    assert (stree (SALM.heap s) T2) as ST2 by (by eapply Forall_forall in HF).
    assert (∀ a, a ∈ inorder T2 → a ∈ F ≫= inorder) as Hsub.
    { intros a Ha. apply list_elem_of_bind. eauto. }
    destruct (getTreeID_spec fuel s T2 _ e2 i2 ST2 O) as (r2 & R2 & ->); [|done..|].
    { intros a Ha. rewrite elem_of_app. auto. }
    apply broot_in in R1, R2.
    apply (owned_inj s _ r1 r2 O) in Ei; [|rewrite elem_of_app; auto..].
    subst r2. pose proof (own_nodup _ _ O) as NDa.
    apply NoDup_app in NDa as (_ & NDa & _). by apply (NDa r1), Hsub.
Qed.

(** *** The lists of the manager with arrays *)

(** The manager [n] holds the lists [Ls]: each is one array, which all its
    values point to. *)
Definition LRep (n : ListSALM.t) (Ls : list (list string)) : Prop :=
  (∀ l, l ∈ Ls →
     ∃ a, (a < ListSALM.next n)%nat ∧ ListSALM.arrays n !! a = Some l
          ∧ ∀ v, v ∈ l → ListSALM.listByValue n !! v = Some a)
  ∧ (∀ v, is_Some (ListSALM.listByValue n !! v) → v ∈ mjoin Ls).

Lemma LRep_perm n Ls Ls' : Ls ≡ₚ Ls' → LRep n Ls → LRep n Ls'.
Proof.
  intros Hp [H1 H2]. split.
  - intros l Hl. apply H1. by rewrite Hp.
  - intros v Hv. rewrite <- Hp. by apply H2.
Qed.

Lemma LRep_empty : LRep ListSALM.empty [].
Proof.
  split; [by intros l ?%elem_of_nil|]. intros v [a Ha]. simpl in Ha.
  by rewrite lookup_empty in Ha.
Qed.

Lemma in_mjoin {A} (v : A) (l : list A) (Ls : list (list A)) :
  v ∈ l → l ∈ Ls → v ∈ mjoin Ls.
Proof. intros. apply list_elem_of_join. eauto. Qed.

Lemma LRep_create n Ls v :
  LRep n Ls → v ∉ mjoin Ls → LRep (ListSALM.create n v) ([v] :: Ls).
Proof.
  intros [H1 H2] Hv. split.
  - intros l [->|Hl]%elem_of_cons; simpl.
    + exists (ListSALM.next n). rewrite lookup_insert_eq. split_and!; [lia|done|].
      intros w ->%list_elem_of_singleton. by rewrite lookup_insert_eq.
    + destruct (H1 l Hl) as (a & Ha & Ea & Hm). exists a. split_and!; [lia| |].
      * rewrite lookup_insert_ne; [done|lia].
      * intros w Hw. rewrite lookup_insert_ne; [by apply Hm|]. intros <-.
        apply Hv. by apply (in_mjoin v l).
  - intros w. simpl. rewrite elem_of_cons.
    destruct (decide (v = w)) as [->|]; [tauto|].
    rewrite lookup_insert_ne by done. intros Hw. right. by apply H2.
Qed.

Lemma LRep_append n l Ls e v :
  LRep n (l :: Ls) → NoDup (mjoin (l :: Ls)) → e ∈ l → v ∉ mjoin (l :: Ls) →
  ∃ n', ListSALM.append n e v = Ok n' ∧ LRep n' ((l ++ [v]) :: Ls).
Proof.
  intros [H1 H2] ND He Hv.
  destruct (H1 l) as (a & Ha & Ea & Hm); [by left|].
  unfold ListSALM.append. rewrite (Hm e He). eexists. split; [done|].
  rewrite (lookup_total_correct _ _ _ Ea).
  simpl in ND, Hv. apply NoDup_app in ND as (_ & ND & _).
  split; simpl.
  - intros l' [->|Hl']%elem_of_cons.
    + exists a. rewrite lookup_insert_eq. split_and!; [done..|].
      intros w [Hw| ->%list_elem_of_singleton]%elem_of_app;
        [|by rewrite lookup_insert_eq].
      rewrite lookup_insert_ne; [by apply Hm|]. intros <-.
      apply Hv. rewrite elem_of_app. tauto.
    + destruct (H1 l') as (a' & Ha' & Ea' & Hm'); [by right|].
      exists a'. split_and!; [done| |].
      * rewrite lookup_insert_ne; [done|]. intros <-.
        rewrite Ea in Ea'. injection Ea' as <-.
        apply (ND e He). by apply (in_mjoin e l).
      * intros w Hw. rewrite lookup_insert_ne; [by apply Hm'|]. intros <-.
        apply Hv. rewrite elem_of_app. right. by apply (in_mjoin v l').
  - intros w. rewrite !elem_of_app, list_elem_of_singleton.
    destruct (decide (v = w)) as [->|]; [tauto|].
    rewrite lookup_insert_ne by done. intros Hw%H2. simpl in Hw.
    rewrite elem_of_app in Hw. tauto.
Qed.

Lemma LRep_getEnd n l Ls e :
  LRep n (l :: Ls) → e ∈ l → ListSALM.getEnd n e = Ok (last l).
Proof.
  intros [H1 _] He. destruct (H1 l) as (a & _ & Ea & Hm); [by left|].
  unfold ListSALM.getEnd. by rewrite (Hm e He), (lookup_total_correct _ _ _ Ea).
Qed.

Lemma indexOf_middle v l1 l2 :
  v ∉ l1 → ListSALM.indexOf v (l1 ++ v :: l2) = Z.of_nat (length l1).
Proof.
  induction l1 as [|x l1 IH]; intros Hv; simpl.
  - by rewrite bool_decide_true.
  - rewrite bool_decide_false by (intros ->; apply Hv; by left).
    rewrite IH by (intros ?; apply Hv; by right).
    destruct (_ <? 0) eqn:E; lia.
Qed.

Lemma setAll_lookup l a m w :
  ListSALM.setAll l a m !! w = if decide (w ∈ l) then Some a else m !! w.
Proof.
  unfold ListSALM.setAll. revert m.
  induction l as [|x l IH]; intros m; simpl.
  - done.
  - rewrite IH. destruct (decide (w ∈ l)) as [Hl|Hl].
    + by rewrite decide_True by (by right).
    + destruct (decide (x = w)) as [->|].
      * rewrite lookup_insert_eq. by rewrite decide_True by (by left).
      * rewrite lookup_insert_ne by done.
        by rewrite decide_False by (intros [->|?]%elem_of_cons; done).
Qed.

Lemma LRep_split n l1 v l2 Ls :
  LRep n ((l1 ++ v :: l2) :: Ls) → NoDup (mjoin ((l1 ++ v :: l2) :: Ls)) →
  ∃ n', ListSALM.split n v = Ok n' ∧ LRep n' ((l1 ++ [v]) :: l2 :: Ls).
Proof.
  intros [H1 H2] ND.
  destruct (H1 (l1 ++ v :: l2)) as (a & Ha & Ea & Hm); [by left|].
  unfold ListSALM.split. rewrite (Hm v) by (rewrite elem_of_app, elem_of_cons; tauto).
  eexists. split; [done|].
  rewrite (lookup_total_correct _ _ _ Ea).
  simpl in ND. apply NoDup_app in ND as (NDl & NDd & _).
  apply NoDup_app in NDl as (_ & NDl & NDv). apply NoDup_cons in NDv as [NDv _].
  rewrite indexOf_middle by (intros Hin; apply (NDl v Hin); by left).
  replace (Z.to_nat (Z.of_nat (length l1) + 1)) with (S (length l1)) by lia.
  rewrite (cons_middle v l1 l2), app_assoc.
  replace (S (length l1)) with (length (l1 ++ [v]))
    by (rewrite length_app; simpl; lia).
  rewrite take_app_length, drop_app_length.
  set (b := ListSALM.next n).
  split; simpl.
  - intros l' Hl'. rewrite !elem_of_cons in Hl'. destruct Hl' as [->|[->|Hl']].
    + exists b. split_and!; [lia| |].
      * rewrite lookup_insert_ne by lia. by rewrite lookup_insert_eq.
      * intros w Hw. rewrite !setAll_lookup.
        rewrite decide_False, decide_True; [done|done|].
        intros Hw2. apply elem_of_app in Hw as [Hw| ->%list_elem_of_singleton].
        -- apply (NDl w Hw). by right.
        -- done.
    + exists (S b). split_and!; [lia|by rewrite lookup_insert_eq|].
      intros w Hw. by rewrite setAll_lookup, decide_True.
    + destruct (H1 l') as (a' & Ha' & Ea' & Hm'); [by right|].
      exists a'. split_and!; [lia| |].
      * rewrite !lookup_insert_ne; [done|unfold b; lia..].
      * intros w Hw. rewrite !setAll_lookup.
        assert (w ∉ l1 ++ v :: l2) as Hn.
        { intros Hin. apply (NDd w Hin). by apply (in_mjoin w l'). }
        rewrite elem_of_app, elem_of_cons in Hn.
        rewrite !decide_False; [by apply Hm'|..].
        -- rewrite elem_of_app, list_elem_of_singleton. tauto.
        -- tauto.
  - intros w. rewrite !setAll_lookup.
    destruct (decide (w ∈ l2)); [rewrite !elem_of_app; tauto|].
    destruct (decide (w ∈ l1 ++ [v])) as [Hw|Hw].
    + intros _. rewrite elem_of_app. by left.
    + intros Hw'%H2. simpl in Hw'.
      rewrite !elem_of_app, elem_of_cons in Hw'.
      rewrite !elem_of_app, list_elem_of_singleton. tauto.
Qed.

(** *** Simulation *)

(** The values the calls create. *)
Definition created (c : call) : list string :=
  match c with
  | Create v => [v]
  | Append _ v => [v]
  | Split _ => []
  end.

Lemma in_list_split {A} (x : A) (l : list A) : x ∈ l → ∃ l1 l2, l = l1 ++ x :: l2.
Proof. intros (l1 & l2 & ->)%list_elem_of_split. eauto. Qed.

Lemma in_mjoin_perm {A} (v : A) (Ls : list (list A)) :
  v ∈ mjoin Ls → ∃ l Ls', v ∈ l ∧ Ls ≡ₚ l :: Ls'.
Proof.
  intros (l & Hv & Hl)%list_elem_of_join.
  apply elem_of_Permutation in Hl as [Ls' Hp]. eauto.
Qed.

Lemma mjoin_perm {A} (Ls Ls' : list (list A)) : Ls ≡ₚ Ls' → mjoin Ls ≡ₚ mjoin Ls'.
Proof. intros Hp. by rewrite Hp. Qed.

(** While the manager with trees returns, it holds the lists that the
    manager with arrays holds. *)
Lemma simulation fuel cs : ∀ n s Ls (known : gset string) s',
  LRep n Ls → SRep s Ls → (∀ v, v ∈ known ↔ v ∈ mjoin Ls) →
  wellFormed cs known → runAVL fuel cs s = Ok s' →
  ∃ n' Ls', runList cs n = Ok n' ∧ LRep n' Ls' ∧ SRep s' Ls'
            ∧ (∀ v, v ∈ mjoin Ls' ↔ v ∈ known ∨ v ∈ cs ≫= created).
Proof.
  induction cs as [|c cs IH]; intros n s Ls known s' HL HS Hk Hwf E.
  - injection E as <-. exists n, Ls. split_and!; try done.
    intros v. rewrite <- Hk. simpl. rewrite elem_of_nil. tauto.
  - pose proof (SRep_NoDup _ _ HS) as ND.
    destruct c as [v|e v|v]; simpl in Hwf, E |- *.
    + destruct Hwf as [Hv Hwf]. rewrite Hk in Hv.
      destruct (IH (ListSALM.create n v) (SALM.create s v) ([v] :: Ls)
                  ({[v]} ∪ known) s') as (n' & Ls' & E' & HL' & HS' & Hk');
        [by apply LRep_create|by apply SRep_create| |done|done|].
      { intros w. simpl. rewrite elem_of_union, elem_of_singleton, elem_of_cons, Hk.
        tauto. }
      exists n', Ls'. split_and!; try done.
      intros w. rewrite Hk', elem_of_union, elem_of_singleton, elem_of_cons. tauto.
    + destruct Hwf as (He & Hv & Hwf). rewrite Hk in He, Hv.
      destruct (in_mjoin_perm _ _ He) as (l & Ls0 & Hel & Hp).
      apply (LRep_perm _ _ _ Hp) in HL. apply (SRep_perm _ _ _ Hp) in HS.
      rewrite (mjoin_perm _ _ Hp) in Hv, ND.
      destruct (SALM.append fuel s e v) as [s1| |] eqn:E1; cbn [bind] in E; [|done..].
      destruct (LRep_append n l Ls0 e v HL ND Hel Hv) as (n1 & -> & HL1).
      cbn [bind].
      destruct (IH n1 s1 ((l ++ [v]) :: Ls0) ({[v]} ∪ known) s')
        as (n' & Ls' & E' & HL' & HS' & Hk'); [done| | |done|done|].
      { by eapply SRep_append. }
      { intros w. simpl. rewrite elem_of_union, elem_of_singleton, Hk.
        rewrite (mjoin_perm _ _ Hp). simpl.
        rewrite !elem_of_app, list_elem_of_singleton. tauto. }
      exists n', Ls'. split_and!; try done.
      intros w. rewrite Hk', elem_of_union, elem_of_singleton, elem_of_cons. tauto.
    + destruct Hwf as (Hv & Hwf). rewrite Hk in Hv.
      destruct (in_mjoin_perm _ _ Hv) as (l & Ls0 & Hvl & Hp).
      destruct (in_list_split _ _ Hvl) as (l1 & l2 & ->).
      apply (LRep_perm _ _ _ Hp) in HL. apply (SRep_perm _ _ _ Hp) in HS.
      rewrite (mjoin_perm _ _ Hp) in ND.
      destruct (SALM.split fuel s v) as [s1| |] eqn:E1; cbn [bind] in E; [|done..].
      destruct (LRep_split n l1 v l2 Ls0 HL ND) as (n1 & -> & HL1).
      cbn [bind].
      destruct (IH n1 s1 ((l1 ++ [v]) :: l2 :: Ls0) known s')
        as (n' & Ls' & E' & HL' & HS' & Hk'); [done| | |done|done|].
      { by eapply SRep_split. }
      { intros w. rewrite Hk, (mjoin_perm _ _ Hp). simpl.
        rewrite !elem_of_app, elem_of_cons, list_elem_of_singleton. tauto. }
      exists n', Ls'. split_and!; try done.
Qed.

(** * The claims *)

Lemma six_edits_reachable : reachable six_edits_state.
Proof. exact (deliver_reachable _ _ _ _ reachable_new six_edits_deliver). Qed.

Lemma abc_z_reachable : reachable abc_z_state.
Proof. exact (deliver_reachable _ _ _ _ reachable_new abc_z_deliver). Qed.

(** C3 (the code breaks it).  After six local edits of a single replica the
    balanced index is not an AVL tree: the node "01" has no left subtree
    (height -1) and a right subtree of height 1, while its stored balance
    factor is 1.  The state is reachable and the edits are ordinary ones. *)
Theorem avl_balance_broken_after_six_edits :
  let h := CTextLogn.nodesByID six_edits_state in
  six_edits 20 = Ok six_edits_state
  ∧ reachable six_edits_state
  ∧ bheight 20 h (Node.bLeftChild (h !!! "01")) = Ok (-1)
  ∧ bheight 20 h (Node.bRightChild (h !!! "01")) = Ok 1
  ∧ Node.bF (h !!! "01") = 1.
Proof.
  split; [exact six_edits_run|].
  split; [exact (deliver_reachable _ _ _ _ reachable_new six_edits_deliver)|].
  vm_compute. done.
Qed.

Lemma salm_cycle_climbs_forever (h : gmap nat SNode.t) (a b : nat) :
  SNode.bParent (h !!! a) = Some b → SNode.bParent (h !!! b) = Some a →
  ∀ fuel, SALM.goUp fuel h a = OutOfFuel ∧ SALM.goUp fuel h b = OutOfFuel.
Proof.
  intros Ha Hb. induction fuel as [|f [IHa IHb]]; [done|].
  simpl. rewrite Ha, Hb. done.
Qed.

Lemma salm_getEnd_cut_off (s : SALM.t) (v : string) (a : nat) :
  SALM._nodeByValue s !! v = Some a →
  (∀ fuel, SALM.goUp fuel (SALM.heap s) a = OutOfFuel) →
  ∀ fuel, SALM.getEnd fuel s v = OutOfFuel.
Proof.
  intros Hv Hup fuel. unfold SALM.getEnd, SALM.getEndNode, SALM.nodeByValue.
  rewrite Hv. simpl. by rewrite Hup.
Qed.

(** C6 (the code breaks it).  Replica A types "abc", and then receives the "z"
    that replica B typed concurrently at the start.  In the resulting state
    of A, [rightSALM.getEnd] of the node of "b" never returns: whatever the
    fuel, the climb to the root of its list is cut off. *)
Theorem salm_getEnd_diverges_after_concurrent_insert :
  abc_messages 20 = Ok abc_z_messages
  ∧ deliver 20 CTextLogn.new abc_z_messages = Ok abc_z_state
  ∧ reachable abc_z_state
  ∧ is_Some (CTextLogn.nodesByID abc_z_state !! "a2")
  ∧ ∀ fuel, SALM.getEnd fuel (CTextLogn.rightSALM abc_z_state) "a2" = OutOfFuel.
Proof.
  split; [exact abc_z_generated|].
  split; [exact abc_z_deliver|].
  split; [exact (deliver_reachable _ _ _ _ reachable_new abc_z_deliver)|].
  split; [eexists; vm_compute; reflexivity|].
  intros fuel. apply (salm_getEnd_cut_off _ _ 2%nat); [vm_compute; reflexivity|].
  intros f. apply (salm_cycle_climbs_forever _ 2 5); vm_compute; reflexivity.
Qed.

(** ** Counts *)

(** The ids of the nodes of the directory that are present. *)
Definition presentNodes (s : CTextLogn.t) : list string :=
  filter (λ id, tpres (CTextLogn.nodesByID s) id = true)
         (elements (dom (CTextLogn.nodesByID s))).

Lemma tcount_filter (h : gmap string Node.t) t :
  tcount (tpres h) t
  = Z.of_nat (length (filter (λ y, tpres h y = true) (inorder t))).
Proof.
  induction t as [|l IHl x r IHr]; simpl; [done|].
  rewrite filter_app, filter_cons, length_app, IHl, IHr.
  unfold b2z. destruct (decide _) as [->|E]; simpl; [lia|].
  destruct (tpres h x); [done|lia].
Qed.

Lemma inorder_directory s t :
  Inv s t → inorder t ≡ₚ elements (dom (CTextLogn.nodesByID s)).
Proof.
  intros [(_ & _ & ND & _) Hdom _ _ _ _].
  apply NoDup_Permutation; [done|apply NoDup_elements|].
  intros y. rewrite elem_of_elements. apply Hdom.
Qed.

(** C5.  In every reachable state, every node [n] of the directory has
    [n.bCount = (n.bLeftChild?.bCount ?? 0) + (n.isPresent ? 1 : 0)
    + (n.bRightChild?.bCount ?? 0)], and the [length] getter, which returns
    [bRootNode.bCount], is the number of present nodes. *)
Theorem bCount_is_the_number_of_present_nodes (s : CTextLogn.t) :
  reachable s →
  (∀ id n, CTextLogn.nodesByID s !! id = Some n →
     Node.bCount n
     = CTextLogn.countOf (CTextLogn.nodesByID s) (Node.bLeftChild n)
       + (if Node.isPresent n then 1 else 0)
       + CTextLogn.countOf (CTextLogn.nodesByID s) (Node.bRightChild n))
  ∧ CTextLogn.length s = Z.of_nat (length (presentNodes s)).
Proof.
  intros [t I]%reachable_Inv. split.
  - intros id n Hn. pose proof I as [(S & _ & _ & C) Hdom _ _ _ _].
    assert (id ∈ inorder t) as Hin by (apply Hdom, elem_of_dom; eauto).
    destruct (in_zipper id t Hin) as (c & l & r & ->).
    apply shape_plug in S as [_ (_ & El & Er & _)].
    apply counted_plug in C as [(Ec & Cl & Cr) _].
    simpl in El, Er. unfold tcnt, tpres, b2z in Ec.
    rewrite (lookup_total_correct _ _ _ Hn) in El, Er, Ec.
    by rewrite El, Er, (countOf_counted _ _ _ Cl), (countOf_counted _ _ _ Cr).
  - rewrite (length_tcount s t I), tcount_filter. unfold presentNodes.
    by rewrite (inorder_directory s t I).
Qed.

Lemma bCount_is_the_number_of_present_nodes_witness :
  (∀ id n, CTextLogn.nodesByID six_edits_state !! id = Some n →
     Node.bCount n
     = CTextLogn.countOf (CTextLogn.nodesByID six_edits_state) (Node.bLeftChild n)
       + (if Node.isPresent n then 1 else 0)
       + CTextLogn.countOf (CTextLogn.nodesByID six_edits_state) (Node.bRightChild n))
  ∧ CTextLogn.length six_edits_state
    = Z.of_nat (length (presentNodes six_edits_state)).
Proof.
  exact (bCount_is_the_number_of_present_nodes six_edits_state six_edits_reachable).
Defined.

(** ** Indices *)

(** C4.  In every reachable state and for every index [0 ≤ i < length],
    [indexToNode(i)] returns a node [x] with [nodeToIndex(x) = (i, true)], and
    [findPosition(getPosition(i)) = (i, true)]: given enough fuel, all these
    calls return. *)
Theorem index_round_trip (s : CTextLogn.t) (i : Z) :
  reachable s → 0 ≤ i < CTextLogn.length s →
  ∃ n, ∀ fuel, (n ≤ fuel)%nat →
    ∃ x, CTextLogn.indexToNode fuel s i = Ok x
         ∧ CTextLogn.nodeToIndex fuel (CTextLogn.nodesByID s) x = Ok (i, true)
         ∧ (let* p := CTextLogn.getPosition fuel s i in
            CTextLogn.findPosition fuel s p) = Ok (i, true).
Proof.
  intros [t I]%reachable_Inv Hi.
  destruct (round_trip_spec s t i I Hi) as (x & n & H1 & H2 & Hx & Hid).
  exists n. intros fuel Hf. exists x.
  pose proof (computes_enough _ _ _ fuel H1 Hf) as E1.
  pose proof (computes_enough _ _ _ fuel H2 Hf) as E2.
  split_and!; [done..|].
  unfold CTextLogn.getPosition, CTextLogn.findPosition. rewrite E1. cbn [bind].
  rewrite Hid. apply elem_of_dom in Hx as [nx ->]. done.
Qed.

Lemma six_edits_length : CTextLogn.length six_edits_state = 6.
Proof. vm_compute. reflexivity. Qed.

Lemma index_round_trip_witness :
  ∃ n, ∀ fuel, (n ≤ fuel)%nat →
    ∃ x, CTextLogn.indexToNode fuel six_edits_state 2 = Ok x
         ∧ CTextLogn.nodeToIndex fuel (CTextLogn.nodesByID six_edits_state) x
           = Ok (2, true)
         ∧ (let* p := CTextLogn.getPosition fuel six_edits_state 2 in
            CTextLogn.findPosition fuel six_edits_state p) = Ok (2, true).
Proof.
  apply (index_round_trip six_edits_state 2 six_edits_reachable).
  rewrite six_edits_length. lia.
Defined.

(** ** toString *)

(** C10.  In every reachable state [toString()] returns, given enough fuel,
    a string whose length is the [length] getter; whatever the fuel, it does
    not throw "toString() has wrong length". *)
Theorem toString_has_the_length_of_the_text (s : CTextLogn.t) :
  reachable s →
  (∃ n, ∀ fuel, (n ≤ fuel)%nat →
     ∃ str, CTextLogn.toString fuel s = Ok str
            ∧ Z.of_nat (String.length str) = CTextLogn.length s)
  ∧ ∀ fuel, CTextLogn.toString fuel s ≠ Throw WrongLength.
Proof.
  intros [t I]%reachable_Inv.
  destruct (toString_spec s t I) as (n & Hc & El). split.
  - exists n. intros fuel Hf. eexists. split; [|exact El].
    apply (computes_enough _ _ _ fuel Hc Hf).
  - intros fuel. by destruct (Hc fuel) as [->|[-> _]].
Qed.

Lemma toString_has_the_length_of_the_text_witness :
  (∃ n, ∀ fuel, (n ≤ fuel)%nat →
     ∃ str, CTextLogn.toString fuel abc_z_state = Ok str
            ∧ Z.of_nat (String.length str) = CTextLogn.length abc_z_state)
  ∧ ∀ fuel, CTextLogn.toString fuel abc_z_state ≠ Throw WrongLength.
Proof.
  exact (toString_has_the_length_of_the_text abc_z_state abc_z_reachable).
Defined.

(** ** Deleting *)

(** [bAncestor h x a]: [a] is [x] or one of its ancestors in the balanced
    index, the nodes that the loop
    [for (ancestor = node; ancestor !== null; ancestor = ancestor.bParent)]
    visits. *)
Inductive bAncestor (h : gmap string Node.t) : string → string → Prop :=
| bAncestor_self x : bAncestor h x x
| bAncestor_parent x p a :
    Node.bParent (h !!! x) = Some p → bAncestor h p a → bAncestor h x a.

Lemma bAncestor_path (h : gmap string Node.t) c : ∀ l x r a,
  shape (tlinks h) None (plug c (BNode l x r)) →
  bAncestor h x a ↔ a ∈ x :: (fid <$> c).
Proof.
  induction c as [|f c IH]; intros l x r a S.
  - simpl in S. destruct S as (Hp & _). simpl in Hp. split.
    + intros H. inversion H; subst; [by left|congruence].
    + intros Ha. apply elem_of_cons in Ha as [->|Ha]; [constructor|by apply elem_of_nil in Ha].
  - pose proof S as S'. apply shape_plug in S' as [_ (Hp & _)]. simpl in Hp.
    rewrite plug_cons in S.
    assert (bAncestor h (fid f) a ↔ a ∈ fid f :: (fid <$> c)) as IH'.
    { destruct f as [y ry|ly y]; simpl in *; by eapply IH. }
    split.
    + intros H. inversion H; subst; [by left|].
      right. apply IH'. congruence.
    + intros [->|Ha]%elem_of_cons; [constructor|].
      eapply bAncestor_parent; [done|]. by apply IH'.
Qed.

(** C9.  A delete message for a node of the directory is handled, given
    enough fuel, and handling it again in the resulting state changes nothing
    and emits no event.  The first delete of a present node sets [isPresent]
    of that node to false and decrements [bCount] on the nodes of the loop
    over [ancestor] (the node and its balanced ancestors); it changes no other
    field of a node, nor the directory's keys, the root or the list managers.
    A delete of a node that is not present changes nothing and emits no
    event. *)
Theorem delete_twice_is_delete_once (s : CTextLogn.t) (id : string) :
  reachable s → is_Some (CTextLogn.nodesByID s !! id) →
  let h := CTextLogn.nodesByID s in
  ∃ n, ∀ fuel, (n ≤ fuel)%nat →
    ∃ s1 ev,
      CTextLogn.receivePrimitive fuel s (DeleteMessage id) = Ok (s1, ev)
      ∧ CTextLogn.receivePrimitive fuel s1 (DeleteMessage id) = Ok (s1, None)
      ∧ if Node.isPresent (h !!! id) then
          (∀ y, Node.set_bCount 0 (CTextLogn.nodesByID s1 !!! y)
                = Node.set_bCount 0
                    (if decide (y = id) then Node.set_isPresent false (h !!! y)
                     else h !!! y))
          ∧ (∀ y, bAncestor h id y →
                  Node.bCount (CTextLogn.nodesByID s1 !!! y)
                  = Node.bCount (h !!! y) - 1)
          ∧ (∀ y, ¬ bAncestor h id y →
                  Node.bCount (CTextLogn.nodesByID s1 !!! y) = Node.bCount (h !!! y))
          ∧ dom (CTextLogn.nodesByID s1) = dom h
          ∧ CTextLogn.bRootNode s1 = CTextLogn.bRootNode s
          ∧ CTextLogn.leftSALM s1 = CTextLogn.leftSALM s
          ∧ CTextLogn.rightSALM s1 = CTextLogn.rightSALM s
          ∧ ∃ index, ev = Some (Delete index (Node.value (h !!! id)))
        else s1 = s ∧ ev = None.
Proof.
  intros [t I]%reachable_Inv Hid h.
  assert (id ∈ dom h) as Hin by (by apply elem_of_dom).
  destruct (receive_delete s t id I Hin) as (n & s1 & ev & Hc & I1 & Hd).
  fold h in Hd. unfold tpres in Hd.
  exists n. intros fuel Hf. exists s1, ev.
  split; [apply (computes_enough _ _ _ fuel Hc Hf)|].
  destruct (Node.isPresent (h !!! id)) eqn:Hp.
  - destruct Hd as (c & l & r & -> & Hn & Hdom & Hr & Hl & Hrr & ->).
    pose proof I as [(S & _) _ _ _ _ _]. fold h in S.
    split_and!; try done.
    + simpl. rewrite <- Hdom in Hin. apply elem_of_dom in Hin as [n1 Hn1].
      rewrite Hn1.
      assert (Node.isPresent n1 = false) as ->; [|done].
      rewrite <- (lookup_total_correct _ _ _ Hn1), Hn. unfold deleted.
      by rewrite bump_isPresent, wr_eq.
    + intros y. rewrite Hn. unfold deleted.
      assert (∀ d p g, Node.set_bCount 0 (bump d p g y) = Node.set_bCount 0 (g !!! y))
        as -> by (intros; unfold bump; by destruct (decide _)).
      rewrite wr_lookup. destruct (decide (y = id)) as [->|].
      * by rewrite decide_True.
      * by rewrite decide_False.
    + intros y Hy%(bAncestor_path h c l id r y S).
      rewrite Hn. unfold deleted, bump. rewrite decide_True by done.
      simpl. rewrite wr_lookup. destruct (decide (id = y)) as [->|]; simpl; lia.
    + intros y Hy. rewrite Hn. unfold deleted, bump.
      rewrite decide_False by (by rewrite <- (bAncestor_path h c l id r y S)).
      rewrite wr_lookup. destruct (decide (id = y)) as [->|]; [|done].
      destruct Hy. constructor.
    + eauto.
  - destruct Hd as [-> ->]. split_and!; try done.
    simpl. destruct Hid as [n0 Hn0]. unfold h in *. rewrite Hn0.
    rewrite (lookup_total_correct _ _ _ Hn0) in Hp. by rewrite Hp.
Qed.

Lemma delete_twice_is_delete_once_witness :
  ∃ n, ∀ fuel, (n ≤ fuel)%nat →
    ∃ s1 ev,
      CTextLogn.receivePrimitive fuel six_edits_state (DeleteMessage "04")
        = Ok (s1, ev)
      ∧ CTextLogn.receivePrimitive fuel s1 (DeleteMessage "04") = Ok (s1, None).
Proof.
  destruct (delete_twice_is_delete_once six_edits_state "04" six_edits_reachable)
    as [n H].
  - eexists. vm_compute. reflexivity.
  - exists n. intros fuel Hf. destruct (H fuel Hf) as (s1 & ev & H1 & H2 & _).
    by exists s1, ev.
Defined.

(** ** The contract of [delete] *)

(** [str] without the [k] characters from index [i] on. *)
Definition removeChars (i k : nat) (str : string) : string :=
  String.substring 0 i str +:+ String.substring (i + k) (String.length str - (i + k)) str.

Lemma substring_all (str : string) : String.substring 0 (String.length str) str = str.
Proof. induction str as [|a str IH]; simpl; [done|]. by rewrite IH. Qed.

Lemma concat_app (l1 l2 : list string) :
  foldr String.append "" (l1 ++ l2)
  = foldr String.append "" l1 +:+ foldr String.append "" l2.
Proof.
  induction l1 as [|v l1 IH]; simpl; [done|]. rewrite IH.
  generalize (foldr String.append "" l1) (foldr String.append "" l2).
  intros s1 s2. induction v as [|a v IHv]; [done|].
  change (String a (v +:+ s1 +:+ s2) = String a ((v +:+ s1) +:+ s2)).
  by rewrite IHv.
Qed.

Lemma concat_take (vs : list string) : ∀ i,
  Forall (λ v, String.length v = 1%nat) vs →
  String.substring 0 i (foldr String.append "" vs) = foldr String.append "" (take i vs).
Proof.
  induction vs as [|v vs IH]; intros i Hv.
  - by destruct i.
  - apply Forall_cons in Hv as [Hv Hvs].
    destruct v as [|a [|b v]]; simpl in Hv; try done.
    destruct i as [|i]; simpl; [done|]. by rewrite IH.
Qed.

Lemma concat_drop (vs : list string) : ∀ j,
  Forall (λ v, String.length v = 1%nat) vs →
  String.substring j (String.length (foldr String.append "" vs) - j)
    (foldr String.append "" vs)
  = foldr String.append "" (drop j vs).
Proof.
  induction vs as [|v vs IH]; intros j Hv.
  - by destruct j.
  - apply Forall_cons in Hv as [Hv Hvs].
    destruct v as [|a [|b v]]; simpl in Hv; try done.
    destruct j as [|j].
    + rewrite Nat.sub_0_r. apply substring_all.
    + simpl. by apply IH.
Qed.

Lemma removeChars_concat (vs : list string) i k :
  Forall (λ v, String.length v = 1%nat) vs →
  removeChars i k (foldr String.append "" vs)
  = foldr String.append "" (take i vs ++ drop (i + k) vs).
Proof.
  intros Hv. unfold removeChars.
  by rewrite concat_app, concat_take, concat_drop.
Qed.

(** The contract [i ∈ [0, length - k)] is not the one of the code: with the
    text "decbfa", [delete(5, 1)] has its index outside [[0, 5)] and removes
    the last character without an error, and [delete(7, 0)] returns as
    well. *)
Lemma delete_contract_counterexample :
  reachable six_edits_state
  ∧ CTextLogn.toString 20 six_edits_state = Ok "decbfa"
  ∧ CTextLogn.length six_edits_state = 6
  ∧ ¬ (0 ≤ 5 < CTextLogn.length six_edits_state - 1)
  ∧ (CTextLogn.delete 20 six_edits_state 5 1).2 = Ok tt
  ∧ CTextLogn.toString 20 (CTextLogn.delete 20 six_edits_state 5 1).1 = Ok "decbf"
  ∧ ¬ (0 ≤ 7 < CTextLogn.length six_edits_state - 0)
  ∧ CTextLogn.delete 20 six_edits_state 7 0 = (six_edits_state, Ok tt).
Proof.
  split; [exact six_edits_reachable|].
  split; [vm_compute; reflexivity|].
  split; [exact six_edits_length|].
  rewrite six_edits_length.
  split; [lia|]. split; [vm_compute; reflexivity|].
  split; [vm_compute; reflexivity|]. split; [lia|done].
Qed.

(** C8, amended.  In a reachable state, [delete(i, k)] with [0 ≤ i] and
    [i + k ≤ length] returns, given enough fuel, and the text is then the old
    one without the [k] characters at the indices [i .. i+k-1]; with [k ≥ 1]
    and [i < 0] or [i + k > length] it throws IndexOutOfBounds; with [k = 0]
    it returns and leaves the state as it is, whatever [i]. *)
Theorem delete_contract (s : CTextLogn.t) (i : Z) (k : nat) :
  reachable s →
  (0 ≤ i → i + Z.of_nat k ≤ CTextLogn.length s →
   ∃ n, ∀ fuel, (n ≤ fuel)%nat →
     ∃ s' str, CTextLogn.delete fuel s i k = (s', Ok tt)
               ∧ CTextLogn.toString fuel s = Ok str
               ∧ CTextLogn.toString fuel s' = Ok (removeChars (Z.to_nat i) k str))
  ∧ ((1 ≤ k)%nat → i < 0 ∨ CTextLogn.length s < i + Z.of_nat k →
     ∃ n, ∀ fuel, (n ≤ fuel)%nat →
       (CTextLogn.delete fuel s i k).2 = Throw IndexOutOfBounds)
  ∧ (k = 0%nat → ∀ fuel, CTextLogn.delete fuel s i k = (s, Ok tt)).
Proof.
  intros [t I]%reachable_Inv. split_and!.
  - intros H0 Hk.
    destruct (delete_spec k s t i I H0 Hk) as (n1 & s' & Hc1 & I' & Ep).
    destruct (toString_spec s t I) as (n2 & Hc2 & _).
    destruct (toString_spec s' t I') as (n3 & Hc3 & _).
    exists (n1 `max` (n2 `max` n3))%nat. intros fuel Hf.
    exists s', (text_of (CTextLogn.nodesByID s) (inorder t)). split_and!.
    + apply Hc1. lia.
    + apply (computes_enough _ _ _ fuel Hc2). lia.
    + rewrite (computes_enough _ _ _ fuel Hc3) by lia. f_equal.
      unfold text_of. rewrite Ep. symmetry. apply removeChars_concat.
      by eapply pvalues_chars.
  - intros Hk Hout.
    destruct (delete_throws k s t i I Hk Hout) as (n & s' & Hr & _).
    exists n. intros fuel Hf. by rewrite (Hr fuel Hf).
  - by intros ->.
Qed.

Lemma delete_contract_witness :
  (∃ n, ∀ fuel, (n ≤ fuel)%nat →
     ∃ s' str, CTextLogn.delete fuel six_edits_state 1 2 = (s', Ok tt)
               ∧ CTextLogn.toString fuel six_edits_state = Ok str
               ∧ CTextLogn.toString fuel s' = Ok (removeChars 1 2 str))
  ∧ (∃ n, ∀ fuel, (n ≤ fuel)%nat →
       (CTextLogn.delete fuel six_edits_state 5 2).2 = Throw IndexOutOfBounds).
Proof.
  split.
  - destruct (delete_contract six_edits_state 1 2 six_edits_reachable)
      as (H & _ & _).
    apply H; [lia|]. rewrite six_edits_length. lia.
  - destruct (delete_contract six_edits_state 5 2 six_edits_reachable)
      as (_ & H & _).
    apply H; [lia|]. rewrite six_edits_length. lia.
Defined.

(** * What a message does to the text *)

(** [str] with [v] put in at index [i]. *)
Definition insertChars (i : nat) (v str : string) : string :=
  String.substring 0 i str +:+ v
  +:+ String.substring i (String.length str - i) str.

Lemma insertChars_concat (vs : list string) i v :
  Forall (λ v, String.length v = 1%nat) vs →
  insertChars i v (foldr String.append "" vs)
  = foldr String.append "" (take i vs ++ v :: drop i vs).
Proof.
  intros Hv. unfold insertChars.
  by rewrite concat_app, concat_take, concat_drop.
Qed.

(** The event of an insert carries what [nodeToIndex] says of the new node
    in the new state. *)
Lemma receive_insert_event fuel s id pid isL v s' ev :
  CTextLogn.receivePrimitive fuel s (InsertMessage id pid isL v) = Ok (s', ev) →
  ∃ index b, ev = Some (Insert index)
    ∧ CTextLogn.nodeToIndex fuel (CTextLogn.nodesByID s') id = Ok (index, b).
Proof.
  intros E. simpl in E. destruct (CTextLogn.nodesByID s !! pid); [|done].
  bind_ok E as [pred succ]. bind_ok E as h3. bind_ok E as h4.
  bind_ok E as [h5 root']. bind_ok E as s6. bind_ok E as [index b].
  injection E as <- <-. eauto.
Qed.

(** The nodes of the old state keep their character and their presence. *)
Lemma entered_kept (h : gmap string Node.t) id pid isL v y :
  y ≠ id →
  tpres (entered h id pid isL v).1.1 y = tpres h y
  ∧ Node.value ((entered h id pid isL v).1.1 !!! y) = Node.value (h !!! y)
  ∧ Node.id ((entered h id pid isL v).1.1 !!! y) = Node.id (h !!! y)
  ∧ Node.parent ((entered h id pid isL v).1.1 !!! y) = Node.parent (h !!! y)
  ∧ Node.isLeftChild ((entered h id pid isL v).1.1 !!! y)
    = Node.isLeftChild (h !!! y).
Proof.
  intros Hy. unfold entered, tpres. simpl. rewrite wr_lookup.
  destruct (decide (pid = y)) as [->|];
    rewrite lookup_total_insert_ne by done; by destruct isL.
Qed.

Lemma entered_new (h : gmap string Node.t) id pid isL v :
  pid ≠ id →
  (entered h id pid isL v).1.1 !!! id = Node.new id (Some pid) isL v true.
Proof.
  intros Hne. unfold entered. simpl. by rewrite wr_ne, lookup_total_insert_eq.
Qed.

(** Receiving an insert message puts the character in the text, at the
    index of the event. *)
Lemma insert_text fuel s t id pid isL v s' ev :
  Inv s t → admissible s (InsertMessage id pid isL v) →
  CTextLogn.receivePrimitive fuel s (InsertMessage id pid isL v) = Ok (s', ev) →
  ∃ t' k,
    Inv s' t' ∧ ev = Some (Insert (Z.of_nat k))
    ∧ (k ≤ length (pvalues (CTextLogn.nodesByID s) (inorder t)))%nat
    ∧ pvalues (CTextLogn.nodesByID s') (inorder t')
      = take k (pvalues (CTextLogn.nodesByID s) (inorder t))
        ++ v :: drop k (pvalues (CTextLogn.nodesByID s) (inorder t)).
Proof.
  intros I Ha E.
  destruct (receive_insert_event _ _ _ _ _ _ _ _ E) as (index & b & -> & En).
  pose proof (receive_insert fuel s t id pid isL v s' _ I Ha E) as H.
  pose proof (entered_kept (CTextLogn.nodesByID s) id pid isL v) as Hk.
  pose proof (entered_new (CTextLogn.nodesByID s) id pid isL v) as Hn.
  destruct (entered (CTextLogn.nodesByID s) id pid isL v) as [[h2 sibs] i].
  simpl in Hk, Hn.
  destruct H as (t' & A & B & pred & succ & _ & EA & EB & _ & I' & Hcore & Hd & _).
  set (h := CTextLogn.nodesByID s) in *. set (h' := CTextLogn.nodesByID s') in *.
  destruct Ha as (Hfresh & Hpar & Hv).
  assert (id ∉ dom h) as Hidd by (by apply not_elem_of_dom).
  assert (pid ≠ id) as Hne by (intros ->; by apply Hidd, elem_of_dom).
  specialize (Hn Hne).
  assert (∀ y, y ∈ A ++ B → tpres h' y = tpres h y
                            ∧ Node.value (h' !!! y) = Node.value (h !!! y)) as Hold.
  { intros y Hy. assert (y ≠ id) as Hyi.
    { intros ->. apply Hidd, (inv_dom _ _ I). by rewrite EA. }
    destruct (Hk y Hyi) as (<- & <- & _). specialize (Hcore y).
    unfold tpres, core in *. by simplify_eq. }
  assert (tpres h' id = true ∧ Node.value (h' !!! id) = v) as [Hp Hval].
  { specialize (Hcore id). rewrite Hn in Hcore. unfold tpres, core in *.
    by simplify_eq. }
  assert (pvalues h' A = pvalues h A) as EpA.
  { apply pvalues_ext. intros y Hy. apply Hold. rewrite elem_of_app. tauto. }
  assert (pvalues h' B = pvalues h B) as EpB.
  { apply pvalues_ext. intros y Hy. apply Hold. rewrite elem_of_app. tauto. }
  exists t', (length (pvalues h A)).
  pose proof I' as [(S' & R' & ND' & C') Hdom' _ _ _ _].
  assert (id ∈ inorder t') as Hin by (rewrite EB, elem_of_app, elem_of_cons; tauto).
  destruct (in_zipper id t' Hin) as (c & l & r & Et).
  rewrite Et in S', ND', C'.
  pose proof (nodeToIndex_spec h' c l id r S' ND' C') as Hc.
  pose proof (computes_ok _ _ _ _ _ Hc En) as Ei.
  rewrite Et, inorder_plug in EB. simpl in EB.
  rewrite <- app_assoc, app_assoc in EB.
  rewrite inorder_plug in ND'. simpl in ND'.
  rewrite <- app_assoc, app_assoc in ND'.
  destruct (NoDup_split_eq _ _ _ _ _ ND' EB) as [EA' _].
  split_and!; try done.
  - f_equal. f_equal.
    assert (index = cbefore (tpres h') c + tcount (tpres h') l) as ->
      by congruence.
    rewrite <- EpA, <- EA', pvalues_app, length_app, cbefore_pvalues, <- pvalues_length.
    lia.
  - rewrite EA, pvalues_app, length_app. lia.
  - rewrite EA, pvalues_app, take_app_length, drop_app_length.
    rewrite Et, inorder_plug. simpl.
    rewrite <- app_assoc, app_assoc, EB.
    rewrite pvalues_app, pvalues_cons, Hp, Hval, EpA, EpB. done.
Qed.

Lemma concat_lookup (vs : list string) : ∀ k v,
  Forall (λ v, String.length v = 1%nat) vs → vs !! k = Some v →
  String.substring k 1 (foldr String.append "" vs) = v.
Proof.
  induction vs as [|w vs IH]; intros k v Hv E; [done|].
  apply Forall_cons in Hv as [Hw Hvs].
  destruct w as [|a [|b w]]; simpl in Hw; try done.
  destruct k as [|k]; simpl in E.
  - injection E as <-. simpl. by destruct (foldr String.append "" vs).
  - simpl. by apply IH.
Qed.

Lemma deleted_kept (h : gmap string Node.t) id c y :
  Node.value (deleted h id c y) = Node.value (h !!! y)
  ∧ Node.id (deleted h id c y) = Node.id (h !!! y)
  ∧ Node.parent (deleted h id c y) = Node.parent (h !!! y)
  ∧ Node.isLeftChild (deleted h id c y) = Node.isLeftChild (h !!! y)
  ∧ Node.leftChildren (deleted h id c y) = Node.leftChildren (h !!! y)
  ∧ Node.rightChildren (deleted h id c y) = Node.rightChildren (h !!! y)
  ∧ Node.isPresent (deleted h id c y)
    = (if decide (y = id) then false else Node.isPresent (h !!! y)).
Proof.
  unfold deleted, bump. rewrite wr_lookup.
  destruct (decide (y ∈ _)); destruct (decide (id = y)) as [->|];
    rewrite ?decide_True by done; rewrite ?decide_False by (by intros ->); done.
Qed.

(** Receiving the delete message of a present node takes its character out
    of the text, at the index of the event. *)
Lemma delete_text s t id :
  Inv s t → id ∈ dom (CTextLogn.nodesByID s) →
  tpres (CTextLogn.nodesByID s) id = true →
  ∃ n s' k,
    computes (λ fuel, CTextLogn.receivePrimitive fuel s (DeleteMessage id)) n
      (s', Some (Delete (Z.of_nat k) (Node.value (CTextLogn.nodesByID s !!! id))))
    ∧ Inv s' t
    ∧ pvalues (CTextLogn.nodesByID s) (inorder t) !! k
      = Some (Node.value (CTextLogn.nodesByID s !!! id))
    ∧ pvalues (CTextLogn.nodesByID s') (inorder t)
      = delete k (pvalues (CTextLogn.nodesByID s) (inorder t))
    ∧ computes (λ fuel, CTextLogn.findPosition fuel s' id) n (Z.of_nat k, false)
    ∧ ∃ A B, inorder t = A ++ id :: B
             ∧ k = length (pvalues (CTextLogn.nodesByID s) A).
Proof.
  intros I Hx Hp.
  destruct (receive_delete s t id I Hx) as (n & s' & ev & Hc & I' & Hd).
  rewrite Hp in Hd. destruct Hd as (c & l & r & Et & Hnodes & Hdom' & _ & _ & _ & ->).
  set (h := CTextLogn.nodesByID s) in *. set (h' := CTextLogn.nodesByID s') in *.
  pose proof I as [(S & R & ND & C) Hdom Hid _ _ _].
  assert (∀ y, y ≠ id → tpres h' y = tpres h y
                        ∧ Node.value (h' !!! y) = Node.value (h !!! y)) as Hoth.
  { intros y Hy. unfold tpres. rewrite Hnodes.
    destruct (deleted_kept h id c y) as (-> & _ & _ & _ & _ & _ & ->).
    by rewrite decide_False. }
  assert (tpres h' id = false) as Hp'.
  { unfold tpres. rewrite Hnodes.
    destruct (deleted_kept h id c id) as (_ & _ & _ & _ & _ & _ & ->).
    by rewrite decide_True. }
  rewrite Et in ND. destruct (NoDup_cnodes c _ ND) as (_ & NDs & Hdisj).
  apply NoDup_node in NDs as (_ & _ & Hxl & Hxr & _).
  specialize (Hdisj id ltac:(ino)). unfold cnodes in Hdisj.
  rewrite elem_of_app in Hdisj.
  set (k := length (pvalues h (cleft c) ++ pvalues h (inorder l))).
  assert (cbefore (tpres h) c + tcount (tpres h) l = Z.of_nat k) as Ek.
  { unfold k. rewrite length_app, cbefore_pvalues, <- pvalues_length. lia. }
  rewrite Ek in Hc.
  pose proof I' as [(S' & R' & ND' & C') _ _ _ _ _]. rewrite Et in S', C'.
  pose proof (nodeToIndex_spec h' c l id r S' ND C') as Hn.
  assert (pvalues h' (cleft c) = pvalues h (cleft c)) as Ecl.
  { apply pvalues_ext. intros y Hy. apply Hoth. intros ->. tauto. }
  assert (pvalues h' (inorder l) = pvalues h (inorder l)) as El.
  { apply pvalues_ext. intros y Hy. apply Hoth. by intros ->. }
  rewrite Hp', cbefore_pvalues, <- pvalues_length, Ecl, El, <- Nat2Z.inj_add,
    <- length_app in Hn. fold k in Hn.
  exists (n `max` (length c + 1))%nat, s', k. split_and!; try done.
  - eapply computes_weaken; [done|lia].
  - rewrite Et, inorder_plug. simpl.
    rewrite !pvalues_app, pvalues_cons, Hp. simpl.
    rewrite <- !app_assoc. simpl.
    rewrite !(app_assoc (pvalues h (cleft c)) (pvalues h (inorder l))).
    unfold k. by rewrite list_lookup_middle.
  - fold h'. rewrite Et, inorder_plug. simpl.
    rewrite !pvalues_app, !pvalues_cons, Hp, Hp'. simpl.
    rewrite (pvalues_ext h h' (cleft c)), (pvalues_ext h h' (inorder l)),
      (pvalues_ext h h' (inorder r)), (pvalues_ext h h' (cright c));
      try (intros y Hy; apply Hoth; intros ->; tauto).
    rewrite <- !app_assoc. simpl.
    rewrite !(app_assoc (pvalues h (cleft c)) (pvalues h (inorder l))).
    unfold k. by rewrite delete_middle.
  - intros fuel. unfold CTextLogn.findPosition. fold h'.
    assert (id ∈ dom h') as [nd ->]%elem_of_dom by (by rewrite Hdom').
    destruct (Hn fuel) as [->|[-> ?]]; [by left|right; split; [done|lia]].
  - exists (cleft c ++ inorder l), (inorder r ++ cright c). split.
    + rewrite Et, inorder_plug. simpl. by rewrite <- !app_assoc.
    + unfold k. by rewrite pvalues_app.
Qed.

(** The node at an index holds the character of the text at that index. *)
Lemma indexToNode_char s t i :
  Inv s t → 0 ≤ i < CTextLogn.length s →
  ∃ x n,
    computes (λ fuel, CTextLogn.indexToNode fuel s i) n x
    ∧ x ∈ dom (CTextLogn.nodesByID s)
    ∧ tpres (CTextLogn.nodesByID s) x = true
    ∧ pvalues (CTextLogn.nodesByID s) (inorder t) !! Z.to_nat i
      = Some (Node.value (CTextLogn.nodesByID s !!! x))
    ∧ ∃ A B, inorder t = A ++ x :: B
             ∧ Z.to_nat i = length (pvalues (CTextLogn.nodesByID s) A).
Proof.
  intros I Hi.
  destruct (indexToNode_spec s t i I Hi) as (c & l & x & r & n & Et & Hp & Hb & Hc).
  pose proof I as [_ Hdom _ _ _ _].
  exists x, n. split_and!; try done.
  - apply Hdom. rewrite Et. apply in_plug.
  - rewrite Et, inorder_plug. simpl.
    rewrite !pvalues_app, pvalues_cons, Hp. simpl.
    rewrite <- !app_assoc. simpl.
    rewrite !(app_assoc (pvalues (CTextLogn.nodesByID s) (cleft c))
                (pvalues (CTextLogn.nodesByID s) (inorder l))).
    replace (Z.to_nat i)
      with (length (pvalues (CTextLogn.nodesByID s) (cleft c)
                    ++ pvalues (CTextLogn.nodesByID s) (inorder l))).
    + by rewrite list_lookup_middle.
    + rewrite length_app. rewrite <- Hb, cbefore_pvalues, <- pvalues_length. lia.
  - exists (cleft c ++ inorder l), (inorder r ++ cright c). split.
    + rewrite Et, inorder_plug. simpl. by rewrite <- !app_assoc.
    + rewrite pvalues_app, length_app.
      rewrite <- Hb, cbefore_pvalues, <- pvalues_length. lia.
Qed.

(** * What no message changes *)

(** Every node of the directory [h] is in [h'], with the id, parent, side
    and character it had; a node that is absent in [h] is absent in [h'];
    the children it had are children still, in the same order. *)
Definition keeps (h h' : gmap string Node.t) : Prop :=
  ∀ y, y ∈ dom h →
    y ∈ dom h'
    ∧ Node.id (h' !!! y) = Node.id (h !!! y)
    ∧ Node.parent (h' !!! y) = Node.parent (h !!! y)
    ∧ Node.isLeftChild (h' !!! y) = Node.isLeftChild (h !!! y)
    ∧ Node.value (h' !!! y) = Node.value (h !!! y)
    ∧ (Node.isPresent (h' !!! y) = true → Node.isPresent (h !!! y) = true)
    ∧ sublist (Node.leftChildren (h !!! y)) (Node.leftChildren (h' !!! y))
    ∧ sublist (Node.rightChildren (h !!! y)) (Node.rightChildren (h' !!! y)).

Lemma keeps_refl h : keeps h h.
Proof. intros y Hy. split_and!; done. Qed.

Lemma keeps_trans h1 h2 h3 : keeps h1 h2 → keeps h2 h3 → keeps h1 h3.
Proof.
  intros H12 H23 y Hy.
  destruct (H12 y Hy) as (Hy2 & E1 & E2 & E3 & E4 & E5 & E6 & E7).
  destruct (H23 y Hy2) as (Hy3 & F1 & F2 & F3 & F4 & F5 & F6 & F7).
  split_and!; try congruence; try tauto; by etrans.
Qed.

Lemma sublist_splice (i : nat) (x : string) l : sublist l (CTextLogn.splice i x l).
Proof.
  unfold CTextLogn.splice. rewrite <- (take_drop i l) at 1.
  apply sublist_app; [done|]. by apply sublist_cons.
Qed.

Lemma entered_children (h : gmap string Node.t) id pid isL v y :
  y ≠ id →
  sublist (Node.leftChildren (h !!! y))
    (Node.leftChildren ((entered h id pid isL v).1.1 !!! y))
  ∧ sublist (Node.rightChildren (h !!! y))
      (Node.rightChildren ((entered h id pid isL v).1.1 !!! y)).
Proof.
  intros Hy. unfold entered. simpl. rewrite wr_lookup.
  destruct (decide (pid = y)) as [->|];
    rewrite lookup_total_insert_ne by done; [|done].
  destruct isL; simpl; split; try done; apply sublist_splice.
Qed.

Lemma receive_keeps fuel s t m s' ev :
  Inv s t → admissible s m →
  CTextLogn.receivePrimitive fuel s m = Ok (s', ev) →
  keeps (CTextLogn.nodesByID s) (CTextLogn.nodesByID s') ∧ ∃ t', Inv s' t'.
Proof.
  intros I Ha E. destruct m as [id|id pid isL v].
  - assert (id ∈ dom (CTextLogn.nodesByID s)) as Hx by (by apply elem_of_dom).
    destruct (receive_delete s t id I Hx) as (n & s1 & ev1 & Hc & I' & Hd).
    pose proof (computes_ok _ _ _ _ _ Hc E) as [= <- <-].
    split; [|by exists t].
    destruct (tpres _ id).
    + destruct Hd as (c & l & r & _ & Hnodes & Hdom' & _).
      intros y Hy. rewrite Hnodes.
      destruct (deleted_kept (CTextLogn.nodesByID s) id c y)
        as (-> & -> & -> & -> & -> & -> & ->).
      split_and!; try done; [by rewrite Hdom'|]. by destruct (decide _).
    + destruct Hd as [-> _]. apply keeps_refl.
  - pose proof (receive_insert fuel s t id pid isL v s' _ I Ha E) as H.
    pose proof (entered_kept (CTextLogn.nodesByID s) id pid isL v) as Hk.
    pose proof (entered_children (CTextLogn.nodesByID s) id pid isL v) as Hc.
    destruct (entered (CTextLogn.nodesByID s) id pid isL v) as [[h2 sibs] i].
    simpl in Hk, Hc.
    destruct H as (t' & A & B & pred & succ & _ & EA & EB & _ & I' & Hcore & Hd & _).
    split; [|by exists t'].
    destruct Ha as (Hfresh & _). intros y Hy.
    assert (y ≠ id) as Hyi by (intros ->; by apply not_elem_of_dom in Hfresh).
    destruct (Hk y Hyi) as (E1 & E2 & E3 & E4 & E5).
    destruct (Hc y Hyi) as (E6 & E7).
    specialize (Hcore y). unfold tpres, core in *.
    split_and!; [rewrite Hd; set_solver|..]; try (simplify_eq; congruence).
Qed.

Lemma deliver_keeps fuel ms : ∀ s t s',
  Inv s t → deliver fuel s ms = Ok s' →
  keeps (CTextLogn.nodesByID s) (CTextLogn.nodesByID s') ∧ ∃ t', Inv s' t'.
Proof.
  induction ms as [|m ms IH]; intros s t s' I E; simpl in E.
  - injection E as <-. split; [apply keeps_refl|by exists t].
  - destruct (decide (admissible s m)) as [Ha|]; [|done].
    destruct (CTextLogn.receivePrimitive fuel s m) as [[s1 ev]| |] eqn:E1;
      cbn [bind] in E; [|done..].
    destruct (receive_keeps fuel s t m s1 ev I Ha E1) as [K1 [t1 I1]].
    destruct (IH s1 t1 s' I1 E) as [K2 I2].
    split; [by eapply keeps_trans|done].
Qed.

(** * The next node of the balanced index *)

Lemma head_app_cons {A} (l : list A) x k : head ((l ++ [x]) ++ k) = head (l ++ [x]).
Proof. by destruct l. Qed.

Lemma inorder_head {K} (l : btree K) x r :
  ∃ m, head (inorder (BNode l x r)) = Some m.
Proof. simpl. destruct (inorder l); simpl; eauto. Qed.

(** Descending to the left ends at the first node of the subtree. *)
Lemma descendLeft_head (h : gmap string Node.t) t : ∀ p x,
  shape (tlinks h) p t → broot t = Some x →
  ∃ m n, computes (λ fuel, CTextLogn.descendLeft fuel h x) n m
         ∧ head (inorder t) = Some m.
Proof.
  induction t as [|l IHl y r _]; intros p x; simpl; [done|].
  intros (Hp & Hl & Hr & Sl & Sr) [= <-]. simpl in Hl.
  destruct l as [|l1 y' l2].
  - exists y, 1%nat. split; [|done]. intros [|f]; simpl.
    + right. split; [done|lia].
    + left. by rewrite Hl.
  - destruct (IHl (Some y) y' Sl eq_refl) as (m & n & Hc & Hh).
    exists m, (S n). split.
    + intros [|f]; simpl; [right; split; [done|lia]|].
      rewrite Hl. simpl. destruct (Hc f) as [->|[-> ?]]; [by left|right].
      split; [done|lia].
    + destruct (inorder_head l1 y' l2) as [m' Hm'].
      rewrite Hm' in Hh. injection Hh as ->.
      destruct (inorder (BNode l1 y' l2)); [done|]. done.
Qed.

(** Climbing until a left turn ends at the first node after the subtree, or
    with "node is last". *)
Lemma nextNode_up_spec (h : gmap string Node.t) : ∀ c sub x,
  shape (tlinks h) None (plug c sub) → NoDup (inorder (plug c sub)) →
  broot sub = Some x →
  match head (cright c) with
  | Some y => computes (λ fuel, CTextLogn.nextNode_up fuel h x) (length c + 1) y
  | None => raises (λ fuel, CTextLogn.nextNode_up fuel h x) (length c + 1)
              NodeIsLast
  end.
Proof.
  induction c as [|f c IH]; intros sub x S ND R.
  - simpl in *. apply shape_shape' in S as [_ Hp]. specialize (Hp x R).
    simpl in Hp. intros [|fuel]; simpl; [right; split; [done|lia]|].
    left. by rewrite Hp.
  - rewrite plug_cons in S, ND.
    pose proof S as S1. apply shape_plug in S1 as [_ S1].
    pose proof ND as ND1. apply NoDup_cnodes in ND1 as (_ & ND1 & _).
    specialize (IH (fill f sub) (fid f) S ND (broot_fill f sub)).
    destruct f as [p r|l p]; cbn [fill fid] in *; simpl in S1.
    + destruct S1 as (_ & Hl & _ & Ssub & _). simpl in Hl.
      apply shape_shape' in Ssub as [_ Hp]. specialize (Hp x R). simpl in Hp.
      simpl. intros [|fuel]; simpl; [right; split; [done|lia]|].
      left. unfold CTextLogn.bIsLeftChild. rewrite Hp, Hl, R.
      by rewrite bool_decide_true.
    + destruct S1 as (_ & Hl & _ & _ & Ssub). simpl in Hl.
      apply shape_shape' in Ssub as [_ Hp]. specialize (Hp x R). simpl in Hp.
      assert (CTextLogn.bIsLeftChild h x = false) as Hb.
      { unfold CTextLogn.bIsLeftChild. rewrite Hp, Hl.
        apply bool_decide_false. intros Hx%broot_in.
        apply NoDup_node in ND1 as (_ & _ & _ & _ & Hd).
        apply (Hd x Hx). by apply broot_in. }
      simpl. destruct (head (cright c)) as [y|].
      * intros [|fuel]; simpl; [right; split; [done|lia]|].
        rewrite Hp, Hb. destruct (IH fuel) as [->|[-> ?]]; [by left|right].
        split; [done|lia].
      * intros [|fuel]; simpl; [right; split; [done|lia]|].
        rewrite Hp, Hb. destruct (IH fuel) as [->|[-> ?]]; [by left|right].
        split; [done|lia].
Qed.

(** [nextNode] returns the node that follows in the order of the index, and
    throws "node is last" at the last one. *)
Lemma nextNode_spec (h : gmap string Node.t) root t A x rest :
  indexed h root t → inorder t = A ++ x :: rest →
  ∃ n, match rest with
       | y :: _ => computes (λ fuel, CTextLogn.nextNode fuel h x) n y
       | [] => raises (λ fuel, CTextLogn.nextNode fuel h x) n NodeIsLast
       end.
Proof.
  intros (S & R & ND & C) Ei.
  assert (x ∈ inorder t) as Hx by (rewrite Ei, elem_of_app, elem_of_cons; tauto).
  destruct (in_zipper x t Hx) as (c & l & r & ->).
  rewrite inorder_plug in Ei. simpl in Ei.
  rewrite <- app_assoc, app_assoc in Ei.
  pose proof ND as ND'. rewrite inorder_plug in ND'. simpl in ND'.
  rewrite <- app_assoc, app_assoc in ND'.
  destruct (NoDup_split_eq _ _ _ _ _ ND' Ei) as [_ Er]. subst rest.
  pose proof S as S1. apply shape_plug in S1 as [_ S1].
  destruct S1 as (_ & _ & Hr & _ & Sr). simpl in Hr.
  unfold CTextLogn.nextNode. rewrite Hr.
  destruct r as [|r1 y r2].
  - pose proof (nextNode_up_spec h c (BNode l x BLeaf) x S ND eq_refl) as H.
    exists (length c + 1)%nat. simpl. by destruct (cright c).
  - destruct (descendLeft_head h _ _ y Sr eq_refl) as (m & n & Hc & Hh).
    exists n. simpl broot. cbv beta iota.
    destruct (inorder (BNode r1 y r2)) as [|m' k]; [done|].
    simpl in Hh. injection Hh as ->. done.
Qed.

(** * The order of the interleaving tree *)

(** The results of [g] on the elements of [l], one after the other. *)
Definition catR (g : string → result (list string)) (l : list string)
  : result (list string) :=
  foldr (λ c acc, let* a := g c in let* b := acc in Ok (a ++ b)) (Ok []) l.

(** The canonical order of the subtree of [x]: the subtrees of the left
    children in the order of the list, the node, the subtrees of the right
    children in the order of the list. *)
Fixpoint canonicalInorder (fuel : nat) (h : gmap string Node.t) (x : string)
  : result (list string) :=
  match fuel with
  | O => OutOfFuel
  | S f =>
      let* ls := catR (canonicalInorder f h) (Node.leftChildren (h !!! x)) in
      let* rs := catR (canonicalInorder f h) (Node.rightChildren (h !!! x)) in
      Ok (ls ++ x :: rs)
  end.

Lemma catR_Ok g l L :
  catR g l = Ok L ↔ ∃ Ls, Forall2 (λ c Lc, g c = Ok Lc) l Ls ∧ L = mjoin Ls.
Proof.
  revert L. induction l as [|c l IH]; intros L; simpl.
  - split.
    + intros [= <-]. exists []. split; [constructor|done].
    + intros (Ls & H & ->). by apply Forall2_nil_inv_l in H as ->.
  - split.
    + destruct (g c) as [a| |] eqn:Ec; cbn [bind]; [|done..].
      destruct (catR g l) as [b| |] eqn:El; cbn [bind]; [|done..].
      intros [= <-]. destruct (proj1 (IH b) eq_refl) as (Ls & H & ->).
      exists (a :: Ls). split; [by constructor|done].
    + intros (Ls & H & ->). apply Forall2_cons_inv_l in H as (a & Ls' & Ea & H & ->).
      rewrite Ea. cbn [bind].
      assert (catR g l = Ok (mjoin Ls')) as -> by (apply IH; eauto). done.
Qed.

Lemma canonicalInorder_S f h x L :
  canonicalInorder (S f) h x = Ok L ↔
  ∃ Ls Rs,
    Forall2 (λ c Lc, canonicalInorder f h c = Ok Lc)
      (Node.leftChildren (h !!! x)) Ls
    ∧ Forall2 (λ c Lc, canonicalInorder f h c = Ok Lc)
        (Node.rightChildren (h !!! x)) Rs
    ∧ L = mjoin Ls ++ x :: mjoin Rs.
Proof.
  cbn [canonicalInorder]. split.
  - destruct (catR _ (Node.leftChildren _)) as [ls| |] eqn:El; cbn [bind]; [|done..].
    destruct (catR _ (Node.rightChildren _)) as [rs| |] eqn:Er; cbn [bind]; [|done..].
    intros [= <-]. apply catR_Ok in El as (Ls & HL & ->).
    apply catR_Ok in Er as (Rs & HR & ->). eauto.
  - intros (Ls & Rs & HL & HR & ->).
    assert (catR (canonicalInorder f h) (Node.leftChildren (h !!! x))
            = Ok (mjoin Ls)) as -> by (apply catR_Ok; eauto).
    assert (catR (canonicalInorder f h) (Node.rightChildren (h !!! x))
            = Ok (mjoin Rs)) as -> by (apply catR_Ok; eauto).
    done.
Qed.

Lemma canonicalInorder_mono f : ∀ h x L,
  canonicalInorder f h x = Ok L → canonicalInorder (S f) h x = Ok L.
Proof.
  induction f as [|f IH]; intros h x L E; [done|].
  apply canonicalInorder_S in E as (Ls & Rs & HL & HR & ->).
  apply canonicalInorder_S. exists Ls, Rs. split_and!; [| |done].
  - eapply Forall2_impl; [done|]. intros c Lc. apply IH.
  - eapply Forall2_impl; [done|]. intros c Lc. apply IH.
Qed.

Lemma canonicalInorder_le f f' h x L :
  (f ≤ f')%nat → canonicalInorder f h x = Ok L → canonicalInorder f' h x = Ok L.
Proof.
  induction 1 as [|f' _ IH]; [done|]. intros E. by apply canonicalInorder_mono, IH.
Qed.

Lemma canonicalInorder_fun f f' h x L L' :
  canonicalInorder f h x = Ok L → canonicalInorder f' h x = Ok L' → L = L'.
Proof.
  intros E E'. apply (canonicalInorder_le f (f `max` f')) in E; [|lia].
  apply (canonicalInorder_le f' (f `max` f')) in E'; [|lia]. congruence.
Qed.

Lemma canonicalInorder_in f h x L : canonicalInorder f h x = Ok L → x ∈ L.
Proof.
  destruct f as [|f]; [done|].
  intros (Ls & Rs & _ & _ & ->)%canonicalInorder_S.
  rewrite elem_of_app, elem_of_cons. tauto.
Qed.

(** Only the children lists of the nodes of the subtree matter. *)
Lemma canonicalInorder_ext f : ∀ h h' x L,
  (∀ y, y ∈ L → Node.leftChildren (h' !!! y) = Node.leftChildren (h !!! y)
               ∧ Node.rightChildren (h' !!! y) = Node.rightChildren (h !!! y)) →
  canonicalInorder f h x = Ok L → canonicalInorder f h' x = Ok L.
Proof.
  induction f as [|f IH]; intros h h' x L Hs E; [done|].
  apply canonicalInorder_S in E as (Ls & Rs & HL & HR & ->).
  apply canonicalInorder_S. exists Ls, Rs.
  destruct (Hs x) as [-> ->]; [rewrite elem_of_app, elem_of_cons; tauto|].
  split_and!; [| |done].
  - apply Forall2_same_length_lookup. apply Forall2_same_length_lookup in HL as [Hlen HL].
    split; [done|]. intros i c Lc Hc HLc. apply (IH h); [|by eapply HL].
    intros y Hy. apply Hs. rewrite elem_of_app. left.
    apply (in_mjoin y Lc); [done|]. by eapply list_elem_of_lookup_2.
  - apply Forall2_same_length_lookup. apply Forall2_same_length_lookup in HR as [Hlen HR].
    split; [done|]. intros i c Lc Hc HLc. apply (IH h); [|by eapply HR].
    intros y Hy. apply Hs. rewrite elem_of_app, elem_of_cons. right; right.
    apply (in_mjoin y Lc); [done|]. by eapply list_elem_of_lookup_2.
Qed.

#[local] Abbreviation cn f h x L := (canonicalInorder f h x = Ok L) (only parsing).

Lemma nonempty_lists f h cs Lcs :
  Forall2 (λ c Lc, cn f h c Lc) cs Lcs → Forall (λ Lc, Lc ≠ []) Lcs.
Proof.
  induction 1 as [|c Lc cs Lcs E _ IH]; constructor; [|done].
  intros ->. by apply canonicalInorder_in, elem_of_nil in E.
Qed.

Lemma last_mjoin_take (Ls : list (list string)) j Lc :
  Forall (λ Lc, Lc ≠ []) Ls → Ls !! j = Some Lc →
  last (mjoin (take (S j) Ls)) = last Lc.
Proof.
  intros Hne Hj. rewrite (take_S_r _ _ _ Hj), join_app. simpl.
  rewrite app_nil_r, last_app.
  assert (Lc ≠ []) as HLc.
  { eapply Forall_forall in Hne; [done|]. by eapply list_elem_of_lookup_2. }
  destruct (last Lc) eqn:E; [done|]. by apply last_None in E.
Qed.

Lemma head_mjoin_drop (Ls : list (list string)) i Lc :
  Forall (λ Lc, Lc ≠ []) Ls → Ls !! i = Some Lc →
  head (mjoin (drop i Ls)) = head Lc.
Proof.
  intros Hne Hi. rewrite (drop_S _ _ _ Hi). simpl. rewrite head_app.
  assert (Lc ≠ []) as HLc.
  { eapply Forall_forall in Hne; [done|]. by eapply list_elem_of_lookup_2. }
  by destruct Lc.
Qed.

Lemma mjoin_take_drop (Ls : list (list string)) i :
  mjoin Ls = mjoin (take i Ls) ++ mjoin (drop i Ls).
Proof. by rewrite <- join_app, take_drop. Qed.

(** ** Entering a node *)

Section entering.
Context (h h' : gmap string Node.t) (id p : string) (isL : bool) (i : nat).
Hypothesis Hnew :
  Node.leftChildren (h' !!! id) = [] ∧ Node.rightChildren (h' !!! id) = [].
Hypothesis Hpar :
  Node.children isL (h' !!! p)
  = CTextLogn.splice i id (Node.children isL (h !!! p))
  ∧ Node.children (negb isL) (h' !!! p) = Node.children (negb isL) (h !!! p).
Hypothesis Hi : (i ≤ length (Node.children isL (h !!! p)))%nat.
Hypothesis Hoth : ∀ y, y ≠ p → y ≠ id →
  Node.leftChildren (h' !!! y) = Node.leftChildren (h !!! y)
  ∧ Node.rightChildren (h' !!! y) = Node.rightChildren (h !!! y).

(** Where the new node lands: right after [A] and right before [B].  A right
    child comes after its parent, or after the subtree of the sibling before
    it; a left child comes before its parent, or before the subtree of the
    sibling after it. *)
Definition lands (A B : list string) : Prop :=
  if isL then
    ∃ q, head B = Some q
         ∧ match Node.leftChildren (h !!! p) !! i with
           | None => q = p
           | Some sib => ∃ f Ls, cn f h sib Ls ∧ head Ls = Some q
           end
  else
    ∃ q, last A = Some q
         ∧ match i with
           | O => q = p
           | S j => ∃ sib f Ls, Node.rightChildren (h !!! p) !! j = Some sib
                                ∧ cn f h sib Ls ∧ last Ls = Some q
           end.

Lemma lands_ctx X Y A B : lands A B → lands (X ++ A) (B ++ Y).
Proof.
  unfold lands. destruct isL.
  - intros (q & Hq & H). exists q. split; [|done].
    rewrite head_app. by destruct B.
  - intros (q & Hq & H). exists q. split; [|done].
    by rewrite last_app, Hq.
Qed.

Lemma new_node_alone f : cn (S f) h' id [id].
Proof.
  apply canonicalInorder_S. exists [], []. destruct Hnew as [-> ->].
  split_and!; by constructor.
Qed.

Section step.
Context (f : nat).
Hypothesis IH1 : ∀ x L,
  cn f h x L → NoDup L → id ∉ L → p ∉ L → cn f h' x L.
Hypothesis IH2 : ∀ x L,
  cn f h x L → NoDup L → id ∉ L → p ∈ L →
  ∃ A B, L = A ++ B ∧ cn (S f) h' x (A ++ id :: B) ∧ lands A B.

Lemma kept_children cs Lcs :
  Forall2 (λ c Lc, cn f h c Lc) cs Lcs →
  NoDup (mjoin Lcs) → id ∉ mjoin Lcs → p ∉ mjoin Lcs →
  Forall2 (λ c Lc, cn f h' c Lc) cs Lcs.
Proof.
  induction 1 as [|c Lc cs Lcs E _ IH]; [constructor|].
  simpl. rewrite !elem_of_app. intros (ND1 & _ & ND2)%NoDup_app Hid Hp.
  constructor; [apply IH1; tauto|apply IH; tauto].
Qed.

Lemma kept_children_S cs Lcs :
  Forall2 (λ c Lc, cn f h c Lc) cs Lcs →
  NoDup (mjoin Lcs) → id ∉ mjoin Lcs → p ∉ mjoin Lcs →
  Forall2 (λ c Lc, cn (S f) h' c Lc) cs Lcs.
Proof.
  intros H ND Hid Hp. eapply Forall2_impl; [by apply kept_children|].
  intros c Lc. apply canonicalInorder_mono.
Qed.

Lemma changed_child cs Lcs :
  Forall2 (λ c Lc, cn f h c Lc) cs Lcs →
  NoDup (mjoin Lcs) → id ∉ mjoin Lcs → p ∈ mjoin Lcs →
  ∃ A B Lcs', mjoin Lcs = A ++ B
    ∧ Forall2 (λ c Lc, cn (S f) h' c Lc) cs Lcs'
    ∧ mjoin Lcs' = A ++ id :: B ∧ lands A B.
Proof.
  induction 1 as [|c Lc cs Lcs E H IH]; [by intros _ _ ?%elem_of_nil|].
  simpl. rewrite !elem_of_app. intros (ND1 & NDd & ND2)%NoDup_app Hid Hp.
  destruct (decide (p ∈ Lc)) as [Hin|Hnin].
  - destruct (IH2 c Lc E ND1) as (A & B & -> & E' & Hl); [tauto|done|].
    exists A, (B ++ mjoin Lcs), ((A ++ id :: B) :: Lcs). split_and!.
    + by rewrite <- app_assoc.
    + constructor; [done|]. apply kept_children_S; try done; [tauto|].
      intros Hp'. by apply (NDd p).
    + simpl. by rewrite <- app_assoc.
    + rewrite <- (app_nil_l A). by apply lands_ctx.
  - destruct IH as (A & B & Lcs' & EL & H' & EL' & Hl); [done|tauto|tauto|].
    exists (Lc ++ A), B, (Lc :: Lcs'). split_and!.
    + by rewrite EL, app_assoc.
    + constructor; [|done]. apply canonicalInorder_mono, IH1; tauto.
    + simpl. by rewrite EL', app_assoc.
    + rewrite <- (app_nil_r B). by apply lands_ctx.
Qed.
End step.

Lemma enter_canonical f : ∀ x L,
  cn f h x L → NoDup L → id ∉ L →
  (p ∉ L → cn f h' x L)
  ∧ (p ∈ L → ∃ A B, L = A ++ B ∧ cn (S f) h' x (A ++ id :: B) ∧ lands A B).
Proof.
  induction f as [|f IH]; intros x L E ND Hid; [done|].
  assert (∀ x L, cn f h x L → NoDup L → id ∉ L → p ∉ L → cn f h' x L) as IH1.
  { intros y Ly Ey NDy Hidy. by apply (IH y Ly Ey NDy Hidy). }
  assert (∀ x L, cn f h x L → NoDup L → id ∉ L → p ∈ L →
            ∃ A B, L = A ++ B ∧ cn (S f) h' x (A ++ id :: B) ∧ lands A B) as IH2.
  { intros y Ly Ey NDy Hidy. by apply (IH y Ly Ey NDy Hidy). }
  clear IH.
  apply canonicalInorder_S in E as (Ls & Rs & HL & HR & ->).
  pose proof ND as ND'. apply NoDup_app in ND' as (NDl & NDlx & NDr).
  apply NoDup_cons in NDr as [NDx NDr].
  rewrite elem_of_app, elem_of_cons in Hid.
  assert (x ≠ id) as Hxid by (intros ->; tauto).
  assert (id ∉ mjoin Ls) as HidL by tauto.
  assert (id ∉ mjoin Rs) as HidR by tauto.
  split.
  - rewrite elem_of_app, elem_of_cons. intros Hp.
    assert (x ≠ p) as Hxp by (intros ->; tauto).
    apply canonicalInorder_S. exists Ls, Rs.
    destruct (Hoth x Hxp Hxid) as [-> ->].
    split_and!; [| |done]; apply (kept_children f IH1); tauto.
  - intros Hp. destruct (decide (x = p)) as [->|Hxp].
    + (* the parent itself *)
      assert (p ∉ mjoin Ls) as HpL.
      { intros Hin. apply (NDlx p Hin). by left. }
      pose proof (kept_children_S f IH1 _ _ HL NDl HidL HpL) as HL'.
      pose proof (kept_children_S f IH1 _ _ HR NDr HidR NDx) as HR'.
      pose proof (nonempty_lists _ _ _ _ HL) as NEl.
      pose proof (nonempty_lists _ _ _ _ HR) as NEr.
      unfold lands. destruct isL; simpl in Hpar, Hi; destruct Hpar as [Hp1 Hp2].
      * exists (mjoin (take i Ls)), (mjoin (drop i Ls) ++ p :: mjoin Rs).
        split_and!.
        -- by rewrite app_assoc, <- mjoin_take_drop.
        -- apply canonicalInorder_S.
           exists (take i Ls ++ [id] :: drop i Ls), Rs. rewrite Hp1, Hp2.
           split_and!; [|done|].
           ++ unfold CTextLogn.splice. apply Forall2_app; [by apply Forall2_take|].
              constructor; [apply new_node_alone|by apply Forall2_drop].
           ++ rewrite join_app. simpl. by rewrite <- !app_assoc.
        -- destruct (Node.leftChildren (h !!! p) !! i) as [sib|] eqn:Esib.
           ++ destruct (Forall2_lookup_l _ _ _ _ _ HL Esib) as (Lsib & ELs & Es).
              assert (∃ q, head Lsib = Some q) as [q Hq].
              { eapply Forall_forall in NEl; [|by eapply list_elem_of_lookup_2].
                destruct Lsib; [done|]. eauto. }
              exists q. split; [|eauto].
              rewrite head_app, (head_mjoin_drop _ _ _ NEl ELs), Hq. done.
           ++ exists p. split; [|done]. apply lookup_ge_None in Esib.
              rewrite drop_ge; [done|]. rewrite <- (Forall2_length _ _ _ HL). lia.
      * exists (mjoin Ls ++ p :: mjoin (take i Rs)), (mjoin (drop i Rs)).
        split_and!.
        -- rewrite <- app_assoc. simpl. by rewrite <- mjoin_take_drop.
        -- apply canonicalInorder_S.
           exists Ls, (take i Rs ++ [id] :: drop i Rs). rewrite Hp1, Hp2.
           split_and!; [done| |].
           ++ unfold CTextLogn.splice. apply Forall2_app; [by apply Forall2_take|].
              constructor; [apply new_node_alone|by apply Forall2_drop].
           ++ rewrite join_app. simpl. by rewrite <- !app_assoc.
        -- destruct i as [|j].
           ++ exists p. split; [|done]. simpl. by rewrite last_snoc.
           ++ destruct (lookup_lt_is_Some_2 (Node.rightChildren (h !!! p)) j)
                as [sib Esib]; [lia|].
              destruct (Forall2_lookup_l _ _ _ _ _ HR Esib) as (Lsib & ELs & Es).
              assert (∃ q, last Lsib = Some q) as [q Hq].
              { eapply Forall_forall in NEr; [|by eapply list_elem_of_lookup_2].
                destruct (last Lsib) eqn:El; [eauto|]. by apply last_None in El. }
              exists q. split; [|eauto 10].
              rewrite last_app, last_cons, (last_mjoin_take _ _ _ NEr ELs), Hq.
              done.
    + (* an ancestor of the parent *)
      destruct (Hoth x Hxp Hxid) as [El Er].
      rewrite elem_of_app, elem_of_cons in Hp.
      destruct (decide (p ∈ mjoin Ls)) as [HpL|HpL].
      * destruct (changed_child f IH1 IH2 _ _ HL NDl HidL HpL)
          as (A & B & Ls' & EL & HL' & EL' & Hl).
        assert (p ∉ mjoin Rs) as HpR.
        { intros Hin. apply (NDlx p HpL). by right. }
        pose proof (kept_children_S f IH1 _ _ HR NDr HidR HpR) as HR'.
        exists A, (B ++ x :: mjoin Rs). split_and!.
        -- by rewrite EL, <- app_assoc.
        -- apply canonicalInorder_S. exists Ls', Rs. rewrite El, Er.
           split_and!; [done..|]. by rewrite EL', <- app_assoc.
        -- rewrite <- (app_nil_l A). by apply lands_ctx.
      * assert (p ∈ mjoin Rs) as HpR by (by destruct Hp as [?|[->|?]]).
        destruct (changed_child f IH1 IH2 _ _ HR NDr HidR HpR)
          as (A & B & Rs' & ER & HR' & ER' & Hl).
        pose proof (kept_children_S f IH1 _ _ HL NDl HidL HpL) as HL'.
        exists (mjoin Ls ++ x :: A), B. split_and!.
        -- rewrite ER, <- app_assoc. done.
        -- apply canonicalInorder_S. exists Ls, Rs'. rewrite El, Er.
           split_and!; [done..|]. rewrite ER', <- app_assoc. done.
        -- rewrite <- (app_nil_r B).
           change (mjoin Ls ++ x :: A) with (mjoin Ls ++ [x] ++ A).
           rewrite app_assoc. by apply lands_ctx.
Qed.
End entering.

(** ** The ends of a subtree *)

(** The first node of a subtree has no left children, the last one no right
    children. *)
Lemma canonical_first f : ∀ h x L e,
  cn f h x L → head L = Some e → Node.leftChildren (h !!! e) = [].
Proof.
  induction f as [|f IH]; intros h x L e E He; [done|].
  apply canonicalInorder_S in E as (Ls & Rs & HL & HR & ->).
  destruct (Node.leftChildren (h !!! x)) as [|c cs] eqn:El.
  - apply Forall2_nil_inv_l in HL as ->. simpl in He. by injection He as <-.
  - apply Forall2_cons_inv_l in HL as (Lc & Ls' & Ec & HL & ->).
    apply (IH h c Lc e Ec). simpl in He. rewrite <- app_assoc, head_app in He.
    destruct Lc; [by apply canonicalInorder_in, elem_of_nil in Ec|done].
Qed.

Lemma canonical_last f : ∀ h x L e,
  cn f h x L → last L = Some e → Node.rightChildren (h !!! e) = [].
Proof.
  induction f as [|f IH]; intros h x L e E He; [done|].
  apply canonicalInorder_S in E as (Ls & Rs & HL & HR & ->).
  rewrite last_app, last_cons in He.
  destruct (Forall2_length _ _ _ HR).
  destruct (last (mjoin Rs)) as [e'|] eqn:El.
  - injection He as ->.
    pose proof (nonempty_lists _ _ _ _ HR) as NE.
    destruct Rs as [|R0 Rs _] using rev_ind; [done|].
    apply Forall2_app_inv_r in HR as (cs & c1 & Hcs & Hc1 & Er).
    apply Forall2_cons_inv_r in Hc1 as (c & cs' & Ec & Hnil & ->).
    apply (IH h c R0 e Ec). rewrite join_app in El. simpl in El.
    rewrite app_nil_r, last_app in El.
    destruct (last R0) eqn:E0; [done|].
    apply last_None in E0 as ->. by apply canonicalInorder_in, elem_of_nil in Ec.
  - injection He as <-. apply last_None in El.
    destruct (Node.rightChildren (h !!! x)) as [|c cs] eqn:Er; [done|].
    apply Forall2_cons_inv_l in HR as (Lc & Rs' & Ec & HR & ->).
    simpl in El. apply app_eq_nil in El as [-> _].
    by apply canonicalInorder_in, elem_of_nil in Ec.
Qed.

(** The subtree of a node of a subtree is a segment of it. *)
Lemma in_mjoin_split {A} (x : A) (Ls : list (list A)) :
  x ∈ mjoin Ls → ∃ Ls1 Lc Ls2, Ls = Ls1 ++ Lc :: Ls2 ∧ x ∈ Lc.
Proof.
  intros (Lc & Hx & HLc)%list_elem_of_join.
  apply list_elem_of_split in HLc as (Ls1 & Ls2 & ->). eauto.
Qed.

Lemma canonical_segment f : ∀ h r L x,
  cn f h r L → x ∈ L → ∃ A Lx B f', L = A ++ Lx ++ B ∧ cn f' h x Lx.
Proof.
  induction f as [|f IH]; intros h r L x E Hx; [done|].
  destruct (decide (x = r)) as [->|Hxr].
  { exists [], L, [], (S f). by rewrite app_nil_r. }
  apply canonicalInorder_S in E as (Ls & Rs & HL & HR & ->).
  rewrite elem_of_app, elem_of_cons in Hx. destruct Hx as [Hx|[->|Hx]]; [|done|].
  - apply in_mjoin_split in Hx as (Ls1 & Lc & Ls2 & -> & Hx).
    apply Forall2_app_inv_r in HL as (cs1 & cs2 & H1 & H2 & Ecs).
    apply Forall2_cons_inv_r in H2 as (c & cs2' & Ec & H2 & ->).
    destruct (IH h c Lc x Ec Hx) as (A & Lx & B & f' & -> & Ex).
    exists (mjoin Ls1 ++ A), Lx, (B ++ mjoin Ls2 ++ r :: mjoin Rs), f'.
    split; [|done]. rewrite join_app. simpl. by rewrite <- !app_assoc.
  - apply in_mjoin_split in Hx as (Rs1 & Lc & Rs2 & -> & Hx).
    apply Forall2_app_inv_r in HR as (cs1 & cs2 & H1 & H2 & Ecs).
    apply Forall2_cons_inv_r in H2 as (c & cs2' & Ec & H2 & ->).
    destruct (IH h c Lc x Ec Hx) as (A & Lx & B & f' & -> & Ex).
    exists (mjoin Ls ++ r :: mjoin Rs1 ++ A), Lx, (B ++ mjoin Rs2), f'.
    split; [|done]. rewrite join_app. simpl.
    by repeat (rewrite <- app_assoc || rewrite <- app_comm_cons).
Qed.

(** The node after a node with right children is the first node of the
    subtree of its first right child: it has no left children. *)
Lemma canonical_successor f h r L x c cs :
  cn f h r L → x ∈ L → Node.rightChildren (h !!! x) = c :: cs →
  ∃ A y B, L = A ++ x :: y :: B ∧ Node.leftChildren (h !!! y) = [].
Proof.
  intros E Hx Hr.
  destruct (canonical_segment f h r L x E Hx) as (A & Lx & B & f' & -> & Ex).
  destruct f' as [|f']; [done|].
  apply canonicalInorder_S in Ex as (Ls & Rs & HL & HR & ->).
  rewrite Hr in HR. apply Forall2_cons_inv_l in HR as (Lc & Rs' & Ec & HR & ->).
  destruct Lc as [|y Lc]; [by apply canonicalInorder_in, elem_of_nil in Ec|].
  exists (A ++ mjoin Ls), y, (Lc ++ mjoin Rs' ++ B). split.
  - simpl. by repeat (rewrite <- app_assoc || rewrite <- app_comm_cons).
  - by apply (canonical_first f' h c (y :: Lc) y Ec).
Qed.

(** ** Chains *)

(** The next value of a list of the right manager is the last right child,
    the next value of a list of the left manager the first left child. *)
Definition nxt (left : bool) (h : gmap string Node.t) (a : string)
  : option string :=
  if left then head (Node.leftChildren (h !!! a))
  else last (Node.rightChildren (h !!! a)).

Definition chained (next : string → option string) (l : list string) : Prop :=
  ∀ i a, l !! i = Some a → next a = l !! S i.

Lemma chained_ext (next next' : string → option string) l :
  (∀ a, a ∈ l → next' a = next a) → chained next l → chained next' l.
Proof.
  intros He Hc i a Ha. rewrite He; [by apply Hc|]. by eapply list_elem_of_lookup_2.
Qed.

Lemma chained_suffix (next : string → option string) l1 l2 :
  chained next (l1 ++ l2) → chained next l2.
Proof.
  intros Hc i a Ha. rewrite (Hc (length l1 + i)%nat a).
  - replace (S (length l1 + i)) with (length l1 + S i)%nat by lia.
    by rewrite lookup_app_r, Nat.add_comm, Nat.add_sub by lia.
  - by rewrite lookup_app_r, Nat.add_comm, Nat.add_sub by lia.
Qed.

Lemma chained_end (next : string → option string) l1 v l2 :
  chained next (l1 ++ v :: l2) → next v = None → l2 = [].
Proof.
  intros Hc Hn. specialize (Hc (length l1) v).
  rewrite list_lookup_middle in Hc by done. specialize (Hc eq_refl).
  rewrite Hn in Hc. rewrite (cons_middle v l1 l2), app_assoc in Hc.
  rewrite lookup_app_r in Hc by (rewrite length_app; simpl; lia).
  rewrite length_app in Hc. simpl in Hc.
  replace (S (length l1) - (length l1 + 1))%nat with 0%nat in Hc by lia.
  by destruct l2.
Qed.

Lemma chained_next (next : string → option string) l1 v l2 :
  chained next (l1 ++ v :: l2) → next v = head l2.
Proof.
  intros Hc. specialize (Hc (length l1) v).
  rewrite list_lookup_middle in Hc by done. rewrite (Hc eq_refl).
  rewrite (cons_middle v l1 l2), app_assoc.
  rewrite lookup_app_r by (rewrite length_app; simpl; lia).
  rewrite length_app. simpl.
  replace (S (length l1) - (length l1 + 1))%nat with 0%nat by lia.
  by destruct l2.
Qed.

(** Cutting after [v] and appending [id]. *)
Lemma chained_append (next next' : string → option string) l1 v l2 id :
  chained next (l1 ++ v :: l2) → (∀ a, a ∈ l1 → next' a = next a) →
  next' v = Some id → next' id = None → v ∉ l1 → id ∉ l1 → v ≠ id →
  chained next' ((l1 ++ [v]) ++ [id]).
Proof.
  intros Hc He Hv Hid Hvl Hidl Hne i a Ha.
  destruct (decide (i < length l1)%nat) as [Hi|Hi].
  - rewrite <- app_assoc in Ha. rewrite lookup_app_l in Ha by done.
    rewrite He by (by eapply list_elem_of_lookup_2).
    rewrite (Hc i a) by (by rewrite lookup_app_l).
    rewrite (cons_middle v l1 l2), app_assoc.
    rewrite !(lookup_app_l (l1 ++ [v])); [done|..]; rewrite length_app; simpl; lia.
  - destruct (decide (i = length l1)) as [->|].
    + rewrite <- app_assoc in Ha. simpl in Ha.
      rewrite list_lookup_middle in Ha by done.
      injection Ha as <-. rewrite Hv.
      rewrite lookup_app_r by (rewrite length_app; simpl; lia).
      rewrite length_app. simpl.
      by replace (S (length l1) - (length l1 + 1))%nat with 0%nat by lia.
    + rewrite lookup_app_r in Ha by (rewrite length_app; simpl; lia).
      rewrite length_app in Ha. simpl in Ha.
      destruct (i - (length l1 + 1))%nat as [|k] eqn:Ek; [|done].
      injection Ha as <-. rewrite Hid. symmetry. apply lookup_ge_None.
      rewrite !length_app. simpl. lia.
Qed.

(** The end of the chain of a node is the end of its subtree. *)
Lemma chain_end_right h l2 : ∀ l1 x e f L,
  chained (nxt false h) (l1 ++ x :: l2) → last (l1 ++ x :: l2) = Some e →
  cn f h x L → last L = Some e.
Proof.
  induction l2 as [|b l2 IH]; intros l1 x e f L Hc He E.
  - rewrite last_snoc in He. injection He as <-.
    pose proof (chained_next _ _ _ _ Hc) as Hn. simpl in Hn.
    destruct f as [|f]; [done|].
    apply canonicalInorder_S in E as (Ls & Rs & HL & HR & ->).
    apply last_None in Hn. rewrite Hn in HR. apply Forall2_nil_inv_l in HR as ->.
    simpl. by rewrite last_snoc.
  - pose proof (chained_next _ _ _ _ Hc) as Hn. simpl in Hn.
    destruct f as [|f]; [done|].
    apply canonicalInorder_S in E as (Ls & Rs & HL & HR & ->).
    apply last_Some in Hn as [cs Ecs]. rewrite Ecs in HR.
    apply Forall2_app_inv_l in HR as (Rs1 & Rs2 & H1 & H2 & ->).
    apply Forall2_cons_inv_l in H2 as (Lb & Rs' & Eb & Hnil & ->).
    apply Forall2_nil_inv_l in Hnil as ->.
    rewrite (cons_middle x l1 (b :: l2)), app_assoc in Hc, He.
    pose proof (IH (l1 ++ [x]) b e f Lb Hc He Eb) as Hl.
    rewrite join_app. simpl. rewrite app_nil_r.
    rewrite last_app, last_cons, last_app, Hl. done.
Qed.

Lemma chain_end_left h l2 : ∀ l1 x e f L,
  chained (nxt true h) (l1 ++ x :: l2) → last (l1 ++ x :: l2) = Some e →
  cn f h x L → head L = Some e.
Proof.
  induction l2 as [|b l2 IH]; intros l1 x e f L Hc He E.
  - rewrite last_snoc in He. injection He as <-.
    pose proof (chained_next _ _ _ _ Hc) as Hn. simpl in Hn.
    destruct f as [|f]; [done|].
    apply canonicalInorder_S in E as (Ls & Rs & HL & HR & ->).
    destruct (Node.leftChildren (h !!! x)); [|done].
    by apply Forall2_nil_inv_l in HL as ->.
  - pose proof (chained_next _ _ _ _ Hc) as Hn. simpl in Hn.
    destruct f as [|f]; [done|].
    apply canonicalInorder_S in E as (Ls & Rs & HL & HR & ->).
    destruct (Node.leftChildren (h !!! x)) as [|b' cs]; [done|].
    injection Hn as ->.
    apply Forall2_cons_inv_l in HL as (Lb & Ls' & Eb & HL & ->).
    rewrite (cons_middle x l1 (b :: l2)), app_assoc in Hc, He.
    pose proof (IH (l1 ++ [x]) b e f Lb Hc He Eb) as Hl.
    simpl. rewrite <- app_assoc, head_app.
    destruct Lb; [done|]. done.
Qed.

(** * The managers and the interleaving tree *)

(** A manager holds the nodes [D], in lists that are chains of [next]. *)
Definition side_ok (D : gset string) (next : string → option string)
    (salm : SALM.t) : Prop :=
  ∃ Ls, SRep salm Ls ∧ (∀ x, x ∈ mjoin Ls ↔ x ∈ D) ∧ Forall (chained next) Ls.

Lemma chained_single (next : string → option string) x :
  next x = None → chained next [x].
Proof.
  intros Hx [|i] a Ha; simpl in Ha; [|done]. injection Ha as <-. by rewrite Hx.
Qed.

Lemma side_create D next next' salm id :
  side_ok D next salm → id ∉ D → next' id = None →
  (∀ y, y ∈ D → next' y = next y) →
  side_ok ({[id]} ∪ D) next' (SALM.create salm id).
Proof.
  intros (Ls & R & Hd & Hc) Hid Hn He. exists ([id] :: Ls). split_and!.
  - apply SRep_create; [done|]. by rewrite Hd.
  - intros x. simpl. rewrite elem_of_cons, elem_of_union, elem_of_singleton, Hd.
    done.
  - constructor; [by apply chained_single|].
    apply Forall_forall. intros l Hl. rewrite Forall_forall in Hc.
    apply (chained_ext next); [|by apply Hc].
    intros a Ha. apply He, Hd. by apply (in_mjoin a l).
Qed.

Lemma side_capture fuel D next next' salm pid id (b : bool) salm' :
  side_ok D next salm → pid ∈ D → id ∉ D →
  next' id = None → next' pid = Some id →
  (∀ y, y ∈ D → y ≠ pid → next' y = next y) →
  (b = false → next pid = None) →
  (let* salm1 := (if b then SALM.split fuel salm pid else Ok salm) in
   SALM.append fuel salm1 pid id) = Ok salm' →
  side_ok ({[id]} ∪ D) next' salm'.
Proof.
  intros (Ls & R & Hd & Hc) Hp Hid Hn Hnp He Hb E.
  assert (pid ≠ id) as Hne by (by intros ->).
  pose proof Hp as Hp'. rewrite <- Hd in Hp'.
  apply in_mjoin_perm in Hp' as (l & Ls0 & Hpl & HP).
  apply in_list_split in Hpl as (l1 & l2 & ->).
  pose proof (SRep_perm _ _ _ HP R) as R0.
  pose proof (SRep_NoDup _ _ R0) as ND. simpl in ND.
  rewrite HP in Hc. apply Forall_cons in Hc as [Hc1 Hc0].
  assert (∀ x, x ∈ (l1 ++ pid :: l2) ++ mjoin Ls0 ↔ x ∈ D) as Hd0.
  { intros x. rewrite <- Hd. by rewrite (mjoin_perm _ _ HP). }
  clear Hd HP R.
  rewrite <- app_assoc in ND. apply NoDup_app in ND as (ND1 & ND12 & ND2).
  simpl in ND2. apply NoDup_cons in ND2 as [Hp2 ND2].
  apply NoDup_app in ND2 as (ND2 & ND23 & ND3).
  assert (pid ∉ l1) as Hp1.
  { intros H. apply (ND12 _ H). rewrite elem_of_app, elem_of_cons. tauto. }
  assert (id ∉ l1) as Hi1.
  { intros H. apply Hid, Hd0. rewrite !elem_of_app. tauto. }
  assert (chained next' ((l1 ++ [pid]) ++ [id])) as C1.
  { apply (chained_append next next' l1 pid l2 id); try done.
    intros a Ha. apply He; [|by intros ->].
    apply Hd0. rewrite !elem_of_app. tauto. }
  assert (chained next' l2) as C2.
  { apply (chained_ext next).
    - intros a Ha. apply He.
      + apply Hd0. rewrite !elem_of_app, elem_of_cons. tauto.
      + intros ->. apply Hp2. rewrite elem_of_app. tauto.
    - apply (chained_suffix next (l1 ++ [pid])). by rewrite <- app_assoc. }
  assert (Forall (chained next') Ls0) as C0.
  { apply Forall_forall. intros l Hl. rewrite Forall_forall in Hc0.
    apply (chained_ext next); [|by apply Hc0].
    intros a Ha. pose proof (in_mjoin a l Ls0 Ha Hl) as Ha'. apply He.
    - apply Hd0. rewrite elem_of_app. tauto.
    - intros ->. apply Hp2. rewrite elem_of_app. tauto. }
  assert (id ∉ (l1 ++ pid :: l2) ++ mjoin Ls0) as Hid0 by (by rewrite Hd0).
  bind_ok E as salm1. destruct b.
  - pose proof (SRep_split _ _ _ _ _ _ _ R0 Em) as R1.
    exists (((l1 ++ [pid]) ++ [id]) :: l2 :: Ls0). split_and!.
    + apply (SRep_append fuel salm1 _ _ pid id); [exact R1| | |exact E].
      * rewrite elem_of_app, elem_of_cons. tauto.
      * intros H. apply Hid0. simpl in H. revert H.
        rewrite !elem_of_app, !elem_of_cons, elem_of_nil. tauto.
    + intros x. rewrite <- (union_comm_L D), elem_of_union, <- Hd0. simpl.
      rewrite !elem_of_app, !elem_of_cons, elem_of_nil, elem_of_singleton. tauto.
    + by repeat constructor.
  - injection Em as <-.
    assert (l2 = []) as -> by (eapply chained_end; [done|by apply Hb]).
    exists (((l1 ++ [pid]) ++ [id]) :: Ls0). split_and!.
    + apply (SRep_append fuel salm _ _ pid id); [exact R0| | |exact E].
      * rewrite elem_of_app, elem_of_cons. tauto.
      * intros H. apply Hid0. simpl in H. revert H.
        rewrite !elem_of_app, !elem_of_cons, elem_of_nil. tauto.
    + intros x. rewrite <- (union_comm_L D), elem_of_union, <- Hd0. simpl.
      rewrite !elem_of_app, !elem_of_cons, elem_of_nil, elem_of_singleton. tauto.
    + by constructor.
Qed.

(** The end that [getEnd] returns is the end of a chain through the node. *)
Lemma side_getEnd fuel D next salm x e :
  side_ok D next salm → x ∈ D → SALM.getEnd fuel salm x = Ok e →
  ∃ l1 l2, chained next (l1 ++ x :: l2) ∧ last (l1 ++ x :: l2) = Some e.
Proof.
  intros (Ls & R & Hd & Hc) Hx E. rewrite <- Hd in Hx.
  apply in_mjoin_perm in Hx as (l & Ls0 & Hxl & HP).
  pose proof (SRep_perm _ _ _ HP R) as R0.
  pose proof (SRep_getEnd _ _ _ _ _ _ R0 Hxl E) as Hl.
  rewrite HP in Hc. apply Forall_cons in Hc as [Hc _].
  apply in_list_split in Hxl as (l1 & l2 & ->). eauto.
Qed.

(** ** Where the parts of a list meet *)

Lemma same_last_split (A B A' B' : list string) q :
  NoDup (A ++ B) → A ++ B = A' ++ B' → last A = Some q → last A' = Some q →
  A = A' ∧ B = B'.
Proof.
  intros ND E HA HA'.
  apply last_Some in HA as [A0 ->]. apply last_Some in HA' as [A0' ->].
  rewrite <- !app_assoc in *. simpl in *.
  destruct (NoDup_split_eq _ _ _ _ _ ND E) as [-> ->]. done.
Qed.

Lemma same_head_split (A B A' B' : list string) q :
  NoDup (A ++ B) → A ++ B = A' ++ B' → head B = Some q → head B' = Some q →
  A = A' ∧ B = B'.
Proof.
  intros ND E HB HB'.
  destruct B as [|b B]; [done|]. destruct B' as [|b' B']; [done|].
  simpl in HB, HB'. injection HB as ->. injection HB' as ->.
  destruct (NoDup_split_eq _ _ _ _ _ ND E) as [-> ->]. done.
Qed.

(** ** The list of siblings with the new node *)

Lemma siblingIndex_le h id sibs :
  (CTextLogn.siblingIndex h id sibs ≤ length sibs)%nat.
Proof.
  induction sibs as [|sib rest IH]; simpl; [lia|].
  destruct (String.ltb _ _); lia.
Qed.

Lemma head_splice i id (sibs : list string) :
  (i ≤ length sibs)%nat →
  head (CTextLogn.splice i id sibs)
  = if bool_decide (i = 0%nat) then Some id else head sibs.
Proof.
  intros Hi. unfold CTextLogn.splice. destruct i as [|i]; [done|].
  rewrite bool_decide_eq_false_2 by done.
  destruct sibs; [simpl in Hi; lia|done].
Qed.

Lemma last_splice i id (sibs : list string) :
  (i ≤ length sibs)%nat →
  last (CTextLogn.splice i id sibs)
  = if bool_decide (i = length sibs) then Some id else last sibs.
Proof.
  intros Hi. unfold CTextLogn.splice. rewrite last_app, last_cons.
  case_bool_decide as Hl.
  - subst i. by rewrite drop_all.
  - rewrite <- (take_drop i sibs) at 2. rewrite last_app.
    destruct (last (drop i sibs)) eqn:El; [done|].
    apply last_None in El. exfalso. apply (f_equal length) in El.
    rewrite length_drop in El. simpl in El. lia.
Qed.

Lemma length_splice i id (sibs : list string) :
  (i ≤ length sibs)%nat → length (CTextLogn.splice i id sibs) = S (length sibs).
Proof.
  intros Hi. unfold CTextLogn.splice.
  rewrite length_app, length_take. simpl. rewrite length_drop. lia.
Qed.

Lemma splice_before i id (sibs : list string) j :
  (j < i)%nat → (i ≤ length sibs)%nat →
  CTextLogn.splice i id sibs !! j = sibs !! j.
Proof.
  intros Hj Hi. unfold CTextLogn.splice.
  rewrite lookup_app_l by (rewrite length_take; lia). by rewrite lookup_take_lt.
Qed.

Lemma splice_after i id (sibs : list string) :
  (i ≤ length sibs)%nat → CTextLogn.splice i id sibs !! (i + 1)%nat = sibs !! i.
Proof.
  intros Hi. unfold CTextLogn.splice.
  rewrite lookup_app_r by (rewrite length_take; lia).
  rewrite length_take. replace (i + 1 - i `min` length sibs)%nat with 1%nat by lia.
  simpl. rewrite lookup_drop. f_equal. lia.
Qed.

(** ** The managers after an insert *)

Lemma nxt_children left h a :
  nxt left h a
  = (if left then head else last) (Node.children left (h !!! a)).
Proof. by destruct left. Qed.

Lemma side_ok_ext D next next' salm :
  side_ok D next salm → (∀ y, y ∈ D → next' y = next y) → side_ok D next' salm.
Proof.
  intros (Ls & R & Hd & Hc) He. exists Ls. split_and!; [done..|].
  apply Forall_forall. intros l Hl. rewrite Forall_forall in Hc.
  apply (chained_ext next); [|by apply Hc].
  intros a Ha. apply He, Hd. by apply (in_mjoin a l).
Qed.

(** [salm] is the manager of the side [left] of the new node, [other] the
    manager of the other side. *)
Lemma update_side fuel (D : gset string) h h' (left : bool) salm other sibs i
    pid id a b :
  side_ok D (nxt left h) salm → side_ok D (nxt (negb left) h) other →
  pid ∈ D → id ∉ D →
  Node.leftChildren (h' !!! id) = [] → Node.rightChildren (h' !!! id) = [] →
  (i ≤ length (Node.children left (h !!! pid)))%nat →
  sibs = CTextLogn.splice i id (Node.children left (h !!! pid)) →
  Node.children left (h' !!! pid) = sibs →
  (∀ y, y ∈ D → Node.children (negb left) (h' !!! y)
                 = Node.children (negb left) (h !!! y)) →
  (∀ y, y ∈ D → y ≠ pid → Node.children left (h' !!! y)
                           = Node.children left (h !!! y)) →
  CTextLogn.updateSALM_side fuel salm other
    (if left then bool_decide (i = 0%nat)
     else bool_decide (i = (length sibs - 1)%nat)) sibs pid id = Ok (a, b) →
  side_ok ({[id]} ∪ D) (nxt left h') a
  ∧ side_ok ({[id]} ∪ D) (nxt (negb left) h') b.
Proof.
  intros S1 S2 Hp Hid Hl Hr Hi Es Ep Ho Hs E.
  set (old := Node.children left (h !!! pid)) in *.
  assert (length sibs = S (length old)) as Els by (rewrite Es; by apply length_splice).
  assert (nxt left h' id = None) as Hn1 by (destruct left; simpl; by rewrite ?Hl, ?Hr).
  assert (nxt (negb left) h' id = None) as Hn2
    by (destruct left; simpl; by rewrite ?Hl, ?Hr).
  unfold CTextLogn.updateSALM_side in E. bind_ok E as salm'.
  injection E as <- <-. split.
  2:{ apply (side_create D (nxt (negb left) h)); try done.
      intros y Hy. by rewrite !nxt_children, Ho. }
  assert (∀ y, y ∈ D → y ≠ pid → nxt left h' y = nxt left h y) as He.
  { intros y Hy Hne. by rewrite !nxt_children, Hs. }
  assert (nxt left h' pid
          = if (if left then bool_decide (i = 0%nat)
                else bool_decide (i = (length sibs - 1)%nat))
            then Some id else nxt left h pid) as Hnp.
  { rewrite !nxt_children, Ep, Es. fold old. destruct left.
    - by apply head_splice.
    - rewrite last_splice by done. rewrite <- Es, Els.
      by replace (S (length old) - 1)%nat with (length old) by lia. }
  destruct (if left then bool_decide (i = 0%nat)
            else bool_decide (i = (length sibs - 1)%nat)) eqn:Ecap.
  - apply (side_capture fuel D (nxt left h) (nxt left h') salm pid id
             (2 <=? length sibs)%nat salm'); try done.
    intros Hb. apply Nat.leb_gt in Hb.
    assert (old = []) as Eo by (apply nil_length_inv; lia).
    rewrite nxt_children. fold old. rewrite Eo. by destruct left.
  - injection Em as <-. apply (side_create D (nxt left h)); try done.
    intros y Hy. destruct (decide (y = pid)) as [->|]; [done|by apply He].
Qed.

(** ** The invariant *)

(** The children of a node of a subtree are in the subtree. *)
Lemma canonical_child f h r L x c left :
  canonicalInorder f h r = Ok L → x ∈ L →
  c ∈ Node.children left (h !!! x) →
  c ∈ L ∧ ∃ f' Lc, canonicalInorder f' h c = Ok Lc.
Proof.
  intros E Hx Hc.
  destruct (canonical_segment f h r L x E Hx) as (A & Lx & B & f' & -> & Ex).
  destruct f' as [|f']; [done|].
  apply canonicalInorder_S in Ex as (Ls & Rs & HL & HR & ->).
  apply list_elem_of_lookup_1 in Hc as [k Hk].
  destruct left; simpl in Hk.
  - destruct (Forall2_lookup_l _ _ _ _ _ HL Hk) as (Lc & HLc & Ec).
    split; [|by eauto]. pose proof (canonicalInorder_in _ _ _ _ Ec) as Hin.
    rewrite !elem_of_app. right. left. left.
    apply (in_mjoin c Lc); [done|]. by eapply list_elem_of_lookup_2.
  - destruct (Forall2_lookup_l _ _ _ _ _ HR Hk) as (Lc & HLc & Ec).
    split; [|by eauto]. pose proof (canonicalInorder_in _ _ _ _ Ec) as Hin.
    rewrite !elem_of_app, elem_of_cons. right. left. right. right.
    apply (in_mjoin c Lc); [done|]. by eapply list_elem_of_lookup_2.
Qed.

(** The balanced index lists the nodes in the order of the tree of the
    messages, and each manager holds the chains of first left children
    (last right children) of that tree. *)
Definition Ordered (s : CTextLogn.t) (t : btree string) : Prop :=
  Inv s t
  ∧ (∃ f, canonicalInorder f (CTextLogn.nodesByID s) CTextLogn.rootNode
          = Ok (inorder t))
  ∧ side_ok (dom (CTextLogn.nodesByID s)) (nxt true (CTextLogn.nodesByID s))
      (CTextLogn.leftSALM s)
  ∧ side_ok (dom (CTextLogn.nodesByID s)) (nxt false (CTextLogn.nodesByID s))
      (CTextLogn.rightSALM s).

Lemma side_empty next : side_ok ∅ next SALM.empty.
Proof.
  exists []. split_and!; [apply SRep_empty| |done].
  intros x. simpl. rewrite elem_of_nil. set_solver.
Qed.

Lemma Ordered_new : Ordered CTextLogn.new (BNode BLeaf CTextLogn.rootNode BLeaf).
Proof.
  assert (dom (CTextLogn.nodesByID CTextLogn.new) = {[ CTextLogn.rootNode ]} ∪ ∅)
    as Ed by (simpl; rewrite dom_singleton_L; set_solver).
  split_and!.
  - apply Inv_new.
  - by exists 1%nat.
  - rewrite Ed. apply (side_create ∅ (λ _, None)); [apply side_empty|set_solver|done|].
    intros y. set_solver.
  - rewrite Ed. apply (side_create ∅ (λ _, None)); [apply side_empty|set_solver|done|].
    intros y. set_solver.
Qed.

Lemma core_children a b :
  core a = core b →
  Node.leftChildren a = Node.leftChildren b
  ∧ Node.rightChildren a = Node.rightChildren b.
Proof. unfold core. intros E. by simplify_eq. Qed.

Lemma children_core a b left :
  core a = core b → Node.children left a = Node.children left b.
Proof. intros [? ?]%core_children. by destruct left. Qed.

Lemma Ordered_insert fuel s t id pid isL v s' ev :
  Ordered s t → admissible s (InsertMessage id pid isL v) →
  CTextLogn.receivePrimitive fuel s (InsertMessage id pid isL v) = Ok (s', ev) →
  ∃ t' A B, Ordered s' t' ∧ inorder t = A ++ B ∧ inorder t' = A ++ id :: B
    ∧ (∀ y, core (CTextLogn.nodesByID s' !!! y)
            = core ((entered (CTextLogn.nodesByID s) id pid isL v).1.1 !!! y))
    ∧ (Node.children isL (CTextLogn.nodesByID s !!! pid) = [] →
       if isL then head B = Some pid else last A = Some pid)
    ∧ dom (CTextLogn.nodesByID s') = {[id]} ∪ dom (CTextLogn.nodesByID s).
Proof.
  intros (I & [f Ec] & SL & SR) Ha E.
  pose proof (receive_insert fuel s t id pid isL v s' ev I Ha E) as H.
  unfold entered in H.
  destruct H as (t' & A & B & pred & succ & En & EA & EB & Hps & I' & Hcore & Hd' & Eu).
  destruct Ha as (Hfresh & [parent Hpar] & Hv).
  pose proof I as [Ix Hdom _ _ _ _]. destruct Ix as (_ & _ & ND & _).
  set (h := CTextLogn.nodesByID s) in *.
  set (h' := CTextLogn.nodesByID s') in *.
  set (old := Node.children isL (h !!! pid)) in *.
  set (h1 := <[id := Node.new id (Some pid) isL v true]> h) in *.
  set (i := CTextLogn.siblingIndex h1 id old) in *.
  set (sibs := CTextLogn.splice i id old) in *.
  set (h2 := CTextLogn.wr (Node.set_children isL sibs) pid h1) in *.
  assert (id ∉ dom h) as Hidd by (by apply not_elem_of_dom).
  assert (pid ∈ dom h) as Hpd by (by apply elem_of_dom).
  assert (pid ≠ id) as Hne by (by intros ->).
  assert (h2 !!! id = Node.new id (Some pid) isL v true) as Hnew.
  { unfold h2, h1. by rewrite wr_ne, lookup_total_insert_eq. }
  assert (h2 !!! pid = Node.set_children isL sibs (h !!! pid)) as Hpid.
  { unfold h2, h1. by rewrite wr_eq, lookup_total_insert_ne. }
  assert (∀ y, y ≠ pid → y ≠ id → h2 !!! y = h !!! y) as Hoth.
  { intros y ? ?. unfold h2, h1. by rewrite wr_ne, lookup_total_insert_ne. }
  assert (i ≤ length old)%nat as Hi by apply siblingIndex_le.
  assert (Node.leftChildren (h' !!! id) = [] ∧ Node.rightChildren (h' !!! id) = [])
    as [Hl Hr].
  { destruct (core_children _ _ (Hcore id)) as [-> ->]. by rewrite Hnew. }
  assert (Node.children isL (h' !!! pid) = sibs) as Eps.
  { rewrite (children_core _ _ isL (Hcore pid)), Hpid. by destruct isL. }
  assert (∀ y, y ∈ dom h → Node.children (negb isL) (h' !!! y)
                            = Node.children (negb isL) (h !!! y)) as Eo.
  { intros y Hy. rewrite (children_core _ _ (negb isL) (Hcore y)).
    destruct (decide (y = pid)) as [->|Hyp].
    - rewrite Hpid. by destruct isL.
    - rewrite Hoth; [done..|]. by intros ->. }
  assert (∀ y, y ∈ dom h → y ≠ pid → Node.children isL (h' !!! y)
                                      = Node.children isL (h !!! y)) as Es.
  { intros y Hy Hyp. rewrite (children_core _ _ isL (Hcore y)).
    rewrite Hoth; [done..|]. by intros ->. }
  assert (id ∉ inorder t) as Hidt by (by rewrite Hdom).
  assert (pid ∈ inorder t) as Hpt by (by rewrite Hdom).
  (* the order *)
  destruct (enter_canonical h h' id pid isL i) with (f := f)
    (x := CTextLogn.rootNode) (L := inorder t) as [_ Hent]; try done.
  { split; [done|]. apply Eo. done. }
  { intros y Hyp Hyi. destruct (core_children _ _ (Hcore y)) as [-> ->].
    by rewrite Hoth. }
  destruct (Hent Hpt) as (A' & B' & EA' & Ec' & Hlands). clear Hent.
  assert (old = [] → if isL then head B = Some pid else last A = Some pid) as Hends.
  { intros Eo'. unfold CTextLogn.getNeighbor in En. simpl in En. rewrite Hnew in En.
    simpl in En. assert (i = 0%nat) as Ei by (rewrite Eo' in Hi; simpl in Hi; lia).
    assert (length sibs = 1%nat) as Els by (unfold sibs; by rewrite Eo', Ei).
    rewrite Els, Ei in En. simpl in En. destruct isL; by injection En as <- <-. }
  assert (A' = A ∧ B' = B) as [-> ->].
  { rewrite EA in EA', ND. symmetry in EA'.
    unfold CTextLogn.getNeighbor in En. simpl in En. rewrite Hnew in En.
    unfold lands in Hlands. simpl in En. destruct isL.
    - destruct Hlands as (q & Hq & Hm).
      change (Node.leftChildren (h !!! pid)) with old in Hm.
      assert (length sibs = S (length old)) as Els by (by apply length_splice).
      destruct (decide (i = (length sibs - 1)%nat)) as [Hlast|Hlast];
        [rewrite bool_decide_eq_true_2 in En by done
        |rewrite bool_decide_eq_false_2 in En by done].
      + injection En as <- <-.
        rewrite (lookup_ge_None_2 old i) in Hm by lia. subst q.
        symmetry in EA'. destruct (same_head_split _ _ _ _ _ ND EA' Hps Hq). done.
      + unfold sibs in En. rewrite splice_after in En by done.
        destruct (old !! i) as [sib|] eqn:Esib; [|done].
        bind_ok En as e. injection En as <- <-.
        destruct Hm as (f0 & Ls & Es0 & Hh).
        assert (sib ∈ dom h) as Hsd.
        { apply Hdom.
          destruct (canonical_child f h CTextLogn.rootNode (inorder t) pid sib true
                      Ec Hpt) as [Hs _]; [|done].
          by eapply list_elem_of_lookup_2. }
        destruct (side_getEnd _ _ _ _ _ _ SL Hsd Em) as (l1 & l2 & Hc & Hl12).
        pose proof (chain_end_left h l2 l1 sib e f0 Ls Hc Hl12 Es0) as He.
        assert (q = e) as -> by congruence.
        symmetry in EA'. destruct (same_head_split _ _ _ _ _ ND EA' Hps Hq). done.
    - destruct Hlands as (q & Hq & Hm).
      destruct (decide (i = 0%nat)) as [Hfirst|Hfirst];
        [rewrite bool_decide_eq_true_2 in En by done
        |rewrite bool_decide_eq_false_2 in En by done].
      + injection En as <- <-. rewrite Hfirst in Hm. subst q.
        symmetry in EA'. destruct (same_last_split _ _ _ _ _ ND EA' Hps Hq). done.
      + destruct i as [|j] eqn:Ei; [done|].
        unfold sibs in En. rewrite splice_before in En by lia.
        replace (S j - 1)%nat with j in En by lia.
        destruct Hm as (sib & f0 & Ls & Esib & Es0 & Hh).
        change (Node.rightChildren (h !!! pid)) with old in Esib.
        rewrite Esib in En.
        bind_ok En as e. injection En as <- <-.
        assert (sib ∈ dom h) as Hsd.
        { apply Hdom.
          destruct (canonical_child f h CTextLogn.rootNode (inorder t) pid sib false
                      Ec Hpt) as [Hs _]; [|done].
          by eapply list_elem_of_lookup_2. }
        destruct (side_getEnd _ _ _ _ _ _ SR Hsd Em) as (l1 & l2 & Hc & Hl12).
        pose proof (chain_end_right h l2 l1 sib e f0 Ls Hc Hl12 Es0) as He.
        assert (q = e) as -> by congruence.
        symmetry in EA'. destruct (same_last_split _ _ _ _ _ ND EA' Hps Hq). done. }
  exists t', A, B. split; [|done]. clear Hends. split_and!; [done|..].
  - exists (S f). by rewrite EB.
  - fold h'. rewrite Hd'. destruct isL.
    + by destruct (update_side fuel (dom h) h h' true _ _ sibs i pid id _ _
                     SL SR Hpd Hidd Hl Hr Hi eq_refl Eps Eo Es Eu).
    + by destruct (update_side fuel (dom h) h h' false _ _ sibs i pid id _ _
                     SR SL Hpd Hidd Hl Hr Hi eq_refl Eps Eo Es Eu).
  - fold h'. rewrite Hd'. destruct isL.
    + by destruct (update_side fuel (dom h) h h' true _ _ sibs i pid id _ _
                     SL SR Hpd Hidd Hl Hr Hi eq_refl Eps Eo Es Eu).
    + by destruct (update_side fuel (dom h) h h' false _ _ sibs i pid id _ _
                     SR SL Hpd Hidd Hl Hr Hi eq_refl Eps Eo Es Eu).
Qed.

Lemma Ordered_delete fuel s t id s' ev :
  Ordered s t → admissible s (DeleteMessage id) →
  CTextLogn.receivePrimitive fuel s (DeleteMessage id) = Ok (s', ev) →
  Ordered s' t.
Proof.
  intros (I & [f Ec] & SL & SR) Ha E.
  destruct (receive_delete s t id I) as (n & s1 & ev1 & Hc & I1 & H).
  { by apply elem_of_dom. }
  pose proof (computes_ok _ _ _ fuel _ Hc E) as [= <- <-].
  destruct (tpres (CTextLogn.nodesByID s) id).
  2:{ destruct H as [-> _]. by split_and!; [|exists f|..]. }
  destruct H as (c & l & r & _ & Hy & Hd & _ & EL & ER & _).
  assert (∀ y, Node.leftChildren (CTextLogn.nodesByID s' !!! y)
               = Node.leftChildren (CTextLogn.nodesByID s !!! y)
               ∧ Node.rightChildren (CTextLogn.nodesByID s' !!! y)
                 = Node.rightChildren (CTextLogn.nodesByID s !!! y)) as Hch.
  { intros y. rewrite Hy. unfold deleted.
    destruct (core_children _ _ (bump_core (-1) (id :: (fid <$> c))
      (CTextLogn.wr (Node.set_isPresent false) id (CTextLogn.nodesByID s)) y))
      as [-> ->].
    rewrite wr_lookup. by destruct (decide (id = y)) as [->|]. }
  split_and!; [done|..].
  - exists f. eapply canonicalInorder_ext; [|done]. intros y _. apply Hch.
  - rewrite Hd, EL. eapply side_ok_ext; [done|].
    intros y _. simpl. by destruct (Hch y) as [-> _].
  - rewrite Hd, ER. eapply side_ok_ext; [done|].
    intros y _. simpl. by destruct (Hch y) as [_ ->].
Qed.

Lemma reachable_Ordered s : reachable s → ∃ t, Ordered s t.
Proof.
  induction 1 as [|s m fuel s' ev _ [t O] Ha E].
  - eexists. apply Ordered_new.
  - destruct m as [id|id pid isL v].
    + exists t. by eapply Ordered_delete.
    + destruct (Ordered_insert fuel s t id pid isL v s' ev O Ha E)
        as (t' & A & B & O' & _). by exists t'.
Qed.

(** * Local inserts *)

(** The root is in the directory and is never present. *)
Lemma reachable_root s :
  reachable s →
  CTextLogn.rootNode ∈ dom (CTextLogn.nodesByID s)
  ∧ tpres (CTextLogn.nodesByID s) CTextLogn.rootNode = false.
Proof.
  induction 1 as [|s m fuel s' ev Hr [Hd Hp] Ha E].
  - split; [|done]. simpl. rewrite dom_singleton_L. set_solver.
  - destruct (reachable_Inv s Hr) as [t I].
    destruct (receive_keeps fuel s t m s' ev I Ha E) as [Hk _].
    destruct (Hk _ Hd) as (Hd' & _ & _ & _ & _ & Hpres & _). split; [done|].
    unfold tpres in *.
    destruct (Node.isPresent (CTextLogn.nodesByID s' !!! CTextLogn.rootNode));
      [|done].
    rewrite Hpres in Hp; done.
Qed.

(** The root has no left children: the text starts right after the root.
    Local inserts keep it so. *)
Definition rootFirst (s : CTextLogn.t) : Prop :=
  Node.leftChildren (CTextLogn.nodesByID s !!! CTextLogn.rootNode) = [].

Lemma canonical_root_first f h x L :
  canonicalInorder f h x = Ok L → Node.leftChildren (h !!! x) = [] →
  ∃ B, L = x :: B.
Proof.
  destruct f as [|f]; [done|].
  intros (Ls & Rs & HL & HR & ->)%canonicalInorder_S El.
  rewrite El in HL. apply Forall2_nil_inv_l in HL as ->. simpl. eauto.
Qed.

(** What [insertOne] sends: the new node comes right after the node of the
    character before [index] (the root for index 0). *)
Lemma insertOne_message_spec fuel s t index char uid m :
  Ordered s t → rootFirst s →
  tpres (CTextLogn.nodesByID s) CTextLogn.rootNode = false →
  CTextLogn.insertOne_message fuel s index char uid = Ok m →
  0 ≤ index ≤ CTextLogn.length s
  ∧ ∃ A x B pid isL,
      m = InsertMessage uid pid isL char
      ∧ inorder t = A ++ x :: B
      ∧ Z.to_nat index
        = length (pvalues (CTextLogn.nodesByID s) (A ++ [x]))
      ∧ pid ∈ dom (CTextLogn.nodesByID s)
      ∧ Node.children isL (CTextLogn.nodesByID s !!! pid) = []
      ∧ (if isL then head B = Some pid else x = pid)
      ∧ (isL = true → pid ≠ CTextLogn.rootNode).
Proof.
  intros (I & [f Ec] & SL & SR) Hrf Hroot E.
  pose proof I as [(S & R & ND & C) Hdom Hid _ _ _].
  set (h := CTextLogn.nodesByID s) in *.
  pose proof (length_pvalues s t I) as EL. fold h in EL.
  unfold CTextLogn.insertOne_message in E. bind_ok E as x. fold h in E.
  assert (0 ≤ index ≤ CTextLogn.length s
          ∧ ∃ A B, inorder t = A ++ x :: B
                   ∧ Z.to_nat index = length (pvalues h (A ++ [x])))
    as (Hi & A & B & Et & Ei).
  { destruct (index =? 0) eqn:E0.
    - injection Em as <-. apply Z.eqb_eq in E0 as ->.
      destruct (canonical_root_first _ _ _ _ Ec Hrf) as [B EB].
      split; [lia|]. exists [], B. split; [done|].
      rewrite app_nil_l, pvalues_cons, Hroot. done.
    - apply Z.eqb_neq in E0.
      destruct (decide (0 ≤ index - 1 < CTextLogn.length s)) as [Hin|Hout].
      2:{ rewrite indexToNode_out in Em by lia. done. }
      destruct (indexToNode_char s t (index - 1) I Hin)
        as (x' & n & Hc & Hx & Hp & _ & A & B & Et & Ek).
      pose proof (computes_ok _ _ _ _ _ Hc Em) as <-.
      split; [lia|]. exists A, B. split; [done|].
      rewrite pvalues_app, length_app, pvalues_cons. fold h in Ek, Hp.
      rewrite Hp. simpl. lia. }
  split; [done|].
  assert (x ∈ inorder t) as Hx by (rewrite Et, elem_of_app, elem_of_cons; tauto).
  case_bool_decide as Hrc.
  - bind_ok E as y. injection E as <-.
    destruct (Node.rightChildren (h !!! x)) as [|c cs] eqn:Er; [done|].
    destruct (canonical_successor f h _ _ x c cs Ec Hx Er) as (A' & y' & B' & Et' & Hl).
    pose proof ND as ND0. rewrite Et in Et', ND.
    destruct (NoDup_split_eq _ _ _ _ _ ND Et') as [<- ->].
    destruct (nextNode_spec h _ t A x (y' :: B') (conj S (conj R (conj ND0 C))) Et)
      as [n Hn].
    pose proof (computes_ok _ _ _ _ _ Hn Em0) as Ey. subst y.
    assert (y' ∈ dom h) as Hyd.
    { apply Hdom. rewrite Et, elem_of_app, !elem_of_cons. tauto. }
    rewrite (Hid y' Hyd).
    exists A, x, (y' :: B'), y', true. split_and!; try done.
    intros _ ->. destruct (canonical_root_first _ _ _ _ Ec Hrf) as [B0 EB].
    rewrite Et in EB. destruct A as [|a A]; simpl in EB.
    + injection EB as -> _. simpl in ND.
      apply NoDup_cons in ND as [ND _]. apply ND. rewrite elem_of_cons. tauto.
    + injection EB as -> _. simpl in ND.
      apply NoDup_cons in ND as [ND _]. apply ND.
      rewrite elem_of_app, !elem_of_cons. tauto.
  - injection E as <-.
    assert (x ∈ dom h) as Hxd by (by apply Hdom).
    rewrite (Hid x Hxd).
    exists A, x, B, x, false. by split_and!.
Qed.


(** [insertOne(index, char)] puts the character at [index]. *)
Lemma insertOne_spec fuel s t index char uid s' :
  Ordered s t → rootFirst s →
  tpres (CTextLogn.nodesByID s) CTextLogn.rootNode = false →
  CTextLogn.nodesByID s !! uid = None → String.length char = 1%nat →
  CTextLogn.insertOne fuel s index char uid = Ok s' →
  ∃ t', Ordered s' t' ∧ rootFirst s'
    ∧ 0 ≤ index ≤ CTextLogn.length s
    ∧ dom (CTextLogn.nodesByID s') = {[uid]} ∪ dom (CTextLogn.nodesByID s)
    ∧ tpres (CTextLogn.nodesByID s') CTextLogn.rootNode = false
    ∧ (reachable s → reachable s')
    ∧ pvalues (CTextLogn.nodesByID s') (inorder t')
      = take (Z.to_nat index) (pvalues (CTextLogn.nodesByID s) (inorder t))
        ++ char :: drop (Z.to_nat index)
                     (pvalues (CTextLogn.nodesByID s) (inorder t)).
Proof.
  intros O Hrf Hroot Hfresh Hchar E.
  unfold CTextLogn.insertOne in E. bind_ok E as m. bind_ok E as [s1 ev].
  injection E as ->.
  destruct (insertOne_message_spec fuel s t index char uid m O Hrf Hroot Em)
    as (Hi & A & x & B & pid & isL & -> & Et & Ei & Hpd & Hnone & Hpx & Hpr).
  assert (admissible s (InsertMessage uid pid isL char)) as Ha.
  { split_and!; [done| |done]. by apply elem_of_dom. }
  destruct (Ordered_insert fuel s t uid pid isL char s' ev O Ha Em0)
    as (t' & A' & B' & O' & EA & EB & Hcore & Hends & Hd').
  specialize (Hends Hnone).
  pose proof O as (I & [f Ec] & _). pose proof O' as (I' & _).
  pose proof I as [(_ & _ & ND & _) Hdom _ _ _ _].
  set (h := CTextLogn.nodesByID s) in *. set (h' := CTextLogn.nodesByID s') in *.
  assert (uid ∉ dom h) as Hud by (by apply not_elem_of_dom).
  assert (pid ≠ uid) as Hne by (by intros ->).
  pose proof (entered_kept h uid pid isL char) as Hk.
  pose proof (entered_new h uid pid isL char Hne) as Hn.
  assert (A' = A ++ [x] ∧ B' = B) as [-> ->].
  { rewrite EA in Et, ND. rewrite (cons_middle x A B), app_assoc in Et.
    destruct isL.
    - destruct (same_head_split _ _ _ _ _ ND Et Hends Hpx). done.
    - subst pid. apply (same_last_split _ _ _ _ x ND Et Hends). by rewrite last_snoc. }
  assert (∀ y, y ∈ inorder t → tpres h' y = tpres h y
                               ∧ Node.value (h' !!! y) = Node.value (h !!! y)) as Hold.
  { intros y Hy. assert (y ≠ uid) as Hyi by (intros ->; by apply Hud, Hdom).
    destruct (Hk y Hyi) as (<- & <- & _). specialize (Hcore y).
    unfold tpres, core in *. by simplify_eq. }
  assert (tpres h' uid = true ∧ Node.value (h' !!! uid) = char) as [Hp Hval].
  { specialize (Hcore uid). rewrite Hn in Hcore. unfold tpres, core in *.
    by simplify_eq. }
  assert (pvalues h' (A ++ [x]) = pvalues h (A ++ [x])) as EpA.
  { apply pvalues_ext. intros y Hy. apply Hold. rewrite EA, elem_of_app. tauto. }
  assert (pvalues h' B = pvalues h B) as EpB.
  { apply pvalues_ext. intros y Hy. apply Hold. rewrite EA, elem_of_app. tauto. }
  exists t'. split_and!; try done; try lia.
  - unfold rootFirst. fold h'.
    destruct (core_children _ _ (Hcore CTextLogn.rootNode)) as [-> _].
    assert (CTextLogn.rootNode ≠ uid) as Hru.
    { intros <-. apply Hud, Hdom. by eapply canonicalInorder_in. }
    unfold entered. simpl. rewrite wr_lookup.
    destruct (decide (pid = CTextLogn.rootNode)) as [->|];
      rewrite lookup_total_insert_ne by done; [|done].
    destruct isL; [by destruct Hpr|done].
  - destruct (Hold CTextLogn.rootNode) as [-> _]; [|done].
    by eapply canonicalInorder_in.
  - intros Hr. by eapply reachable_receive.
  - rewrite EB, EA, (pvalues_app h' (A ++ [x])), (pvalues_cons h' uid).
    rewrite Hp, Hval, EpA, EpB, (pvalues_app h (A ++ [x]) B), Ei.
    by rewrite take_app_length, drop_app_length.
Qed.

(** [insert(index, str)] puts the characters of [str] at [index], in order. *)
Lemma insert_spec fuel : ∀ chars s t index s',
  Ordered s t → rootFirst s →
  tpres (CTextLogn.nodesByID s) CTextLogn.rootNode = false →
  NoDup chars.*2 → (∀ u, u ∈ chars.*2 → CTextLogn.nodesByID s !! u = None) →
  Forall (λ c, String.length c = 1%nat) chars.*1 →
  CTextLogn.insert fuel s index chars = Ok s' →
  ∃ t', Ordered s' t' ∧ rootFirst s'
    ∧ (chars ≠ [] → 0 ≤ index ≤ CTextLogn.length s)
    ∧ (reachable s → reachable s')
    ∧ pvalues (CTextLogn.nodesByID s') (inorder t')
      = take (Z.to_nat index) (pvalues (CTextLogn.nodesByID s) (inorder t))
        ++ chars.*1 ++ drop (Z.to_nat index)
                         (pvalues (CTextLogn.nodesByID s) (inorder t)).
Proof.
  induction chars as [|[c u] chars IH]; intros s t index s' O Hrf Hroot ND Hf Hc E.
  - simpl in E. injection E as <-. exists t. split_and!; try done.
    simpl. by rewrite take_drop.
  - simpl in E. bind_ok E as s1. simpl in ND, Hf, Hc.
    apply NoDup_cons in ND as [Hu ND]. apply Forall_cons in Hc as [Hc1 Hc].
    destruct (insertOne_spec fuel s t index c u s1 O Hrf Hroot) as
      (t1 & O1 & Hrf1 & Hi & Hd1 & Hroot1 & Hr1 & Ep1); [|done..|].
    { apply Hf. rewrite elem_of_cons. tauto. }
    destruct (IH s1 t1 (index + 1) s' O1 Hrf1 Hroot1 ND) as (t' & O' & Hrf' & _ & Hr' & Ep');
      [|done..|].
    { intros w Hw. apply not_elem_of_dom. rewrite Hd1.
      rewrite elem_of_union, elem_of_singleton. intros [->|Hwd]; [done|].
      apply elem_of_dom in Hwd as [? Hwd]. rewrite Hf in Hwd; [done|].
      rewrite elem_of_cons. tauto. }
    exists t'. split_and!; try done; [tauto|]. rewrite Ep', Ep1. simpl.
    pose proof O as (I & _). pose proof (length_pvalues s t I) as EL.
    set (pv := pvalues (CTextLogn.nodesByID s) (inorder t)) in *.
    assert (Z.to_nat (index + 1) = S (length (take (Z.to_nat index) pv))) as ->
      by (rewrite length_take; lia).
    set (T := take (Z.to_nat index) pv). set (D := drop (Z.to_nat index) pv).
    replace (T ++ c :: D) with ((T ++ [c]) ++ D) by (by rewrite <- app_assoc).
    replace (S (length T)) with (length (T ++ [c]))
      by (rewrite length_app; simpl; lia).
    rewrite take_app_length, drop_app_length. by rewrite <- app_assoc.
Qed.

(** * The debugging walks *)

(** ** The walk of the balanced tree *)

Definition bline (h : gmap string Node.t) (d : Z) (x : string) : CTextLogn.BalancedLine :=
  CTextLogn.mkBalancedLine d (Node.id (h !!! x)) (Node.value (h !!! x))
    (Node.isPresent (h !!! x)) (Node.bCount (h !!! x)) (Node.bF (h !!! x)).

(** The lines of a subtree whose root is at depth [d]. *)
Fixpoint blines (h : gmap string Node.t) (d : Z) (t : btree string)
  : list CTextLogn.BalancedLine :=
  match t with
  | BLeaf => []
  | BNode l x r => blines h (d + 1) l ++ bline h d x :: blines h (d + 1) r
  end.

Lemma bwalk_PARENT f (h : gmap string Node.t) x d log :
  CTextLogn.printBalancedTreeWalk_loop (S f) h (Some x) PARENT d log =
    match Node.bLeftChild (h !!! x) with
    | Some l => CTextLogn.printBalancedTreeWalk_loop f h (Some l) PARENT (d + 1) log
    | None => CTextLogn.printBalancedTreeWalk_loop f h (Some x) LEFT_CHILD d log
    end.
Proof. reflexivity. Qed.

Lemma bwalk_LEFT_CHILD f (h : gmap string Node.t) x d log :
  0 ≤ d →
  CTextLogn.printBalancedTreeWalk_loop (S f) h (Some x) LEFT_CHILD d log =
    match Node.bRightChild (h !!! x) with
    | Some r =>
        CTextLogn.printBalancedTreeWalk_loop f h (Some r) PARENT (d + 1)
          (log ++ [bline h d x])
    | None =>
        CTextLogn.printBalancedTreeWalk_loop f h (Some x) RIGHT_CHILD d
          (log ++ [bline h d x])
    end.
Proof.
  intros Hd. simpl. destruct (d <? 0) eqn:E; [lia|done].
Qed.

Lemma bwalk_RIGHT_CHILD f (h : gmap string Node.t) x d log :
  CTextLogn.printBalancedTreeWalk_loop (S f) h (Some x) RIGHT_CHILD d log =
    CTextLogn.printBalancedTreeWalk_loop f h (Node.bParent (h !!! x))
      (if CTextLogn.bIsLeftChild h x then LEFT_CHILD else RIGHT_CHILD) (d - 1) log.
Proof. reflexivity. Qed.

Lemma bwalk_subtree (h : gmap string Node.t) t : ∀ p x d,
  broot t = Some x → shape (tlinks h) p t → NoDup (inorder t) → 0 ≤ d →
  ∃ k, ∀ fuel log,
    CTextLogn.printBalancedTreeWalk_loop (k + fuel) h (Some x) PARENT d log =
    CTextLogn.printBalancedTreeWalk_loop fuel h (Some x) RIGHT_CHILD d
      (log ++ blines h d t).
Proof.
  induction t as [|l IHl y r IHr]; intros p x d; simpl; [done|].
  intros [= <-] (Ep & El & Er & Sl & Sr) ND Hd.
  simpl in Ep, El, Er.
  apply NoDup_node in ND as (NDl & NDr & Hyl & Hyr & Hlr).
  assert (∃ kl, ∀ fuel log,
    CTextLogn.printBalancedTreeWalk_loop (kl + fuel) h (Some y) PARENT d log =
    CTextLogn.printBalancedTreeWalk_loop fuel h (Some y) LEFT_CHILD d
      (log ++ blines h (d + 1) l)) as [kl Hkl].
  { destruct l as [|l1 z l2].
    - exists 1%nat. intros fuel log. simpl plus. rewrite bwalk_PARENT, El.
      simpl. by rewrite app_nil_r.
    - destruct (IHl (Some y) z (d + 1) eq_refl Sl NDl) as [k Hk]; [lia|].
      exists (S (k + 1))%nat. intros fuel log. simpl plus.
      rewrite bwalk_PARENT, El. simpl broot. cbv iota beta.
      rewrite <- Nat.add_assoc, Hk. simpl plus. rewrite bwalk_RIGHT_CHILD.
      unfold CTextLogn.bIsLeftChild. simpl in Sl. destruct Sl as (Epz & _).
      simpl in Epz. rewrite Epz, El. simpl.
      rewrite bool_decide_eq_true_2 by done.
      by replace (d + 1 - 1) with d by lia. }
  assert (∃ kr, ∀ fuel log,
    CTextLogn.printBalancedTreeWalk_loop (kr + fuel) h (Some y) LEFT_CHILD d log =
    CTextLogn.printBalancedTreeWalk_loop fuel h (Some y) RIGHT_CHILD d
      (log ++ bline h d y :: blines h (d + 1) r)) as [kr Hkr].
  { destruct r as [|r1 z r2].
    - exists 1%nat. intros fuel log. simpl plus.
      rewrite bwalk_LEFT_CHILD, Er by done. done.
    - destruct (IHr (Some y) z (d + 1) eq_refl Sr NDr) as [k Hk]; [lia|].
      exists (S (k + 1))%nat. intros fuel log. simpl plus.
      rewrite bwalk_LEFT_CHILD, Er by done. simpl broot. cbv iota beta.
      rewrite <- Nat.add_assoc, Hk. simpl plus. rewrite bwalk_RIGHT_CHILD.
      unfold CTextLogn.bIsLeftChild. simpl in Sr. destruct Sr as (Epz & _).
      simpl in Epz. rewrite Epz, El.
      rewrite bool_decide_eq_false_2.
      + replace (d + 1 - 1) with d by lia. by rewrite <- app_assoc.
      + intros Hb%broot_in. apply (Hlr z Hb). simpl. set_solver. }
  exists (kl + kr)%nat. intros fuel log.
  rewrite <- Nat.add_assoc, Hkl, Hkr. by rewrite <- app_assoc.
Qed.

(** [printBalancedTreeWalk] prints the nodes of the balanced tree in order. *)
Lemma printBalancedTreeWalk_spec s t :
  Inv s t →
  ∃ n, ∀ fuel, (n ≤ fuel)%nat →
    CTextLogn.printBalancedTreeWalk fuel s
    = Ok (blines (CTextLogn.nodesByID s) 0 t).
Proof.
  intros [(S & R & ND & C) _ _ _ _ _].
  destruct (bwalk_subtree _ t None _ 0 R S ND) as [k Hk]; [lia|].
  exists (k + 2)%nat. intros fuel Hf. unfold CTextLogn.printBalancedTreeWalk.
  replace fuel with (k + (fuel - k))%nat by lia. rewrite Hk.
  destruct (fuel - k)%nat as [|[|f]] eqn:Ef; [lia..|].
  rewrite bwalk_RIGHT_CHILD.
  destruct t as [|l y r]; [done|]. injection R as ->.
  destruct S as (Ep & _). simpl in Ep. rewrite Ep. done.
Qed.

Definition binfo (l : CTextLogn.BalancedLine) : string * string * bool :=
  (CTextLogn.b_id l, CTextLogn.b_value l, CTextLogn.b_isPresent l).

Definition tinfo (l : CTextLogn.TrueLine) : string * string * bool :=
  (CTextLogn.t_id l, CTextLogn.t_value l, CTextLogn.t_isPresent l).

Definition ninfo (h : gmap string Node.t) (x : string) : string * string * bool :=
  (Node.id (h !!! x), Node.value (h !!! x), Node.isPresent (h !!! x)).

Lemma binfo_blines h t : ∀ d, binfo <$> blines h d t = ninfo h <$> inorder t.
Proof.
  induction t as [|l IHl y r IHr]; intros d; simpl; [done|].
  by rewrite !fmap_app, !fmap_cons, IHl, IHr.
Qed.

(** ** The walk of the tree of the messages *)

Lemma drop_cons_inv {A} (l : list A) k c rest :
  drop k l = c :: rest →
  l !! k = Some c ∧ drop (S k) l = rest ∧ (k < length l)%nat.
Proof.
  intros E. assert (l !! k = Some c) as Hk.
  { rewrite <- (Nat.add_0_r k), <- lookup_drop, E. done. }
  split; [done|]. rewrite (drop_S _ _ _ Hk) in E. injection E as <-.
  split; [done|]. by eapply lookup_lt_Some.
Qed.

Section trueWalk.
Context (s : CTextLogn.t).
#[local] Abbreviation h := (CTextLogn.nodesByID s).

(** The walk started at a node, when it returns, has printed the subtree of
    the node and has come to the end of its right children. *)
Definition walked (x : string) (L : list string) : Prop :=
  ∀ fuel stack log out,
    CTextLogn.printTrueTreeWalk_loop fuel s stack x true 0 log = Ok out →
    ∃ fuel' log',
      CTextLogn.printTrueTreeWalk_loop fuel' s stack x false
        (length (Node.rightChildren (h !!! x))) log' = Ok out
      ∧ tinfo <$> log' = (tinfo <$> log) ++ (ninfo h <$> L).

Lemma true_walk_children x left stack : ∀ Ls k,
  Forall2 walked (drop k (Node.children left (h !!! x))) Ls →
  ∀ fuel log out,
    CTextLogn.printTrueTreeWalk_loop fuel s stack x left k log = Ok out →
    ∃ fuel' log',
      CTextLogn.printTrueTreeWalk_loop fuel' s stack x left
        (length (Node.children left (h !!! x))) log' = Ok out
      ∧ tinfo <$> log' = (tinfo <$> log) ++ (ninfo h <$> mjoin Ls).
Proof.
  induction Ls as [|Lc Ls IH]; intros k HF fuel log out E.
  - apply Forall2_nil_inv_r in HF.
    destruct (decide (k = length (Node.children left (h !!! x)))) as [->|Hk].
    { exists fuel, log. split; [done|]. simpl. by rewrite app_nil_r. }
    destruct fuel as [|f]; [done|]. simpl in E.
    rewrite bool_decide_eq_false_2 in E by done.
    destruct (_ !! k) as [c|] eqn:Ec; [|done].
    apply lookup_lt_Some in Ec. apply (f_equal length) in HF.
    rewrite length_drop in HF. simpl in HF. lia.
  - apply Forall2_cons_inv_r in HF as (c & rest & Hc & HF & Ed).
    apply drop_cons_inv in Ed as (Ek & Ed & Hlt). subst rest.
    destruct fuel as [|f]; [done|]. simpl in E.
    rewrite bool_decide_eq_false_2 in E by lia. rewrite Ek in E.
    destruct (Hc _ _ _ _ E) as (f1 & log1 & E1 & Hi1).
    destruct f1 as [|f1]; [done|]. simpl in E1.
    rewrite bool_decide_eq_true_2 in E1 by done.
    destruct (IH (S k) HF _ _ _ E1) as (f2 & log2 & E2 & Hi2).
    exists f2, log2. split; [done|].
    rewrite Hi2, Hi1. simpl. by rewrite fmap_app, app_assoc.
Qed.

Lemma true_walk_subtree f : ∀ x L, canonicalInorder f h x = Ok L → walked x L.
Proof.
  induction f as [|f IH]; intros x L E; [done|].
  apply canonicalInorder_S in E as (Ls & Rs & HL & HR & ->).
  intros fuel stack log out Ew.
  destruct (true_walk_children x true stack Ls 0%nat) with (fuel := fuel) (log := log)
    (out := out) as (f1 & log1 & E1 & Hi1); [|done|].
  { rewrite drop_0. eapply Forall2_impl; [exact HL|]. intros c Lc. apply IH. }
  destruct f1 as [|f1]; [done|]. simpl in E1.
  rewrite bool_decide_eq_true_2 in E1 by done.
  bind_ok E1 as leftSAL. bind_ok E1 as rightSAL.
  destruct (true_walk_children x false stack Rs 0%nat) with (fuel := f1)
    (log := log1 ++ [CTextLogn.mkTrueLine (length stack) (Node.id (h !!! x))
                       (Node.value (h !!! x)) (Node.isPresent (h !!! x))
                       leftSAL rightSAL])
    (out := out) as (f2 & log2 & E2 & Hi2); [|done|].
  { rewrite drop_0. eapply Forall2_impl; [exact HR|]. intros c Lc. apply IH. }
  exists f2, log2. split; [done|].
  rewrite Hi2, fmap_app, Hi1, !fmap_app, fmap_cons. simpl.
  by rewrite <- !app_assoc.
Qed.

(** [printTrueTreeWalk], when it returns, has printed the nodes in the
    order of the tree of the messages: for each node its left children's
    subtrees, the node, its right children's subtrees. *)
Lemma printTrueTreeWalk_spec f L fuel log :
  canonicalInorder f h CTextLogn.rootNode = Ok L →
  CTextLogn.printTrueTreeWalk fuel s = Ok log →
  tinfo <$> log = ninfo h <$> L.
Proof.
  intros Ec E. unfold CTextLogn.printTrueTreeWalk in E.
  destruct (true_walk_subtree f _ L Ec _ _ _ _ E) as (f1 & log1 & E1 & Hi).
  destruct f1 as [|f1]; [done|]. simpl in E1.
  rewrite bool_decide_eq_true_2 in E1 by done. by injection E1 as <-.
Qed.
End trueWalk.

(** ** The ends the managers give *)

Lemma leftmost_canonical f : ∀ (h : gmap string Node.t) x L,
  canonicalInorder f h x = Ok L →
  ∃ e, head L = Some e
       ∧ ∀ fuel, (f ≤ fuel)%nat → CTextLogn.getLeftmostDescendant fuel h x = Ok e.
Proof.
  induction f as [|f IH]; intros h x L E; [done|].
  apply canonicalInorder_S in E as (Ls & Rs & HL & HR & ->).
  destruct (Node.leftChildren (h !!! x)) as [|c cs] eqn:El.
  - apply Forall2_nil_inv_l in HL as ->. exists x. split; [done|].
    intros [|fuel] Hf; [lia|]. simpl. by rewrite El.
  - apply Forall2_cons_inv_l in HL as (Lc & Ls' & Ec & HL & ->).
    destruct (IH h c Lc Ec) as (e & He & Hl). exists e. split.
    + simpl. rewrite <- app_assoc, head_app. by rewrite He.
    + intros [|fuel] Hf; [lia|]. simpl. rewrite El. apply Hl. lia.
Qed.

Lemma rightmost_canonical f : ∀ (h : gmap string Node.t) x L,
  canonicalInorder f h x = Ok L →
  ∃ e, last L = Some e
       ∧ ∀ fuel, (f ≤ fuel)%nat → CTextLogn.getRightmostDescendant fuel h x = Ok e.
Proof.
  induction f as [|f IH]; intros h x L E; [done|].
  apply canonicalInorder_S in E as (Ls & Rs & HL & HR & ->).
  destruct (last (Node.rightChildren (h !!! x))) as [c|] eqn:Er.
  - pose proof Er as Er0. apply last_Some in Er as [cs Er]. rewrite Er in HR.
    apply Forall2_app_inv_l in HR as (Rs' & Rc & HR & Hc & ->).
    apply Forall2_cons_inv_l in Hc as (Lc & ? & Ec & ->%Forall2_nil_inv_l & ->).
    destruct (IH h c Lc Ec) as (e & He & Hl). exists e. split.
    + rewrite last_app, last_cons, join_app. simpl.
      rewrite app_nil_r, last_app, He. done.
    + intros [|fuel] Hf; [lia|]. simpl. rewrite Er0. apply Hl. lia.
  - pose proof Er as Er0.
    apply last_None in Er. rewrite Er in HR. apply Forall2_nil_inv_l in HR as ->.
    exists x. split; [simpl; by rewrite last_snoc|].
    intros [|fuel] Hf; [lia|]. simpl. by rewrite Er0.
Qed.

(** When a manager's [getEnd] returns, it returns the descendant that the
    walk along the first left (last right) children reaches. *)
Lemma getEnd_descendant s t x :
  Ordered s t → x ∈ dom (CTextLogn.nodesByID s) →
  ∃ n l r,
    (∀ fuel, (n ≤ fuel)%nat →
       CTextLogn.getLeftmostDescendant fuel (CTextLogn.nodesByID s) x = Ok l
       ∧ CTextLogn.getRightmostDescendant fuel (CTextLogn.nodesByID s) x = Ok r)
    ∧ (∀ fuel,
         SALM.getEnd fuel (CTextLogn.leftSALM s) x = Ok l
         ∨ SALM.getEnd fuel (CTextLogn.leftSALM s) x = OutOfFuel)
    ∧ (∀ fuel,
         SALM.getEnd fuel (CTextLogn.rightSALM s) x = Ok r
         ∨ SALM.getEnd fuel (CTextLogn.rightSALM s) x = OutOfFuel).
Proof.
  intros (I & [f Ec] & SL & SR) Hx.
  pose proof I as [_ Hdom _ _ _ _].
  destruct (canonical_segment f _ _ _ x Ec) as (A & Lx & B & f' & _ & Ex);
    [by apply Hdom|].
  destruct (leftmost_canonical f' _ x Lx Ex) as (l & Hl & HL).
  destruct (rightmost_canonical f' _ x Lx Ex) as (r & Hr & HR).
  exists f', l, r. split_and!.
  - intros fuel Hf. split; [by apply HL|by apply HR].
  - intros fuel. destruct SL as (Ls & R & Hd & Hc).
    pose proof Hx as Hx'. rewrite <- Hd in Hx'.
    apply in_mjoin_perm in Hx' as (l0 & Ls0 & Hxl & HP).
    pose proof (SRep_perm _ _ _ HP R) as R0.
    destruct (SRep_getEnd_total fuel _ _ _ _ R0 Hxl) as (v & Hv & Hg).
    rewrite HP in Hc. apply Forall_cons in Hc as [Hc _].
    apply in_list_split in Hxl as (l1 & l2 & ->).
    pose proof (chain_end_left _ l2 l1 x v f' Lx Hc Hv Ex) as He.
    assert (v = l) as -> by congruence. done.
  - intros fuel. destruct SR as (Ls & R & Hd & Hc).
    pose proof Hx as Hx'. rewrite <- Hd in Hx'.
    apply in_mjoin_perm in Hx' as (l0 & Ls0 & Hxl & HP).
    pose proof (SRep_perm _ _ _ HP R) as R0.
    destruct (SRep_getEnd_total fuel _ _ _ _ R0 Hxl) as (v & Hv & Hg).
    rewrite HP in Hc. apply Forall_cons in Hc as [Hc _].
    apply in_list_split in Hxl as (l1 & l2 & ->).
    pose proof (chain_end_right _ l2 l1 x v f' Lx Hc Hv Ex) as He.
    assert (v = r) as -> by congruence. done.
Qed.

Lemma leftmost_mono f : ∀ (h : gmap string Node.t) x e,
  CTextLogn.getLeftmostDescendant f h x = Ok e →
  CTextLogn.getLeftmostDescendant (S f) h x = Ok e.
Proof.
  induction f as [|f IH]; intros h x e E; [done|].
  simpl in E. change (CTextLogn.getLeftmostDescendant (S (S f)) h x)
    with (match Node.leftChildren (h !!! x) with
          | [] => Ok x
          | c :: _ => CTextLogn.getLeftmostDescendant (S f) h c
          end).
  destruct (Node.leftChildren (h !!! x)); [done|]. by apply IH.
Qed.

Lemma rightmost_mono f : ∀ (h : gmap string Node.t) x e,
  CTextLogn.getRightmostDescendant f h x = Ok e →
  CTextLogn.getRightmostDescendant (S f) h x = Ok e.
Proof.
  induction f as [|f IH]; intros h x e E; [done|].
  simpl in E. change (CTextLogn.getRightmostDescendant (S (S f)) h x)
    with (match last (Node.rightChildren (h !!! x)) with
          | None => Ok x
          | Some c => CTextLogn.getRightmostDescendant (S f) h c
          end).
  destruct (last (Node.rightChildren (h !!! x))); [|done]. by apply IH.
Qed.

Lemma leftmost_fun (h : gmap string Node.t) x n l f e :
  (∀ fuel, (n ≤ fuel)%nat → CTextLogn.getLeftmostDescendant fuel h x = Ok l) →
  CTextLogn.getLeftmostDescendant f h x = Ok e → e = l.
Proof.
  intros Hl E.
  assert (∀ k, CTextLogn.getLeftmostDescendant (k + f) h x = Ok e) as Hk.
  { induction k as [|k IH]; [done|]. by apply leftmost_mono. }
  specialize (Hk n). rewrite Hl in Hk by lia. congruence.
Qed.

Lemma rightmost_fun (h : gmap string Node.t) x n r f e :
  (∀ fuel, (n ≤ fuel)%nat → CTextLogn.getRightmostDescendant fuel h x = Ok r) →
  CTextLogn.getRightmostDescendant f h x = Ok e → e = r.
Proof.
  intros Hr E.
  assert (∀ k, CTextLogn.getRightmostDescendant (k + f) h x = Ok e) as Hk.
  { induction k as [|k IH]; [done|]. by apply rightmost_mono. }
  specialize (Hk n). rewrite Hr in Hk by lia. congruence.
Qed.

(** The walk of [checkSALMs] never finds a wrong end and never fails
    otherwise: it comes to its end, or it does not return. *)
Lemma checkSALMs_loop_fine s t :
  Ordered s t →
  ∀ fuel stack node left k,
    node ∈ dom (CTextLogn.nodesByID s) →
    (k ≤ length (Node.children left (CTextLogn.nodesByID s !!! node)))%nat →
    Forall (λ e, e.1.1 ∈ dom (CTextLogn.nodesByID s)
                 ∧ (e.2 < length (Node.children e.1.2
                                    (CTextLogn.nodesByID s !!! e.1.1)))%nat)
      stack →
    CTextLogn.checkSALMs_loop fuel s stack node left k = Ok None
    ∨ CTextLogn.checkSALMs_loop fuel s stack node left k = OutOfFuel.
Proof.
  intros O. pose proof O as (I & [f0 Ec] & _).
  pose proof I as [_ Hdom _ _ _ _].
  induction fuel as [|f IH]; intros stack node left k Hn Hk Hs; [by right|].
  simpl. case_bool_decide as Hkl.
  - destruct left.
    + destruct (getEnd_descendant s t node O Hn) as (n & l & r & Hd & HL & HR).
      destruct (HL f) as [-> | ->]; [|by right]. cbn [bind].
      destruct (CTextLogn.getLeftmostDescendant f _ node) as [e|e|] eqn:El;
        cbn [bind]; [| |by right].
      2:{ exfalso. clear -El. revert node El.
          induction f as [|f IHf]; intros node El; [done|]. simpl in El.
          destruct (Node.leftChildren _); [done|]. by eapply IHf. }
      assert (e = l) as ->.
      { eapply leftmost_fun; [|done]. intros fuel Hf. by apply Hd. }
      rewrite bool_decide_eq_false_2 by (by intros ?).
      destruct (HR f) as [-> | ->]; [|by right]. cbn [bind].
      destruct (CTextLogn.getRightmostDescendant f _ node) as [e|e|] eqn:Er;
        cbn [bind]; [| |by right].
      2:{ exfalso. clear -Er. revert node Er.
          induction f as [|f IHf]; intros node Er; [done|]. simpl in Er.
          destruct (last _); [|done]. by eapply IHf. }
      assert (e = r) as ->.
      { eapply rightmost_fun; [|done]. intros fuel Hf. by apply Hd. }
      rewrite bool_decide_eq_false_2 by (by intros ?).
      apply IH; [done|lia|done].
    + destruct stack as [|[[n' l'] k'] stack]; [by left|].
      apply Forall_cons in Hs as [[Hn' Hk'] Hs]. simpl in Hn', Hk'.
      apply IH; [done|lia|done].
  - destruct (_ !! k) as [c|] eqn:Ec'.
    2:{ apply lookup_ge_None in Ec'. lia. }
    apply IH; [|lia|].
    + apply Hdom.
      destruct (canonical_child f0 _ _ _ node c left Ec) as [Hc _];
        [by apply Hdom| |done].
      by eapply list_elem_of_lookup_2.
    + constructor; [|done]. simpl. split; [done|].
      by eapply lookup_lt_Some.
Qed.

(** * Further properties of the code *)

(** ** The list manager *)

(** Sample managers: the list [a], the list [a, b], the list [a, b, c]. *)
Definition salm_a : SALM.t := SALM.create SALM.empty "a".

Definition salm_ab : SALM.t :=
  Eval vm_compute in
    match SALM.append 5 salm_a "a" "b" with Ok s => s | _ => SALM.empty end.

Definition salm_abc : SALM.t :=
  Eval vm_compute in
    match SALM.append 5 salm_ab "b" "c" with Ok s => s | _ => SALM.empty end.

Definition salm_a_bc : SALM.t :=
  Eval vm_compute in
    match SALM.split 5 salm_abc "a" with Ok s => s | _ => SALM.empty end.

Definition sample_calls : list call :=
  [Create "a"; Append "a" "b"; Append "b" "c"; Split "a"; Create "d"].

Definition sample_run : SALM.t :=
  Eval vm_compute in
    match runAVL 5 sample_calls SALM.empty with Ok s => s | _ => SALM.empty end.

Lemma salm_a_lists : SRep salm_a [["a"]].
Proof. apply SRep_create; [apply SRep_empty|]. by intros ?%elem_of_nil. Qed.

Lemma salm_ab_run : SALM.append 5 salm_a "a" "b" = Ok salm_ab.
Proof. vm_compute. reflexivity. Qed.

Lemma salm_ab_lists : SRep salm_ab [["a"; "b"]].
Proof.
  apply (SRep_append 5 salm_a ["a"] [] "a" "b" salm_ab salm_a_lists);
    [set_solver|set_solver|exact salm_ab_run].
Qed.

Lemma salm_abc_run : SALM.append 5 salm_ab "b" "c" = Ok salm_abc.
Proof. vm_compute. reflexivity. Qed.

Lemma salm_abc_lists : SRep salm_abc [["a"; "b"; "c"]].
Proof.
  apply (SRep_append 5 salm_ab ["a"; "b"] [] "b" "c" salm_abc salm_ab_lists);
    [set_solver|set_solver|exact salm_abc_run].
Qed.

Lemma salm_a_bc_run : SALM.split 5 salm_abc "a" = Ok salm_a_bc.
Proof. vm_compute. reflexivity. Qed.

Lemma salm_a_bc_lists : SRep salm_a_bc [["a"]; ["b"; "c"]].
Proof.
  exact (SRep_split 5 salm_abc [] "a" ["b"; "c"] [] salm_a_bc salm_abc_lists
           salm_a_bc_run).
Qed.

Lemma sample_run_ok : runAVL 5 sample_calls SALM.empty = Ok sample_run.
Proof. vm_compute. reflexivity. Qed.

(** [append(v, v)]: the new node is the end of its own list, so it becomes
    its own right child and its own parent, and the height walk, which climbs
    [bParent], has no end. *)
Lemma updateHeights_of_own_parent (a : nat) (fuel : nat) :
  ∀ (h : gmap nat SNode.t) (k : Z),
    SNode.bParent (h !!! a) = Some a →
    SALM.updateHeights fuel h k (Some a) = OutOfFuel.
Proof.
  induction fuel as [|fuel IH]; intros h k Hp; [done|].
  simpl. rewrite swr_eq. simpl. rewrite Hp. apply IH.
  rewrite swr_eq. simpl. exact Hp.
Qed.

Lemma append_to_itself (fuel : nat) (s : SALM.t) (v : string) :
  SALM.append fuel s v v = OutOfFuel.
Proof.
  unfold SALM.append, SALM.createInternal, SALM.getEndNode, SALM.nodeByValue.
  cbn [SALM._nodeByValue SALM.heap]. rewrite lookup_insert_eq. cbn [bind].
  destruct fuel as [|fuel]; [done|].
  cbn [SALM.goUp SALM.goRight]. rewrite lookup_total_insert_eq.
  change (SNode.bParent (SNode.new v)) with (@None nat). cbn [bind].
  rewrite lookup_total_insert_eq.
  change (SNode.bRightChild (SNode.new v)) with (@None nat). cbn [bind].
  rewrite updateHeights_of_own_parent; [done|].
  by rewrite !swr_eq.
Qed.

(** X1.  A value that was never created is unknown: in the manager with
    trees [getEnd], [getTreeID] and [split] of it throw "Unknown value",
    whatever the fuel, and so does [append(v, w)] to its list when [w] is
    another value; but [append(v, v)] never returns and never throws,
    whatever the manager holds: it creates [v] first, finds the new node as
    the end of its list and makes it its own parent.  In the manager with
    arrays [getEnd], [split] and [append] of an unknown value end in a
    TypeError, also [append(v, v)]. *)
Theorem unknown_value_throws (s : SALM.t) (n : ListSALM.t) (v w : string)
    (fuel : nat) :
  SALM._nodeByValue s !! v = None → ListSALM.listByValue n !! v = None →
  (SALM.getEnd fuel s v = Throw UnknownValue
   ∧ SALM.getTreeID fuel s v = Throw UnknownValue
   ∧ SALM.split fuel s v = Throw UnknownValue
   ∧ SALM.append fuel s v w
     = (if decide (v = w) then OutOfFuel else Throw UnknownValue))
  ∧ (ListSALM.getEnd n v = Throw TypeError
     ∧ ListSALM.split n v = Throw TypeError
     ∧ ListSALM.append n v w = Throw TypeError).
Proof.
  intros Hs Hn. split.
  - split_and!.
    + unfold SALM.getEnd, SALM.getEndNode, SALM.nodeByValue. by rewrite Hs.
    + unfold SALM.getTreeID, SALM.nodeByValue. by rewrite Hs.
    + unfold SALM.split, SALM.nodeByValue. by rewrite Hs.
    + destruct (decide (v = w)) as [<-|Hvw]; [apply append_to_itself|].
      unfold SALM.append, SALM.createInternal, SALM.getEndNode, SALM.nodeByValue.
      simpl. by rewrite lookup_insert_ne, Hs.
  - unfold ListSALM.getEnd, ListSALM.split, ListSALM.append. by rewrite Hn.
Qed.

Lemma unknown_value_throws_witness :
  ((SALM.getEnd 9 salm_ab "c" = Throw UnknownValue
    ∧ SALM.getTreeID 9 salm_ab "c" = Throw UnknownValue
    ∧ SALM.split 9 salm_ab "c" = Throw UnknownValue
    ∧ SALM.append 9 salm_ab "c" "d"
      = (if decide ("c" = "d") then OutOfFuel else Throw UnknownValue))
   ∧ (ListSALM.getEnd ListSALM.empty "c" = Throw TypeError
      ∧ ListSALM.split ListSALM.empty "c" = Throw TypeError
      ∧ ListSALM.append ListSALM.empty "c" "d" = Throw TypeError))
  ∧ ((SALM.getEnd 9 salm_ab "c" = Throw UnknownValue
      ∧ SALM.getTreeID 9 salm_ab "c" = Throw UnknownValue
      ∧ SALM.split 9 salm_ab "c" = Throw UnknownValue
      ∧ SALM.append 9 salm_ab "c" "c"
        = (if decide ("c" = "c") then OutOfFuel else Throw UnknownValue))
     ∧ (ListSALM.getEnd ListSALM.empty "c" = Throw TypeError
        ∧ ListSALM.split ListSALM.empty "c" = Throw TypeError
        ∧ ListSALM.append ListSALM.empty "c" "c" = Throw TypeError)).
Proof.
  split.
  - apply (unknown_value_throws salm_ab ListSALM.empty "c" "d" 9); reflexivity.
  - apply (unknown_value_throws salm_ab ListSALM.empty "c" "c" 9); reflexivity.
Defined.

(** X2.  Right after [create(v)], whatever the manager held before (also a
    list with [v] in it), [v] is a list of its own: [getEnd(v)] and
    [getTreeID(v)] return [v]. *)
Theorem create_then_getEnd (s : SALM.t) (v : string) (fuel : nat) :
  SALM.getEnd (S fuel) (SALM.create s v) v = Ok v
  ∧ SALM.getTreeID (S fuel) (SALM.create s v) v = Ok v.
Proof.
  unfold SALM.getEnd, SALM.getEndNode, SALM.getTreeID, SALM.nodeByValue,
    SALM.create. simpl. rewrite !lookup_insert_eq. cbn [bind].
  by repeat (rewrite lookup_total_insert_eq; simpl).
Qed.

(** X3.  In a manager that holds the lists [l :: Ls], [getEnd] of a value of
    [l] returns the last value of [l]; it may be cut off (the walk up may not
    end), but it returns no other value and throws nothing. *)
Theorem getEnd_returns_the_end (fuel : nat) (s : SALM.t) (l : list string)
    (Ls : list (list string)) (e : string) :
  SRep s (l :: Ls) → e ∈ l →
  ∃ v, last l = Some v
       ∧ (SALM.getEnd fuel s e = Ok v ∨ SALM.getEnd fuel s e = OutOfFuel).
Proof. apply SRep_getEnd_total. Qed.

Lemma getEnd_returns_the_end_witness :
  ∃ v, last ["a"; "b"; "c"] = Some v
       ∧ (SALM.getEnd 5 salm_abc "a" = Ok v
          ∨ SALM.getEnd 5 salm_abc "a" = OutOfFuel).
Proof.
  apply (getEnd_returns_the_end 5 salm_abc ["a"; "b"; "c"] [] "a" salm_abc_lists).
  set_solver.
Defined.

(** X4.  In a manager that holds the lists [l :: Ls], [append(e, v)] with [e]
    in [l] and a new value [v], when it returns, leaves the lists
    [(l ++ [v]) :: Ls]: [v] is at the end of the list of [e], the other lists
    are as before. *)
Theorem append_extends_the_list (fuel : nat) (s : SALM.t) (l : list string)
    (Ls : list (list string)) (e v : string) (s' : SALM.t) :
  SRep s (l :: Ls) → e ∈ l → v ∉ mjoin (l :: Ls) →
  SALM.append fuel s e v = Ok s' → SRep s' ((l ++ [v]) :: Ls).
Proof. apply SRep_append. Qed.

Lemma append_extends_the_list_witness : SRep salm_abc ((["a"; "b"] ++ ["c"]) :: []).
Proof.
  apply (append_extends_the_list 5 salm_ab ["a"; "b"] [] "b" "c" salm_abc
           salm_ab_lists); [set_solver|set_solver|exact salm_abc_run].
Defined.

(** X5.  In a manager that holds the list [l1 ++ v :: l2] and the lists
    [Ls], [split(v)], when it returns, leaves the lists [l1 ++ [v]], [l2] and
    [Ls]: the list is cut right after [v]. *)
Theorem split_cuts_the_list (fuel : nat) (s : SALM.t) (l1 : list string)
    (v : string) (l2 : list string) (Ls : list (list string)) (s' : SALM.t) :
  SRep s ((l1 ++ v :: l2) :: Ls) →
  SALM.split fuel s v = Ok s' → SRep s' ((l1 ++ [v]) :: l2 :: Ls).
Proof. apply SRep_split. Qed.

Lemma split_cuts_the_list_witness : SRep salm_a_bc (([] ++ ["a"]) :: ["b"; "c"] :: []).
Proof.
  exact (split_cuts_the_list 5 salm_abc [] "a" ["b"; "c"] [] salm_a_bc
           salm_abc_lists salm_a_bc_run).
Defined.

(** X6.  [getTreeID] tells the lists apart: in a manager that holds the
    lists [l :: Ls], the ids returned for a value of [l] and for any other
    value are equal exactly when the other value is in [l] too. *)
Theorem getTreeID_names_the_list (fuel : nat) (s : SALM.t) (l : list string)
    (Ls : list (list string)) (e1 e2 i1 i2 : string) :
  SRep s (l :: Ls) → e1 ∈ l → e2 ∈ mjoin (l :: Ls) →
  SALM.getTreeID fuel s e1 = Ok i1 → SALM.getTreeID fuel s e2 = Ok i2 →
  i1 = i2 ↔ e2 ∈ l.
Proof. apply SRep_getTreeID. Qed.

Lemma getTreeID_names_the_list_witness : "a" = "b" ↔ "c" ∈ ["a"].
Proof.
  apply (getTreeID_names_the_list 5 salm_a_bc ["a"] [["b"; "c"]] "a" "c" "a" "b"
           salm_a_bc_lists); [set_solver|set_solver|reflexivity|reflexivity].
Defined.

(** Two joins, in managers that hold the list [d] as well: the tree of
    [a, b, c] (root [b]) with nothing to its right, which goes through
    [joinRightAVL]; and the tree of [a, b] (root [b], left child [a]) with
    nothing to its left, which goes through [joinLeftAVL] and its two
    rotations. *)
Definition salm_ab_d : SALM.t := SALM.create salm_ab "d".

Definition salm_abc_d : SALM.t := SALM.create salm_abc "d".

Definition tree_ab : btree nat := BNode (BNode BLeaf 0%nat BLeaf) 1%nat BLeaf.

Definition tree_abc : btree nat :=
  BNode (BNode BLeaf 0%nat BLeaf) 1%nat (BNode BLeaf 2%nat BLeaf).

Definition salm_join_right : SALM.t * nat :=
  Eval vm_compute in
    match SALM.join 9 salm_abc_d (Some 1%nat) "k" None with
    | Ok r => r
    | _ => (SALM.empty, 0%nat)
    end.

Definition salm_join_left : SALM.t * nat :=
  Eval vm_compute in
    match SALM.join 9 salm_ab_d None "k" (Some 1%nat) with
    | Ok r => r
    | _ => (SALM.empty, 0%nat)
    end.

Definition salm_rebalance_sample : gmap nat SNode.t :=
  Eval vm_compute in
    match SALM.rebalance 5 (SALM.heap salm_ab) 0%nat with
    | Ok h => h
    | _ => ∅
    end.

(** The sample joins take the paths they are meant to take: the first
    guard of [join] holds for the first; for the second, the second guard
    holds and the first does not, and the tree built first is too high, so
    that the rotations run. *)
Lemma salm_join_paths :
  (SALM.height (SALM.heap salm_abc_d) None + 1
     <? SALM.height (SALM.heap salm_abc_d) (Some 1%nat)) = true
  ∧ (SALM.height (SALM.heap salm_ab_d) (Some 1%nat) + 1
       <? SALM.height (SALM.heap salm_ab_d) None) = false
  ∧ (SALM.height (SALM.heap salm_ab_d) None + 1
       <? SALM.height (SALM.heap salm_ab_d) (Some 1%nat)) = true
  ∧ (let '(s, Tprime) := SALM.nodeWithChildren salm_ab_d None "k" (Some 0%nat) in
     SALM.height (SALM.heap s) (Some Tprime)
       <=? SALM.height (SALM.heap s) None + 1) = false.
Proof. split_and!; vm_compute; reflexivity. Qed.

Lemma owned_sample (s : SALM.t) (A : list nat) :
  NoDup A →
  Forall (λ a, (a < SALM.next s)%nat
               ∧ SALM._nodeByValue s !! sval (SALM.heap s) a = Some a) A →
  owned s A.
Proof.
  intros ND H. rewrite Forall_forall in H. split; [done|..]; intros a Ha;
    by destruct (H a Ha).
Qed.

(** X7.  [join(TL, k, TR)] on two trees of live nodes (nodes that
    [_nodeByValue] leads to) and a value [k] that no live node holds, when it
    returns, returns the root [j] of a tree [J] of live nodes whose values in
    order are those of [TL], then [k], then those of [TR]; the other live
    nodes, whichever list [G] of them one takes, are untouched, and no node
    that existed changes its value. *)
Theorem join_concatenates (fuel : nat) (s : SALM.t) (tl tr : btree nat)
    (k : string) (G : list nat) (s' : SALM.t) (j : nat) :
  shape' (slinks (SALM.heap s)) tl → shape' (slinks (SALM.heap s)) tr →
  owned s (inorder tl ++ inorder tr ++ G) →
  fresh s (inorder tl ++ inorder tr ++ G) k →
  SALM.join fuel s (broot tl) k (broot tr) = Ok (s', j) →
  ∃ J, built s G (svals (SALM.heap s) tl ++ k :: svals (SALM.heap s) tr) s' j J.
Proof. apply join_spec. Qed.

Lemma join_concatenates_witness :
  (∃ J, built salm_abc_d [3%nat]
          (svals (SALM.heap salm_abc_d) tree_abc
           ++ "k" :: svals (SALM.heap salm_abc_d) BLeaf)
          salm_join_right.1 salm_join_right.2 J)
  ∧ (∃ J, built salm_ab_d [2%nat]
            (svals (SALM.heap salm_ab_d) BLeaf
             ++ "k" :: svals (SALM.heap salm_ab_d) tree_ab)
            salm_join_left.1 salm_join_left.2 J).
Proof.
  split.
  - apply (join_concatenates 9 salm_abc_d tree_abc BLeaf "k" [3%nat]).
    + vm_compute. tauto.
    + exact I.
    + apply owned_sample.
      * apply (bool_decide_unpack _). vm_compute. exact I.
      * repeat constructor.
    + intros a Ha. apply (bool_decide_unpack _).
      revert a Ha. apply Forall_forall. repeat constructor.
    + vm_compute. reflexivity.
  - apply (join_concatenates 9 salm_ab_d BLeaf tree_ab "k" [2%nat]).
    + exact I.
    + vm_compute. tauto.
    + apply owned_sample.
      * apply (bool_decide_unpack _). vm_compute. exact I.
      * repeat constructor.
    + intros a Ha. apply (bool_decide_unpack _).
      revert a Ha. apply Forall_forall. repeat constructor.
    + vm_compute. reflexivity.
Defined.

(** X8.  [rebalance(node)] of the manager permutes nothing: started at a
    node of a tree, when it returns, the pointers form a tree again, with the
    same nodes in the same order; the nodes outside the tree are untouched
    and no node changes its value. *)
Theorem rebalance_keeps_the_order (fuel : nat) (h : gmap nat SNode.t)
    (c : list (frame nat)) (l : btree nat) (z : nat) (r : btree nat)
    (h' : gmap nat SNode.t) :
  shape (slinks h) None (plug c (BNode l z r)) →
  NoDup (inorder (plug c (BNode l z r))) →
  SALM.rebalance fuel h z = Ok h' →
  ∃ t', shape (slinks h') None t'
        ∧ inorder t' = inorder (plug c (BNode l z r))
        ∧ (∀ w, w ∉ inorder (plug c (BNode l z r)) → h' !!! w = h !!! w)
        ∧ (∀ w, sval h' w = sval h w).
Proof. apply srebalance_spec. Qed.

Lemma rebalance_keeps_the_order_witness :
  ∃ t', shape (slinks salm_rebalance_sample) None t'
        ∧ inorder t' = inorder (plug [FL 1%nat BLeaf] (BNode BLeaf 0%nat BLeaf))
        ∧ (∀ w, w ∉ inorder (plug [FL 1%nat BLeaf] (BNode BLeaf 0%nat BLeaf)) →
             salm_rebalance_sample !!! w = SALM.heap salm_ab !!! w)
        ∧ (∀ w, sval salm_rebalance_sample w = sval (SALM.heap salm_ab) w).
Proof.
  apply (rebalance_keeps_the_order 5 (SALM.heap salm_ab) [FL 1%nat BLeaf]
           BLeaf 0%nat BLeaf).
  - vm_compute. tauto.
  - simpl. apply NoDup_cons. split; [set_solver|apply NoDup_singleton].
  - vm_compute. reflexivity.
Defined.

(** X9.  The manager with trees agrees with the manager with arrays.  For a
    sequence of calls as the text CRDT makes them (created and appended
    values are new, entries and split values are known): if the calls return
    on the manager with trees, they return on the manager with arrays, and for
    every value created [getEnd] on the arrays returns a value [e], which
    [getEnd] on the trees returns as well unless it is cut off. *)
Theorem trees_agree_with_arrays (fuel : nat) (cs : list call) (s : SALM.t) :
  wellFormed cs ∅ → runAVL fuel cs SALM.empty = Ok s →
  ∃ n, runList cs ListSALM.empty = Ok n
       ∧ ∀ v, v ∈ cs ≫= created →
           ∃ e, ListSALM.getEnd n v = Ok (Some e)
                ∧ ∀ fuel', SALM.getEnd fuel' s v = Ok e
                           ∨ SALM.getEnd fuel' s v = OutOfFuel.
Proof.
  intros Hwf E.
  destruct (simulation fuel cs ListSALM.empty SALM.empty [] ∅ s
              LRep_empty SRep_empty) as (n & Ls & En & HL & HS & Hk);
    [set_solver|done|done|].
  exists n. split; [done|]. intros v Hv.
  assert (v ∈ mjoin Ls) as Hin by (apply Hk; by right).
  destruct (in_mjoin_perm _ _ Hin) as (l & Ls0 & Hvl & Hp).
  apply (LRep_perm _ _ _ Hp) in HL. apply (SRep_perm _ _ _ Hp) in HS.
  rewrite (LRep_getEnd n l Ls0 v HL Hvl).
  destruct (SRep_getEnd_total 0 s l Ls0 v HS Hvl) as (e & He & _).
  exists e. split; [by rewrite He|]. intros fuel'.
  destruct (SRep_getEnd_total fuel' s l Ls0 v HS Hvl) as (e' & He' & H).
  congruence.
Qed.

Lemma trees_agree_with_arrays_witness :
  ∃ n, runList sample_calls ListSALM.empty = Ok n
       ∧ ∀ v, v ∈ sample_calls ≫= created →
           ∃ e, ListSALM.getEnd n v = Ok (Some e)
                ∧ ∀ fuel', SALM.getEnd fuel' sample_run v = Ok e
                           ∨ SALM.getEnd fuel' sample_run v = OutOfFuel.
Proof.
  apply (trees_agree_with_arrays 5 sample_calls sample_run);
    [|exact sample_run_ok].
  simpl. split_and!; try done; set_solver.
Defined.

(** ** The text *)

(** The state ["decbfa"] after the message that puts ["g"] after ["f"]. *)
Definition insert_sample : CTextLogn.t * option Event :=
  Eval vm_compute in
    match CTextLogn.receivePrimitive 20 six_edits_state
            (InsertMessage "06" "05" false "g") with
    | Ok r => r
    | _ => (CTextLogn.new, None)
    end.

Lemma insert_sample_run :
  CTextLogn.receivePrimitive 20 six_edits_state (InsertMessage "06" "05" false "g")
  = Ok (insert_sample.1, insert_sample.2).
Proof. vm_compute. reflexivity. Qed.

Lemma insert_sample_admissible :
  admissible six_edits_state (InsertMessage "06" "05" false "g").
Proof. split_and!; [reflexivity|by eexists|reflexivity]. Qed.

(** X10.  Receiving an insert message in a reachable state, when the handler
    returns, puts the one character into the text and changes nothing else:
    the event is [Insert k] with [0 ≤ k ≤ length], the new text is the old
    one with the character put in at index [k], and [length] has grown by
    one. *)
Theorem insert_message_puts_one_character (fuel : nat) (s : CTextLogn.t)
    (id pid : string) (isL : bool) (v : string) (s' : CTextLogn.t)
    (ev : option Event) :
  reachable s → admissible s (InsertMessage id pid isL v) →
  CTextLogn.receivePrimitive fuel s (InsertMessage id pid isL v) = Ok (s', ev) →
  ∃ k : nat,
    ev = Some (Insert (Z.of_nat k))
    ∧ Z.of_nat k ≤ CTextLogn.length s
    ∧ CTextLogn.length s' = CTextLogn.length s + 1
    ∧ ∃ n, ∀ fuel', (n ≤ fuel')%nat →
        ∃ str, CTextLogn.toString fuel' s = Ok str
               ∧ CTextLogn.toString fuel' s' = Ok (insertChars k v str).
Proof.
  intros [t I]%reachable_Inv Ha E.
  destruct (insert_text fuel s t id pid isL v s' ev I Ha E)
    as (t' & k & I' & -> & Hk & Ep).
  exists k. pose proof (length_pvalues s t I) as EL.
  pose proof (length_pvalues s' t' I') as EL'.
  rewrite Ep, length_app in EL'. simpl in EL'.
  rewrite length_take, length_drop in EL'.
  split_and!; [done|lia|lia|].
  destruct (toString_spec s t I) as (n1 & Hc1 & _).
  destruct (toString_spec s' t' I') as (n2 & Hc2 & _).
  exists (n1 `max` n2)%nat. intros fuel' Hf.
  exists (text_of (CTextLogn.nodesByID s) (inorder t)). split.
  - apply (computes_enough _ _ _ fuel' Hc1). lia.
  - rewrite (computes_enough _ _ _ fuel' Hc2) by lia. f_equal.
    unfold text_of. rewrite Ep. symmetry. apply insertChars_concat.
    by eapply pvalues_chars.
Qed.

Lemma insert_message_puts_one_character_witness :
  ∃ k : nat,
    insert_sample.2 = Some (Insert (Z.of_nat k))
    ∧ Z.of_nat k ≤ CTextLogn.length six_edits_state
    ∧ CTextLogn.length insert_sample.1 = CTextLogn.length six_edits_state + 1
    ∧ ∃ n, ∀ fuel', (n ≤ fuel')%nat →
        ∃ str, CTextLogn.toString fuel' six_edits_state = Ok str
               ∧ CTextLogn.toString fuel' insert_sample.1
                 = Ok (insertChars k "g" str).
Proof.
  exact (insert_message_puts_one_character 20 six_edits_state "06" "05" false "g"
           insert_sample.1 insert_sample.2 six_edits_reachable
           insert_sample_admissible insert_sample_run).
Defined.

(** X11.  Receiving the delete message of a present character in a
    reachable state returns, given enough fuel, with the event
    [Delete k c], where [c] is the character of the node, which stood at
    index [k] of the text; the new text is the old one without that
    character, and [length] is one less. *)
Theorem delete_message_takes_one_character (s : CTextLogn.t) (id : string)
    (node : Node.t) :
  reachable s → CTextLogn.nodesByID s !! id = Some node →
  Node.isPresent node = true →
  ∃ (k n : nat) (s' : CTextLogn.t),
    CTextLogn.length s' = CTextLogn.length s - 1
    ∧ ∀ fuel, (n ≤ fuel)%nat →
        CTextLogn.receivePrimitive fuel s (DeleteMessage id)
        = Ok (s', Some (Delete (Z.of_nat k) (Node.value node)))
        ∧ ∃ str, CTextLogn.toString fuel s = Ok str
                 ∧ String.substring k 1 str = Node.value node
                 ∧ CTextLogn.toString fuel s' = Ok (removeChars k 1 str).
Proof.
  intros [t I]%reachable_Inv Hn Hp.
  assert (id ∈ dom (CTextLogn.nodesByID s)) as Hd by (apply elem_of_dom; eauto).
  pose proof (lookup_total_correct _ _ _ Hn) as Hn'.
  destruct (delete_text s t id I Hd) as (n & s' & k & Hc & I' & Hl & Ep & _).
  { unfold tpres. by rewrite Hn'. }
  rewrite Hn' in Hc, Hl.
  destruct (toString_spec s t I) as (n1 & Hc1 & _).
  destruct (toString_spec s' t I') as (n2 & Hc2 & _).
  pose proof (length_pvalues s t I) as EL.
  pose proof (length_pvalues s' t I') as EL'.
  pose proof (lookup_lt_Some _ _ _ Hl) as Hlt.
  rewrite Ep, length_delete in EL' by eauto.
  exists k, (n `max` (n1 `max` n2))%nat, s'. split; [lia|].
  intros fuel Hf. split.
  - apply (computes_enough _ _ _ fuel Hc). lia.
  - exists (text_of (CTextLogn.nodesByID s) (inorder t)). split_and!.
    + apply (computes_enough _ _ _ fuel Hc1). lia.
    + apply concat_lookup; [by eapply pvalues_chars|done].
    + rewrite (computes_enough _ _ _ fuel Hc2) by lia. f_equal.
      unfold text_of. rewrite Ep. symmetry.
      rewrite removeChars_concat by (by eapply pvalues_chars).
      f_equal. rewrite <- (take_drop k (delete k _)) at 1. f_equal.
      * by rewrite take_delete_ge.
      * rewrite drop_delete_eq. f_equal. lia.
Qed.

Lemma delete_message_takes_one_character_witness :
  ∃ (k n : nat) (s' : CTextLogn.t),
    CTextLogn.length s' = CTextLogn.length six_edits_state - 1
    ∧ ∀ fuel, (n ≤ fuel)%nat →
        CTextLogn.receivePrimitive fuel six_edits_state (DeleteMessage "04")
        = Ok (s', Some (Delete (Z.of_nat k) "e"))
        ∧ ∃ str, CTextLogn.toString fuel six_edits_state = Ok str
                 ∧ String.substring k 1 str = "e"
                 ∧ CTextLogn.toString fuel s' = Ok (removeChars k 1 str).
Proof.
  refine (delete_message_takes_one_character six_edits_state "04"
            (CTextLogn.nodesByID six_edits_state !!! "04")
            six_edits_reachable _ _); reflexivity.
Defined.

(** X12.  No message takes anything back.  After any messages delivered to
    a reachable state, every node of the directory is still there, with the
    id, the parent, the side and the character it had; a character that was
    deleted stays deleted; and the children a node had are among its
    children still, in the same order. *)
Theorem messages_keep_the_nodes (fuel : nat) (s : CTextLogn.t)
    (ms : list NetworkMessage) (s' : CTextLogn.t) :
  reachable s → deliver fuel s ms = Ok s' →
  keeps (CTextLogn.nodesByID s) (CTextLogn.nodesByID s').
Proof.
  intros [t I]%reachable_Inv E. by destruct (deliver_keeps fuel ms s t s' I E).
Qed.

(** A state with a deleted character, and messages for it: a second right
    child for the node of "b", which comes before the child it has; the
    delete of the deleted character again, the delete of "c", and a child
    for the deleted node. *)
Definition keep_before : CTextLogn.t :=
  Eval vm_compute in
    match deliver 20 six_edits_state [DeleteMessage "04"] with
    | Ok s => s
    | _ => CTextLogn.new
    end.

Definition keep_messages : list NetworkMessage :=
  [ InsertMessage "045" "01" false "g"; DeleteMessage "04";
    DeleteMessage "02"; InsertMessage "06" "04" true "h" ].

Definition keep_after : CTextLogn.t :=
  Eval vm_compute in
    match deliver 20 keep_before keep_messages with
    | Ok s => s
    | _ => CTextLogn.new
    end.

Lemma keep_before_reachable : reachable keep_before.
Proof.
  apply (deliver_reachable 20 [DeleteMessage "04"] six_edits_state);
    [exact six_edits_reachable|vm_compute; reflexivity].
Qed.

Lemma keep_after_run : deliver 20 keep_before keep_messages = Ok keep_after.
Proof. vm_compute. reflexivity. Qed.

(** In the sample "e" is deleted before and after, "c" only after, and the
    node of "b" has its right child "05" before and the right children
    "045", "05" after. *)
Lemma keep_sample_facts :
  Node.isPresent (CTextLogn.nodesByID keep_before !!! "04") = false
  ∧ Node.isPresent (CTextLogn.nodesByID keep_after !!! "04") = false
  ∧ Node.isPresent (CTextLogn.nodesByID keep_before !!! "02") = true
  ∧ Node.isPresent (CTextLogn.nodesByID keep_after !!! "02") = false
  ∧ Node.rightChildren (CTextLogn.nodesByID keep_before !!! "01") = ["05"]
  ∧ Node.rightChildren (CTextLogn.nodesByID keep_after !!! "01") = ["045"; "05"]
  ∧ CTextLogn.toString 20 keep_before = Ok "dcbfa"
  ∧ CTextLogn.toString 30 keep_after = Ok "dhbgfa".
Proof. split_and!; vm_compute; reflexivity. Qed.

Lemma messages_keep_the_nodes_witness :
  keeps (CTextLogn.nodesByID keep_before) (CTextLogn.nodesByID keep_after).
Proof.
  exact (messages_keep_the_nodes 20 keep_before keep_messages keep_after
           keep_before_reachable keep_after_run).
Defined.

(** X13.  In a reachable state and for an index [0 ≤ i < length],
    [getPosition(i)] returns, given enough fuel, the id of a present node of
    the directory whose character is the one at index [i] of the text; and
    [indexToNode] never throws "Internal error: failed to find valid index",
    whatever the index and the fuel. *)
Theorem position_names_the_character (s : CTextLogn.t) (i : Z) :
  reachable s →
  (0 ≤ i < CTextLogn.length s →
   ∃ n, ∀ fuel, (n ≤ fuel)%nat →
     ∃ p node str,
       CTextLogn.getPosition fuel s i = Ok p
       ∧ CTextLogn.nodesByID s !! p = Some node
       ∧ Node.isPresent node = true
       ∧ CTextLogn.toString fuel s = Ok str
       ∧ String.substring (Z.to_nat i) 1 str = Node.value node)
  ∧ ∀ fuel, CTextLogn.indexToNode fuel s i ≠ Throw InternalError.
Proof.
  intros [t I]%reachable_Inv. split.
  - intros Hi.
    destruct (indexToNode_char s t i I Hi) as (x & n & Hc & Hx & Hp & Hl & _).
    destruct (toString_spec s t I) as (n1 & Hc1 & _).
    exists (n `max` n1)%nat. intros fuel Hf.
    pose proof Hx as [node Hnode]%elem_of_dom.
    pose proof (lookup_total_correct _ _ _ Hnode) as Hnode'.
    exists x, node, (text_of (CTextLogn.nodesByID s) (inorder t)).
    unfold tpres in Hp. rewrite Hnode' in Hp, Hl. split_and!; try done.
    + unfold CTextLogn.getPosition.
      rewrite (computes_enough _ _ _ fuel Hc) by lia. cbn [bind].
      by rewrite (inv_id _ _ I x Hx).
    + apply (computes_enough _ _ _ fuel Hc1). lia.
    + apply concat_lookup; [by eapply pvalues_chars|done].
  - intros fuel.
    destruct (decide (0 ≤ i < CTextLogn.length s)) as [Hi|Hi].
    + destruct (indexToNode_spec s t i I Hi) as (c & l & x & r & n & _ & _ & _ & Hc).
      by destruct (Hc fuel) as [->|[-> _]].
    + rewrite indexToNode_out; [done|lia].
Qed.

Lemma position_names_the_character_witness :
  ∃ n, ∀ fuel, (n ≤ fuel)%nat →
    ∃ p node str,
      CTextLogn.getPosition fuel six_edits_state 2 = Ok p
      ∧ CTextLogn.nodesByID six_edits_state !! p = Some node
      ∧ Node.isPresent node = true
      ∧ CTextLogn.toString fuel six_edits_state = Ok str
      ∧ String.substring (Z.to_nat 2) 1 str = Node.value node.
Proof.
  destruct (position_names_the_character six_edits_state 2 six_edits_reachable)
    as [H _].
  apply H. rewrite six_edits_length. lia.
Defined.

(** X14.  The bounds of [insert]: in a reachable state [insertOne(i, c)]
    with [i < 0] or [i > length], and so [insert(i, str)] with such an [i]
    and a non-empty [str], throw "index out of bounds" before anything is
    sent; [insert(i, "")] returns the state unchanged, whatever [i]. *)
Theorem insert_out_of_bounds (fuel : nat) (s : CTextLogn.t) (i : Z)
    (c uid : string) (rest : list (string * string)) :
  reachable s → i < 0 ∨ CTextLogn.length s < i →
  CTextLogn.insertOne_message fuel s i c uid = Throw IndexOutOfBounds
  ∧ CTextLogn.insertOne fuel s i c uid = Throw IndexOutOfBounds
  ∧ CTextLogn.insert fuel s i ((c, uid) :: rest) = Throw IndexOutOfBounds
  ∧ CTextLogn.insert fuel s i [] = Ok s.
Proof.
  intros [t I]%reachable_Inv Hi.
  pose proof (length_pvalues s t I) as EL.
  assert (CTextLogn.insertOne_message fuel s i c uid = Throw IndexOutOfBounds)
    as E.
  { unfold CTextLogn.insertOne_message.
    destruct (i =? 0) eqn:E0; [lia|].
    rewrite indexToNode_out; [done|lia]. }
  split_and!; [done| | |done].
  - unfold CTextLogn.insertOne. by rewrite E.
  - simpl. unfold CTextLogn.insertOne. by rewrite E.
Qed.

Lemma insert_out_of_bounds_witness :
  CTextLogn.insertOne_message 20 six_edits_state 7 "x" "06" = Throw IndexOutOfBounds
  ∧ CTextLogn.insertOne 20 six_edits_state 7 "x" "06" = Throw IndexOutOfBounds
  ∧ CTextLogn.insert 20 six_edits_state 7 [("x", "06"); ("y", "07")]
    = Throw IndexOutOfBounds
  ∧ CTextLogn.insert 20 six_edits_state 7 [] = Ok six_edits_state.
Proof.
  apply (insert_out_of_bounds 20 six_edits_state 7 "x" "06" [("y", "07")]
           six_edits_reachable).
  right. rewrite six_edits_length. lia.
Defined.

(** X15.  A position outlives its character.  In a reachable state and for
    an index [0 ≤ i < length], with [p = getPosition(i)]: after
    [delete(i)], [findPosition(p)] returns [(i, false)], the index where the
    character was and the flag that it is gone. *)
Theorem position_of_a_deleted_character (s : CTextLogn.t) (i : Z) :
  reachable s → 0 ≤ i < CTextLogn.length s →
  ∃ n, ∀ fuel, (n ≤ fuel)%nat →
    ∃ p s', CTextLogn.getPosition fuel s i = Ok p
            ∧ CTextLogn.deleteOne fuel s i = Ok s'
            ∧ CTextLogn.findPosition fuel s' p = Ok (i, false).
Proof.
  intros [t I]%reachable_Inv Hi.
  destruct (indexToNode_char s t i I Hi)
    as (x & n & Hc & Hx & Hp & _ & A & B & EA & Ek).
  destruct (delete_text s t x I Hx Hp)
    as (n2 & s' & k & Hc2 & I' & _ & _ & Hf & A' & B' & EA' & Ek').
  assert (A = A') as <-.
  { pose proof I as [(_ & _ & ND & _) _ _ _ _ _]. rewrite EA in ND, EA'.
    by destruct (NoDup_split_eq _ _ _ _ _ ND EA'). }
  assert (Z.of_nat k = i) as Eki by lia. rewrite Eki in Hf.
  exists (n `max` n2)%nat. intros fuel Hfu. exists x, s'.
  pose proof (computes_enough _ _ _ fuel Hc ltac:(lia)) as E1.
  pose proof (computes_enough _ _ _ fuel Hc2 ltac:(lia)) as E2.
  pose proof (computes_enough _ _ _ fuel Hf ltac:(lia)) as E3.
  cbv beta in E1, E2, E3.
  pose proof (inv_id _ _ I x Hx) as Eid.
  split_and!; [|
    |done].
  - unfold CTextLogn.getPosition. rewrite E1. cbn [bind]. by rewrite Eid.
  - unfold CTextLogn.deleteOne, CTextLogn.deleteOne_message.
    rewrite E1. cbn [bind]. rewrite Eid, E2. done.
Qed.

Lemma position_of_a_deleted_character_witness :
  ∃ n, ∀ fuel, (n ≤ fuel)%nat →
    ∃ p s', CTextLogn.getPosition fuel six_edits_state 2 = Ok p
            ∧ CTextLogn.deleteOne fuel six_edits_state 2 = Ok s'
            ∧ CTextLogn.findPosition fuel s' p = Ok (2, false).
Proof.
  apply (position_of_a_deleted_character six_edits_state 2 six_edits_reachable).
  rewrite six_edits_length. lia.
Defined.

(** X16.  In a reachable state the directory nodes are the nodes of the
    balanced index, each once, and [nextNode(x)] returns, given enough fuel,
    the node that follows [x] in the order of the index; at the last node it
    throws "node is last". *)
Theorem nextNode_is_the_successor (s : CTextLogn.t) :
  reachable s →
  ∃ t, indexed (CTextLogn.nodesByID s) (CTextLogn.bRootNode s) t
       ∧ (∀ y, y ∈ inorder t ↔ y ∈ dom (CTextLogn.nodesByID s))
       ∧ ∀ A x rest, inorder t = A ++ x :: rest →
           ∃ n, ∀ fuel, (n ≤ fuel)%nat →
             CTextLogn.nextNode fuel (CTextLogn.nodesByID s) x
             = match rest with
               | y :: _ => Ok y
               | [] => Throw NodeIsLast
               end.
Proof.
  intros [t I]%reachable_Inv. exists t.
  pose proof I as [Ix Hdom _ _ _ _]. split_and!; [done..|].
  intros A x rest Ei.
  destruct (nextNode_spec _ _ t A x rest Ix Ei) as [n H].
  exists n. intros fuel Hf. destruct rest as [|y rest].
  - apply (raises_enough _ _ _ fuel H Hf).
  - apply (computes_enough _ _ _ fuel H Hf).
Qed.

Lemma nextNode_is_the_successor_witness :
  ∃ t, indexed (CTextLogn.nodesByID six_edits_state)
         (CTextLogn.bRootNode six_edits_state) t
       ∧ (∀ y, y ∈ inorder t ↔ y ∈ dom (CTextLogn.nodesByID six_edits_state))
       ∧ ∀ A x rest, inorder t = A ++ x :: rest →
           ∃ n, ∀ fuel, (n ≤ fuel)%nat →
             CTextLogn.nextNode fuel (CTextLogn.nodesByID six_edits_state) x
             = match rest with
               | y :: _ => Ok y
               | [] => Throw NodeIsLast
               end.
Proof.
  exact (nextNode_is_the_successor six_edits_state six_edits_reachable).
Defined.

(** X28.  [delete] is not atomic.  In a reachable state, a call
    [delete(i, k)] that throws IndexOutOfBounds ([k ≥ 1], and [i < 0] or
    [i + k > length]) leaves what the calls of [deleteOne] before the failing
    one have done.  When the range ends inside the text
    ([i + k ≤ length], so [i < 0]), the characters it shares with the text,
    those at the indices [0 .. i+k-1], are deleted by then: the text left
    is the old one without its first [i + k] characters (none if
    [i + k ≤ 0]).  When the range ends after the text, or before it, the first
    call fails and the state is as it was. *)
Theorem delete_is_not_atomic (s : CTextLogn.t) (i : Z) (k : nat) :
  reachable s → (1 ≤ k)%nat → i < 0 ∨ CTextLogn.length s < i + Z.of_nat k →
  ∃ n s',
    (∀ fuel, (n ≤ fuel)%nat →
       ∃ str,
         CTextLogn.delete fuel s i k = (s', Throw IndexOutOfBounds)
         ∧ CTextLogn.toString fuel s = Ok str
         ∧ CTextLogn.toString fuel s'
           = Ok (if decide (i + Z.of_nat k ≤ CTextLogn.length s)
                 then removeChars 0 (Z.to_nat (i + Z.of_nat k)) str
                 else str))
    ∧ (CTextLogn.length s < i + Z.of_nat k ∨ i + Z.of_nat k ≤ 0 → s' = s).
Proof.
  intros [t I]%reachable_Inv Hk Hout.
  destruct (delete_throws k s t i I Hk Hout) as (n1 & s' & Hr & I' & Ep & Hsame).
  destruct (toString_spec s t I) as (n2 & Hc2 & _).
  destruct (toString_spec s' t I') as (n3 & Hc3 & _).
  exists (n1 `max` (n2 `max` n3))%nat, s'. split; [|done].
  intros fuel Hf.
  exists (text_of (CTextLogn.nodesByID s) (inorder t)). split_and!.
  - apply Hr. lia.
  - apply (computes_enough _ _ _ fuel Hc2). lia.
  - rewrite (computes_enough _ _ _ fuel Hc3) by lia. f_equal.
    unfold text_of. rewrite Ep. destruct (decide _) as [Hle|]; [|done].
    symmetry. rewrite removeChars_concat by (by eapply pvalues_chars). done.
Qed.

(** With the text "decbfa", [delete(-1, 2)] deletes "d" and throws. *)
Lemma delete_sample_run :
  (CTextLogn.delete 20 six_edits_state (-1) 2).2 = Throw IndexOutOfBounds
  ∧ CTextLogn.toString 20 (CTextLogn.delete 20 six_edits_state (-1) 2).1
    = Ok "ecbfa".
Proof. split; vm_compute; reflexivity. Qed.

Lemma delete_is_not_atomic_witness :
  ∃ n s',
    (∀ fuel, (n ≤ fuel)%nat →
       ∃ str,
         CTextLogn.delete fuel six_edits_state (-1) 2
         = (s', Throw IndexOutOfBounds)
         ∧ CTextLogn.toString fuel six_edits_state = Ok str
         ∧ CTextLogn.toString fuel s'
           = Ok (if decide (-1 + Z.of_nat 2 ≤ CTextLogn.length six_edits_state)
                 then removeChars 0 (Z.to_nat (-1 + Z.of_nat 2)) str
                 else str))
    ∧ (CTextLogn.length six_edits_state < -1 + Z.of_nat 2
       ∨ -1 + Z.of_nat 2 ≤ 0 → s' = six_edits_state).
Proof.
  apply (delete_is_not_atomic six_edits_state (-1) 2 six_edits_reachable);
    [lia|left; lia].
Defined.

(** * Replicas that received the same messages *)

(** ** The order of the ids *)

Definition lt_id (a b : string) : Prop := String.ltb a b = true.

Lemma ascii_compare_refl (a : Ascii.ascii) : Ascii.compare a a = Eq.
Proof. unfold Ascii.compare. apply N.compare_refl. Qed.

Lemma ascii_compare_trans (a b c : Ascii.ascii) :
  Ascii.compare a b = Lt → Ascii.compare b c = Lt → Ascii.compare a c = Lt.
Proof.
  unfold Ascii.compare. rewrite !N.compare_lt_iff. apply N.lt_trans.
Qed.

Lemma string_compare_trans : ∀ a b c : string,
  String.compare a b = Lt → String.compare b c = Lt → String.compare a c = Lt.
Proof.
  induction a as [|x a IH]; intros [|y b] [|z c]; simpl; try done.
  destruct (Ascii.compare x y) eqn:Exy; [|intros _|done].
  - apply Ascii.compare_eq_iff in Exy as ->.
    destruct (Ascii.compare y z) eqn:Eyz; [|done..]. apply IH.
  - destruct (Ascii.compare y z) eqn:Eyz; [|intros _|done].
    + apply Ascii.compare_eq_iff in Eyz as ->. by rewrite Exy.
    + by rewrite (ascii_compare_trans x y z).
Qed.

Lemma lt_id_trans a b c : lt_id a b → lt_id b c → lt_id a c.
Proof.
  unfold lt_id, String.ltb. intros Hab Hbc.
  destruct (String.compare a b) eqn:Eab; try done.
  destruct (String.compare b c) eqn:Ebc; try done.
  by rewrite (string_compare_trans a b c).
Qed.

Lemma lt_id_irrefl a : ¬ lt_id a a.
Proof.
  unfold lt_id, String.ltb. pose proof (String.compare_antisym a a) as H.
  destruct (String.compare a a); simpl in H; done.
Qed.

Lemma lt_id_total a b : a ≠ b → String.ltb a b = false → lt_id b a.
Proof.
  unfold lt_id, String.ltb. intros Hne Hab.
  rewrite String.compare_antisym.
  destruct (String.compare a b) eqn:Eab; try done.
  by apply String.compare_eq_iff in Eab.
Qed.

Lemma sorted_NoDup (l : list string) : StronglySorted lt_id l → NoDup l.
Proof.
  induction 1 as [|x l _ IH Hx]; constructor; [|done].
  intros Hin. rewrite Forall_forall in Hx. by apply (lt_id_irrefl x), Hx.
Qed.

Lemma sorted_same (l1 l2 : list string) :
  StronglySorted lt_id l1 → StronglySorted lt_id l2 →
  (∀ x, x ∈ l1 ↔ x ∈ l2) → l1 = l2.
Proof.
  intros S1 S2 He. apply (StronglySorted_unique_strong lt_id); try done.
  - intros x1 x2 _ _ H12 H21. destruct (lt_id_irrefl x1). by eapply lt_id_trans.
  - apply NoDup_Permutation; [by apply sorted_NoDup..|done].
Qed.

(** [siblings.splice(i, 0, node)] at the index that the loop finds keeps the
    siblings in the order of their ids. *)
Lemma splice_sorted (h : gmap string Node.t) id (sibs : list string) :
  StronglySorted lt_id sibs → id ∉ sibs →
  (∀ c, c ∈ sibs → Node.id (h !!! c) = c) →
  StronglySorted lt_id
    (CTextLogn.splice (CTextLogn.siblingIndex h id sibs) id sibs).
Proof.
  induction 1 as [|c sibs Hs IH Hc]; intros Hid Hids.
  - repeat constructor.
  - simpl. rewrite (Hids c) by (by left).
    assert (id ≠ c) as Hne by (intros ->; apply Hid; by left).
    assert (id ∉ sibs) as Hid' by (intros ?; apply Hid; by right).
    destruct (String.ltb id c) eqn:Elt.
    + unfold CTextLogn.splice. simpl. constructor; [by constructor|].
      constructor; [done|]. eapply Forall_impl; [done|].
      intros y Hy. by apply (lt_id_trans id c y).
    + unfold CTextLogn.splice. simpl. constructor.
      * apply IH; [done|]. intros y Hy. apply Hids. by right.
      * apply Forall_app. split; [by apply Forall_take|].
        constructor; [by apply lt_id_total|by apply Forall_drop].
Qed.

(** ** The lists of children *)

(** The parent of a node is in the directory; the lists of children are in
    the order of the ids and hold exactly the nodes that name the node as
    their parent, on that side. *)
Record Kids (h : gmap string Node.t) : Prop := mkKids {
  kids_parent : ∀ c p, c ∈ dom h → Node.parent (h !!! c) = Some p → p ∈ dom h;
  kids_sorted : ∀ p side, p ∈ dom h →
    StronglySorted lt_id (Node.children side (h !!! p));
  kids_in : ∀ p side c, p ∈ dom h →
    c ∈ Node.children side (h !!! p)
    ↔ c ∈ dom h ∧ Node.parent (h !!! c) = Some p
      ∧ Node.isLeftChild (h !!! c) = side;
}.

Lemma Kids_new : Kids (CTextLogn.nodesByID CTextLogn.new).
Proof.
  assert (∀ y, y ∈ dom (CTextLogn.nodesByID CTextLogn.new) → y = CTextLogn.rootNode)
    as Hd.
  { intros y. simpl. rewrite dom_singleton_L. set_solver. }
  split.
  - intros c p ->%Hd. simpl. by rewrite lookup_total_singleton.
  - intros p side ->%Hd. simpl. rewrite lookup_total_singleton.
    destruct side; constructor.
  - intros p side c ->%Hd. simpl. rewrite lookup_total_singleton. split.
    + destruct side; simpl; by intros ?%elem_of_nil.
    + intros (->%Hd & Hp & _). simpl in Hp.
      by rewrite lookup_total_singleton in Hp.
Qed.

Lemma elem_of_splice i (id c : string) l :
  c ∈ CTextLogn.splice i id l ↔ c = id ∨ c ∈ l.
Proof.
  unfold CTextLogn.splice. rewrite <- (take_drop i l) at 3.
  rewrite !elem_of_app, elem_of_cons. tauto.
Qed.

Lemma Kids_ext h h' :
  Kids h → dom h' = dom h →
  (∀ y, Node.parent (h' !!! y) = Node.parent (h !!! y)
        ∧ Node.isLeftChild (h' !!! y) = Node.isLeftChild (h !!! y)
        ∧ ∀ side, Node.children side (h' !!! y) = Node.children side (h !!! y)) →
  Kids h'.
Proof.
  intros [K1 K2 K3] Hd He. split.
  - intros c p. rewrite Hd. destruct (He c) as (-> & _). apply K1.
  - intros p side. rewrite Hd. destruct (He p) as (_ & _ & ->). apply K2.
  - intros p side c. rewrite Hd. destruct (He p) as (_ & _ & ->).
    destruct (He c) as (-> & -> & _). apply K3.
Qed.

Lemma Kids_entered h h' id pid isL v :
  Kids h → (∀ y, y ∈ dom h → Node.id (h !!! y) = y) →
  id ∉ dom h → pid ∈ dom h →
  (∀ y, core (h' !!! y) = core ((entered h id pid isL v).1.1 !!! y)) →
  dom h' = {[id]} ∪ dom h →
  Kids h'.
Proof.
  intros [K1 K2 K3] Hid Hfresh Hpid Hcore Hd.
  assert (pid ≠ id) as Hne by (by intros ->).
  set (old := Node.children isL (h !!! pid)).
  set (h1 := <[id := Node.new id (Some pid) isL v true]> h).
  set (sibs := CTextLogn.splice (CTextLogn.siblingIndex h1 id old) id old).
  assert (∀ y, Node.parent (h' !!! y)
               = (if decide (y = id) then Some pid else Node.parent (h !!! y))
             ∧ Node.isLeftChild (h' !!! y)
               = (if decide (y = id) then isL else Node.isLeftChild (h !!! y))
             ∧ ∀ side, Node.children side (h' !!! y)
                 = if decide (y = id) then []
                   else if decide (y = pid ∧ side = isL) then sibs
                   else Node.children side (h !!! y)) as Hf.
  { intros y. specialize (Hcore y). unfold entered in Hcore. simpl in Hcore.
    fold old h1 sibs in Hcore. rewrite wr_lookup in Hcore.
    assert (∀ n, core (h' !!! y) = core n →
              Node.parent (h' !!! y) = Node.parent n
              ∧ Node.isLeftChild (h' !!! y) = Node.isLeftChild n
              ∧ ∀ side, Node.children side (h' !!! y) = Node.children side n)
      as Hget.
    { intros n Hn. unfold core in Hn. split_and!; [by simplify_eq..|].
      intros []; simpl; by simplify_eq. }
    destruct (decide (y = id)) as [->|Hy].
    - rewrite decide_False in Hcore by done. unfold h1 in Hcore.
      rewrite lookup_total_insert_eq in Hcore.
      destruct (Hget _ Hcore) as (-> & -> & Hc).
      split_and!; [done..|]. intros side. rewrite Hc. by destruct side.
    - destruct (decide (pid = y)) as [<-|Hp].
      + unfold h1 in Hcore. rewrite lookup_total_insert_ne in Hcore by done.
        destruct (Hget _ Hcore) as (-> & -> & Hc).
        split_and!; [done..|]. intros side. rewrite Hc.
        destruct (decide (pid = pid ∧ side = isL)) as [[_ ->]|Hn].
        * by destruct isL.
        * destruct side, isL; simpl; try done; destruct Hn; done.
      + unfold h1 in Hcore. rewrite lookup_total_insert_ne in Hcore by done.
        destruct (Hget _ Hcore) as (-> & -> & Hc).
        split_and!; [done..|]. intros side. rewrite Hc.
        rewrite decide_False; [done|]. intros [-> _]. done. }
  assert (∀ c, c ∈ old → c ∈ dom h) as Hold.
  { intros c Hc. by apply (K3 pid isL c Hpid). }
  assert (StronglySorted lt_id sibs) as Hsorted.
  { apply splice_sorted; [by apply K2| |].
    - intros Hin. by apply Hfresh, Hold.
    - intros c Hc. unfold h1. rewrite lookup_total_insert_ne.
      + by apply Hid, Hold.
      + intros <-. by apply Hfresh, Hold. }
  split.
  - intros c p. rewrite Hd. destruct (Hf c) as (-> & _).
    rewrite elem_of_union, elem_of_singleton.
    destruct (decide (c = id)) as [->|Hc].
    + intros _ [= <-]. set_solver.
    + intros [?|Hcd] Hp; [done|]. apply elem_of_union_r. by eapply K1.
  - intros p side. rewrite Hd. destruct (Hf p) as (_ & _ & ->).
    rewrite elem_of_union, elem_of_singleton.
    destruct (decide (p = id)) as [->|Hp]; [constructor|].
    intros [?|Hpd]; [done|].
    destruct (decide _); [done|by apply K2].
  - intros p side c. rewrite Hd. destruct (Hf p) as (_ & _ & ->).
    destruct (Hf c) as (-> & -> & _).
    rewrite !elem_of_union, !elem_of_singleton.
    destruct (decide (p = id)) as [->|Hp].
    + intros _. rewrite elem_of_nil. split; [done|].
      destruct (decide (c = id)) as [->|Hc].
      * intros (_ & [= ?] & _). done.
      * intros ([?|Hcd] & Hpar & _); [done|]. by apply Hfresh, (K1 c id).
    + intros [?|Hpd]; [done|].
      destruct (decide (p = pid ∧ side = isL)) as [[-> ->]|Hn].
      * unfold sibs. rewrite elem_of_splice. unfold old.
        destruct (decide (c = id)) as [->|Hc]; [tauto|].
        rewrite (K3 pid isL c Hpid). tauto.
      * destruct (decide (c = id)) as [->|Hc].
        -- rewrite (K3 p side id Hpd). split; [tauto|].
           intros (_ & [= <-] & <-). by destruct Hn.
        -- rewrite (K3 p side c Hpd). tauto.
Qed.

Lemma Kids_receive fuel s t m s' ev :
  Inv s t → Kids (CTextLogn.nodesByID s) → admissible s m →
  CTextLogn.receivePrimitive fuel s m = Ok (s', ev) →
  Kids (CTextLogn.nodesByID s').
Proof.
  intros I K Ha E. destruct m as [id|id pid isL v].
  - assert (id ∈ dom (CTextLogn.nodesByID s)) as Hx by (by apply elem_of_dom).
    destruct (receive_delete s t id I Hx) as (n & s1 & ev1 & Hc & I' & Hd).
    pose proof (computes_ok _ _ _ _ _ Hc E) as [= <- <-].
    destruct (tpres (CTextLogn.nodesByID s) id); [|by destruct Hd as [-> _]].
    destruct Hd as (c & l & r & _ & Hy & Hd & _).
    apply (Kids_ext (CTextLogn.nodesByID s)); [done..|].
    intros y. rewrite Hy. unfold deleted.
    pose proof (bump_core (-1) (id :: (fid <$> c))
      (CTextLogn.wr (Node.set_isPresent false) id (CTextLogn.nodesByID s)) y) as Hb.
    rewrite wr_lookup in Hb.
    assert (core (bump (-1) (id :: (fid <$> c))
              (CTextLogn.wr (Node.set_isPresent false) id (CTextLogn.nodesByID s)) y)
            = core (Node.set_isPresent false (CTextLogn.nodesByID s !!! y))
            ∨ core (bump (-1) (id :: (fid <$> c))
              (CTextLogn.wr (Node.set_isPresent false) id (CTextLogn.nodesByID s)) y)
            = core (CTextLogn.nodesByID s !!! y)) as [Hb'|Hb'].
    { destruct (decide (id = y)) as [->|]; [by left|by right]. }
    + unfold core in Hb'. simpl in Hb'. split_and!; [by simplify_eq..|].
      intros []; simpl; by simplify_eq.
    + unfold core in Hb'. split_and!; [by simplify_eq..|].
      intros []; simpl; by simplify_eq.
  - pose proof (receive_insert fuel s t id pid isL v s' ev I Ha E) as H.
    unfold entered in H.
    destruct H as (t' & A & B & pred & succ & _ & _ & _ & _ & _ & Hcore & Hd' & _).
    destruct Ha as (Hfresh & Hpar & _). destruct I as [_ _ Hid _ _ _].
    apply (Kids_entered (CTextLogn.nodesByID s) _ id pid isL v); try done.
    + by apply not_elem_of_dom.
    + by apply elem_of_dom.
Qed.

(** ** What the messages say *)

(** The directory holds the root and the inserted nodes, each as its insert
    message describes it, and present unless a delete message names it. *)
Record describes (ms : list NetworkMessage) (h : gmap string Node.t)
  : Prop := mkDescribes {
  d_dom : ∀ y, y ∈ dom h
               ↔ y = CTextLogn.rootNode ∨ ∃ pid isL v, InsertMessage y pid isL v ∈ ms;
  d_del : ∀ y, DeleteMessage y ∈ ms → y ∈ dom h;
  d_root : Node.parent (h !!! CTextLogn.rootNode) = None
           ∧ Node.isLeftChild (h !!! CTextLogn.rootNode) = false
           ∧ Node.value (h !!! CTextLogn.rootNode) = ""
           ∧ Node.isPresent (h !!! CTextLogn.rootNode) = false;
  d_node : ∀ id pid isL v, InsertMessage id pid isL v ∈ ms →
    Node.parent (h !!! id) = Some pid
    ∧ Node.isLeftChild (h !!! id) = isL
    ∧ Node.value (h !!! id) = v
    ∧ (Node.isPresent (h !!! id) = true ↔ DeleteMessage id ∉ ms);
}.

Lemma describes_new : describes [] (CTextLogn.nodesByID CTextLogn.new).
Proof.
  split.
  - intros y. simpl. rewrite dom_singleton_L, elem_of_singleton. split; [tauto|].
    intros [?|(? & ? & ? & ?%elem_of_nil)]; done.
  - by intros y ?%elem_of_nil.
  - simpl. by rewrite lookup_total_singleton.
  - by intros ???? ?%elem_of_nil.
Qed.

Lemma describes_perm ms ms' h : ms ≡ₚ ms' → describes ms h → describes ms' h.
Proof.
  intros Hp [D1 D2 D3 D4]. split.
  - intros y. rewrite D1. by setoid_rewrite Hp.
  - intros y. rewrite <- Hp. apply D2.
  - done.
  - intros id pid isL v. rewrite <- Hp. apply D4.
Qed.

Lemma describes_insert ms h h' id pid isL v :
  describes ms h → id ∉ dom h →
  dom h' = {[id]} ∪ dom h →
  (∀ y, y ≠ id →
     Node.parent (h' !!! y) = Node.parent (h !!! y)
     ∧ Node.isLeftChild (h' !!! y) = Node.isLeftChild (h !!! y)
     ∧ Node.value (h' !!! y) = Node.value (h !!! y)
     ∧ Node.isPresent (h' !!! y) = Node.isPresent (h !!! y)) →
  Node.parent (h' !!! id) = Some pid → Node.isLeftChild (h' !!! id) = isL →
  Node.value (h' !!! id) = v → Node.isPresent (h' !!! id) = true →
  describes (InsertMessage id pid isL v :: ms) h'.
Proof.
  intros [D1 D2 D3 D4] Hfresh Hd Hold Hp Hs Hv Hpres.
  assert (CTextLogn.rootNode ≠ id) as Hr.
  { intros <-. apply Hfresh, D1. by left. }
  split.
  - intros y. rewrite Hd, elem_of_union, elem_of_singleton, D1. split.
    + intros [->|[->|(p & i & w & Hm)]]; [right|by left|right].
      * exists pid, isL, v. by left.
      * exists p, i, w. by right.
    + intros [->|(p & i & w & Hm)]; [tauto|].
      apply elem_of_cons in Hm as [[= -> _ _ _]|Hm]; [by left|].
      right. right. eauto.
  - intros y [?|Hy]%elem_of_cons; [done|]. rewrite Hd.
    apply elem_of_union_r. by apply D2.
  - destruct (Hold _ Hr) as (-> & -> & -> & ->). done.
  - intros id' pid' isL' v' [[= -> -> -> ->]|Hm]%elem_of_cons.
    + split_and!; [done..|]. split; [|done]. intros _.
      intros [?|Hdel]%elem_of_cons; [done|]. by apply Hfresh, D2.
    + assert (id' ≠ id) as Hne.
      { intros ->. apply Hfresh, D1. right. eauto. }
      destruct (Hold _ Hne) as (-> & -> & -> & ->).
      destruct (D4 _ _ _ _ Hm) as (? & ? & ? & Hiff). split_and!; [done..|].
      rewrite Hiff, elem_of_cons. split; [|tauto]. intros ? [?|?]; done.
Qed.

Lemma describes_delete ms h h' id :
  describes ms h → id ∈ dom h → dom h' = dom h →
  (∀ y, Node.parent (h' !!! y) = Node.parent (h !!! y)
        ∧ Node.isLeftChild (h' !!! y) = Node.isLeftChild (h !!! y)
        ∧ Node.value (h' !!! y) = Node.value (h !!! y)) →
  (∀ y, y ≠ id → Node.isPresent (h' !!! y) = Node.isPresent (h !!! y)) →
  Node.isPresent (h' !!! id) = false →
  describes (DeleteMessage id :: ms) h'.
Proof.
  intros [D1 D2 D3 D4] Hid Hd Hold Hpres Hgone. split.
  - intros y. rewrite Hd, D1. split.
    + intros [->|(p & i & w & Hm)]; [by left|right].
      exists p, i, w. by right.
    + intros [->|(p & i & w & Hm)]; [tauto|].
      apply elem_of_cons in Hm as [?|Hm]; [done|]. right. eauto.
  - intros y [[= ->]|Hy]%elem_of_cons; rewrite Hd; [done|by apply D2].
  - destruct (Hold CTextLogn.rootNode) as (-> & -> & ->).
    destruct D3 as (? & ? & ? & Hp). split_and!; [done..|].
    destruct (decide (CTextLogn.rootNode = id)) as [->|Hne]; [done|].
    by rewrite Hpres.
  - intros id' pid' isL' v' [?|Hm]%elem_of_cons; [done|].
    destruct (Hold id') as (-> & -> & ->).
    destruct (D4 _ _ _ _ Hm) as (? & ? & ? & Hiff). split_and!; [done..|].
    destruct (decide (id' = id)) as [->|Hne].
    + rewrite Hgone. split; [done|]. intros Hn. destruct Hn. by left.
    + rewrite Hpres, Hiff, elem_of_cons by done. split; [|tauto].
      intros ? [[= ?]|?]; done.
Qed.

Lemma describes_receive fuel s t ms m s' ev :
  Inv s t → describes ms (CTextLogn.nodesByID s) → admissible s m →
  CTextLogn.receivePrimitive fuel s m = Ok (s', ev) →
  describes (m :: ms) (CTextLogn.nodesByID s').
Proof.
  intros I D Ha E. destruct m as [id|id pid isL v].
  - assert (id ∈ dom (CTextLogn.nodesByID s)) as Hx by (by apply elem_of_dom).
    destruct (receive_delete s t id I Hx) as (n & s1 & ev1 & Hc & I' & Hd).
    pose proof (computes_ok _ _ _ _ _ Hc E) as [= <- <-].
    destruct (tpres (CTextLogn.nodesByID s) id) eqn:Hp.
    2:{ destruct Hd as [-> _]. by apply (describes_delete ms (CTextLogn.nodesByID s)). }
    destruct Hd as (c & l & r & _ & Hy & Hd & _).
    assert (∀ y, core (CTextLogn.nodesByID s' !!! y)
                 = core (if decide (id = y)
                         then Node.set_isPresent false (CTextLogn.nodesByID s !!! id)
                         else CTextLogn.nodesByID s !!! y)) as Hcore.
    { intros y. rewrite Hy. unfold deleted. by rewrite bump_core, wr_lookup. }
    apply (describes_delete ms (CTextLogn.nodesByID s)); try done.
    + intros y. specialize (Hcore y).
      destruct (decide (id = y)) as [->|]; unfold core in Hcore; simpl in Hcore;
        split_and!; by simplify_eq.
    + intros y Hne. specialize (Hcore y). rewrite decide_False in Hcore by done.
      unfold core in Hcore. by simplify_eq.
    + specialize (Hcore id). rewrite decide_True in Hcore by done.
      unfold core in Hcore. simpl in Hcore. by simplify_eq.
  - pose proof (receive_insert fuel s t id pid isL v s' ev I Ha E) as H.
    unfold entered in H.
    destruct H as (t' & A & B & pred & succ & _ & _ & _ & _ & _ & Hcore & Hd' & _).
    destruct Ha as (Hfresh & Hpar & _).
    assert (id ∉ dom (CTextLogn.nodesByID s)) as Hidd by (by apply not_elem_of_dom).
    assert (pid ≠ id) as Hne by (intros ->; by apply Hidd, elem_of_dom).
    pose proof (entered_kept (CTextLogn.nodesByID s) id pid isL v) as Hk.
    pose proof (entered_new (CTextLogn.nodesByID s) id pid isL v Hne) as Hn.
    unfold entered in Hk, Hn. simpl in Hk, Hn.
    assert (core (CTextLogn.nodesByID s' !!! id)
            = core (Node.new id (Some pid) isL v true)) as Hnew.
    { rewrite Hcore. by rewrite Hn. }
    unfold core in Hnew. simpl in Hnew.
    apply (describes_insert ms (CTextLogn.nodesByID s)); try done;
      [|by simplify_eq..].
    intros y Hy. specialize (Hcore y).
    destruct (Hk y Hy) as (Hp & Hv & _ & Hpa & Hs). unfold tpres in Hp.
    unfold core in Hcore. simplify_eq. split_and!; congruence.
Qed.

Lemma deliver_describes fuel ms : ∀ s ms0 s',
  reachable s → describes ms0 (CTextLogn.nodesByID s) →
  Kids (CTextLogn.nodesByID s) →
  deliver fuel s ms = Ok s' →
  reachable s' ∧ describes (rev ms ++ ms0) (CTextLogn.nodesByID s')
  ∧ Kids (CTextLogn.nodesByID s').
Proof.
  induction ms as [|m ms IH]; intros s ms0 s' Hr D K E; simpl in E.
  - by injection E as <-.
  - destruct (decide (admissible s m)) as [Ha|]; [|done].
    destruct (CTextLogn.receivePrimitive fuel s m) as [[s1 ev]| |] eqn:E1;
      cbn [bind] in E; [|done..].
    destruct (reachable_Inv s Hr) as [t I].
    destruct (IH s1 (m :: ms0) s') as (Hr' & D' & K'); try done.
    + by eapply reachable_receive.
    + by eapply describes_receive.
    + by eapply Kids_receive.
    + split_and!; [done| |done]. simpl. by rewrite <- app_assoc.
Qed.

(** Two directories that the same messages describe list the same nodes in
    the same order and spell the same text. *)
Lemma same_description ms1 ms2 s1 s2 t1 t2 :
  ms1 ≡ₚ ms2 →
  describes ms1 (CTextLogn.nodesByID s1) → describes ms2 (CTextLogn.nodesByID s2) →
  Kids (CTextLogn.nodesByID s1) → Kids (CTextLogn.nodesByID s2) →
  Ordered s1 t1 → Ordered s2 t2 →
  dom (CTextLogn.nodesByID s1) = dom (CTextLogn.nodesByID s2)
  ∧ (∀ y, y ∈ dom (CTextLogn.nodesByID s1) →
       core (CTextLogn.nodesByID s1 !!! y) = core (CTextLogn.nodesByID s2 !!! y))
  ∧ inorder t1 = inorder t2.
Proof.
  intros Hp D1 D2 K1 K2 (I1 & [f1 Ec1] & _) (I2 & [f2 Ec2] & _).
  apply (describes_perm _ _ _ Hp) in D1.
  set (h1 := CTextLogn.nodesByID s1) in *. set (h2 := CTextLogn.nodesByID s2) in *.
  assert (dom h1 = dom h2) as Hd.
  { apply set_eq. intros y. by rewrite (d_dom _ _ D1), (d_dom _ _ D2). }
  assert (∀ y, y ∈ dom h1 →
            Node.parent (h1 !!! y) = Node.parent (h2 !!! y)
            ∧ Node.isLeftChild (h1 !!! y) = Node.isLeftChild (h2 !!! y)
            ∧ Node.value (h1 !!! y) = Node.value (h2 !!! y)
            ∧ Node.isPresent (h1 !!! y) = Node.isPresent (h2 !!! y)) as Hf.
  { intros y [->|(p & i & w & Hm)]%(d_dom _ _ D1).
    - destruct (d_root _ _ D1) as (-> & -> & -> & ->).
      by destruct (d_root _ _ D2) as (-> & -> & -> & ->).
    - destruct (d_node _ _ D1 _ _ _ _ Hm) as (-> & -> & -> & H1).
      destruct (d_node _ _ D2 _ _ _ _ Hm) as (-> & -> & -> & H2).
      split_and!; [done..|].
      destruct (Node.isPresent (h1 !!! y)), (Node.isPresent (h2 !!! y)); try done.
      + by pose proof (proj2 H2 (proj1 H1 eq_refl)).
      + exact (proj2 H1 (proj1 H2 eq_refl)). }
  assert (∀ y side, y ∈ dom h1 →
            Node.children side (h1 !!! y) = Node.children side (h2 !!! y)) as Hc.
  { intros y side Hy. apply sorted_same.
    - by apply kids_sorted.
    - apply kids_sorted; [done|]. by rewrite <- Hd.
    - intros c. rewrite (kids_in _ K1 y side c Hy).
      rewrite (kids_in _ K2 y side c) by (by rewrite <- Hd). rewrite <- Hd.
      split; intros (Hcd & Hpa & Hs); destruct (Hf c Hcd) as (E1 & E2 & _);
        split_and!; congruence. }
  assert (∀ y, y ∈ dom h1 → core (h1 !!! y) = core (h2 !!! y)) as Hcore.
  { intros y Hy. destruct (Hf y Hy) as (E1 & E2 & E3 & E4).
    pose proof (Hc y true Hy) as E5. pose proof (Hc y false Hy) as E6.
    simpl in E5, E6. unfold core.
    pose proof (inv_id _ _ I1 y Hy) as E7. fold h1 in E7.
    pose proof (inv_id _ _ I2 y) as E8. fold h2 in E8. rewrite <- Hd in E8.
    by rewrite E1, E2, E3, E4, E5, E6, E7, (E8 Hy). }
  split_and!; [done..|].
  eapply canonicalInorder_fun; [|exact Ec2].
  eapply canonicalInorder_ext; [|exact Ec1].
  intros y Hy%(inv_dom _ _ I1).
  split; symmetry; [apply (Hc y true Hy)|apply (Hc y false Hy)].
Qed.

Lemma reachable_described s :
  reachable s →
  Kids (CTextLogn.nodesByID s) ∧ ∃ ms, describes ms (CTextLogn.nodesByID s).
Proof.
  induction 1 as [|s m fuel s' ev Hr [K [ms D]] Ha E].
  - split; [apply Kids_new|]. exists []. apply describes_new.
  - destruct (reachable_Inv s Hr) as [t I]. split.
    + by eapply Kids_receive.
    + exists (m :: ms). by eapply describes_receive.
Qed.

(** Replicas in the same state that receive the same messages, in any two
    orders, list the same nodes in the same order. *)
Lemma deliver_converges fuel1 fuel2 s ms1 ms2 s1 s2 :
  reachable s → ms1 ≡ₚ ms2 →
  deliver fuel1 s ms1 = Ok s1 → deliver fuel2 s ms2 = Ok s2 →
  ∃ t1 t2, Inv s1 t1 ∧ Inv s2 t2 ∧ inorder t1 = inorder t2
    ∧ dom (CTextLogn.nodesByID s1) = dom (CTextLogn.nodesByID s2)
    ∧ (∀ y, y ∈ dom (CTextLogn.nodesByID s1) →
         core (CTextLogn.nodesByID s1 !!! y) = core (CTextLogn.nodesByID s2 !!! y)).
Proof.
  intros Hr Hp E1 E2. destruct (reachable_described s Hr) as [K [ms0 D]].
  destruct (deliver_describes fuel1 ms1 s ms0 s1 Hr D K E1) as (Hr1 & D1 & K1).
  destruct (deliver_describes fuel2 ms2 s ms0 s2 Hr D K E2) as (Hr2 & D2 & K2).
  destruct (reachable_Ordered s1 Hr1) as [t1 O1].
  destruct (reachable_Ordered s2 Hr2) as [t2 O2].
  exists t1, t2.
  destruct (same_description (rev ms1 ++ ms0) (rev ms2 ++ ms0) s1 s2 t1 t2)
    as (Hd & Hc & Ei); try done.
  { by rewrite <- (Permutation_rev ms1), <- (Permutation_rev ms2), Hp. }
  destruct O1 as (I1 & _), O2 as (I2 & _). done.
Qed.

(** * The ground truth

    [CTextLognGroundTruth] of [benchmarks/old_crdts/ground_truth.ts]: "CRDT
    tree only, no other layers".  It receives the same messages as
    [CTextLogn]; its nodes carry [count], the number of present nodes of
    their subtree, instead of the links of a balanced tree. *)

Module GNode.
Record t := mk {
  id : string;
  parent : option string;
  isLeftChild : bool;
  value : string;
  isPresent : bool;
  leftChildren : list string;
  rightChildren : list string;
  count : Z;
}.
Definition new (id : string) (parent : option string) (isLeftChild : bool)
    (value : string) (isPresent : bool) : t :=
  mk id parent isLeftChild value isPresent [] [] 0.
Global Instance inhabited : Inhabited t := populate (new "" None false "" false).
Definition children (left : bool) (n : t) : list string :=
  if left then leftChildren n else rightChildren n.
Definition set_isPresent (v : bool) (n : t) : t :=
  mk (id n) (parent n) (isLeftChild n) (value n) v (leftChildren n)
     (rightChildren n) (count n).
Definition set_children (left : bool) (v : list string) (n : t) : t :=
  mk (id n) (parent n) (isLeftChild n) (value n) (isPresent n)
     (if left then v else leftChildren n) (if left then rightChildren n else v)
     (count n).
Definition set_count (v : Z) (n : t) : t :=
  mk (id n) (parent n) (isLeftChild n) (value n) (isPresent n) (leftChildren n)
     (rightChildren n) v.
End GNode.

Module GroundTruth.
(** The state is the map [nodesByID]; [rootNode] is the node with id [""]. *)
Abbreviation t := (gmap string GNode.t).

Definition rootNode : string := "".

Definition new : t := {[ rootNode := GNode.new "" None false "" false ]}.

Definition wr (f : GNode.t → GNode.t) (x : string) (h : t) : t :=
  <[x := f (h !!! x)]> h.

Definition length (h : t) : Z := GNode.count (h !!! rootNode).

(** [for (; i < siblings.length; i++) if (node.id < siblings[i].id) break;] *)
Fixpoint siblingIndex (h : t) (id : string) (siblings : list string) : nat :=
  match siblings with
  | [] => 0%nat
  | sib :: rest =>
      if String.ltb id (GNode.id (h !!! sib)) then 0%nat
      else S (siblingIndex h id rest)
  end.

(** "Update index metadata.": [count++] (or [count--]) on the node and all
    its ancestors. *)
Fixpoint addToCounts (fuel : nat) (h : t) (delta : Z) (ancestor : option string)
  : result t :=
  match fuel with
  | O => OutOfFuel
  | S f =>
      match ancestor with
      | None => Ok h
      | Some a =>
          let h' := wr (GNode.set_count (GNode.count (h !!! a) + delta)) a h in
          addToCounts f h' delta (GNode.parent (h' !!! a))
      end
  end.

(** [for (const child of children) { if (child === curNode) break;
    geIndex += child.count; }] *)
Fixpoint countBefore (h : t) (curNode : string) (children : list string)
    (geIndex : Z) : Z :=
  match children with
  | [] => geIndex
  | child :: rest =>
      if bool_decide (child = curNode) then geIndex
      else countBefore h curNode rest (geIndex + GNode.count (h !!! child))
  end.

(** The [while (curParent !== null)] loop of [nodeToIndex]. *)
Fixpoint nodeToIndex_loop (fuel : nat) (h : t) (geIndex : Z) (curNode : string)
    (curParent : option string) : result Z :=
  match fuel with
  | O => OutOfFuel
  | S f =>
      match curParent with
      | None => Ok geIndex
      | Some p =>
          (* Count further-left siblings of curNode. *)
          let geIndex :=
            countBefore h curNode (GNode.leftChildren (h !!! p)) geIndex in
          let geIndex :=
            if GNode.isLeftChild (h !!! curNode) then geIndex
            else
              let geIndex :=
                countBefore h curNode (GNode.rightChildren (h !!! p)) geIndex in
              (* Count parent if present. *)
              if GNode.isPresent (h !!! p) then geIndex + 1 else geIndex in
          (* Go up a layer. *)
          nodeToIndex_loop f h geIndex p (GNode.parent (h !!! p))
      end
  end.

Definition nodeToIndex (fuel : nat) (h : t) (node : string) : result (Z * bool) :=
  let geIndex :=
    foldl (λ geIndex leftChild, geIndex + GNode.count (h !!! leftChild)) 0
      (GNode.leftChildren (h !!! node)) in
  let* geIndex := nodeToIndex_loop fuel h geIndex node (GNode.parent (h !!! node)) in
  Ok (geIndex, GNode.isPresent (h !!! node)).

Definition receivePrimitive (fuel : nat) (h : t) (decoded : NetworkMessage)
  : result (t * option Event) :=
  match decoded with
  | InsertMessage id parentID isLeftChild value =>
      match h !! parentID with
      | None => Throw TypeError
      | Some parent =>
          let h := <[id := GNode.new id (Some parentID) isLeftChild value true]> h in
          (* Insert node among its same-side siblings, in order by id. *)
          let siblings := GNode.children isLeftChild parent in
          let i := siblingIndex h id siblings in
          let siblings := CTextLogn.splice i id siblings in
          let h := wr (GNode.set_children isLeftChild siblings) parentID h in
          let* h := addToCounts fuel h 1 (Some id) in
          let* (index, _) := nodeToIndex fuel h id in
          Ok (h, Some (Insert index))
      end
  | DeleteMessage id =>
      match h !! id with
      | None => Throw TypeError
      | Some node =>
          if GNode.isPresent node then
            let* (index, _) := nodeToIndex fuel h id in
            let h := wr (GNode.set_isPresent false) id h in
            let* h := addToCounts fuel h (-1) (Some id) in
            Ok (h, Some (Delete index (GNode.value node)))
          else Ok (h, None)
      end
  end.

(** [for (const child of children) { if (remaining < child.count) "Recurse"
    else remaining -= child.count; }]: the child to walk into, or what
    remains after the children. *)
Fixpoint findChild (h : t) (children : list string) (remaining : Z)
  : (string * Z) + Z :=
  match children with
  | [] => inr remaining
  | child :: rest =>
      if remaining <? GNode.count (h !!! child) then inl (child, remaining)
      else findChild h rest (remaining - GNode.count (h !!! child))
  end.

(** The [for (;;)] loop of [indexToNode]. *)
Fixpoint indexToNode_loop (fuel : nat) (h : t) (remaining : Z) (current : string)
  : result string :=
  match fuel with
  | O => OutOfFuel
  | S f =>
      let n := h !!! current in
      match findChild h (GNode.leftChildren n) remaining with
      | inl (child, remaining) => indexToNode_loop f h remaining child
      | inr remaining =>
          if GNode.isPresent n && (remaining =? 0) then Ok current
          else
            let remaining :=
              if GNode.isPresent n then remaining - 1 else remaining in
            match findChild h (GNode.rightChildren n) remaining with
            | inl (child, remaining) => indexToNode_loop f h remaining child
            | inr _ =>
                (* Done walking current, but didn't find index. *)
                Throw InternalError
            end
      end
  end.

Definition indexToNode (fuel : nat) (h : t) (index : Z) : result string :=
  if (index <? 0) || (length h <=? index) then Throw IndexOutOfBounds
  else indexToNode_loop fuel h index rootNode.

(** "Returns the leftmost descendant of node." *)
Fixpoint leftmostDescendant (fuel : nat) (h : t) (current : string)
  : result string :=
  match fuel with
  | O => OutOfFuel
  | S f =>
      match GNode.leftChildren (h !!! current) with
      | [] => Ok current
      | c :: _ => leftmostDescendant f h c
      end
  end.

Definition insertOne_message (fuel : nat) (h : t) (index : Z) (char : string)
    (uid : string) : result NetworkMessage :=
  let* leftOrigin := (if index =? 0 then Ok rootNode
                      else indexToNode fuel h (index - 1)) in
  match GNode.rightChildren (h !!! leftOrigin) with
  | firstRightChild :: _ =>
      let* parent := leftmostDescendant fuel h firstRightChild in
      Ok (InsertMessage uid (GNode.id (h !!! parent)) true char)
  | [] => Ok (InsertMessage uid (GNode.id (h !!! leftOrigin)) false char)
  end.

Definition insertOne (fuel : nat) (h : t) (index : Z) (char : string)
    (uid : string) : result t :=
  let* message := insertOne_message fuel h index char uid in
  let* (h, _) := receivePrimitive fuel h message in
  Ok h.

Definition deleteOne_message (fuel : nat) (h : t) (index : Z)
  : result NetworkMessage :=
  let* node := indexToNode fuel h index in
  Ok (DeleteMessage (GNode.id (h !!! node))).

Definition deleteOne (fuel : nat) (h : t) (index : Z) : result t :=
  let* message := deleteOne_message fuel h index in
  let* (h, _) := receivePrimitive fuel h message in
  Ok h.

(** The [for (;;)] loop of [toString]; [values] is the array being filled
    ([None] is an empty slot of [new Array(length)]), the head of [stack] is
    the entry that [stack.pop()] returns. *)
Fixpoint toString_loop (fuel : nat) (h : t) (stack : list (string * bool * nat))
    (node : string) (left : bool) (childIndex : nat)
    (values : list (option string)) : result string :=
  match fuel with
  | O => OutOfFuel
  | S f =>
      let n := h !!! node in
      if bool_decide (childIndex = List.length (GNode.children left n)) then
        if left then
          (* Visit node. *)
          let values :=
            if GNode.isPresent n then values ++ [Some (GNode.value n)]
            else values in
          (* Move to right children. *)
          toString_loop f h stack node false 0 values
        else
          (* Done with node; pop the stack. *)
          match stack with
          | [] =>
              (* Completely done. *)
              let ans := CTextLogn.join values in
              if bool_decide (Z.of_nat (String.length ans) = length h)
              then Ok ans else Throw WrongLength
          | (node', left', childIndex') :: stack' =>
              toString_loop f h stack' node' left' (S childIndex') values
          end
      else
        match GNode.children left n !! childIndex with
        | Some child =>
            (* Recurse if nonempty, else move to the next child. *)
            if 0 <? GNode.count (h !!! child) then
              toString_loop f h ((node, left, childIndex) :: stack) child true 0
                values
            else toString_loop f h stack node left (S childIndex) values
        | None => Throw TypeError
        end
  end.

Definition toString (fuel : nat) (h : t) : result string :=
  if length h <? 0 then Throw RangeError
  else
    toString_loop fuel h [] rootNode true 0
      (replicate (Z.to_nat (length h)) None).

Definition getPosition (fuel : nat) (h : t) (index : Z) : result string :=
  let* node := indexToNode fuel h index in
  Ok (GNode.id (h !!! node)).

Definition findPosition (fuel : nat) (h : t) (position : string)
  : result (Z * bool) :=
  match h !! position with
  | None => Throw TypeError
  | Some _ => nodeToIndex fuel h position
  end.
End GroundTruth.

(** A delivered message is admissible for the ground truth as it is for
    [CTextLogn]. *)
Definition admissibleG (h : GroundTruth.t) (m : NetworkMessage) : Prop :=
  match m with
  | InsertMessage id parentID _ value =>
      h !! id = None ∧ is_Some (h !! parentID) ∧ String.length value = 1%nat
  | DeleteMessage id => is_Some (h !! id)
  end.

Global Instance admissibleG_dec h m : Decision (admissibleG h m).
Proof. destruct m; simpl; apply _. Defined.

Fixpoint deliverG (fuel : nat) (h : GroundTruth.t) (ms : list NetworkMessage)
  : result GroundTruth.t :=
  match ms with
  | [] => Ok h
  | m :: ms =>
      if decide (admissibleG h m) then
        let* (h, _) := GroundTruth.receivePrimitive fuel h m in
        deliverG fuel h ms
      else Throw TypeError
  end.

(** * The ground truth and the balanced index *)

(** The fields that the two implementations share. *)
Definition gcore (n : GNode.t) :=
  (GNode.id n, GNode.parent n, GNode.isLeftChild n, GNode.value n,
   GNode.isPresent n, GNode.leftChildren n, GNode.rightChildren n).

(** The two directories hold the same nodes. *)
Definition sim (g : GroundTruth.t) (h : gmap string Node.t) : Prop :=
  dom g = dom h ∧ ∀ y, gcore (g !!! y) = core (h !!! y).

Lemma sim_new : sim GroundTruth.new (CTextLogn.nodesByID CTextLogn.new).
Proof.
  split.
  { unfold GroundTruth.new. simpl. by rewrite !dom_singleton_L. }
  intros y. simpl.
  unfold GroundTruth.new, GroundTruth.rootNode, CTextLogn.rootNode.
  destruct (decide (y = "")) as [->|].
  - by rewrite !lookup_total_singleton.
  - by rewrite !lookup_total_singleton_ne.
Qed.

Lemma sim_fields g h y :
  sim g h →
  GNode.id (g !!! y) = Node.id (h !!! y)
  ∧ GNode.parent (g !!! y) = Node.parent (h !!! y)
  ∧ GNode.isLeftChild (g !!! y) = Node.isLeftChild (h !!! y)
  ∧ GNode.value (g !!! y) = Node.value (h !!! y)
  ∧ GNode.isPresent (g !!! y) = Node.isPresent (h !!! y)
  ∧ ∀ side, GNode.children side (g !!! y) = Node.children side (h !!! y).
Proof.
  intros [_ Hc]. specialize (Hc y). unfold gcore, core in Hc.
  split_and!; [by simplify_eq..|]. intros []; simpl; by simplify_eq.
Qed.

Lemma gwr_lookup f x (g : GroundTruth.t) y :
  GroundTruth.wr f x g !!! y = if decide (x = y) then f (g !!! x) else g !!! y.
Proof. unfold GroundTruth.wr. apply lookup_total_insert. Qed.

Lemma siblingIndex_sim (g : GroundTruth.t) (h : gmap string Node.t) id sibs :
  (∀ c, c ∈ sibs → GNode.id (g !!! c) = Node.id (h !!! c)) →
  GroundTruth.siblingIndex g id sibs = CTextLogn.siblingIndex h id sibs.
Proof.
  induction sibs as [|c sibs IH]; intros He; simpl; [done|].
  rewrite (He c) by (by left). rewrite IH; [done|].
  intros y Hy. apply He. by right.
Qed.

(** ** The walk up the parents *)

Inductive gchain (g : GroundTruth.t) : option string → list string → Prop :=
| gchain_nil : gchain g None []
| gchain_cons x path :
    gchain g (GNode.parent (g !!! x)) path → gchain g (Some x) (x :: path).

Lemma gchain_fun g a p : gchain g a p → ∀ p', gchain g a p' → p = p'.
Proof.
  induction 1 as [|x path _ IH]; intros p' H'; inversion H'; subst; [done|].
  f_equal. by apply IH.
Qed.

Lemma gchain_suffix g : ∀ l1 a x l2,
  gchain g a (l1 ++ x :: l2) → gchain g (Some x) (x :: l2).
Proof.
  induction l1 as [|y l1 IH]; intros a x l2 H; simpl in H.
  - inversion H; subst. by constructor.
  - inversion H; subst. by eapply IH.
Qed.

Lemma gchain_NoDup g a p : gchain g a p → NoDup p.
Proof.
  induction 1 as [|x path H IH]; constructor; [|done].
  intros (l1 & l2 & E)%list_elem_of_split. rewrite E in H.
  pose proof (gchain_suffix _ _ _ _ _ H) as H1.
  inversion H1 as [|? ? H2]; subst.
  pose proof (gchain_fun _ _ _ H _ H2) as E'.
  apply (f_equal length) in E'. rewrite length_app in E'. simpl in E'. lia.
Qed.

Lemma gchain_ext g g' a p :
  (∀ y, GNode.parent (g' !!! y) = GNode.parent (g !!! y)) →
  gchain g a p → gchain g' a p.
Proof.
  intros He. induction 1 as [|x path _ IH]; constructor. by rewrite He.
Qed.

(** In a chain each node is followed by its parent. *)
Lemma gchain_next g a p i x :
  gchain g a p → p !! i = Some x → p !! S i = GNode.parent (g !!! x).
Proof.
  intros H. revert i. induction H as [|y path H IH]; intros i Hx; [done|].
  destruct i as [|i]; simpl in *.
  - injection Hx as ->. inversion H; subst; simpl; [done|]. done.
  - by apply IH.
Qed.

Definition gbump (d : Z) (path : list string) (g : GroundTruth.t) (y : string)
  : GNode.t :=
  if decide (y ∈ path)
  then GNode.set_count (GNode.count (g !!! y) + d) (g !!! y)
  else g !!! y.

Lemma gaddToCounts_spec fuel : ∀ (g : GroundTruth.t) d a g',
  GroundTruth.addToCounts fuel g d a = Ok g' →
  ∃ path, gchain g a path
    ∧ (∀ y, g' !!! y = gbump d path g y)
    ∧ dom g' = dom g ∪ list_to_set path.
Proof.
  induction fuel as [|f IH]; intros g d a g' E; [done|].
  destruct a as [x|]; simpl in E.
  2:{ injection E as <-. exists []. split_and!; [constructor|done|].
      simpl. set_solver. }
  set (g1 := GroundTruth.wr (GNode.set_count (GNode.count (g !!! x) + d)) x g) in *.
  assert (∀ y, GNode.parent (g1 !!! y) = GNode.parent (g !!! y)) as Hp.
  { intros y. unfold g1. rewrite gwr_lookup.
    by destruct (decide (x = y)) as [->|]. }
  destruct (IH g1 d _ g' E) as (path & Hc & Hy & Hd).
  rewrite Hp in Hc. apply (gchain_ext g1 g) in Hc; [|by intros y; rewrite Hp].
  assert (gchain g (Some x) (x :: path)) as Hc' by (by constructor).
  pose proof (gchain_NoDup _ _ _ Hc') as [Hx _]%NoDup_cons.
  exists (x :: path). split_and!; [done| |].
  - intros y. rewrite Hy. unfold gbump.
    destruct (decide (y = x)) as [->|Hne].
    + rewrite decide_False by done. rewrite decide_True by (by left).
      unfold g1. rewrite gwr_lookup. by rewrite decide_True.
    + unfold g1. rewrite gwr_lookup. rewrite (decide_False (P := x = y)) by done.
      destruct (decide (y ∈ path)).
      * rewrite decide_True; [done|by right].
      * rewrite decide_False; [done|]. by intros [?|?]%elem_of_cons.
  - rewrite Hd. unfold g1, GroundTruth.wr. rewrite dom_insert_L. simpl. set_solver.
Qed.

Lemma gchain_in (g : GroundTruth.t) (D : gset string) a p :
  gchain g a p →
  (∀ x, a = Some x → x ∈ D) →
  (∀ c q, c ∈ D → GNode.parent (g !!! c) = Some q → q ∈ D) →
  ∀ x, x ∈ p → x ∈ D.
Proof.
  intros H. induction H as [|y path H IH]; intros Ha Hcl x Hx.
  - by apply elem_of_nil in Hx.
  - apply elem_of_cons in Hx as [->|Hx]; [by apply Ha|].
    apply IH; [|done..]. intros z Hz. eapply Hcl; [|done]. by apply Ha.
Qed.

(** ** The counts *)

Definition gsum (cnt : string → Z) (l : list string) : Z :=
  foldr (λ c acc, cnt c + acc) 0 l.

Definition gkids (n : GNode.t) : list string :=
  GNode.leftChildren n ++ GNode.rightChildren n.

(** [count] is the number of present nodes of the subtree: the node itself,
    if present, and the counts of its children. *)
Definition gcounted (g : GroundTruth.t) : Prop :=
  ∀ y, y ∈ dom g →
    GNode.count (g !!! y)
    = b2z (GNode.isPresent (g !!! y))
      + gsum (λ c, GNode.count (g !!! c)) (gkids (g !!! y)).

Lemma gsum_app cnt l1 l2 : gsum cnt (l1 ++ l2) = gsum cnt l1 + gsum cnt l2.
Proof. induction l1 as [|c l1 IH]; simpl; [done|]. rewrite IH. lia. Qed.

Lemma gsum_same cnt cnt' l :
  (∀ c, c ∈ l → cnt' c = cnt c) → gsum cnt' l = gsum cnt l.
Proof.
  induction l as [|c l IH]; intros He; simpl; [done|].
  rewrite He by (by left). rewrite IH; [done|]. intros y Hy. apply He. by right.
Qed.

Lemma gsum_one cnt cnt' l c d :
  NoDup l → c ∈ l → (∀ c', c' ∈ l → c' ≠ c → cnt' c' = cnt c') →
  cnt' c = cnt c + d → gsum cnt' l = gsum cnt l + d.
Proof.
  intros ND Hc He Hd. apply list_elem_of_split in Hc as (l1 & l2 & ->).
  apply NoDup_app in ND as (_ & H12 & [H2 _]%NoDup_cons).
  rewrite !gsum_app. simpl. rewrite Hd.
  rewrite (gsum_same cnt cnt' l1), (gsum_same cnt cnt' l2); [lia| |].
  - intros y Hy. apply He; [set_solver|]. by intros ->.
  - intros y Hy. apply He; [set_solver|]. intros ->. apply (H12 c Hy). by left.
Qed.

Lemma gsum_splice cnt i id l :
  gsum cnt (CTextLogn.splice i id l) = cnt id + gsum cnt l.
Proof.
  unfold CTextLogn.splice. rewrite <- (take_drop i l) at 3.
  rewrite !gsum_app. simpl. lia.
Qed.

(** The children of a node, all of them, without repetition. *)
Lemma gkids_spec g h y :
  sim g h → Kids h → y ∈ dom h →
  NoDup (gkids (g !!! y))
  ∧ ∀ c, c ∈ gkids (g !!! y)
         ↔ c ∈ dom h ∧ GNode.parent (g !!! c) = Some y.
Proof.
  intros S K Hy. destruct (sim_fields g h y S) as (_ & _ & _ & _ & _ & Hc).
  unfold gkids. pose proof (Hc true) as El. pose proof (Hc false) as Er.
  simpl in El, Er. rewrite El, Er.
  pose proof (kids_in _ K y true) as Kl. pose proof (kids_in _ K y false) as Kr.
  simpl in Kl, Kr. split.
  - apply NoDup_app. split_and!.
    + apply sorted_NoDup, (kids_sorted _ K y true Hy).
    + intros c Hl Hr. apply Kl in Hl as (_ & _ & Hl); [|done].
      apply Kr in Hr as (_ & _ & Hr); [|done]. congruence.
    + apply sorted_NoDup, (kids_sorted _ K y false Hy).
  - intros c. destruct (sim_fields g h c S) as (_ & -> & _).
    rewrite elem_of_app, Kl, Kr by done.
    destruct (Node.isLeftChild (h !!! c)); split; try tauto;
      intros [(? & ? & ?)|(? & ? & ?)]; done.
Qed.

(** Adding [d] to the counts along the chain of a node [x] repairs the
    counts, when only the count of [x] was off, by [d]. *)
Lemma gcounted_bump (g g' : GroundTruth.t) h x path d :
  sim g h → Kids h → gchain g (Some x) path → x ∈ dom h →
  (∀ y, g' !!! y = gbump d path g y) → dom g' = dom g →
  (∀ y, y ∈ dom g → y ≠ x →
     GNode.count (g !!! y)
     = b2z (GNode.isPresent (g !!! y))
       + gsum (λ c, GNode.count (g !!! c)) (gkids (g !!! y))) →
  GNode.count (g !!! x) + d
  = b2z (GNode.isPresent (g !!! x))
    + gsum (λ c, GNode.count (g !!! c)) (gkids (g !!! x)) →
  gcounted g'.
Proof.
  intros Hs K Hc Hx Hg Hd Hold Hnew y Hy. rewrite Hd in Hy.
  pose proof Hs as [Hdom _]. rewrite Hdom in Hy.
  pose proof (gchain_NoDup _ _ _ Hc) as ND.
  destruct path as [|x' path']; [inversion Hc|].
  assert (x' = x) as -> by (by inversion Hc).
  destruct (gkids_spec g h y Hs K Hy) as [NK HK].
  assert (∀ n, GNode.count (gbump d (x :: path') g n)
               = GNode.count (g !!! n)
                 + if decide (n ∈ x :: path') then d else 0) as Hcnt.
  { intros n. unfold gbump. destruct (decide _); simpl; lia. }
  assert (gkids (g' !!! y) = gkids (g !!! y)
          ∧ GNode.isPresent (g' !!! y) = GNode.isPresent (g !!! y)) as [-> ->].
  { rewrite Hg. unfold gbump. by destruct (decide _). }
  (* a child on the chain is followed by the node *)
  assert (∀ c i, c ∈ gkids (g !!! y) → (x :: path') !! i = Some c →
                 (x :: path') !! S i = Some y) as Hnext.
  { intros c i Hck Hi. apply HK in Hck as [_ Hp].
    by rewrite (gchain_next _ _ _ _ _ Hc Hi). }
  rewrite (gsum_same (λ c, GNode.count (gbump d (x :: path') g c))
             (λ c, GNode.count (g' !!! c))) by (intros c _; by rewrite Hg).
  rewrite Hg, Hcnt.
  destruct (decide (y ∈ x :: path')) as [Hyp|Hyp].
  - apply list_elem_of_lookup_1 in Hyp as [j Hj].
    destruct j as [|j].
    + simpl in Hj. injection Hj as <-.
      rewrite (gsum_same (λ c, GNode.count (g !!! c))).
      * lia.
      * intros c Hck. rewrite Hcnt. rewrite decide_False; [lia|].
        intros [i Hi]%list_elem_of_lookup_1.
        pose proof (Hnext c i Hck Hi) as Hn.
        pose proof (NoDup_lookup _ _ _ _ ND Hn (eq_refl : (x :: path') !! 0%nat = Some x)).
        done.
    + assert (∃ c, (x :: path') !! j = Some c) as [c Hcj].
      { apply lookup_lt_is_Some. apply lookup_lt_Some in Hj. lia. }
      assert (y ≠ x) as Hyx.
      { intros ->.
        pose proof (NoDup_lookup _ _ _ _ ND Hj (eq_refl : (x :: path') !! 0%nat = Some x)).
        done. }
      assert (c ∈ gkids (g !!! y)) as Hck.
      { apply HK. split.
        - apply (gchain_in g (dom h) _ _ Hc).
          + by intros ? [= <-].
          + intros c' q Hc' Hq.
            destruct (sim_fields g h c' Hs) as (_ & Ep & _).
            rewrite Ep in Hq. by eapply (kids_parent _ K).
          + by eapply list_elem_of_lookup_2.
        - pose proof (gchain_next _ _ _ _ _ Hc Hcj) as Hn. by rewrite Hj in Hn. }
      rewrite (gsum_one (λ c, GNode.count (g !!! c)) _ _ c d NK Hck).
      * rewrite (Hold y) by (by rewrite ?Hdom). lia.
      * intros c' Hck' Hne. rewrite Hcnt. rewrite decide_False; [lia|].
        intros [i Hi]%list_elem_of_lookup_1.
        pose proof (Hnext c' i Hck' Hi) as Hn.
        pose proof (NoDup_lookup _ _ _ _ ND Hn Hj) as [= ->].
        rewrite Hcj in Hi. by injection Hi.
      * rewrite Hcnt. rewrite decide_True; [done|].
        by eapply list_elem_of_lookup_2.
  - assert (y ≠ x) as Hyx by (intros ->; apply Hyp; by left).
    rewrite (gsum_same (λ c, GNode.count (g !!! c))).
    + rewrite (Hold y) by (by rewrite ?Hdom). lia.
    + intros c Hck. rewrite Hcnt. rewrite decide_False; [lia|].
      intros [i Hi]%list_elem_of_lookup_1. apply Hyp.
      eapply list_elem_of_lookup_2. by apply (Hnext c i).
Qed.

(** ** The two handlers *)

Lemma gbump_gcore d path g y : gcore (gbump d path g y) = gcore (g !!! y).
Proof. unfold gbump. by destruct (decide _). Qed.

(** After the counts are updated along the chain of [x], the directories
    still agree and the counts are right again. *)
Lemma counts_updated fuel (g g' : GroundTruth.t) h x d :
  sim g h → Kids h → x ∈ dom h →
  GroundTruth.addToCounts fuel g d (Some x) = Ok g' →
  (∀ y, y ∈ dom g → y ≠ x →
     GNode.count (g !!! y)
     = b2z (GNode.isPresent (g !!! y))
       + gsum (λ c, GNode.count (g !!! c)) (gkids (g !!! y))) →
  GNode.count (g !!! x) + d
  = b2z (GNode.isPresent (g !!! x))
    + gsum (λ c, GNode.count (g !!! c)) (gkids (g !!! x)) →
  sim g' h ∧ gcounted g'.
Proof.
  intros Hs K Hx E Hold Hnew.
  destruct (gaddToCounts_spec fuel g d _ g' E) as (path & Hc & Hg & Hd).
  assert (∀ y, y ∈ path → y ∈ dom h) as Hin.
  { apply (gchain_in g (dom h) _ _ Hc).
    - by intros ? [= <-].
    - intros c q Hcd Hq. destruct (sim_fields g h c Hs) as (_ & Ep & _).
      rewrite Ep in Hq. by eapply (kids_parent _ K). }
  pose proof Hs as [Hdom Hcore].
  assert (dom g' = dom g) as Hd'.
  { rewrite Hd. apply set_eq. intros y.
    rewrite elem_of_union, elem_of_list_to_set, Hdom. split; [|tauto].
    intros [?|?]; [done|by apply Hin]. }
  split.
  - split; [by rewrite Hd'|]. intros y. by rewrite Hg, gbump_gcore.
  - by eapply gcounted_bump.
Qed.

Lemma sim_insert (g : GroundTruth.t) (h : gmap string Node.t) id pid isL v :
  sim g h → pid ≠ id →
  let g1 := <[id := GNode.new id (Some pid) isL v true]> g in
  let g2 := GroundTruth.wr
              (GNode.set_children isL
                 (CTextLogn.splice
                    (GroundTruth.siblingIndex g1 id (GNode.children isL (g !!! pid)))
                    id (GNode.children isL (g !!! pid)))) pid g1 in
  (∀ y, gcore (g2 !!! y) = core ((entered h id pid isL v).1.1 !!! y))
  ∧ ∀ y, GNode.count (g2 !!! y) = if decide (y = id) then 0 else GNode.count (g !!! y).
Proof.
  intros Hs Hne g1 g2.
  destruct (sim_fields g h pid Hs) as (_ & _ & _ & _ & _ & Hc).
  assert (GroundTruth.siblingIndex g1 id (GNode.children isL (g !!! pid))
          = CTextLogn.siblingIndex
              (<[id := Node.new id (Some pid) isL v true]> h) id
              (Node.children isL (h !!! pid))) as Ei.
  { rewrite Hc. apply siblingIndex_sim. intros c _. unfold g1.
    destruct (decide (c = id)) as [->|].
    - by rewrite !lookup_total_insert_eq.
    - rewrite !lookup_total_insert_ne by done.
      by destruct (sim_fields g h c Hs) as (-> & _). }
  split.
  - intros y. unfold entered. simpl. unfold g2. rewrite gwr_lookup, wr_lookup.
    rewrite Ei, Hc. unfold g1.
    destruct (decide (pid = y)) as [<-|Hy].
    + rewrite !lookup_total_insert_ne by done.
      pose proof (proj2 Hs pid) as Hp. unfold gcore, core in *.
      injection Hp as E1 E2 E3 E4 E5 E6 E7.
      destruct isL; simpl; congruence.
    + destruct (decide (y = id)) as [->|].
      * by rewrite !lookup_total_insert_eq.
      * rewrite !lookup_total_insert_ne by done. apply Hs.
  - intros y. unfold g2. rewrite gwr_lookup. unfold g1.
    destruct (decide (pid = y)) as [<-|Hy].
    + rewrite decide_False by done. by rewrite lookup_total_insert_ne.
    + destruct (decide (y = id)) as [->|].
      * by rewrite lookup_total_insert_eq.
      * by rewrite lookup_total_insert_ne.
Qed.

(** The ground truth and [CTextLogn] stay in step, message by message. *)
Lemma sim_receive fuel fuel' (g g' : GroundTruth.t) s t m ev s' ev' :
  Inv s t → Kids (CTextLogn.nodesByID s) →
  sim g (CTextLogn.nodesByID s) → gcounted g → admissible s m →
  GroundTruth.receivePrimitive fuel g m = Ok (g', ev) →
  CTextLogn.receivePrimitive fuel' s m = Ok (s', ev') →
  sim g' (CTextLogn.nodesByID s') ∧ gcounted g'.
Proof.
  intros I K Hs Hcnt Ha EG EC.
  pose proof (Kids_receive fuel' s t m s' ev' I K Ha EC) as K'.
  pose proof Hs as [Hdom Hcore].
  set (h := CTextLogn.nodesByID s) in *. set (h' := CTextLogn.nodesByID s') in *.
  destruct m as [id|id pid isL v].
  - assert (id ∈ dom h) as Hx by (by apply elem_of_dom).
    destruct (receive_delete s t id I Hx) as (n & s1 & ev1 & Hc & I' & Hd).
    pose proof (computes_ok _ _ _ _ _ Hc EC) as [= <- <-].
    simpl in EG.
    assert (g !! id = Some (g !!! id)) as Eg.
    { apply lookup_lookup_total_dom. by rewrite Hdom. }
    rewrite Eg in EG.
    destruct (sim_fields g h id Hs) as (_ & _ & _ & _ & Ep & _).
    rewrite Ep in EG. fold h in Hd. unfold tpres in Hd.
    destruct (Node.isPresent (h !!! id)) eqn:Hpres.
    2:{ injection EG as <- <-. by destruct Hd as [-> _]. }
    destruct Hd as (cx & l & r & _ & Hy & Hd & _). fold h' in Hy, Hd.
    bind_ok EG as [index b]. bind_ok EG as g2. injection EG as <- <-.
    set (g1 := GroundTruth.wr (GNode.set_isPresent false) id g) in *.
    assert (sim g1 h') as Hs1.
    { split.
      - unfold g1, GroundTruth.wr. rewrite dom_insert_L, Hd, Hdom. set_solver.
      - intros y. rewrite Hy. unfold deleted. rewrite bump_core, wr_lookup.
        unfold g1. rewrite gwr_lookup.
        destruct (decide (id = y)) as [->|]; [|apply Hcore].
        specialize (Hcore y). unfold gcore, core in *. simpl.
        injection Hcore as E1 E2 E3 E4 E5 E6 E7. congruence. }
    assert (∀ y, GNode.count (g1 !!! y) = GNode.count (g !!! y)
                 ∧ gkids (g1 !!! y) = gkids (g !!! y)) as Hsame.
    { intros y. unfold g1. rewrite gwr_lookup.
      by destruct (decide (id = y)) as [->|]. }
    assert (dom g1 = dom g) as Hd1.
    { unfold g1, GroundTruth.wr. rewrite dom_insert_L, Hdom. set_solver. }
    apply (counts_updated fuel g1 g2 h' id (-1)); try done.
    + by rewrite Hd.
    + intros y Hyd Hne. rewrite Hd1 in Hyd.
      destruct (Hsame y) as [-> ->].
      rewrite (gsum_same (λ c, GNode.count (g !!! c)))
        by (intros c _; by destruct (Hsame c) as [-> _]).
      unfold g1. rewrite gwr_lookup, decide_False by done. by apply Hcnt.
    + destruct (Hsame id) as [-> ->].
      rewrite (gsum_same (λ c, GNode.count (g !!! c)))
        by (intros c _; by destruct (Hsame c) as [-> _]).
      unfold g1. rewrite gwr_lookup, decide_True by done. simpl.
      rewrite (Hcnt id) by (by rewrite Hdom). rewrite Ep. simpl. lia.
  - pose proof (receive_insert fuel' s t id pid isL v s' ev' I Ha EC) as H.
    unfold entered in H.
    destruct H as (t' & A & B & pred & succ & _ & _ & _ & _ & _ & Hcore' & Hd' & _).
    fold h h' in Hcore', Hd'.
    destruct Ha as (Hfresh & Hpar & _).
    assert (id ∉ dom h) as Hidd by (by apply not_elem_of_dom).
    assert (pid ∈ dom h) as Hpd by (by apply elem_of_dom).
    assert (pid ≠ id) as Hne by (by intros ->).
    simpl in EG.
    assert (g !! pid = Some (g !!! pid)) as Eg.
    { apply lookup_lookup_total_dom. by rewrite Hdom. }
    rewrite Eg in EG. bind_ok EG as g3. bind_ok EG as [index b].
    injection EG as <- <-.
    destruct (sim_insert g h id pid isL v Hs Hne) as [Hc2 Hn2].
    cbv zeta in Hc2, Hn2.
    set (g1 := <[id := GNode.new id (Some pid) isL v true]> g) in *.
    set (g2 := GroundTruth.wr _ pid g1) in *.
    assert (dom g2 = dom h') as Hd2.
    { unfold g2, GroundTruth.wr, g1. rewrite !dom_insert_L, Hd', Hdom. set_solver. }
    assert (sim g2 h') as Hs2.
    { split; [done|]. intros y. by rewrite Hc2, Hcore'. }
    assert (∀ y, gkids (g2 !!! y)
                 = if decide (y = id) then []
                   else if decide (y = pid)
                        then (if isL
                              then CTextLogn.splice
                                     (GroundTruth.siblingIndex g1 id
                                        (GNode.children isL (g !!! pid))) id
                                     (GNode.leftChildren (g !!! pid))
                                   ++ GNode.rightChildren (g !!! pid)
                              else GNode.leftChildren (g !!! pid)
                                   ++ CTextLogn.splice
                                        (GroundTruth.siblingIndex g1 id
                                           (GNode.children isL (g !!! pid))) id
                                        (GNode.rightChildren (g !!! pid)))
                        else gkids (g !!! y)) as Hk2.
    { intros y. unfold g2. rewrite gwr_lookup. unfold g1, gkids.
      destruct (decide (y = id)) as [->|Hy].
      - rewrite decide_False by done. by rewrite lookup_total_insert_eq.
      - destruct (decide (pid = y)) as [<-|].
        + rewrite decide_True by done. rewrite lookup_total_insert_ne by done.
          by destruct isL.
        + rewrite decide_False by done. by rewrite lookup_total_insert_ne. }
    apply (counts_updated fuel g2 g3 h' id 1); try done.
    + rewrite Hd'. set_solver.
    + intros y Hyd Hny. rewrite Hd2, Hd' in Hyd.
      assert (y ∈ dom h) as Hyh by set_solver.
      assert (y ∈ dom g) as Hyg by (by rewrite Hdom).
      destruct (gkids_spec g h y Hs K Hyh) as [_ HK].
      assert (id ∉ gkids (g !!! y)) as Hnk.
      { intros [? _]%HK. done. }
      assert (gsum (λ c, GNode.count (g2 !!! c)) (gkids (g !!! y))
              = gsum (λ c, GNode.count (g !!! c)) (gkids (g !!! y))) as Esum.
      { apply gsum_same. intros c Hck. rewrite Hn2, decide_False; [done|].
        by intros ->. }
      rewrite Hn2, decide_False by done.
      assert (GNode.isPresent (g2 !!! y) = GNode.isPresent (g !!! y)) as ->.
      { unfold g2. rewrite gwr_lookup. unfold g1.
        destruct (decide (pid = y)) as [<-|];
          by rewrite lookup_total_insert_ne. }
      rewrite (Hcnt y Hyg), Hk2, decide_False by done. f_equal.
      destruct (decide (y = pid)) as [->|]; [|done].
      rewrite <- Esum. unfold gkids.
      destruct isL; rewrite !gsum_app, gsum_splice, Hn2, decide_True by done; lia.
    + rewrite Hn2, Hk2, !decide_True by done.
      unfold g2. rewrite gwr_lookup, decide_False by done.
      unfold g1. rewrite lookup_total_insert_eq. done.
Qed.

(** ** The count of a subtree *)

Lemma gcount_canonical (g : GroundTruth.t) h f :
  sim g h → Kids h → gcounted g →
  ∀ x L, x ∈ dom h → canonicalInorder f h x = Ok L →
    GNode.count (g !!! x) = Z.of_nat (length (pvalues h L)).
Proof.
  intros Hs K Hcnt. pose proof Hs as [Hdom _].
  induction f as [|f IH]; intros x L Hx E; [done|].
  apply canonicalInorder_S in E as (Ls & Rs & HL & HR & ->).
  assert (∀ side cs Ls, (∀ c, c ∈ cs → c ∈ Node.children side (h !!! x)) →
            Forall2 (λ c Lc, canonicalInorder f h c = Ok Lc) cs Ls →
            gsum (λ c, GNode.count (g !!! c)) cs
            = Z.of_nat (length (pvalues h (mjoin Ls)))) as Hsum.
  { intros side cs Ls' Hin HF. induction HF as [|c Lc cs Ls' Ec _ IHF]; [done|].
    simpl. rewrite pvalues_app, length_app, Nat2Z.inj_add.
    rewrite IHF by (intros y Hy; apply Hin; by right).
    rewrite (IH c Lc); [done| |done].
    by apply (kids_in _ K x side c Hx), Hin; left. }
  rewrite (Hcnt x) by (by rewrite Hdom).
  destruct (sim_fields g h x Hs) as (_ & _ & _ & _ & Ep & Hc).
  unfold gkids. pose proof (Hc true) as El. pose proof (Hc false) as Er.
  simpl in El, Er. rewrite El, Er, gsum_app.
  rewrite (Hsum true _ Ls), (Hsum false _ Rs); try done.
  rewrite pvalues_app, pvalues_cons, !length_app, Ep. unfold tpres.
  destruct (Node.isPresent (h !!! x)); simpl; lia.
Qed.

(** ** [toString] of the ground truth *)

Lemma gtoString_S f (g : GroundTruth.t) stack node left k values :
  GroundTruth.toString_loop (S f) g stack node left k values =
    if bool_decide (k = length (GNode.children left (g !!! node))) then
      if left then
        GroundTruth.toString_loop f g stack node false 0
          (if GNode.isPresent (g !!! node)
           then values ++ [Some (GNode.value (g !!! node))] else values)
      else
        match stack with
        | [] =>
            if bool_decide (Z.of_nat (String.length (CTextLogn.join values))
                            = GroundTruth.length g)
            then Ok (CTextLogn.join values) else Throw WrongLength
        | (node', left', k') :: stack' =>
            GroundTruth.toString_loop f g stack' node' left' (S k') values
        end
    else
      match GNode.children left (g !!! node) !! k with
      | Some child =>
          if 0 <? GNode.count (g !!! child) then
            GroundTruth.toString_loop f g ((node, left, k) :: stack) child true 0
              values
          else GroundTruth.toString_loop f g stack node left (S k) values
      | None => Throw TypeError
      end.
Proof. reflexivity. Qed.

Section gwalk.
Context (g : GroundTruth.t) (h : gmap string Node.t).
Hypothesis Hs : sim g h.
Hypothesis K : Kids h.
Hypothesis Hcnt : gcounted g.

(** The walk of the subtree of [x] appends the characters of its present
    nodes. *)
Definition gwalked (x : string) (L : list string) : Prop :=
  ∃ k, ∀ fuel stack values,
    GroundTruth.toString_loop (k + fuel) g stack x true 0 values
    = GroundTruth.toString_loop fuel g stack x false
        (length (GNode.rightChildren (g !!! x)))
        (values ++ (Some <$> pvalues h L)).

Lemma gwalk_children f x left :
  x ∈ dom h →
  (∀ c Lc, c ∈ dom h → canonicalInorder f h c = Ok Lc → gwalked c Lc) →
  ∀ Ls j,
    (j ≤ length (GNode.children left (g !!! x)))%nat →
    Forall2 (λ c Lc, canonicalInorder f h c = Ok Lc)
      (drop j (GNode.children left (g !!! x))) Ls →
    ∃ k, ∀ fuel stack values,
      GroundTruth.toString_loop (k + fuel) g stack x left j values
      = GroundTruth.toString_loop fuel g stack x left
          (length (GNode.children left (g !!! x)))
          (values ++ (Some <$> pvalues h (mjoin Ls))).
Proof.
  intros Hx IH.
  destruct (sim_fields g h x Hs) as (_ & _ & _ & _ & _ & Hc).
  induction Ls as [|Lc Ls IHL]; intros j Hj HF.
  - apply Forall2_nil_inv_r in HF. apply (f_equal length) in HF.
    rewrite length_drop in HF. simpl in HF.
    assert (j = length (GNode.children left (g !!! x))) as -> by lia.
    exists 0%nat. intros fuel stack values. simpl. by rewrite app_nil_r.
  - apply Forall2_cons_inv_r in HF as (c & rest & Ec & HF & Ed).
    apply drop_cons_inv in Ed as (Ek & Ed & Hlt). subst rest.
    destruct (IHL (S j)) as [kr Hkr]; [lia|done|].
    assert (c ∈ dom h) as Hcd.
    { apply (kids_in _ K x left c Hx). rewrite <- Hc.
      by eapply list_elem_of_lookup_2. }
    pose proof (gcount_canonical g h f Hs K Hcnt c Lc Hcd Ec) as Ecount.
    destruct (decide (0 < GNode.count (g !!! c))) as [Hpos|Hzero].
    + destruct (IH c Lc Hcd Ec) as [kc Hkc].
      exists (S (kc + S kr)). intros fuel stack values.
      simpl plus. rewrite gtoString_S.
      rewrite bool_decide_eq_false_2 by lia. rewrite Ek.
      destruct (0 <? _) eqn:E0; [|lia].
      rewrite <- Nat.add_assoc, Hkc. simpl plus. rewrite gtoString_S.
      rewrite bool_decide_eq_true_2 by done.
      rewrite Hkr. simpl. by rewrite pvalues_app, fmap_app, app_assoc.
    + exists (S kr). intros fuel stack values.
      simpl plus. rewrite gtoString_S.
      rewrite bool_decide_eq_false_2 by lia. rewrite Ek.
      destruct (0 <? _) eqn:E0; [lia|].
      rewrite Hkr. simpl. rewrite pvalues_app.
      assert (pvalues h Lc = []) as ->; [|done].
      apply nil_length_inv. lia.
Qed.

Lemma gwalk_subtree f : ∀ x L,
  x ∈ dom h → canonicalInorder f h x = Ok L → gwalked x L.
Proof.
  induction f as [|f IH]; intros x L Hx E; [done|].
  apply canonicalInorder_S in E as (Ls & Rs & HL & HR & ->).
  destruct (sim_fields g h x Hs) as (_ & _ & _ & Ev & Ep & Hc).
  pose proof (Hc true) as El. pose proof (Hc false) as Er. simpl in El, Er.
  destruct (gwalk_children f x true Hx IH Ls 0%nat) as [kl Hkl]; [lia| |].
  { rewrite drop_0. simpl. by rewrite El. }
  destruct (gwalk_children f x false Hx IH Rs 0%nat) as [kr Hkr]; [lia| |].
  { rewrite drop_0. simpl. by rewrite Er. }
  exists (kl + S kr)%nat. intros fuel stack values.
  rewrite <- Nat.add_assoc, Hkl. simpl plus. rewrite gtoString_S.
  rewrite bool_decide_eq_true_2 by done. rewrite Hkr. simpl. f_equal.
  rewrite pvalues_app, pvalues_cons, !fmap_app. unfold tpres.
  rewrite Ep, Ev. destruct (Node.isPresent (h !!! x)); simpl.
  - by rewrite <- !app_assoc.
  - by rewrite <- !app_assoc.
Qed.
End gwalk.

(** [toString] of the ground truth returns the text that [CTextLogn]
    spells. *)
Lemma gtoString_spec (g : GroundTruth.t) s t :
  Ordered s t → Kids (CTextLogn.nodesByID s) →
  sim g (CTextLogn.nodesByID s) → gcounted g →
  GroundTruth.length g = CTextLogn.length s
  ∧ ∃ n, ∀ fuel, (n ≤ fuel)%nat →
      GroundTruth.toString fuel g
      = Ok (text_of (CTextLogn.nodesByID s) (inorder t)).
Proof.
  intros (I & [f Ec] & _) K Hs Hcnt.
  set (h := CTextLogn.nodesByID s) in *.
  assert (CTextLogn.rootNode ∈ dom h) as Hr.
  { apply (inv_dom _ _ I). by eapply canonicalInorder_in. }
  pose proof (gcount_canonical g h f Hs K Hcnt _ _ Hr Ec) as Ecount.
  pose proof (length_pvalues s t I) as EL. fold h in EL.
  assert (GroundTruth.length g = CTextLogn.length s) as Elen.
  { unfold GroundTruth.length. by rewrite EL. }
  split; [done|].
  destruct (gwalk_subtree g h Hs K Hcnt f _ _ Hr Ec) as [k Hk].
  exists (k + 1)%nat. intros fuel Hf. unfold GroundTruth.toString.
  destruct (GroundTruth.length g <? 0) eqn:E0; [lia|].
  replace fuel with (k + (fuel - k))%nat by lia.
  change GroundTruth.rootNode with CTextLogn.rootNode. rewrite Hk.
  destruct (fuel - k)%nat as [|f'] eqn:Ef; [lia|].
  rewrite gtoString_S, bool_decide_eq_true_2 by done.
  rewrite join_holes. fold (text_of h (inorder t)).
  rewrite bool_decide_eq_true_2; [done|].
  unfold text_of. rewrite length_concat_chars by (by eapply pvalues_chars).
  unfold GroundTruth.length. change GroundTruth.rootNode with CTextLogn.rootNode.
  by rewrite Ecount.
Qed.

Lemma deliver_sim fuel fuel' ms : ∀ (g g' : GroundTruth.t) s s',
  reachable s → sim g (CTextLogn.nodesByID s) → gcounted g →
  deliverG fuel g ms = Ok g' → deliver fuel' s ms = Ok s' →
  reachable s' ∧ sim g' (CTextLogn.nodesByID s') ∧ gcounted g'.
Proof.
  induction ms as [|m ms IH]; intros g g' s s' Hr Hs Hcnt EG EC;
    simpl in EG, EC.
  - injection EG as <-. by injection EC as <-.
  - destruct (decide (admissibleG g m)) as [_|]; [|done].
    destruct (decide (admissible s m)) as [Ha|]; [|done].
    destruct (GroundTruth.receivePrimitive fuel g m) as [[g1 ev]| |] eqn:EG1;
      cbn [bind] in EG; [|done..].
    destruct (CTextLogn.receivePrimitive fuel' s m) as [[s1 ev']| |] eqn:EC1;
      cbn [bind] in EC; [|done..].
    destruct (reachable_Inv s Hr) as [t I].
    destruct (reachable_described s Hr) as [K _].
    destruct (sim_receive fuel fuel' g g1 s t m ev s1 ev' I K Hs Hcnt Ha EG1 EC1)
      as [Hs1 Hcnt1].
    apply (IH g1 g' s1 s'); try done. by eapply reachable_receive.
Qed.

Lemma gcounted_new : gcounted GroundTruth.new.
Proof.
  intros y. unfold GroundTruth.new. rewrite dom_singleton_L.
  intros ->%elem_of_singleton. by rewrite lookup_total_singleton.
Qed.

(** * Indices in the ground truth *)

(** The present node at a given index of a list is unique. *)
Lemma same_present_split (h : gmap string Node.t) : ∀ A y B A' y' B',
  A ++ y :: B = A' ++ y' :: B' →
  tpres h y = true → tpres h y' = true →
  length (pvalues h A) = length (pvalues h A') →
  A = A' ∧ y = y' ∧ B = B'.
Proof.
  induction A as [|a A IH]; intros y B [|a' A'] y' B' E Hy Hy' El; simpl in E.
  - by injection E as -> ->.
  - injection E as -> _. rewrite pvalues_cons, Hy in El. simpl in El. lia.
  - injection E as -> _. rewrite pvalues_cons, Hy' in El. simpl in El. lia.
  - injection E as -> E. rewrite !pvalues_cons, !length_app in El.
    destruct (IH y B A' y' B' E Hy Hy') as (-> & -> & ->); [lia|done].
Qed.

Section gindex.
Context (g : GroundTruth.t) (h : gmap string Node.t).
Hypothesis Hs : sim g h.
Hypothesis K : Kids h.
Hypothesis Hcnt : gcounted g.

#[local] Abbreviation pv l := (Z.of_nat (length (pvalues h l))).

(** The loop over the children finds the child whose subtree holds the
    index. *)
Lemma findChild_spec f cs Ls :
  Forall2 (λ c Lc, canonicalInorder f h c = Ok Lc) cs Ls →
  (∀ c, c ∈ cs → c ∈ dom h) →
  ∀ rem, 0 ≤ rem →
    match GroundTruth.findChild g cs rem with
    | inl (c, rem') =>
        ∃ j Lc, cs !! j = Some c ∧ Ls !! j = Some Lc
                ∧ rem = pv (mjoin (take j Ls)) + rem' ∧ 0 ≤ rem' < pv Lc
    | inr rem' => rem = pv (mjoin Ls) + rem' ∧ 0 ≤ rem'
    end.
Proof.
  induction 1 as [|c Lc cs Ls Ec HF IH]; intros Hin rem Hrem; simpl.
  - split; [simpl; lia|done].
  - pose proof (gcount_canonical g h f Hs K Hcnt c Lc) as Ecount.
    rewrite Ecount; [|apply Hin; by left|done].
    destruct (rem <? pv Lc) eqn:Elt.
    + exists 0%nat, Lc. split; [done|]. split; [done|]. split; [|lia].
      simpl. lia.
    + specialize (IH ltac:(intros y Hy; apply Hin; by right) (rem - pv Lc)
                    ltac:(lia)).
      destruct (GroundTruth.findChild g cs (rem - pv Lc)) as [[c' rem']|rem'].
      * destruct IH as (j & Lc' & Hj & HLj & Er & Hr').
        exists (S j), Lc'. split; [done|]. split; [done|]. split; [|lia].
        simpl. rewrite pvalues_app, length_app. lia.
      * destruct IH as [Er Hr']. split; [|done].
        rewrite pvalues_app, length_app. lia.
Qed.

Lemma mjoin_middle (Ls : list (list string)) j Lc :
  Ls !! j = Some Lc →
  mjoin Ls = mjoin (take j Ls) ++ Lc ++ mjoin (drop (S j) Ls).
Proof.
  intros Hj. rewrite <- (take_drop_middle Ls j Lc Hj) at 1.
  by rewrite join_app.
Qed.

(** [indexToNode] walks down to the present node at the index. *)
Lemma gindex_subtree f : ∀ x L rem,
  x ∈ dom h → canonicalInorder f h x = Ok L → 0 ≤ rem < pv L →
  ∃ y A B, L = A ++ y :: B ∧ tpres h y = true ∧ rem = pv A
    ∧ ∀ fuel, (f ≤ fuel)%nat →
        GroundTruth.indexToNode_loop fuel g rem x = Ok y.
Proof.
  induction f as [|f IH]; intros x L rem Hx E Hrem; [done|].
  apply canonicalInorder_S in E as (Ls & Rs & HL & HR & ->).
  destruct (sim_fields g h x Hs) as (_ & _ & _ & _ & Ep & Hc).
  pose proof (Hc true) as El. pose proof (Hc false) as Er. simpl in El, Er.
  assert (∀ side c, c ∈ Node.children side (h !!! x) → c ∈ dom h) as Hkid.
  { intros side c Hin. by apply (kids_in _ K x side c Hx). }
  pose proof (findChild_spec f _ Ls HL (Hkid true) rem ltac:(lia)) as HfL.
  rewrite pvalues_app, pvalues_cons, !length_app in Hrem.
  destruct (GroundTruth.findChild g (Node.leftChildren (h !!! x)) rem)
    as [[c rem']|rem'] eqn:EfL.
  - destruct HfL as (j & Lc & Hj & HLj & Erem & Hr').
    pose proof (Forall2_lookup_lr _ _ _ _ _ _ HL Hj HLj) as Ec. simpl in Ec.
    destruct (IH c Lc rem') as (y & A & B & -> & Hy & EA & Hrun); [|done..|].
    { apply (Hkid true). by eapply list_elem_of_lookup_2. }
    exists y, (mjoin (take j Ls) ++ A),
      (B ++ mjoin (drop (S j) Ls) ++ x :: mjoin Rs).
    split_and!; [|done| |].
    + rewrite (mjoin_middle Ls j _ HLj).
      by repeat (rewrite <- app_assoc || rewrite <- app_comm_cons).
    + rewrite pvalues_app, length_app. lia.
    + intros [|fuel] Hf; [lia|]. simpl. rewrite El, EfL. apply Hrun. lia.
  - destruct HfL as [Erem Hr'].
    destruct (GNode.isPresent (g !!! x) && (rem' =? 0)) eqn:Ehere.
    + pose proof Ehere as Ehere0.
      apply andb_true_iff in Ehere as [Hp H0]. apply Z.eqb_eq in H0.
      exists x, (mjoin Ls), (mjoin Rs). split_and!; [done| |lia|].
      * unfold tpres. by rewrite <- Ep.
      * intros [|fuel] Hf; [lia|]. simpl. by rewrite El, EfL, Ehere0.
    + set (rem'' := if GNode.isPresent (g !!! x) then rem' - 1 else rem').
      assert (0 ≤ rem''
              ∧ rem = pv (mjoin Ls)
                      + Z.of_nat (length (if tpres h x
                                          then [Node.value (h !!! x)] else []))
                      + rem'') as [Hr'' Erem''].
      { unfold rem'', tpres. rewrite <- Ep.
        destruct (GNode.isPresent (g !!! x)); simpl in *; [|lia].
        apply Z.eqb_neq in Ehere. lia. }
      pose proof (findChild_spec f _ Rs HR (Hkid false) rem'' Hr'') as HfR.
      destruct (GroundTruth.findChild g (Node.rightChildren (h !!! x)) rem'')
        as [[c r]|r] eqn:EfR.
      * destruct HfR as (j & Lc & Hj & HLj & Er'' & Hr).
        pose proof (Forall2_lookup_lr _ _ _ _ _ _ HR Hj HLj) as Ec. simpl in Ec.
        destruct (IH c Lc r) as (y & A & B & -> & Hy & EA & Hrun); [|done..|].
        { apply (Hkid false). by eapply list_elem_of_lookup_2. }
        exists y, (mjoin Ls ++ x :: mjoin (take j Rs) ++ A),
          (B ++ mjoin (drop (S j) Rs)).
        split_and!; [|done| |].
        -- rewrite (mjoin_middle Rs j _ HLj).
           by repeat (rewrite <- app_assoc || rewrite <- app_comm_cons).
        -- rewrite pvalues_app, pvalues_cons, !length_app, pvalues_app, length_app.
           lia.
        -- intros [|fuel] Hf; [lia|]. simpl. rewrite El, EfL, Ehere.
           fold rem''. rewrite Er, EfR. apply Hrun. lia.
      * destruct HfR as [Er'' Hr]. lia.
Qed.
End gindex.

Section gposition.
Context (g : GroundTruth.t) (h : gmap string Node.t).
Hypothesis Hs : sim g h.
Hypothesis K : Kids h.
Hypothesis Hcnt : gcounted g.

#[local] Abbreviation pv' l := (Z.of_nat (length (pvalues h l))).

Lemma countBefore_absent f cur cs Ls :
  Forall2 (λ c Lc, canonicalInorder f h c = Ok Lc) cs Ls →
  (∀ c, c ∈ cs → c ∈ dom h) → cur ∉ cs →
  ∀ acc, GroundTruth.countBefore g cur cs acc = acc + pv' (mjoin Ls).
Proof.
  induction 1 as [|c Lc cs Ls Ec HF IH]; intros Hin Hcur acc; simpl; [lia|].
  rewrite bool_decide_eq_false_2 by (intros ->; apply Hcur; by left).
  rewrite IH; [|intros y Hy; apply Hin; by right|intros ?; apply Hcur; by right].
  rewrite (gcount_canonical g h f Hs K Hcnt c Lc); [|apply Hin; by left|done].
  rewrite pvalues_app, length_app. lia.
Qed.

Lemma countBefore_found f cur cs Ls :
  Forall2 (λ c Lc, canonicalInorder f h c = Ok Lc) cs Ls →
  (∀ c, c ∈ cs → c ∈ dom h) → NoDup cs →
  ∀ j acc, cs !! j = Some cur →
    GroundTruth.countBefore g cur cs acc = acc + pv' (mjoin (take j Ls)).
Proof.
  induction 1 as [|c Lc cs Ls Ec HF IH]; intros Hin ND j acc Hj; [done|].
  apply NoDup_cons in ND as [Hc ND]. destruct j as [|j]; simpl in *.
  - injection Hj as ->. rewrite bool_decide_eq_true_2 by done. lia.
  - rewrite bool_decide_eq_false_2.
    2:{ intros ->. apply Hc. by eapply list_elem_of_lookup_2. }
    rewrite (IH ltac:(intros y Hy; apply Hin; by right) ND j _ Hj).
    rewrite (gcount_canonical g h f Hs K Hcnt c Lc); [|apply Hin; by left|done].
    rewrite pvalues_app, length_app. lia.
Qed.

Lemma foldl_counts f cs Ls :
  Forall2 (λ c Lc, canonicalInorder f h c = Ok Lc) cs Ls →
  (∀ c, c ∈ cs → c ∈ dom h) →
  ∀ acc, foldl (λ geIndex leftChild, geIndex + GNode.count (g !!! leftChild))
           acc cs = acc + pv' (mjoin Ls).
Proof.
  induction 1 as [|c Lc cs Ls Ec HF IH]; intros Hin acc; simpl; [lia|].
  rewrite IH by (intros y Hy; apply Hin; by right).
  rewrite (gcount_canonical g h f Hs K Hcnt c Lc); [|apply Hin; by left|done].
  rewrite pvalues_app, length_app. lia.
Qed.

Lemma gnodeToIndex_S f acc cur p :
  GroundTruth.nodeToIndex_loop (S f) g acc cur (Some p) =
    GroundTruth.nodeToIndex_loop f g
      (let geIndex :=
         GroundTruth.countBefore g cur (GNode.leftChildren (g !!! p)) acc in
       if GNode.isLeftChild (g !!! cur) then geIndex
       else
         let geIndex :=
           GroundTruth.countBefore g cur (GNode.rightChildren (g !!! p)) geIndex in
         if GNode.isPresent (g !!! p) then geIndex + 1 else geIndex)
      p (GNode.parent (g !!! p)).
Proof. reflexivity. Qed.

Lemma NoDup_mid (X Y Z : list string) : NoDup (X ++ Y ++ Z) → NoDup Y.
Proof.
  intros (_ & _ & ND)%NoDup_app. by apply NoDup_app in ND as (ND & _).
Qed.

(** A segment of a list without repetition starts where it starts. *)
Lemma segment_unique (A A' L B B' : list string) :
  NoDup (A ++ L ++ B) → L ≠ [] → A ++ L ++ B = A' ++ L ++ B' → A = A'.
Proof.
  intros ND HL E. destruct L as [|e L]; [done|].
  simpl in *. by destruct (NoDup_split_eq _ _ _ _ _ ND E).
Qed.

(** The walk up from [x] adds the present nodes that come before the
    subtree of [x] in the subtree of [r]. *)
Lemma gclimb f : ∀ r L,
  r ∈ dom h → canonicalInorder f h r = Ok L → NoDup L →
  ∀ x A0 Lx B0 f',
    L = A0 ++ Lx ++ B0 → canonicalInorder f' h x = Ok Lx →
    ∃ k, ∀ fuel acc,
      GroundTruth.nodeToIndex_loop (k + fuel) g acc x (GNode.parent (g !!! x))
      = GroundTruth.nodeToIndex_loop fuel g (acc + pv' A0) r
          (GNode.parent (g !!! r)).
Proof.
  induction f as [|f IH]; intros r L Hr E ND x A0 Lx B0 f' EL Ex; [done|].
  pose proof (canonicalInorder_in _ _ _ _ Ex) as Hx.
  destruct (decide (x = r)) as [->|Hxr].
  { pose proof (canonicalInorder_fun _ _ _ _ _ _ E Ex) as <-.
    assert (A0 = []) as ->.
    { apply (f_equal length) in EL. rewrite !length_app in EL.
      destruct A0; [done|]. simpl in EL. lia. }
    exists 0%nat. intros fuel acc. simpl. f_equal. lia. }
  pose proof E as E0.
  apply canonicalInorder_S in E as (Ls & Rs & HL & HR & ->).
  destruct (sim_fields g h r Hs) as (_ & _ & _ & _ & Epr & Hcr).
  pose proof (Hcr true) as El. pose proof (Hcr false) as Er. simpl in El, Er.
  assert (∀ side c, c ∈ Node.children side (h !!! r) →
            c ∈ dom h ∧ GNode.parent (g !!! c) = Some r
            ∧ GNode.isLeftChild (g !!! c) = side) as Hkid.
  { intros side c Hin. apply (kids_in _ K r side c Hr) in Hin as (? & ? & ?).
    destruct (sim_fields g h c Hs) as (_ & -> & -> & _). done. }
  assert (x ∈ mjoin Ls ++ r :: mjoin Rs) as HxL.
  { rewrite EL, !elem_of_app. tauto. }
  assert (Lx ≠ []) as HLx by (intros ->; by apply elem_of_nil in Hx).
  rewrite elem_of_app, elem_of_cons in HxL.
  destruct HxL as [HxL|[?|HxR]]; [|done|].
  - apply in_mjoin_split in HxL as (Ls1 & Lc & Ls2 & ELs & Hxc).
    assert (Ls !! length Ls1 = Some Lc) as HLj
      by (rewrite ELs; by apply list_lookup_middle).
    destruct (Forall2_lookup_r _ _ _ _ _ HL HLj) as (c & Hj & Ec).
    assert (c ∈ Node.leftChildren (h !!! r)) as Hcin
      by (by eapply list_elem_of_lookup_2).
    destruct (Hkid true c Hcin) as (Hcd & Hcp & Hcs).
    destruct (canonical_segment f h c Lc x Ec Hxc) as (A1 & Lx' & B1 & f'' & -> & Ex').
    pose proof (canonicalInorder_fun _ _ _ _ _ _ Ex Ex') as <-.
    assert (NoDup (A1 ++ Lx ++ B1)) as NDc.
    { rewrite (mjoin_middle Ls _ _ HLj) in ND.
      apply NoDup_app in ND as (ND & _). by apply NoDup_mid in ND. }
    destruct (IH c _ Hcd Ec NDc x A1 Lx B1 f' eq_refl Ex) as [k1 Hk1].
    assert (mjoin Ls ++ r :: mjoin Rs
            = (mjoin (take (length Ls1) Ls) ++ A1) ++ Lx
              ++ (B1 ++ mjoin (drop (S (length Ls1)) Ls) ++ r :: mjoin Rs)) as EL2.
    { rewrite (mjoin_middle Ls _ _ HLj) at 1.
      by repeat (rewrite <- app_assoc || rewrite <- app_comm_cons). }
    assert (A0 = mjoin (take (length Ls1) Ls) ++ A1) as ->.
    { symmetry. eapply (segment_unique _ _ Lx); [|done|].
      - rewrite <- EL2. exact ND.
      - rewrite <- EL2. exact EL. }
    exists (k1 + 1)%nat. intros fuel acc.
    rewrite <- Nat.add_assoc, Hk1. simpl plus. rewrite Hcp, gnodeToIndex_S.
    cbv zeta. rewrite Hcs, El.
    rewrite (countBefore_found f c _ Ls HL) with (j := length Ls1); try done.
    + f_equal. rewrite pvalues_app, length_app. lia.
    + intros y Hy. by apply (Hkid true).
    + apply sorted_NoDup, (kids_sorted _ K r true Hr).
  - apply in_mjoin_split in HxR as (Rs1 & Lc & Rs2 & ERs & Hxc).
    assert (Rs !! length Rs1 = Some Lc) as HLj
      by (rewrite ERs; by apply list_lookup_middle).
    destruct (Forall2_lookup_r _ _ _ _ _ HR HLj) as (c & Hj & Ec).
    assert (c ∈ Node.rightChildren (h !!! r)) as Hcin
      by (by eapply list_elem_of_lookup_2).
    destruct (Hkid false c Hcin) as (Hcd & Hcp & Hcs).
    destruct (canonical_segment f h c Lc x Ec Hxc) as (A1 & Lx' & B1 & f'' & -> & Ex').
    pose proof (canonicalInorder_fun _ _ _ _ _ _ Ex Ex') as <-.
    assert (NoDup (A1 ++ Lx ++ B1)) as NDc.
    { rewrite (mjoin_middle Rs _ _ HLj) in ND.
      apply NoDup_app in ND as (_ & _ & ND). apply NoDup_cons in ND as [_ ND].
      by apply NoDup_mid in ND. }
    destruct (IH c _ Hcd Ec NDc x A1 Lx B1 f' eq_refl Ex) as [k1 Hk1].
    assert (mjoin Ls ++ r :: mjoin Rs
            = (mjoin Ls ++ r :: mjoin (take (length Rs1) Rs) ++ A1) ++ Lx
              ++ (B1 ++ mjoin (drop (S (length Rs1)) Rs))) as EL2.
    { rewrite (mjoin_middle Rs _ _ HLj) at 1.
      by repeat (rewrite <- app_assoc || rewrite <- app_comm_cons). }
    assert (A0 = mjoin Ls ++ r :: mjoin (take (length Rs1) Rs) ++ A1) as ->.
    { symmetry. eapply (segment_unique _ _ Lx); [|done|].
      - rewrite <- EL2. exact ND.
      - rewrite <- EL2. exact EL. }
    exists (k1 + 1)%nat. intros fuel acc.
    rewrite <- Nat.add_assoc, Hk1. simpl plus. rewrite Hcp, gnodeToIndex_S.
    cbv zeta. rewrite Hcs, El, Er.
    rewrite (countBefore_absent f c _ Ls HL).
    + rewrite (countBefore_found f c _ Rs HR) with (j := length Rs1); try done.
      * f_equal. rewrite Epr.
        rewrite pvalues_app, pvalues_cons, !length_app, pvalues_app, length_app.
        unfold tpres. destruct (Node.isPresent (h !!! r)); simpl; lia.
      * intros y Hy. by apply (Hkid false).
      * apply sorted_NoDup, (kids_sorted _ K r false Hr).
    + intros y Hy. by apply (Hkid true).
    + intros Hin. destruct (Hkid true c Hin) as (_ & _ & ?). congruence.
Qed.
End gposition.

(** ** The two implementations, side by side *)

(** [nodeToIndex] of [CTextLogn], in terms of the list of the nodes. *)
Lemma nodeToIndex_before s t A x B :
  Inv s t → inorder t = A ++ x :: B →
  ∃ n, computes (λ fuel, CTextLogn.nodeToIndex fuel (CTextLogn.nodesByID s) x) n
         (Z.of_nat (length (pvalues (CTextLogn.nodesByID s) A)),
          tpres (CTextLogn.nodesByID s) x).
Proof.
  intros [(S & R & ND & C) _ _ _ _ _] Et.
  assert (x ∈ inorder t) as Hx by (rewrite Et, elem_of_app, elem_of_cons; tauto).
  destruct (in_zipper x t Hx) as (c & l & r & ->).
  pose proof (nodeToIndex_spec _ c l x r S ND C) as Hn.
  rewrite inorder_plug in Et, ND. simpl in Et, ND.
  rewrite <- app_assoc, app_assoc in Et, ND.
  destruct (NoDup_split_eq _ _ _ _ _ ND Et) as [<- _].
  exists (length c + 1)%nat.
  by rewrite pvalues_app, length_app, Nat2Z.inj_add, <- cbefore_pvalues,
    pvalues_length.
Qed.

Section side_by_side.
Context (g : GroundTruth.t) (s : CTextLogn.t) (t : btree string).
Hypothesis O : Ordered s t.
Hypothesis K : Kids (CTextLogn.nodesByID s).
Hypothesis Hs : sim g (CTextLogn.nodesByID s).
Hypothesis Hcnt : gcounted g.
Hypothesis Hroot : Node.parent (CTextLogn.nodesByID s !!! CTextLogn.rootNode) = None.

(** [nodeToIndex] of the ground truth counts the present nodes before the
    node. *)
Lemma gnodeToIndex_spec A x B :
  inorder t = A ++ x :: B →
  ∃ n, ∀ fuel, (n ≤ fuel)%nat →
    GroundTruth.nodeToIndex fuel g x
    = Ok (Z.of_nat (length (pvalues (CTextLogn.nodesByID s) A)),
          tpres (CTextLogn.nodesByID s) x).
Proof.
  intros Et. destruct O as (I & [f Ec] & _).
  pose proof I as [(_ & _ & ND & _) Hdom _ _ _ _].
  set (h := CTextLogn.nodesByID s) in *.
  assert (x ∈ inorder t) as Hx by (rewrite Et, elem_of_app, elem_of_cons; tauto).
  assert (CTextLogn.rootNode ∈ dom h) as Hr.
  { apply Hdom. by eapply canonicalInorder_in. }
  destruct (canonical_segment f h _ _ x Ec Hx) as (A0 & Lx & B0 & f' & EL & Ex).
  destruct (gclimb g h Hs K Hcnt f _ _ Hr Ec ND x A0 Lx B0 f' EL Ex) as [k Hk].
  destruct f' as [|f']; [done|].
  pose proof Ex as Ex0.
  apply canonicalInorder_S in Ex as (Ls & Rs & HL & HR & ->).
  assert (A = A0 ++ mjoin Ls) as ->.
  { assert (inorder t = (A0 ++ mjoin Ls) ++ x :: (mjoin Rs ++ B0)) as EL2.
    { rewrite EL. by repeat (rewrite <- app_assoc || rewrite <- app_comm_cons). }
    rewrite EL2 in Et, ND.
    by destruct (NoDup_split_eq _ _ _ _ _ ND Et) as [-> _]. }
  destruct (sim_fields g h x Hs) as (_ & _ & _ & _ & Ep & Hc).
  destruct (sim_fields g h CTextLogn.rootNode Hs) as (_ & Epr & _).
  pose proof (Hc true) as El. simpl in El.
  exists (k + 1)%nat. intros fuel Hf. unfold GroundTruth.nodeToIndex.
  rewrite El, (foldl_counts g h Hs K Hcnt f' _ Ls HL).
  2:{ intros c Hin. apply (kids_in _ K x true c); [by apply Hdom|done]. }
  replace fuel with (k + (fuel - k))%nat by lia. rewrite Hk.
  rewrite Epr, Hroot. destruct (fuel - k)%nat as [|f0] eqn:Ef; [lia|].
  simpl. rewrite Ep. unfold tpres. do 2 f_equal.
  rewrite pvalues_app, length_app. lia.
Qed.

(** The same, for a call that returned. *)
Lemma gnodeToIndex_mono f : ∀ acc cur p v,
  GroundTruth.nodeToIndex_loop f g acc cur p = Ok v →
  GroundTruth.nodeToIndex_loop (S f) g acc cur p = Ok v.
Proof.
  induction f as [|f IH]; intros acc cur p v E; [done|].
  destruct p as [p|]; [|done].
  rewrite gnodeToIndex_S in E. rewrite gnodeToIndex_S. by apply IH.
Qed.

Lemma gnodeToIndex_ok A x B fuel i b :
  inorder t = A ++ x :: B →
  GroundTruth.nodeToIndex fuel g x = Ok (i, b) →
  i = Z.of_nat (length (pvalues (CTextLogn.nodesByID s) A))
  ∧ b = tpres (CTextLogn.nodesByID s) x.
Proof.
  intros Et E. destruct (gnodeToIndex_spec A x B Et) as [n Hn].
  assert (∀ k, GroundTruth.nodeToIndex (k + fuel) g x = Ok (i, b)) as Hk.
  { unfold GroundTruth.nodeToIndex in *. bind_ok E as v. injection E as <- <-.
    intros k. assert (GroundTruth.nodeToIndex_loop (k + fuel) g
      (foldl (λ geIndex leftChild, geIndex + GNode.count (g !!! leftChild)) 0
         (GNode.leftChildren (g !!! x))) x (GNode.parent (g !!! x)) = Ok v) as ->;
      [|done].
    induction k as [|k IH]; [done|]. by apply gnodeToIndex_mono. }
  specialize (Hk n). rewrite Hn in Hk by lia. by injection Hk as <- <-.
Qed.

(** [findPosition] gives the same in both. *)
Lemma findPosition_agrees p :
  ∃ n r, r ≠ OutOfFuel ∧ ∀ fuel, (n ≤ fuel)%nat →
    GroundTruth.findPosition fuel g p = r ∧ CTextLogn.findPosition fuel s p = r.
Proof.
  destruct O as (I & _). pose proof I as [_ Hdom _ _ _ _].
  pose proof Hs as [Hdg _].
  unfold GroundTruth.findPosition, CTextLogn.findPosition.
  destruct (CTextLogn.nodesByID s !! p) as [node|] eqn:Ep.
  - assert (p ∈ dom (CTextLogn.nodesByID s)) as Hp by (by apply elem_of_dom).
    assert (is_Some (g !! p)) as [gn ->] by (apply elem_of_dom; by rewrite Hdg).
    apply Hdom in Hp. apply list_elem_of_split in Hp as (A & B & Et).
    destruct (gnodeToIndex_spec A p B Et) as [n1 H1].
    destruct (nodeToIndex_before s t A p B I Et) as [n2 H2].
    exists (n1 `max` n2)%nat. eexists. split; [|intros fuel Hf; split].
    2:{ apply H1. lia. }
    + done.
    + apply (computes_enough _ _ _ fuel H2). lia.
  - assert (g !! p = None) as ->.
    { apply not_elem_of_dom. rewrite Hdg. by apply not_elem_of_dom. }
    by exists 0%nat, (Throw TypeError).
Qed.

(** [indexToNode] gives the same in both. *)
Lemma indexToNode_agrees i :
  ∃ n r, r ≠ OutOfFuel
    ∧ (∀ x, r = Ok x → x ∈ dom (CTextLogn.nodesByID s))
    ∧ ∀ fuel, (n ≤ fuel)%nat →
        GroundTruth.indexToNode fuel g i = r ∧ CTextLogn.indexToNode fuel s i = r.
Proof.
  destruct O as (I & [f Ec] & _). pose proof I as [_ Hdom _ _ _ _].
  set (h := CTextLogn.nodesByID s) in *.
  assert (CTextLogn.rootNode ∈ dom h) as Hr.
  { apply Hdom. by eapply canonicalInorder_in. }
  pose proof (gcount_canonical g h f Hs K Hcnt _ _ Hr Ec) as Ecount.
  pose proof (length_pvalues s t I) as EL. fold h in EL.
  assert (GroundTruth.length g = CTextLogn.length s) as Elen.
  { unfold GroundTruth.length. by rewrite EL. }
  destruct (decide (0 ≤ i < CTextLogn.length s)) as [Hi|Hi].
  - destruct (indexToNode_char s t i I Hi)
      as (x & n1 & Hc & Hx & Hp & _ & A & B & Et & Ei).
    destruct (gindex_subtree g h Hs K Hcnt f _ (inorder t) i Hr Ec)
      as (y & A' & B' & Et' & Hy & Ei' & Hrun); [fold h; lia|].
    rewrite Et in Et'. fold h in Hp, Ei.
    destruct (same_present_split h A x B A' y B' Et' Hp Hy) as (_ & <- & _); [lia|].
    exists (n1 `max` f)%nat, (Ok x). split_and!; [done|by intros ? [= <-]|].
    intros fuel Hf. split.
    + unfold GroundTruth.indexToNode. rewrite Elen.
      destruct (i <? 0) eqn:E1; [lia|]. destruct (_ <=? i) eqn:E2; [lia|].
      simpl. apply Hrun. lia.
    + apply (computes_enough _ _ _ fuel Hc). lia.
  - exists 0%nat, (Throw IndexOutOfBounds). split_and!; [done..|].
    intros fuel _. split; [|apply indexToNode_out; lia].
    unfold GroundTruth.indexToNode. rewrite Elen.
    destruct (i <? 0) eqn:E1; [done|]. destruct (_ <=? i) eqn:E2; [done|lia].
Qed.
End side_by_side.

(** ** What the two emit and send *)

(** [leftmostDescendant] of the ground truth returns the first node of the
    subtree. *)
Lemma gleftmost_canonical f : ∀ (g : GroundTruth.t) (h : gmap string Node.t) x L,
  sim g h → canonicalInorder f h x = Ok L →
  ∃ e, head L = Some e
       ∧ ∀ fuel, (f ≤ fuel)%nat → GroundTruth.leftmostDescendant fuel g x = Ok e.
Proof.
  induction f as [|f IH]; intros g h x L Hs E; [done|].
  apply canonicalInorder_S in E as (Ls & Rs & HL & HR & ->).
  destruct (sim_fields g h x Hs) as (_ & _ & _ & _ & _ & Hc).
  pose proof (Hc true) as El0. simpl in El0.
  destruct (Node.leftChildren (h !!! x)) as [|c cs] eqn:El.
  - apply Forall2_nil_inv_l in HL as ->. exists x. split; [done|].
    intros [|fuel] Hf; [lia|]. simpl. by rewrite El0.
  - apply Forall2_cons_inv_l in HL as (Lc & Ls' & Ec & HL & ->).
    destruct (IH g h c Lc Hs Ec) as (e & He & Hl). exists e. split.
    + simpl. rewrite <- app_assoc, head_app. by rewrite He.
    + intros [|fuel] Hf; [lia|]. simpl. rewrite El0. apply Hl. lia.
Qed.

(** The node after a node with right children is the first node of the
    subtree of its first right child. *)
Lemma canonical_successor_head f (h : gmap string Node.t) r L x c cs :
  canonicalInorder f h r = Ok L → x ∈ L →
  Node.rightChildren (h !!! x) = c :: cs →
  ∃ A y B f' Lc, L = A ++ x :: y :: B ∧ canonicalInorder f' h c = Ok (y :: Lc).
Proof.
  intros E Hx Hr.
  destruct (canonical_segment f h r L x E Hx) as (A & Lx & B & f' & -> & Ex).
  destruct f' as [|f']; [done|].
  apply canonicalInorder_S in Ex as (Ls & Rs & HL & HR & ->).
  rewrite Hr in HR. apply Forall2_cons_inv_l in HR as (Lc & Rs' & Ec & HR & ->).
  destruct Lc as [|y Lc]; [by apply canonicalInorder_in, elem_of_nil in Ec|].
  exists (A ++ mjoin Ls), y, (Lc ++ mjoin Rs' ++ B), f', Lc. split; [|done].
  simpl. by repeat (rewrite <- app_assoc || rewrite <- app_comm_cons).
Qed.

(** What a reachable state and its ground truth have. *)
Lemma paired_facts (g : GroundTruth.t) s :
  reachable s →
  ∃ t, Ordered s t ∧ Kids (CTextLogn.nodesByID s)
       ∧ Node.parent (CTextLogn.nodesByID s !!! CTextLogn.rootNode) = None.
Proof.
  intros Hr. destruct (reachable_Ordered s Hr) as [t O].
  destruct (reachable_described s Hr) as [K [ms D]].
  exists t. split_and!; [done..|]. by destruct (d_root _ _ D) as [? _].
Qed.

(** The two handlers emit the same event. *)
Lemma events_agree fuel fuel' (g g' : GroundTruth.t) s m ev s' ev' :
  reachable s → sim g (CTextLogn.nodesByID s) → gcounted g → admissible s m →
  GroundTruth.receivePrimitive fuel g m = Ok (g', ev) →
  CTextLogn.receivePrimitive fuel' s m = Ok (s', ev') →
  ev = ev'.
Proof.
  intros Hr Hs Hcnt Ha EG EC.
  destruct (paired_facts g s Hr) as (t & O & K & Hroot).
  pose proof O as (I & _). pose proof I as [_ Hdom _ _ _ _].
  destruct (sim_receive _ _ _ _ _ _ _ _ _ _ I K Hs Hcnt Ha EG EC) as [Hs' Hcnt'].
  assert (reachable s') as Hr' by (by eapply reachable_receive).
  destruct (paired_facts g' s' Hr') as (t' & O' & K' & Hroot').
  pose proof O' as (I' & _). pose proof I' as [_ Hdom' _ _ _ _].
  pose proof Hs as [Hdg _].
  destruct m as [id|id pid isL v].
  - destruct Ha as [node Hn]. simpl in EG, EC. rewrite Hn in EC.
    assert (id ∈ dom (CTextLogn.nodesByID s)) as Hin by (by apply elem_of_dom).
    assert (is_Some (g !! id)) as [gn Hgn] by (apply elem_of_dom; by rewrite Hdg).
    rewrite Hgn in EG.
    destruct (sim_fields g _ id Hs) as (_ & _ & _ & Ev & Ep & _).
    rewrite (lookup_total_correct _ _ _ Hgn), (lookup_total_correct _ _ _ Hn)
      in Ev, Ep.
    rewrite Ep in EG. destruct (Node.isPresent node).
    + bind_ok EG as [index b]. bind_ok EG as g2. injection EG as <- <-.
      bind_ok EC as [index' b']. bind_ok EC as h2. injection EC as <- <-.
      apply Hdom in Hin. apply list_elem_of_split in Hin as (A & B & Et).
      destruct (gnodeToIndex_ok g s t O K Hs Hcnt Hroot A id B _ _ _ Et ltac:(eassumption))
        as [-> _].
      destruct (nodeToIndex_before s t A id B I Et) as [n Hn'].
      match goal with
      | H : CTextLogn.nodeToIndex _ _ id = Ok _ |- _ =>
          pose proof (computes_ok _ _ _ _ _ Hn' H) as [= -> _]
      end.
      by rewrite Ev.
    + injection EG as <- <-. by injection EC as <- <-.
  - destruct (receive_insert_event _ _ _ _ _ _ _ _ EC) as (index' & b' & -> & En').
    simpl in EG. destruct (g !! pid) as [parent|]; [|done].
    bind_ok EG as g2. bind_ok EG as [index b]. injection EG as <- <-.
    assert (id ∈ dom (CTextLogn.nodesByID s')) as Hin.
    { destruct (Ordered_insert _ _ _ _ _ _ _ _ _ O Ha EC)
        as (? & ? & ? & _ & _ & _ & _ & _ & ->). set_solver. }
    apply Hdom' in Hin. apply list_elem_of_split in Hin as (A & B & Et).
    destruct (gnodeToIndex_ok g2 s' t' O' K' Hs' Hcnt' Hroot' A id B _ _ _ Et ltac:(eassumption))
      as [-> _].
    destruct (nodeToIndex_before s' t' A id B I' Et) as [n Hn'].
    by pose proof (computes_ok _ _ _ _ _ Hn' En') as [= -> _].
Qed.

Section messages.
Context (g : GroundTruth.t) (s : CTextLogn.t) (t : btree string).
Hypothesis O : Ordered s t.
Hypothesis K : Kids (CTextLogn.nodesByID s).
Hypothesis Hs : sim g (CTextLogn.nodesByID s).
Hypothesis Hcnt : gcounted g.

#[local] Abbreviation hh := (CTextLogn.nodesByID s).

(** [getPosition] gives the same in both. *)
Lemma getPosition_agrees i :
  ∃ n r, r ≠ OutOfFuel ∧ ∀ fuel, (n ≤ fuel)%nat →
    GroundTruth.getPosition fuel g i = r ∧ CTextLogn.getPosition fuel s i = r.
Proof.
  destruct (indexToNode_agrees g s t O K Hs Hcnt i) as (n & r & Hr & Hin & Hrun).
  unfold GroundTruth.getPosition, CTextLogn.getPosition.
  exists n, (let* node := r in Ok (Node.id (hh !!! node))). split.
  - by destruct r.
  - intros fuel Hf. destruct (Hrun fuel Hf) as [-> ->]. split; [|done].
    destruct r as [x| |]; [|done..]. simpl.
    by destruct (sim_fields g hh x Hs) as (-> & _).
Qed.

(** [deleteOne] sends the same message in both. *)
Lemma deleteOne_message_agrees i :
  ∃ n r, r ≠ OutOfFuel ∧ ∀ fuel, (n ≤ fuel)%nat →
    GroundTruth.deleteOne_message fuel g i = r
    ∧ CTextLogn.deleteOne_message fuel s i = r.
Proof.
  destruct (indexToNode_agrees g s t O K Hs Hcnt i) as (n & r & Hr & Hin & Hrun).
  unfold GroundTruth.deleteOne_message, CTextLogn.deleteOne_message.
  exists n, (let* node := r in Ok (DeleteMessage (Node.id (hh !!! node)))). split.
  - by destruct r.
  - intros fuel Hf. destruct (Hrun fuel Hf) as [-> ->]. split; [|done].
    destruct r as [x| |]; [|done..]. simpl.
    by destruct (sim_fields g hh x Hs) as (-> & _).
Qed.

(** The parent that [insertOne] chooses for a left origin. *)
Lemma after_leftOrigin x char uid :
  x ∈ dom hh →
  ∃ n m, ∀ fuel, (n ≤ fuel)%nat →
    match GNode.rightChildren (g !!! x) with
    | firstRightChild :: _ =>
        let* parent := GroundTruth.leftmostDescendant fuel g firstRightChild in
        Ok (InsertMessage uid (GNode.id (g !!! parent)) true char)
    | [] => Ok (InsertMessage uid (GNode.id (g !!! x)) false char)
    end = Ok m
    ∧ (if bool_decide (Node.rightChildren (hh !!! x) ≠ []) then
         let* parent := CTextLogn.nextNode fuel hh x in
         Ok (InsertMessage uid (Node.id (hh !!! parent)) true char)
       else Ok (InsertMessage uid (Node.id (hh !!! x)) false char)) = Ok m.
Proof.
  intros Hx. destruct O as (I & [f Ec] & _).
  pose proof I as [Ix Hdom _ _ _ _].
  destruct (sim_fields g hh x Hs) as (Eid & _ & _ & _ & _ & Hc).
  pose proof (Hc false) as Er. simpl in Er. rewrite Er.
  destruct (Node.rightChildren (hh !!! x)) as [|c cs] eqn:Erc.
  - exists 0%nat. eexists. intros fuel _. rewrite Eid.
    rewrite bool_decide_eq_false_2 by (by intros ?). done.
  - destruct (canonical_successor_head f hh _ _ x c cs Ec)
      as (A & y & B & f' & Lc & Et & Ey); [by apply Hdom|done|].
    destruct (gleftmost_canonical f' g hh c _ Hs Ey) as (e & [= <-] & Hl).
    destruct (nextNode_spec _ _ t A x (y :: B) Ix Et) as [n Hn].
    exists (f' `max` n)%nat. eexists. intros fuel Hf.
    rewrite bool_decide_eq_true_2 by done.
    rewrite Hl by lia. rewrite (computes_enough _ _ _ fuel Hn) by lia.
    simpl. by destruct (sim_fields g hh y Hs) as (-> & _).
Qed.

(** [insertOne] sends the same message in both. *)
Lemma insertOne_message_agrees index char uid :
  ∃ n r, r ≠ OutOfFuel ∧ ∀ fuel, (n ≤ fuel)%nat →
    GroundTruth.insertOne_message fuel g index char uid = r
    ∧ CTextLogn.insertOne_message fuel s index char uid = r.
Proof.
  assert (CTextLogn.rootNode ∈ dom hh) as Hroot.
  { destruct O as (I & [f Ec] & _). apply (inv_dom _ _ I).
    by eapply canonicalInorder_in. }
  unfold GroundTruth.insertOne_message, CTextLogn.insertOne_message.
  destruct (index =? 0) eqn:E0.
  - destruct (after_leftOrigin CTextLogn.rootNode char uid Hroot) as (n & m & Hm).
    exists n, (Ok m). split; [done|]. intros fuel Hf. cbn [bind].
    apply (Hm fuel Hf).
  - destruct (indexToNode_agrees g s t O K Hs Hcnt (index - 1))
      as (n & r & Hr & Hin & Hrun).
    destruct r as [x|e|]; [| |done].
    + destruct (after_leftOrigin x char uid (Hin x eq_refl)) as (n' & m & Hm).
      exists (n `max` n')%nat, (Ok m). split; [done|]. intros fuel Hf.
      destruct (Hrun fuel ltac:(lia)) as [-> ->]. cbn [bind].
      apply (Hm fuel). lia.
    + exists n, (Throw e). split; [done|]. intros fuel Hf.
      by destruct (Hrun fuel Hf) as [-> ->].
Qed.
End messages.

(** ** The order of the text *)

Definition insert_xy_sample : CTextLogn.t :=
  Eval vm_compute in
    match CTextLogn.insert 30 six_edits_state 2 [("x", "06"); ("y", "07")] with
    | Ok s => s
    | _ => CTextLogn.new
    end.

Lemma insert_xy_sample_run :
  CTextLogn.insert 30 six_edits_state 2 [("x", "06"); ("y", "07")]
  = Ok insert_xy_sample.
Proof. vm_compute. reflexivity. Qed.

Lemma six_edits_rootFirst : rootFirst six_edits_state.
Proof. vm_compute. reflexivity. Qed.

Lemma insertChars_many (vs cs : list string) i :
  Forall (λ v, String.length v = 1%nat) vs →
  foldr String.append "" (take i vs ++ cs ++ drop i vs)
  = insertChars i (foldr String.append "" cs) (foldr String.append "" vs).
Proof.
  intros Hv. rewrite (insertChars_concat vs i _ Hv).
  by rewrite !concat_app.
Qed.

(** X17.  [insert(index, str)] puts the characters of [str] at [index]: in
    a reachable state whose root has no left children, with fresh distinct
    uids, when the call returns the index was in bounds, the new text is the
    old one with [str] put in at [index], [length] has grown by the length
    of [str], and the root still has no left children. *)
Theorem insert_puts_the_string_at_the_index (fuel : nat) (s : CTextLogn.t)
    (index : Z) (chars : list (string * string)) (s' : CTextLogn.t) :
  reachable s → rootFirst s →
  NoDup chars.*2 →
  (∀ u, u ∈ chars.*2 → CTextLogn.nodesByID s !! u = None) →
  Forall (λ c, String.length c = 1%nat) chars.*1 →
  CTextLogn.insert fuel s index chars = Ok s' →
  reachable s' ∧ rootFirst s'
  ∧ (chars ≠ [] → 0 ≤ index ≤ CTextLogn.length s)
  ∧ CTextLogn.length s' = CTextLogn.length s + Z.of_nat (length chars)
  ∧ ∃ n, ∀ fuel', (n ≤ fuel')%nat →
      ∃ str, CTextLogn.toString fuel' s = Ok str
             ∧ CTextLogn.toString fuel' s'
               = Ok (insertChars (Z.to_nat index)
                       (foldr String.append "" chars.*1) str).
Proof.
  intros Hr Hrf ND Hf Hc E.
  destruct (reachable_Ordered s Hr) as [t O].
  destruct (reachable_root s Hr) as [_ Hroot].
  destruct (insert_spec fuel chars s t index s' O Hrf Hroot ND Hf Hc E)
    as (t' & O' & Hrf' & Hi & Hr' & Ep).
  pose proof O as (I & _). pose proof O' as (I' & _).
  pose proof (length_pvalues s t I) as EL.
  pose proof (length_pvalues s' t' I') as EL'.
  assert (chars ≠ [] → (Z.to_nat index
            ≤ length (pvalues (CTextLogn.nodesByID s) (inorder t)))%nat) as Hi'.
  { intros Hne. specialize (Hi Hne). lia. }
  split_and!; [by apply Hr'|done|done| |].
  - rewrite EL', EL, Ep, !length_app, length_take, length_drop, length_fmap.
    destruct chars as [|c chars]; [simpl; lia|].
    specialize (Hi' ltac:(done)). lia.
  - destruct (toString_spec s t I) as (n1 & Hc1 & _).
    destruct (toString_spec s' t' I') as (n2 & Hc2 & _).
    exists (n1 `max` n2)%nat. intros fuel' Hfu.
    exists (text_of (CTextLogn.nodesByID s) (inorder t)). split.
    + apply (computes_enough _ _ _ fuel' Hc1). lia.
    + rewrite (computes_enough _ _ _ fuel' Hc2) by lia. f_equal.
      unfold text_of. rewrite Ep. apply insertChars_many.
      by eapply pvalues_chars.
Qed.

Lemma insert_puts_the_string_at_the_index_witness :
  reachable insert_xy_sample ∧ rootFirst insert_xy_sample
  ∧ ([("x", "06"); ("y", "07")] ≠ [] → 0 ≤ 2 ≤ CTextLogn.length six_edits_state)
  ∧ CTextLogn.length insert_xy_sample
    = CTextLogn.length six_edits_state + Z.of_nat 2
  ∧ ∃ n, ∀ fuel', (n ≤ fuel')%nat →
      ∃ str, CTextLogn.toString fuel' six_edits_state = Ok str
             ∧ CTextLogn.toString fuel' insert_xy_sample
               = Ok (insertChars (Z.to_nat 2)
                       (foldr String.append "" ["x"; "y"]) str).
Proof.
  apply (insert_puts_the_string_at_the_index 30 six_edits_state 2
           [("x", "06"); ("y", "07")] insert_xy_sample six_edits_reachable
           six_edits_rootFirst).
  - apply (bool_decide_unpack _). vm_compute. exact I.
  - intros u Hu. simpl in Hu.
    apply elem_of_cons in Hu as [->|Hu]; [vm_compute; reflexivity|].
    apply elem_of_cons in Hu as [->|Hu]; [vm_compute; reflexivity|].
    by apply elem_of_nil in Hu.
  - repeat constructor.
  - exact insert_xy_sample_run.
Defined.

(** X18.  The comment of [insertOne], "the next (possibly deleted) node ...
    is guaranteed to have no left children": in a reachable state, for a
    node [x] of the directory that has right children, [nextNode(x)]
    returns, given enough fuel, a node of the directory whose list of left
    children is empty. *)
Theorem next_of_a_node_with_right_children (s : CTextLogn.t) (x : string) :
  reachable s → x ∈ dom (CTextLogn.nodesByID s) →
  Node.rightChildren (CTextLogn.nodesByID s !!! x) ≠ [] →
  ∃ n y, (∀ fuel, (n ≤ fuel)%nat →
            CTextLogn.nextNode fuel (CTextLogn.nodesByID s) x = Ok y)
         ∧ y ∈ dom (CTextLogn.nodesByID s)
         ∧ Node.leftChildren (CTextLogn.nodesByID s !!! y) = [].
Proof.
  intros [t O]%reachable_Ordered Hx Hrc.
  pose proof O as (I & [f Ec] & _). pose proof I as [Ix Hdom _ _ _ _].
  destruct (Node.rightChildren (CTextLogn.nodesByID s !!! x)) as [|c cs] eqn:Er;
    [done|].
  destruct (canonical_successor f _ _ _ x c cs Ec) as (A & y & B & Et & Hl);
    [by apply Hdom|done|].
  destruct (nextNode_spec _ _ t A x (y :: B) Ix Et) as [n Hn].
  exists n, y. split_and!; [|apply Hdom; rewrite Et; set_solver|done].
  intros fuel Hf. by apply (computes_enough _ _ _ fuel Hn).
Qed.

Lemma next_of_a_node_with_right_children_witness :
  ∃ n y, (∀ fuel, (n ≤ fuel)%nat →
            CTextLogn.nextNode fuel (CTextLogn.nodesByID six_edits_state) "01"
            = Ok y)
         ∧ y ∈ dom (CTextLogn.nodesByID six_edits_state)
         ∧ Node.leftChildren (CTextLogn.nodesByID six_edits_state !!! y) = [].
Proof.
  apply (next_of_a_node_with_right_children six_edits_state "01"
           six_edits_reachable).
  - apply (bool_decide_unpack _). vm_compute. exact I.
  - vm_compute. discriminate.
Defined.

Definition true_walk_sample : list CTextLogn.TrueLine :=
  Eval vm_compute in
    match CTextLogn.printTrueTreeWalk 40 six_edits_state with
    | Ok log => log
    | _ => []
    end.

Lemma true_walk_sample_run :
  CTextLogn.printTrueTreeWalk 40 six_edits_state = Ok true_walk_sample.
Proof. vm_compute. reflexivity. Qed.

(** X19.  The two debugging walks print the same nodes in the same order:
    in a reachable state, when [printTrueTreeWalk] (the walk of the tree of
    the messages: left children, node, right children) returns, it has
    printed every node of the directory exactly once, and
    [printBalancedTreeWalk] (the in-order walk of the balanced tree)
    returns, given enough fuel, and prints the same ids, characters and
    presence flags in the same order. *)
Theorem the_two_walks_agree (fuel : nat) (s : CTextLogn.t)
    (log : list CTextLogn.TrueLine) :
  reachable s →
  CTextLogn.printTrueTreeWalk fuel s = Ok log →
  NoDup (CTextLogn.t_id <$> log)
  ∧ (∀ y, y ∈ CTextLogn.t_id <$> log ↔ y ∈ dom (CTextLogn.nodesByID s))
  ∧ ∃ n, ∀ fuel', (n ≤ fuel')%nat →
      ∃ log', CTextLogn.printBalancedTreeWalk fuel' s = Ok log'
              ∧ binfo <$> log' = tinfo <$> log.
Proof.
  intros [t O]%reachable_Ordered E.
  pose proof O as (I & [f Ec] & _).
  pose proof I as [(_ & _ & ND & _) Hdom Hid _ _ _].
  pose proof (printTrueTreeWalk_spec s f _ fuel log Ec E) as Hi.
  assert (CTextLogn.t_id <$> log = inorder t) as Eid.
  { transitivity ((λ p, p.1.1) <$> (tinfo <$> log)).
    { rewrite <- list_fmap_compose. done. }
    rewrite Hi, <- list_fmap_compose.
    rewrite <- (list_fmap_id (inorder t)) at 2.
    apply list_fmap_ext. intros i y Hy. simpl.
    apply Hid, Hdom. by eapply list_elem_of_lookup_2. }
  rewrite Eid. split_and!; [done..|].
  destruct (printBalancedTreeWalk_spec s t I) as [n Hn].
  exists n. intros fuel' Hf. eexists. split; [by apply Hn|].
  by rewrite binfo_blines, Hi.
Qed.

Lemma the_two_walks_agree_witness :
  NoDup (CTextLogn.t_id <$> true_walk_sample)
  ∧ (∀ y, y ∈ CTextLogn.t_id <$> true_walk_sample
          ↔ y ∈ dom (CTextLogn.nodesByID six_edits_state))
  ∧ ∃ n, ∀ fuel', (n ≤ fuel')%nat →
      ∃ log', CTextLogn.printBalancedTreeWalk fuel' six_edits_state = Ok log'
              ∧ binfo <$> log' = tinfo <$> true_walk_sample.
Proof.
  exact (the_two_walks_agree 40 six_edits_state true_walk_sample
           six_edits_reachable true_walk_sample_run).
Defined.

(** X20.  What the managers are for: in a reachable state, for every node
    of the directory, [getLeftmostDescendant] and [getRightmostDescendant]
    return, given enough fuel, and [leftSALM.getEnd] and [rightSALM.getEnd]
    of the node never return anything but these two descendants: they
    return them or they do not terminate. *)
Theorem managers_give_the_descendants (s : CTextLogn.t) (x : string) :
  reachable s → x ∈ dom (CTextLogn.nodesByID s) →
  ∃ n l r,
    (∀ fuel, (n ≤ fuel)%nat →
       CTextLogn.getLeftmostDescendant fuel (CTextLogn.nodesByID s) x = Ok l
       ∧ CTextLogn.getRightmostDescendant fuel (CTextLogn.nodesByID s) x = Ok r)
    ∧ (∀ fuel,
         SALM.getEnd fuel (CTextLogn.leftSALM s) x = Ok l
         ∨ SALM.getEnd fuel (CTextLogn.leftSALM s) x = OutOfFuel)
    ∧ (∀ fuel,
         SALM.getEnd fuel (CTextLogn.rightSALM s) x = Ok r
         ∨ SALM.getEnd fuel (CTextLogn.rightSALM s) x = OutOfFuel).
Proof.
  intros [t O]%reachable_Ordered Hx. by apply (getEnd_descendant s t).
Qed.

Lemma managers_give_the_descendants_witness :
  ∃ n l r,
    (∀ fuel, (n ≤ fuel)%nat →
       CTextLogn.getLeftmostDescendant fuel
         (CTextLogn.nodesByID six_edits_state) "00" = Ok l
       ∧ CTextLogn.getRightmostDescendant fuel
           (CTextLogn.nodesByID six_edits_state) "00" = Ok r)
    ∧ (∀ fuel,
         SALM.getEnd fuel (CTextLogn.leftSALM six_edits_state) "00" = Ok l
         ∨ SALM.getEnd fuel (CTextLogn.leftSALM six_edits_state) "00" = OutOfFuel)
    ∧ (∀ fuel,
         SALM.getEnd fuel (CTextLogn.rightSALM six_edits_state) "00" = Ok r
         ∨ SALM.getEnd fuel (CTextLogn.rightSALM six_edits_state) "00"
           = OutOfFuel).
Proof.
  apply (managers_give_the_descendants six_edits_state "00" six_edits_reachable).
  apply (bool_decide_unpack _). vm_compute. exact I.
Defined.

(** X21.  [checkSALMs] never throws in a reachable state, neither its
    "Wrong SALM ... descendant" error nor another one: it walks the whole
    tree and returns, or it does not terminate. *)
Theorem checkSALMs_never_throws (fuel : nat) (s : CTextLogn.t) :
  reachable s →
  CTextLogn.checkSALMs fuel s = Ok None
  ∨ CTextLogn.checkSALMs fuel s = OutOfFuel.
Proof.
  intros Hr. destruct (reachable_Ordered s Hr) as [t O].
  destruct (reachable_root s Hr) as [Hd _].
  apply (checkSALMs_loop_fine s t O); [done|simpl; lia|done].
Qed.

Lemma checkSALMs_never_throws_witness :
  CTextLogn.checkSALMs 60 abc_z_state = Ok None
  ∨ CTextLogn.checkSALMs 60 abc_z_state = OutOfFuel.
Proof.
  exact (checkSALMs_never_throws 60 abc_z_state abc_z_reachable).
Defined.

(** ** Convergence *)

(** X22.  "Insert node among its same-side siblings, in order by id": in a
    reachable state, for every node of the directory, each of its two lists
    of children is in strictly ascending order of the ids and holds exactly
    the nodes of the directory that name the node as their parent on that
    side; and the parent of a node of the directory is in the directory. *)
Theorem children_are_in_id_order (s : CTextLogn.t) (p : string) (side : bool) :
  reachable s → p ∈ dom (CTextLogn.nodesByID s) →
  StronglySorted (λ a b, String.ltb a b = true)
    (Node.children side (CTextLogn.nodesByID s !!! p))
  ∧ (∀ c, c ∈ Node.children side (CTextLogn.nodesByID s !!! p)
          ↔ c ∈ dom (CTextLogn.nodesByID s)
            ∧ Node.parent (CTextLogn.nodesByID s !!! c) = Some p
            ∧ Node.isLeftChild (CTextLogn.nodesByID s !!! c) = side)
  ∧ (∀ q, Node.parent (CTextLogn.nodesByID s !!! p) = Some q →
          q ∈ dom (CTextLogn.nodesByID s)).
Proof.
  intros [K _]%reachable_described Hp. split_and!.
  - by apply (kids_sorted _ K).
  - intros c. by apply (kids_in _ K).
  - intros q. by apply (kids_parent _ K).
Qed.

Lemma children_are_in_id_order_witness :
  StronglySorted (λ a b, String.ltb a b = true)
    (Node.children false (CTextLogn.nodesByID six_edits_state !!! "01"))
  ∧ (∀ c, c ∈ Node.children false (CTextLogn.nodesByID six_edits_state !!! "01")
          ↔ c ∈ dom (CTextLogn.nodesByID six_edits_state)
            ∧ Node.parent (CTextLogn.nodesByID six_edits_state !!! c) = Some "01"
            ∧ Node.isLeftChild (CTextLogn.nodesByID six_edits_state !!! c) = false)
  ∧ (∀ q, Node.parent (CTextLogn.nodesByID six_edits_state !!! "01") = Some q →
          q ∈ dom (CTextLogn.nodesByID six_edits_state)).
Proof.
  apply (children_are_in_id_order six_edits_state "01" false six_edits_reachable).
  apply (bool_decide_unpack _). vm_compute. exact I.
Defined.

Definition concurrent_xy : list NetworkMessage :=
  [ InsertMessage "x1" "00" false "x"; InsertMessage "y1" "00" false "y";
    DeleteMessage "03" ].

Definition concurrent_yx : list NetworkMessage :=
  [ DeleteMessage "03"; InsertMessage "y1" "00" false "y";
    InsertMessage "x1" "00" false "x" ].

Definition replica_xy : CTextLogn.t :=
  Eval vm_compute in
    match deliver 30 six_edits_state concurrent_xy with
    | Ok s => s
    | _ => CTextLogn.new
    end.

Definition replica_yx : CTextLogn.t :=
  Eval vm_compute in
    match deliver 30 six_edits_state concurrent_yx with
    | Ok s => s
    | _ => CTextLogn.new
    end.

Lemma replica_xy_run : deliver 30 six_edits_state concurrent_xy = Ok replica_xy.
Proof. vm_compute. reflexivity. Qed.

Lemma replica_yx_run : deliver 30 six_edits_state concurrent_yx = Ok replica_yx.
Proof. vm_compute. reflexivity. Qed.

(** X23.  Convergence.  Two replicas in the same reachable state that
    receive the same messages, each in an order in which every message is
    admissible when it arrives, and whose handlers return, end with the same
    directory (the same nodes with the same id, parent, side, character,
    presence and lists of children), the same length and the same text. *)
Theorem same_messages_same_text (fuel1 fuel2 : nat) (s : CTextLogn.t)
    (ms1 ms2 : list NetworkMessage) (s1 s2 : CTextLogn.t) :
  reachable s → ms1 ≡ₚ ms2 →
  deliver fuel1 s ms1 = Ok s1 → deliver fuel2 s ms2 = Ok s2 →
  dom (CTextLogn.nodesByID s1) = dom (CTextLogn.nodesByID s2)
  ∧ (∀ y, y ∈ dom (CTextLogn.nodesByID s1) →
       core (CTextLogn.nodesByID s1 !!! y) = core (CTextLogn.nodesByID s2 !!! y))
  ∧ CTextLogn.length s1 = CTextLogn.length s2
  ∧ ∃ n, ∀ fuel, (n ≤ fuel)%nat →
      ∃ str, CTextLogn.toString fuel s1 = Ok str
             ∧ CTextLogn.toString fuel s2 = Ok str.
Proof.
  intros Hr Hp E1 E2.
  destruct (deliver_converges fuel1 fuel2 s ms1 ms2 s1 s2 Hr Hp E1 E2)
    as (t1 & t2 & I1 & I2 & Ei & Hd & Hc).
  assert (pvalues (CTextLogn.nodesByID s2) (inorder t2)
          = pvalues (CTextLogn.nodesByID s1) (inorder t1)) as Epv.
  { rewrite <- Ei. apply pvalues_ext. intros y Hy%(inv_dom _ _ I1).
    specialize (Hc y Hy). unfold tpres, core in *. by simplify_eq. }
  split_and!; [done..| |].
  - by rewrite (length_pvalues s1 t1 I1), (length_pvalues s2 t2 I2), Epv.
  - destruct (toString_spec s1 t1 I1) as (n1 & Hc1 & _).
    destruct (toString_spec s2 t2 I2) as (n2 & Hc2 & _).
    exists (n1 `max` n2)%nat. intros fuel Hf.
    exists (text_of (CTextLogn.nodesByID s1) (inorder t1)). split.
    + apply (computes_enough _ _ _ fuel Hc1). lia.
    + rewrite (computes_enough _ _ _ fuel Hc2) by lia. f_equal.
      unfold text_of. by rewrite Epv.
Qed.

Lemma same_messages_same_text_witness :
  dom (CTextLogn.nodesByID replica_xy) = dom (CTextLogn.nodesByID replica_yx)
  ∧ (∀ y, y ∈ dom (CTextLogn.nodesByID replica_xy) →
       core (CTextLogn.nodesByID replica_xy !!! y)
       = core (CTextLogn.nodesByID replica_yx !!! y))
  ∧ CTextLogn.length replica_xy = CTextLogn.length replica_yx
  ∧ ∃ n, ∀ fuel, (n ≤ fuel)%nat →
      ∃ str, CTextLogn.toString fuel replica_xy = Ok str
             ∧ CTextLogn.toString fuel replica_yx = Ok str.
Proof.
  apply (same_messages_same_text 30 30 six_edits_state concurrent_xy
           concurrent_yx replica_xy replica_yx six_edits_reachable).
  - unfold concurrent_xy, concurrent_yx.
    apply (Permutation_rev [_; _; _]).
  - exact replica_xy_run.
  - exact replica_yx_run.
Defined.

(** ** The ground truth *)

Definition nine_messages : list NetworkMessage :=
  six_edits_messages ++ concurrent_xy.

Definition truth_sample : GroundTruth.t :=
  Eval vm_compute in
    match deliverG 30 GroundTruth.new nine_messages with
    | Ok g => g
    | _ => GroundTruth.new
    end.

Definition logn_sample : CTextLogn.t :=
  Eval vm_compute in
    match deliver 30 CTextLogn.new nine_messages with
    | Ok s => s
    | _ => CTextLogn.new
    end.

Lemma truth_sample_run : deliverG 30 GroundTruth.new nine_messages = Ok truth_sample.
Proof. vm_compute. reflexivity. Qed.

Lemma logn_sample_run : deliver 30 CTextLogn.new nine_messages = Ok logn_sample.
Proof. vm_compute. reflexivity. Qed.

Lemma deliver_both fuel fuel' ms (g : GroundTruth.t) s :
  deliverG fuel GroundTruth.new ms = Ok g →
  deliver fuel' CTextLogn.new ms = Ok s →
  ∃ t, Ordered s t ∧ Kids (CTextLogn.nodesByID s)
       ∧ sim g (CTextLogn.nodesByID s) ∧ gcounted g.
Proof.
  intros EG EC.
  destruct (deliver_sim fuel fuel' ms GroundTruth.new g CTextLogn.new s)
    as (Hr & Hs & Hcnt); try done.
  - apply reachable_new.
  - apply sim_new.
  - apply gcounted_new.
  - destruct (reachable_Ordered s Hr) as [t O].
    destruct (reachable_described s Hr) as [K _]. by exists t.
Qed.

(** X24.  [CTextLogn] shows what the ground truth shows: started empty and
    given the same messages in the same order, when the handlers of both
    return, the two have the same length, the count of every node of the
    ground truth is the number of present nodes among the node and its
    children's counts, and [toString] of both returns, given enough fuel,
    the same text. *)
Theorem ground_truth_shows_the_same_text (fuel fuel' : nat)
    (ms : list NetworkMessage) (g : GroundTruth.t) (s : CTextLogn.t) :
  deliverG fuel GroundTruth.new ms = Ok g →
  deliver fuel' CTextLogn.new ms = Ok s →
  GroundTruth.length g = CTextLogn.length s
  ∧ (∀ y, y ∈ dom g →
       GNode.count (g !!! y)
       = (if GNode.isPresent (g !!! y) then 1 else 0)
         + foldr (λ c acc, GNode.count (g !!! c) + acc) 0
             (GNode.leftChildren (g !!! y) ++ GNode.rightChildren (g !!! y)))
  ∧ ∃ n, ∀ fuel0, (n ≤ fuel0)%nat →
      ∃ str, GroundTruth.toString fuel0 g = Ok str
             ∧ CTextLogn.toString fuel0 s = Ok str.
Proof.
  intros EG EC.
  destruct (deliver_both fuel fuel' ms g s EG EC) as (t & O & K & Hs & Hcnt).
  destruct (gtoString_spec g s t O K Hs Hcnt) as (El & n1 & Hg).
  pose proof O as (I & _).
  destruct (toString_spec s t I) as (n2 & Hc & _).
  split_and!; [done|exact Hcnt|].
  exists (n1 `max` n2)%nat. intros fuel0 Hf. eexists. split.
  - apply Hg. lia.
  - apply (computes_enough _ _ _ fuel0 Hc). lia.
Qed.

Lemma ground_truth_shows_the_same_text_witness :
  GroundTruth.length truth_sample = CTextLogn.length logn_sample
  ∧ (∀ y, y ∈ dom truth_sample →
       GNode.count (truth_sample !!! y)
       = (if GNode.isPresent (truth_sample !!! y) then 1 else 0)
         + foldr (λ c acc, GNode.count (truth_sample !!! c) + acc) 0
             (GNode.leftChildren (truth_sample !!! y)
              ++ GNode.rightChildren (truth_sample !!! y)))
  ∧ ∃ n, ∀ fuel0, (n ≤ fuel0)%nat →
      ∃ str, GroundTruth.toString fuel0 truth_sample = Ok str
             ∧ CTextLogn.toString fuel0 logn_sample = Ok str.
Proof.
  exact (ground_truth_shows_the_same_text 30 30 nine_messages truth_sample
           logn_sample truth_sample_run logn_sample_run).
Defined.

Definition one_more_message : NetworkMessage := InsertMessage "zz" "02" false "q".

Definition truth_step : GroundTruth.t * option Event :=
  Eval vm_compute in
    match GroundTruth.receivePrimitive 30 truth_sample one_more_message with
    | Ok p => p
    | _ => (GroundTruth.new, None)
    end.

Definition logn_step : CTextLogn.t * option Event :=
  Eval vm_compute in
    match CTextLogn.receivePrimitive 30 logn_sample one_more_message with
    | Ok p => p
    | _ => (CTextLogn.new, None)
    end.

(** X25.  The two emit the same events: started empty and given the same
    messages in the same order, when the handlers of both return for one
    more admissible message, the event of the ground truth ([Insert] with
    the index of the new node, [Delete] with the index and the character of
    the node, or none for a node deleted before) is the event of
    [CTextLogn]. *)
Theorem ground_truth_emits_the_same_events (fuel fuel' f1 f2 : nat)
    (ms : list NetworkMessage) (m : NetworkMessage)
    (g g' : GroundTruth.t) (s s' : CTextLogn.t) (ev ev' : option Event) :
  deliverG fuel GroundTruth.new ms = Ok g →
  deliver fuel' CTextLogn.new ms = Ok s →
  admissible s m →
  GroundTruth.receivePrimitive f1 g m = Ok (g', ev) →
  CTextLogn.receivePrimitive f2 s m = Ok (s', ev') →
  ev = ev'.
Proof.
  intros EG EC Ha E1 E2.
  destruct (deliver_both fuel fuel' ms g s EG EC) as (t & O & K & Hs & Hcnt).
  pose proof (deliver_reachable fuel' ms _ _ reachable_new EC) as Hr.
  exact (events_agree f1 f2 g g' s m ev s' ev' Hr Hs Hcnt Ha E1 E2).
Qed.

Lemma ground_truth_emits_the_same_events_witness :
  truth_step.2 = logn_step.2.
Proof.
  apply (ground_truth_emits_the_same_events 30 30 30 30 nine_messages
           one_more_message truth_sample truth_step.1 logn_sample logn_step.1).
  - exact truth_sample_run.
  - exact logn_sample_run.
  - apply (bool_decide_unpack _). vm_compute. exact I.
  - vm_compute. reflexivity.
  - vm_compute. reflexivity.
Defined.

(** X26.  Positions mean the same in both: started empty and given the same
    messages in the same order, [getPosition(i)] of the ground truth and of
    [CTextLogn] return, given enough fuel, the same position or throw the
    same error, and so do [findPosition(p)] of the two. *)
Theorem ground_truth_positions (fuel fuel' : nat) (ms : list NetworkMessage)
    (g : GroundTruth.t) (s : CTextLogn.t) (i : Z) (p : string) :
  deliverG fuel GroundTruth.new ms = Ok g →
  deliver fuel' CTextLogn.new ms = Ok s →
  ∃ n r r', r ≠ OutOfFuel ∧ r' ≠ OutOfFuel
    ∧ ∀ fuel0, (n ≤ fuel0)%nat →
        GroundTruth.getPosition fuel0 g i = r
        ∧ CTextLogn.getPosition fuel0 s i = r
        ∧ GroundTruth.findPosition fuel0 g p = r'
        ∧ CTextLogn.findPosition fuel0 s p = r'.
Proof.
  intros EG EC.
  destruct (deliver_both fuel fuel' ms g s EG EC) as (t & O & K & Hs & Hcnt).
  pose proof (deliver_reachable fuel' ms _ _ reachable_new EC) as Hr.
  destruct (reachable_described s Hr) as [_ [ms0 D]].
  destruct (d_root _ _ D) as [Hroot _].
  destruct (getPosition_agrees g s t O K Hs Hcnt i) as (n1 & r & H1 & Hr1).
  destruct (findPosition_agrees g s t O K Hs Hcnt Hroot p) as (n2 & r' & H2 & Hr2).
  exists (n1 `max` n2)%nat, r, r'. split_and!; [done..|].
  intros fuel0 Hf. destruct (Hr1 fuel0 ltac:(lia)) as [-> ->].
  by destruct (Hr2 fuel0 ltac:(lia)) as [-> ->].
Qed.

Lemma ground_truth_positions_witness :
  ∃ n r r', r ≠ OutOfFuel ∧ r' ≠ OutOfFuel
    ∧ ∀ fuel0, (n ≤ fuel0)%nat →
        GroundTruth.getPosition fuel0 truth_sample 3 = r
        ∧ CTextLogn.getPosition fuel0 logn_sample 3 = r
        ∧ GroundTruth.findPosition fuel0 truth_sample "01" = r'
        ∧ CTextLogn.findPosition fuel0 logn_sample "01" = r'.
Proof.
  exact (ground_truth_positions 30 30 nine_messages truth_sample logn_sample
           3 "01" truth_sample_run logn_sample_run).
Defined.

(** X27.  A local edit sends the same message from both: started empty and
    given the same messages in the same order, [insertOne(index, char)]
    with the same new id builds, given enough fuel, the same insert message
    in the ground truth (parent: the left origin, or the leftmost
    descendant of its first right child) and in [CTextLogn] (parent: the
    left origin, or [nextNode] of it), or throws the same error in both;
    and [deleteOne(i)] builds the same delete message or throws the same
    error. *)
Theorem ground_truth_sends_the_same_messages (fuel fuel' : nat)
    (ms : list NetworkMessage) (g : GroundTruth.t) (s : CTextLogn.t)
    (index i : Z) (char uid : string) :
  deliverG fuel GroundTruth.new ms = Ok g →
  deliver fuel' CTextLogn.new ms = Ok s →
  ∃ n r r', r ≠ OutOfFuel ∧ r' ≠ OutOfFuel
    ∧ ∀ fuel0, (n ≤ fuel0)%nat →
        GroundTruth.insertOne_message fuel0 g index char uid = r
        ∧ CTextLogn.insertOne_message fuel0 s index char uid = r
        ∧ GroundTruth.deleteOne_message fuel0 g i = r'
        ∧ CTextLogn.deleteOne_message fuel0 s i = r'.
Proof.
  intros EG EC.
  destruct (deliver_both fuel fuel' ms g s EG EC) as (t & O & K & Hs & Hcnt).
  destruct (insertOne_message_agrees g s t O K Hs Hcnt index char uid)
    as (n1 & r & H1 & Hr1).
  destruct (deleteOne_message_agrees g s t O K Hs Hcnt i) as (n2 & r' & H2 & Hr2).
  exists (n1 `max` n2)%nat, r, r'. split_and!; [done..|].
  intros fuel0 Hf. destruct (Hr1 fuel0 ltac:(lia)) as [-> ->].
  by destruct (Hr2 fuel0 ltac:(lia)) as [-> ->].
Qed.

Lemma ground_truth_sends_the_same_messages_witness :
  ∃ n r r', r ≠ OutOfFuel ∧ r' ≠ OutOfFuel
    ∧ ∀ fuel0, (n ≤ fuel0)%nat →
        GroundTruth.insertOne_message fuel0 truth_sample 2 "q" "zz" = r
        ∧ CTextLogn.insertOne_message fuel0 logn_sample 2 "q" "zz" = r
        ∧ GroundTruth.deleteOne_message fuel0 truth_sample 4 = r'
        ∧ CTextLogn.deleteOne_message fuel0 logn_sample 4 = r'.
Proof.
  exact (ground_truth_sends_the_same_messages 30 30 nine_messages truth_sample
           logn_sample 2 4 "q" "zz" truth_sample_run logn_sample_run).
Defined.
